(** * ConcurrentDoublyLinkedList: a shallow embedding

    The development has two parts, following the two translation units of the
    repository:

    - [RMWLock] embeds [ReadMayWriteWriteLock.cpp].  Every public method of the
      lock runs under [internalMutex], and a condition wait gives the mutex up
      atomically, so each method is a sequence of critical sections.  A
      method is embedded as its entry section ([*_enter]) and, when it can
      sleep on a condition variable, the section that runs after a wake-up
      ([*_resume]).
    - [CDLL] embeds [ConcurrentDoublyLinkedList.cpp] for one thread running
      the operations one after the other: nodes live in a heap indexed by
      pointers, every node carries its own lock, and every lock call of the
      list code goes through the embedded lock.

    [LockProofs] and [ListProofs] settle the statements of the
    specification.  [LockLaws] and [ListLaws] prove further properties of
    the code: the lock as a queue of sleeping threads and as a lock of the
    threads that hold it, the list as a sorted table, its destructor, its
    locking discipline, what [InsertTail] and [Search] do when another
    thread runs a call at a point where they hold no lock, and [Search] on
    a list whose nodes other threads hold in READ or MAY_WRITE. *)

From Stdlib Require Import ZArith Bool Ascii Lia List Sorted.
From stdpp Require Import base tactics option list sorting.
Import ListNotations.

Module RMWLock.

(** ** Data model (ReadMayWriteWriteLock.h) *)

(** [enum Operation {READ, MAY_WRITE, WRITE}] *)
Inductive Operation := READ | MAY_WRITE | WRITE.

Definition Operation_eqb (a b : Operation) : bool :=
  match a, b with
  | READ, READ | MAY_WRITE, MAY_WRITE | WRITE, WRITE => true
  | _, _ => false
  end.

(** [std::thread::id]; the default-constructed value [thread::id()], which
    represents no thread, is [None] of [option ThreadId]. *)
Definition ThreadId := nat.

(** [shared_ptr<condition_variable>]: only the identity of the condition
    variable is observed by the lock, so a pointer is its address. *)
Definition ConditionPtr := nat.

(** [tuple<ConditionPtr, Operation, unsigned int>] *)
Record ConditionTuple := mkTuple {
  cond : ConditionPtr;
  oper : Operation;
  counter : Z
}.

(** [unsigned int] arithmetic is modulo 2^32. *)
Definition UINT_MOD : Z := 2 ^ 32.
Definition uint_incr (n : Z) : Z := ((n + 1) mod UINT_MOD)%Z.
Definition uint_decr (n : Z) : Z := ((n - 1) mod UINT_MOD)%Z.

Record Lock := mkLock {
  threadQueue : list ConditionTuple;
  readersNumber : Z;
  isWriterHolding : bool;
  mayWriterThreadId : option ThreadId
}.

Definition set_threadQueue (q : list ConditionTuple) (l : Lock) : Lock :=
  mkLock q (readersNumber l) (isWriterHolding l) (mayWriterThreadId l).
Definition set_readersNumber (n : Z) (l : Lock) : Lock :=
  mkLock (threadQueue l) n (isWriterHolding l) (mayWriterThreadId l).
Definition set_isWriterHolding (b : bool) (l : Lock) : Lock :=
  mkLock (threadQueue l) (readersNumber l) b (mayWriterThreadId l).
Definition set_mayWriterThreadId (t : option ThreadId) (l : Lock) : Lock :=
  mkLock (threadQueue l) (readersNumber l) (isWriterHolding l) t.

(** The constructor: [readersNumber(0), isWriterHolding(false)], an empty
    queue and a default-constructed thread id. *)
Definition new_lock : Lock := mkLock [] 0 false None.

(** An [assert] that fails aborts the call: the method returns nothing. *)
Definition assert (b : bool) : option unit := if b then Some tt else None.

Definition tid_eqb (a b : option ThreadId) : bool :=
  match a, b with
  | None, None => true
  | Some x, Some y => Nat.eqb x y
  | _, _ => false
  end.

(** ** Private service methods *)

Definition CanReaderAcquireLock (l : Lock) : bool :=
  negb (isWriterHolding l).

Definition CanMayWriterAcquireLock (l : Lock) : bool :=
  tid_eqb (mayWriterThreadId l) None && CanReaderAcquireLock l.

Definition CanWriterAcquireLock (l : Lock) : bool :=
  (readersNumber l =? 0)%Z && CanMayWriterAcquireLock l.

Definition CanAcquireLock (operation : Operation) (l : Lock) : bool :=
  match operation with
  | READ => CanReaderAcquireLock l
  | MAY_WRITE => CanMayWriterAcquireLock l
  | WRITE => CanWriterAcquireLock l
  end.

(** [make_shared<condition_variable>()] returns an address that no live
    condition variable has; every live one is referenced from the queue. *)
Definition fresh_cond (q : list ConditionTuple) : ConditionPtr :=
  S (list_max (map cond q)).

Definition InsertConditionTuple (operation : Operation) (isVIP : bool)
    (l : Lock) : Lock :=
  let conditionTuple := mkTuple (fresh_cond (threadQueue l)) operation 1 in
  if isVIP then set_threadQueue (conditionTuple :: threadQueue l) l
  else set_threadQueue (threadQueue l ++ [conditionTuple]) l.

(** The part of [ShouldThreadWait] after the [switch]. *)
Definition ShouldThreadWait_finish (operation : Operation)
    (shouldThreadWait : bool) (l : Lock) : option (bool * Lock) :=
  Some (shouldThreadWait,
        if shouldThreadWait then InsertConditionTuple operation false l else l).

(** The [default:] label of the [switch], which [case 1] falls through to. *)
Definition ShouldThreadWait_default (operation : Operation)
    (shouldThreadWait : bool) (l : Lock) : option (bool * Lock) :=
  if Operation_eqb operation READ && shouldThreadWait then
    match last (threadQueue l) with
    | None => None (* [back()] of an empty list *)
    | Some backTuple =>
        if Operation_eqb (oper backTuple) READ then
          _ ← assert (0 <? counter backTuple)%Z;
          Some (shouldThreadWait,
                set_threadQueue
                  (removelast (threadQueue l) ++
                   [mkTuple (cond backTuple) (oper backTuple)
                            (uint_incr (counter backTuple))]) l)
        else ShouldThreadWait_finish operation shouldThreadWait l
    end
  else ShouldThreadWait_finish operation shouldThreadWait l.

Definition ShouldThreadWait (operation : Operation) (l : Lock)
    : option (bool * Lock) :=
  match threadQueue l with
  | [] =>
      ShouldThreadWait_finish operation (negb (CanAcquireLock operation l)) l
  | [front] =>
      ShouldThreadWait_default operation
        (negb (Operation_eqb operation READ)
         || negb (Operation_eqb (oper front) READ)
         || negb (CanAcquireLock operation l)) l
  | _ => ShouldThreadWait_default operation true l
  end.

(** [TryNotifyingNext] changes no field; its effect is the condition
    variable it signals, if any. *)
Definition TryNotifyingNext (l : Lock) : option ConditionPtr :=
  match threadQueue l with
  | [] => None
  | frontTuple :: _ =>
      if CanAcquireLock (oper frontTuple) l then Some (cond frontTuple)
      else None
  end.

(** What a critical section of an acquiring method ends with: either the
    method goes on (and may have signalled a condition variable), or the
    thread sleeps on a condition variable with the mutex released. *)
Inductive WaitResult :=
| Proceed (l : Lock) (notified : option ConditionPtr)
| Sleep (l : Lock) (conditionPtr : ConditionPtr).

(** [Wait], from the wake-up on: the loop test, and the code after the loop
    when the test lets the thread through. *)
Definition Wait_resume (conditionPtr : ConditionPtr) (operation : Operation)
    (l : Lock) : option WaitResult :=
  match threadQueue l with
  | [] => None (* [front()] of an empty list *)
  | frontTuple :: rest =>
      if negb (Nat.eqb (cond frontTuple) conditionPtr)
         || negb (CanAcquireLock operation l)
      then Some (Sleep l conditionPtr)
      else
        let pop (_ : unit) :=
          let l' := set_threadQueue rest l in
          Some (Proceed l'
                  (if negb (Operation_eqb operation WRITE)
                   then TryNotifyingNext l' else None)) in
        if Operation_eqb operation READ then
          _ ← assert (0 <? counter frontTuple)%Z;
          let readTupleCounter := uint_decr (counter frontTuple) in
          if negb (readTupleCounter =? 0)%Z then
            Some (Proceed
                    (set_threadQueue
                       (mkTuple (cond frontTuple) (oper frontTuple)
                                readTupleCounter :: rest) l) None)
          else pop tt
        else pop tt
  end.

(** [Wait], up to the first [conditionPtr->wait(lock)]. *)
Definition Wait_enter (operation : Operation) (l : Lock)
    : option WaitResult :=
  '(shouldThreadWait, l') ← ShouldThreadWait operation l;
  if negb shouldThreadWait then Some (Proceed l' None)
  else
    backTuple ← last (threadQueue l');
    Some (Sleep l' (cond backTuple)).

(** ** Public methods *)

(** The statements of [LockRead], [LockMayWrite] and [LockWrite] that follow
    the call of [Wait]. *)
Definition Lock_after_Wait (self : ThreadId) (operation : Operation)
    (l : Lock) : option Lock :=
  match operation with
  | READ => Some (set_readersNumber (uint_incr (readersNumber l)) l)
  | MAY_WRITE =>
      let l1 := set_readersNumber (uint_incr (readersNumber l)) l in
      _ ← assert (tid_eqb (mayWriterThreadId l1) None);
      Some (set_mayWriterThreadId (Some self) l1)
  | WRITE =>
      _ ← assert (negb (isWriterHolding l));
      Some (set_isWriterHolding true l)
  end.

Definition after_Wait (self : ThreadId) (operation : Operation)
    (r : WaitResult) : option WaitResult :=
  match r with
  | Proceed l n => l' ← Lock_after_Wait self operation l; Some (Proceed l' n)
  | Sleep l c => Some (Sleep l c)
  end.

(** [LockRead] is [Lock_enter self READ], and so on. *)
Definition Lock_enter (self : ThreadId) (operation : Operation) (l : Lock)
    : option WaitResult :=
  r ← Wait_enter operation l; after_Wait self operation r.

Definition Lock_resume (self : ThreadId) (conditionPtr : ConditionPtr)
    (operation : Operation) (l : Lock) : option WaitResult :=
  r ← Wait_resume conditionPtr operation l; after_Wait self operation r.

Definition LockRead_enter (self : ThreadId) := Lock_enter self READ.
Definition LockMayWrite_enter (self : ThreadId) := Lock_enter self MAY_WRITE.
Definition LockWrite_enter (self : ThreadId) := Lock_enter self WRITE.

(** The last two statements of [UpgradeLock]. *)
Definition UpgradeLock_finish (l : Lock) : option Lock :=
  _ ← assert (negb (isWriterHolding l));
  Some (set_isWriterHolding true l).

Definition UpgradeLock_enter (self : ThreadId) (l : Lock)
    : option WaitResult :=
  _ ← assert (0 <? readersNumber l)%Z;
  let l1 := set_readersNumber (uint_decr (readersNumber l)) l in
  _ ← assert (tid_eqb (mayWriterThreadId l1) (Some self));
  let l2 := set_mayWriterThreadId None l1 in
  if negb (CanWriterAcquireLock l2) then
    let l3 := InsertConditionTuple WRITE true l2 in
    frontTuple ← head (threadQueue l3);
    Some (Sleep l3 (cond frontTuple))
  else
    l3 ← UpgradeLock_finish l2; Some (Proceed l3 None).

(** [UpgradeLock] after a wake-up: the loop only tests
    [CanWriterAcquireLock], then the front of the queue is popped. *)
Definition UpgradeLock_resume (conditionPtr : ConditionPtr) (l : Lock)
    : option WaitResult :=
  if negb (CanWriterAcquireLock l) then Some (Sleep l conditionPtr)
  else
    match threadQueue l with
    | [] => None (* [pop_front()] of an empty list *)
    | _ :: rest =>
        l' ← UpgradeLock_finish (set_threadQueue rest l);
        Some (Proceed l' None)
    end.

Definition ReleaseSharedLock (self : ThreadId) (l : Lock)
    : option (Lock * option ConditionPtr) :=
  _ ← assert (0 <? readersNumber l)%Z;
  let l1 := set_readersNumber (uint_decr (readersNumber l)) l in
  if tid_eqb (mayWriterThreadId l1) (Some self) then
    let l2 := set_mayWriterThreadId None l1 in
    Some (l2, TryNotifyingNext l2)
  else if (0 <? readersNumber l1)%Z then Some (l1, None)
  else Some (l1, TryNotifyingNext l1).

Definition ReleaseExclusiveLock (l : Lock)
    : option (Lock * option ConditionPtr) :=
  _ ← assert (isWriterHolding l);
  let l1 := set_isWriterHolding false l in
  Some (l1, cond <$> head (threadQueue l1)).

(** ** The lock as a transition system

    One transition is one critical section run by some thread: the entry
    section of a method, or the section a sleeping thread runs when it wakes
    up.  Wake-ups can be spurious, so a wake-up transition is possible at any
    time and for any condition variable. *)
Inductive lock_step (l : Lock) : Lock -> Prop :=
| step_Lock_enter self operation r :
    Lock_enter self operation l = Some r ->
    lock_step l (match r with Proceed l' _ | Sleep l' _ => l' end)
| step_Lock_resume self conditionPtr operation r :
    Lock_resume self conditionPtr operation l = Some r ->
    lock_step l (match r with Proceed l' _ | Sleep l' _ => l' end)
| step_UpgradeLock_enter self r :
    UpgradeLock_enter self l = Some r ->
    lock_step l (match r with Proceed l' _ | Sleep l' _ => l' end)
| step_UpgradeLock_resume conditionPtr r :
    UpgradeLock_resume conditionPtr l = Some r ->
    lock_step l (match r with Proceed l' _ | Sleep l' _ => l' end)
| step_ReleaseSharedLock self l' n :
    ReleaseSharedLock self l = Some (l', n) -> lock_step l l'
| step_ReleaseExclusiveLock l' n :
    ReleaseExclusiveLock l = Some (l', n) -> lock_step l l'.

Inductive lock_reachable : Lock -> Prop :=
| reach_new : lock_reachable new_lock
| reach_step l l' : lock_reachable l -> lock_step l l' -> lock_reachable l'.

(** ** Predicates on lock states *)

(** A writer excludes readers and the may-writer. *)
Definition lock_inv (l : Lock) : Prop :=
  isWriterHolding l = true ->
  readersNumber l = 0%Z /\ mayWriterThreadId l = None.

(** ** The lock and the threads that sleep on it

    A thread that sleeps in [Wait] or in [UpgradeLock] holds a reference to
    the condition variable it waits on. *)
Inductive Pending :=
| InWait (conditionPtr : ConditionPtr) (operation : Operation)
| InUpgradeLock (conditionPtr : ConditionPtr).

Record System := mkSystem {
  the_lock : Lock;
  sleeping : list (ThreadId * Pending)
}.

Definition awake (t : ThreadId) (S : System) : Prop :=
  forall p, ~ In (t, p) (sleeping S).

Definition wake (t : ThreadId) (sl : list (ThreadId * Pending))
    : list (ThreadId * Pending) :=
  List.filter (fun tp => negb (Nat.eqb (fst tp) t)) sl.

(** What a critical section did for the thread that ran it. *)
Inductive Outcome :=
| Acquired (operation : Operation)
| Slept
| Released.

(** One critical section of thread [t]. *)
Inductive sys_step (S : System) (t : ThreadId) : Outcome -> System -> Prop :=
| sys_enter_proceed op l' n :
    awake t S ->
    Lock_enter t op (the_lock S) = Some (Proceed l' n) ->
    sys_step S t (Acquired op) (mkSystem l' (sleeping S))
| sys_enter_sleep op l' c :
    awake t S ->
    Lock_enter t op (the_lock S) = Some (Sleep l' c) ->
    sys_step S t Slept (mkSystem l' ((t, InWait c op) :: sleeping S))
| sys_resume_proceed c op l' n :
    In (t, InWait c op) (sleeping S) ->
    Lock_resume t c op (the_lock S) = Some (Proceed l' n) ->
    sys_step S t (Acquired op) (mkSystem l' (wake t (sleeping S)))
| sys_resume_sleep c op l' c' :
    In (t, InWait c op) (sleeping S) ->
    Lock_resume t c op (the_lock S) = Some (Sleep l' c') ->
    sys_step S t Slept (mkSystem l' (sleeping S))
| sys_upgrade_proceed l' n :
    awake t S ->
    UpgradeLock_enter t (the_lock S) = Some (Proceed l' n) ->
    sys_step S t (Acquired WRITE) (mkSystem l' (sleeping S))
| sys_upgrade_sleep l' c :
    awake t S ->
    UpgradeLock_enter t (the_lock S) = Some (Sleep l' c) ->
    sys_step S t Slept (mkSystem l' ((t, InUpgradeLock c) :: sleeping S))
| sys_upgrade_resume_proceed c l' n :
    In (t, InUpgradeLock c) (sleeping S) ->
    UpgradeLock_resume c (the_lock S) = Some (Proceed l' n) ->
    sys_step S t (Acquired WRITE) (mkSystem l' (wake t (sleeping S)))
| sys_upgrade_resume_sleep c l' c' :
    In (t, InUpgradeLock c) (sleeping S) ->
    UpgradeLock_resume c (the_lock S) = Some (Sleep l' c') ->
    sys_step S t Slept (mkSystem l' (sleeping S))
| sys_release_shared l' n :
    awake t S ->
    ReleaseSharedLock t (the_lock S) = Some (l', n) ->
    sys_step S t Released (mkSystem l' (sleeping S))
| sys_release_exclusive l' n :
    awake t S ->
    ReleaseExclusiveLock (the_lock S) = Some (l', n) ->
    sys_step S t Released (mkSystem l' (sleeping S)).

(** A run of critical sections of threads other than [u], with what each
    one did. *)
Inductive run_others (u : ThreadId) : System -> list Outcome -> System -> Prop :=
| run_others_nil S : run_others u S [] S
| run_others_cons S t o S' os S'' :
    t <> u -> sys_step S t o S' -> run_others u S' os S'' ->
    run_others u S (o :: os) S''.

(** Every sleeping thread is queued: it sleeps in [Wait] on the condition
    variable of an entry of the queue. *)
Definition all_queued (S : System) : Prop :=
  forall t p, In (t, p) (sleeping S) ->
    exists c op, p = InWait c op /\ In c (map cond (threadQueue (the_lock S))).

(** Thread [u] sleeps in [UpgradeLock] on [c], its entry is at the front of
    the queue, and the other sleeping threads are queued behind it. *)
Definition vip_inv (u : ThreadId) (c : ConditionPtr) (S : System) : Prop :=
  (exists q, threadQueue (the_lock S) = mkTuple c WRITE 1 :: q /\
             ~ In c (map cond q)) /\
  mayWriterThreadId (the_lock S) = None /\
  isWriterHolding (the_lock S) = false /\
  (forall t p, In (t, p) (sleeping S) -> t <> u ->
     exists c' op, p = InWait c' op /\ c' <> c).

(** ** Example states *)

(** A writer held the lock, a reader queued up, the writer released. *)
Definition one_reader_queued : Lock := mkLock [mkTuple 1 READ 1] 0 false None.

(** Thread 1 holds the lock in MAY_WRITE together with one reader, and
    thread 3 sleeps in [LockWrite]. *)
Definition may_writer_and_reader : System :=
  mkSystem (mkLock [mkTuple 1 WRITE 1] 2 false (Some 1)) [(3, InWait 1 WRITE)].

(** ** Notions for the laws of the lock *)

(** The counters of the queue are positive and the count of readers leaves
    room for one more. *)
Definition positive_counters (l : Lock) : Prop :=
  Forall (fun e => (0 < counter e)%Z) (threadQueue l).

Definition room_for_reader (l : Lock) : Prop :=
  (0 <= readersNumber l < UINT_MOD - 1)%Z.

(** The release that goes with an acquisition. *)
Definition release (self : ThreadId) (operation : Operation) (l : Lock)
    : option (Lock * option ConditionPtr) :=
  match operation with
  | READ | MAY_WRITE => ReleaseSharedLock self l
  | WRITE => ReleaseExclusiveLock l
  end.

(** The lock a critical section leaves, whatever it ends with. *)
Definition lock_of (r : WaitResult) : Lock :=
  match r with Proceed l _ | Sleep l _ => l end.

(** Who waits and for what, in the order of the queue. *)
Definition waiting (l : Lock) : list (ConditionPtr * Operation) :=
  map (fun e => (cond e, oper e)) (threadQueue l).

(** ** The queue and the threads that sleep *)

(** The condition variable a sleeping thread waits on, and the mode it
    waits for. *)
Definition pending_cond (p : Pending) : ConditionPtr :=
  match p with InWait c _ | InUpgradeLock c => c end.

Definition pending_oper (p : Pending) : Operation :=
  match p with InWait _ op => op | InUpgradeLock _ => WRITE end.

(** The number of threads that sleep on [c]. *)
Definition sleepers_on (c : ConditionPtr) (sl : list (ThreadId * Pending))
    : nat :=
  length (List.filter (fun tp => Nat.eqb (pending_cond (snd tp)) c) sl).

(** The entries of the queue have condition variables of their own, the
    counter of an entry is the number of threads that sleep on its condition
    variable, which is one for an entry that is not a READ entry, and every
    thread that sleeps waits on the condition variable of an entry of its
    mode. *)
Definition queue_matches_sleepers (St : System) : Prop :=
  List.NoDup (map cond (threadQueue (the_lock St))) /\
  (forall e, In e (threadQueue (the_lock St)) ->
     (0 < counter e)%Z /\
     counter e = Z.of_nat (sleepers_on (cond e) (sleeping St)) /\
     (oper e <> READ -> counter e = 1%Z)) /\
  (forall t p, In (t, p) (sleeping St) ->
     exists e, In e (threadQueue (the_lock St)) /\
               cond e = pending_cond p /\ oper e = pending_oper p).

(** A thread that sleeps in [UpgradeLock] has its entry at the front of the
    queue, and nobody is registered as the may-writer. *)
Definition upgrader_first (St : System) : Prop :=
  forall t c, In (t, InUpgradeLock c) (sleeping St) ->
    mayWriterThreadId (the_lock St) = None /\
    exists e q, threadQueue (the_lock St) = e :: q /\ cond e = c.

Definition sys_inv (N : nat) (St : System) : Prop :=
  List.NoDup (map fst (sleeping St)) /\
  (forall t p, In (t, p) (sleeping St) -> t < N) /\
  queue_matches_sleepers St /\ upgrader_first St.

(** The states that the threads [0 .. N-1] reach from a new lock. *)
Inductive sys_reachable (N : nat) : System -> Prop :=
| sys_reach_new : sys_reachable N (mkSystem new_lock [])
| sys_reach_step St t o St' :
    sys_reachable N St -> t < N -> sys_step St t o St' ->
    sys_reachable N St'.

(** ** The lock and the threads that hold it

    Threads that use the lock as the list does: a thread holds the lock in
    at most one mode at a time, releases with the release of the mode it
    holds, and calls [UpgradeLock] only while it holds MAY_WRITE. *)
Record Clients := mkClients {
  sys : System;
  holding : list (ThreadId * Operation)
}.

Definition drop_thread (t : ThreadId) (hl : list (ThreadId * Operation))
    : list (ThreadId * Operation) :=
  List.filter (fun x => negb (Nat.eqb (fst x) t)) hl.

Definition is_shared (op : Operation) : bool :=
  match op with WRITE => false | _ => true end.

(** The number of threads that hold the lock in READ or MAY_WRITE. *)
Definition shared_holders (hl : list (ThreadId * Operation)) : nat :=
  length (List.filter (fun x => is_shared (snd x)) hl).

(** One critical section of thread [t]. *)
Inductive client_step (C : Clients) (t : ThreadId) : Clients -> Prop :=
| client_enter_proceed op l' n :
    awake t (sys C) -> ~ In t (map fst (holding C)) ->
    Lock_enter t op (the_lock (sys C)) = Some (Proceed l' n) ->
    client_step C t
      (mkClients (mkSystem l' (sleeping (sys C))) ((t, op) :: holding C))
| client_enter_sleep op l' c :
    awake t (sys C) -> ~ In t (map fst (holding C)) ->
    Lock_enter t op (the_lock (sys C)) = Some (Sleep l' c) ->
    client_step C t
      (mkClients (mkSystem l' ((t, InWait c op) :: sleeping (sys C)))
         (holding C))
| client_resume_proceed c op l' n :
    In (t, InWait c op) (sleeping (sys C)) ->
    Lock_resume t c op (the_lock (sys C)) = Some (Proceed l' n) ->
    client_step C t
      (mkClients (mkSystem l' (wake t (sleeping (sys C))))
         ((t, op) :: holding C))
| client_resume_sleep c op l' c' :
    In (t, InWait c op) (sleeping (sys C)) ->
    Lock_resume t c op (the_lock (sys C)) = Some (Sleep l' c') ->
    client_step C t (mkClients (mkSystem l' (sleeping (sys C))) (holding C))
| client_upgrade_proceed l' n :
    awake t (sys C) -> In (t, MAY_WRITE) (holding C) ->
    UpgradeLock_enter t (the_lock (sys C)) = Some (Proceed l' n) ->
    client_step C t
      (mkClients (mkSystem l' (sleeping (sys C)))
         ((t, WRITE) :: drop_thread t (holding C)))
| client_upgrade_sleep l' c :
    awake t (sys C) -> In (t, MAY_WRITE) (holding C) ->
    UpgradeLock_enter t (the_lock (sys C)) = Some (Sleep l' c) ->
    client_step C t
      (mkClients (mkSystem l' ((t, InUpgradeLock c) :: sleeping (sys C)))
         (drop_thread t (holding C)))
| client_upgrade_resume_proceed c l' n :
    In (t, InUpgradeLock c) (sleeping (sys C)) ->
    UpgradeLock_resume c (the_lock (sys C)) = Some (Proceed l' n) ->
    client_step C t
      (mkClients (mkSystem l' (wake t (sleeping (sys C))))
         ((t, WRITE) :: holding C))
| client_upgrade_resume_sleep c l' c' :
    In (t, InUpgradeLock c) (sleeping (sys C)) ->
    UpgradeLock_resume c (the_lock (sys C)) = Some (Sleep l' c') ->
    client_step C t (mkClients (mkSystem l' (sleeping (sys C))) (holding C))
| client_release_shared op l' n :
    awake t (sys C) -> In (t, op) (holding C) -> op <> WRITE ->
    ReleaseSharedLock t (the_lock (sys C)) = Some (l', n) ->
    client_step C t
      (mkClients (mkSystem l' (sleeping (sys C)))
         (drop_thread t (holding C)))
| client_release_exclusive l' n :
    awake t (sys C) -> In (t, WRITE) (holding C) ->
    ReleaseExclusiveLock (the_lock (sys C)) = Some (l', n) ->
    client_step C t
      (mkClients (mkSystem l' (sleeping (sys C)))
         (drop_thread t (holding C))).

(** The states that the threads [0 .. N-1] reach from a new lock. *)
Inductive client_reachable (N : nat) : Clients -> Prop :=
| client_reach_new :
    client_reachable N (mkClients (mkSystem new_lock []) [])
| client_reach_step C t C' :
    client_reachable N C -> t < N -> client_step C t C' ->
    client_reachable N C'.

(** The fields of the lock say who holds it. *)
Definition holders_match (l : Lock) (hl : list (ThreadId * Operation))
    : Prop :=
  readersNumber l = Z.of_nat (shared_holders hl) /\
  (if isWriterHolding l then exists t, hl = [(t, WRITE)]
   else forall t, ~ In (t, WRITE) hl) /\
  (forall t, mayWriterThreadId l = Some t <-> In (t, MAY_WRITE) hl).

Definition clients_inv (N : nat) (C : Clients) : Prop :=
  List.NoDup (map fst (holding C)) /\
  (forall t op, In (t, op) (holding C) -> t < N /\ awake t (sys C)) /\
  holders_match (the_lock (sys C)) (holding C).

(** ** Example: thread 1 holds the lock in MAY_WRITE and thread 2 in READ *)
Definition may_writer_with_reader : Clients :=
  mkClients (mkSystem (mkLock [] 2 false (Some 1)) [])
    [(2, READ); (1, MAY_WRITE)].

End RMWLock.

Module CDLL.
Import RMWLock.

(** ** Data model (ConcurrentDoublyLinkedList.h) *)

(** [shared_ptr<Node>]: the address of a node; [nullptr] is [None] of
    [option NodePtr]. *)
Abbreviation NodePtr := nat.

Record Node := mkNode {
  key : Z;
  data : ascii;
  prevPtr : option NodePtr;
  nextPtr : option NodePtr;
  isNodeActive : bool;
  lock : Lock
}.

Definition set_prevPtr (p : option NodePtr) (n : Node) : Node :=
  mkNode (key n) (data n) p (nextPtr n) (isNodeActive n) (lock n).
Definition set_nextPtr (p : option NodePtr) (n : Node) : Node :=
  mkNode (key n) (data n) (prevPtr n) p (isNodeActive n) (lock n).
Definition set_isNodeActive (b : bool) (n : Node) : Node :=
  mkNode (key n) (data n) (prevPtr n) (nextPtr n) b (lock n).
Definition set_lock (l : Lock) (n : Node) : Node :=
  mkNode (key n) (data n) (prevPtr n) (nextPtr n) (isNodeActive n) l.

(** [Node::Node(in_key, in_data, in_prevPtr, in_nextPtr)] *)
Definition new_Node (in_key : Z) (in_data : ascii)
    (in_prevPtr in_nextPtr : option NodePtr) : Node :=
  mkNode in_key in_data in_prevPtr in_nextPtr true new_lock.

(** The calls a thread makes on node locks, in program order. *)
Inductive Event :=
| EvAcquire (operation : Operation) (p : NodePtr)
| EvUpgrade (p : NodePtr)
| EvReleaseShared (p : NodePtr)
| EvReleaseExclusive (p : NodePtr).

(** The heap of nodes, indexed by address, and the lock calls made so far. *)
Record Store := mkStore {
  heap : list Node;
  trace : list Event
}.

(** The two sentinels are the first two nodes the constructor allocates. *)
Definition head : NodePtr := 0.
Definition tail : NodePtr := 1.

(** ** Sequential execution

    A computation either returns a value and a new store, or does not return:
    a null pointer is dereferenced, an assertion fails, or the only running
    thread goes to sleep on a condition variable nobody will signal. *)
Definition M (A : Type) : Type := Store -> option (A * Store).

Definition ret {A} (a : A) : M A := fun s => Some (a, s).
Definition bind {A B} (m : M A) (k : A -> M B) : M B :=
  fun s => match m s with Some (a, s') => k a s' | None => None end.
Definition fail {A} : M A := fun _ => None.

Notation "x <~ m ;; k" := (bind m (fun x => k))
  (at level 20, m at level 99, k at level 200, only parsing).
Notation "' pat <~ m ;; k" := (bind m (fun x => match x with pat => k end))
  (at level 20, pat pattern, m at level 99, k at level 200, only parsing).
Notation "m ;;; k" := (bind m (fun _ => k))
  (at level 100, k at level 200, right associativity, only parsing).

(** [*p] *)
Definition load (p : NodePtr) : M Node :=
  fun s => match heap s !! p with Some n => Some (n, s) | None => None end.

(** [p->field = v] *)
Definition store (p : NodePtr) (f : Node -> Node) : M unit :=
  fun s => match heap s !! p with
           | Some _ => Some (tt, mkStore (alter f p (heap s)) (trace s))
           | None => None
           end.

(** [q = p->nextPtr] and [q = p->prevPtr], for a [q] that the code
    dereferences before it tests it: a null [q] ends the run. *)
Definition load_nextPtr (p : NodePtr) : M NodePtr :=
  n <~ load p ;;
  match nextPtr n with Some q => ret q | None => fail end.
Definition load_prevPtr (p : NodePtr) : M NodePtr :=
  n <~ load p ;;
  match prevPtr n with Some q => ret q | None => fail end.

(** [make_shared<Node>(...)].  The heap keeps every node that was allocated:
    in the code a node is destroyed with the last [shared_ptr] to it, here
    it stays in the heap.  What is stated of a node is what its fields
    hold, not how long it lives. *)
Definition alloc (n : Node) : M NodePtr :=
  fun s => Some (length (heap s), mkStore (heap s ++ [n]) (trace s)).

Definition log (e : Event) : M unit :=
  fun s => Some (tt, mkStore (heap s) (trace s ++ [e])).

Section Thread.

(** [std::this_thread::get_id()] *)
Variable self : ThreadId.

(** [p->lock.m()] for a method [m] of the lock that has run its entry
    section on the lock of [p]. *)
Definition lock_call (p : NodePtr) (e : Event)
    (m : Lock -> option WaitResult) : M unit :=
  n <~ load p ;;
  match m (lock n) with
  | Some (Proceed l _) => store p (set_lock l) ;;; log e
  | Some (Sleep _ _) => fail
  | None => fail
  end.

Definition release_call (p : NodePtr) (e : Event)
    (m : Lock -> option (Lock * option ConditionPtr)) : M unit :=
  n <~ load p ;;
  match m (lock n) with
  | Some (l, _) => store p (set_lock l) ;;; log e
  | None => fail
  end.

Definition LockRead (p : NodePtr) : M unit :=
  lock_call p (EvAcquire READ p) (LockRead_enter self).
Definition LockMayWrite (p : NodePtr) : M unit :=
  lock_call p (EvAcquire MAY_WRITE p) (LockMayWrite_enter self).
Definition LockWrite (p : NodePtr) : M unit :=
  lock_call p (EvAcquire WRITE p) (LockWrite_enter self).
Definition UpgradeLock (p : NodePtr) : M unit :=
  lock_call p (EvUpgrade p) (UpgradeLock_enter self).
Definition ReleaseSharedLock (p : NodePtr) : M unit :=
  release_call p (EvReleaseShared p) (RMWLock.ReleaseSharedLock self).
Definition ReleaseExclusiveLock (p : NodePtr) : M unit :=
  release_call p (EvReleaseExclusive p) RMWLock.ReleaseExclusiveLock.

(** ** Private service methods *)

(** The in/out parameters [prev] and [next] are returned. *)
Definition AdvanceAndLockReadMayWrite (prev next : NodePtr) (isRead : bool)
    : M (NodePtr * NodePtr) :=
  if isRead then
    let prev := next in
    next <~ load_nextPtr prev ;;
    ReleaseSharedLock prev ;;;
    LockRead next ;;;
    ret (prev, next)
  else
    ReleaseSharedLock prev ;;;
    let prev := next in
    next <~ load_nextPtr prev ;;
    LockMayWrite next ;;;
    ret (prev, next).

(** The [while] loop of [FindKey]. *)
Fixpoint FindKey_loop (fuel : nat) (key0 : Z) (isRead : bool)
    (prev next : NodePtr) : M (NodePtr * NodePtr) :=
  match fuel with
  | O => fail
  | S fuel' =>
      n <~ load next ;;
      if ((key n <? key0)%Z && negb (Nat.eqb next tail)) || Nat.eqb next head
      then
        '(prev', next') <~ AdvanceAndLockReadMayWrite prev next isRead ;;
        FindKey_loop fuel' key0 isRead prev' next'
      else ret (prev, next)
  end.

(** Returns the new value of the in/out parameter [position] and the
    candidate node. *)
Definition FindKey (fuel : nat) (position : NodePtr) (key0 : Z)
    (isRead : bool) : M (NodePtr * NodePtr) :=
  let prev := position in
  next <~ (if isRead then ret position else load_nextPtr position) ;;
  (if negb isRead then LockMayWrite next else ret tt) ;;;
  FindKey_loop fuel key0 isRead prev next.

Definition InsertFromPosition (fuel : nat) (position : NodePtr) (key0 : Z)
    (data0 : ascii) : M bool :=
  '(prev, next) <~ FindKey fuel position key0 false ;;
  n <~ load next ;;
  let result := negb (key n =? key0)%Z || Nat.eqb next tail in
  if result then
    UpgradeLock prev ;;;
    UpgradeLock next ;;;
    new <~ alloc (new_Node key0 data0 (Some prev) (Some next)) ;;
    store prev (set_nextPtr (Some new)) ;;;
    p <~ load prev ;;
    store next (set_prevPtr (nextPtr p)) ;;;
    ReleaseExclusiveLock prev ;;;
    ReleaseExclusiveLock next ;;;
    ret result
  else
    ReleaseSharedLock prev ;;;
    ReleaseSharedLock next ;;;
    ret result.

(** ** Public methods *)

(** The constructor. *)
Definition new_list : Store :=
  let h0 := [new_Node 0 "0" None None; new_Node 0 "0" None None] in
  let h1 := alter (set_nextPtr (Some tail)) head h0 in
  let h2 := alter (set_prevPtr (Some head)) tail h1 in
  mkStore h2 [].

Definition InsertHead (fuel : nat) (key0 : Z) (data0 : ascii) : M bool :=
  LockMayWrite head ;;;
  InsertFromPosition fuel head key0 data0.

(** The body of the [while] loop of [InsertTail]; returns the new [prev]. *)
Definition InsertTail_step (prev : NodePtr) : M NodePtr :=
  let next := prev in
  prev <~ load_prevPtr next ;;
  ReleaseSharedLock next ;;;
  LockMayWrite prev ;;;
  ret prev.

(** The [while] loop of [InsertTail]; returns [prev]. *)
Fixpoint InsertTail_loop (fuel : nat) (key0 : Z) (prev : NodePtr)
    : M NodePtr :=
  match fuel with
  | O => fail
  | S fuel' =>
      p <~ load prev ;;
      if ((key p >? key0)%Z && negb (Nat.eqb prev head))
         || negb (isNodeActive p)
      then
        prev' <~ InsertTail_step prev ;;
        InsertTail_loop fuel' key0 prev'
      else ret prev
  end.

Definition InsertTail (fuel : nat) (key0 : Z) (data0 : ascii) : M bool :=
  let next := tail in
  LockRead next ;;;
  prev <~ load_prevPtr next ;;
  ReleaseSharedLock next ;;;
  LockMayWrite prev ;;;
  prev <~ InsertTail_loop fuel key0 prev ;;
  p <~ load prev ;;
  if negb (Nat.eqb prev head) && (key p =? key0)%Z then
    ReleaseSharedLock prev ;;;
    ret false
  else InsertFromPosition fuel prev key0 data0.

Definition Delete (fuel : nat) (key0 : Z) : M bool :=
  let prev := head in
  LockMayWrite prev ;;;
  '(prev, next) <~ FindKey fuel prev key0 false ;;
  n <~ load next ;;
  let result := (key n =? key0)%Z && negb (Nat.eqb next tail) in
  if result then
    UpgradeLock prev ;;;
    UpgradeLock next ;;;
    let del := next in
    next <~ load_nextPtr del ;;
    LockWrite next ;;;
    store prev (set_nextPtr (Some next)) ;;;
    store next (set_prevPtr (Some prev)) ;;;
    store del (set_isNodeActive false) ;;;
    ReleaseExclusiveLock prev ;;;
    ReleaseExclusiveLock del ;;;
    ReleaseExclusiveLock next ;;;
    ret result
  else
    ReleaseSharedLock prev ;;;
    ReleaseSharedLock next ;;;
    ret result.

(** The out-parameter [char* data]: [None] is a null pointer, [Some c] a
    pointer to a [char] that holds [c]; the [char] it holds on return is
    returned with the result. *)
Definition Search (fuel : nat) (key0 : Z) (data0 : option ascii)
    : M (bool * option ascii) :=
  match data0 with
  | None => ret (false, None)
  | Some c =>
      let prev := head in
      LockRead prev ;;;
      '(_, node) <~ FindKey fuel prev key0 true ;;
      n <~ load node ;;
      let result :=
        (key n =? key0)%Z && isNodeActive n && negb (Nat.eqb node tail) in
      ReleaseSharedLock node ;;;
      ret (result, Some (if result then data n else c))
  end.

(** A call of a public method, and what it returns. *)
Inductive Call :=
| CallInsertHead (key0 : Z) (data0 : ascii)
| CallInsertTail (key0 : Z) (data0 : ascii)
| CallDelete (key0 : Z)
| CallSearch (key0 : Z) (data0 : option ascii).

Inductive Return :=
| RetBool (b : bool)
| RetSearch (b : bool) (data0 : option ascii).

Definition call (fuel : nat) (c : Call) : M Return :=
  match c with
  | CallInsertHead k v => b <~ InsertHead fuel k v ;; ret (RetBool b)
  | CallInsertTail k v => b <~ InsertTail fuel k v ;; ret (RetBool b)
  | CallDelete k => b <~ Delete fuel k ;; ret (RetBool b)
  | CallSearch k d => '(b, d') <~ Search fuel k d ;; ret (RetSearch b d')
  end.

(** The calls of a list, one after the other. *)
Fixpoint calls (fuel : nat) (cs : list Call) : M (list Return) :=
  match cs with
  | [] => ret []
  | c :: cs' =>
      r <~ call fuel c ;;
      rs <~ calls fuel cs' ;;
      ret (r :: rs)
  end.

(** The states of a node lock that one thread alone puts it in. *)
Definition held_READ : Lock := mkLock [] 1 false None.
Definition held_MAY_WRITE : Lock := mkLock [] 1 false (Some self).
Definition held_WRITE : Lock := mkLock [] 0 true None.

End Thread.

(** [m], started in any store whose heap is [h], returns [a] and leaves
    the heap [h']. *)
Definition returns {A} (h : list Node) (m : M A) (a : A) (h' : list Node)
    : Prop :=
  forall s, heap s = h -> exists s', m s = Some (a, s') /\ heap s' = h'.

(** More fuel does not change what a computation returns. *)
Definition fuel_mono {A} (m : nat -> M A) : Prop :=
  forall f f' s r, f <= f' -> m f s = Some r -> m f' s = Some r.

(** ** Predicates on heaps *)

Definition relock (l : Lock) (p : NodePtr) (h : list Node) : list Node :=
  alter (set_lock l) p h.

Definition next_of (h : list Node) (p : NodePtr) : option NodePtr :=
  match h !! p with Some n => nextPtr n | None => None end.
Definition prev_of (h : list Node) (p : NodePtr) : option NodePtr :=
  match h !! p with Some n => prevPtr n | None => None end.
Definition key_of (h : list Node) (p : NodePtr) : Z :=
  match h !! p with Some n => key n | None => 0%Z end.
Definition active_in (h : list Node) (p : NodePtr) : Prop :=
  exists n, h !! p = Some n /\ isNodeActive n = true.

(** [b] is the successor of [a], and [a] the predecessor of [b]. *)
Definition linked (h : list Node) (a b : NodePtr) : Prop :=
  next_of h a = Some b /\ prev_of h b = Some a.

Fixpoint links (h : list Node) (c : list NodePtr) : Prop :=
  match c with
  | a :: (b :: _) as r => linked h a b /\ links h r
  | _ => True
  end.

(** Keys, with the sentinels below and above every key: this is the order
    that the tests [(next->key < key && next != tail) || next == head] of
    [FindKey] and [prev->key > key && prev != head] of [InsertTail] use. *)
Inductive EKey := NegInf | Fin (k : Z) | PosInf.

Definition ekey_lt (a b : EKey) : Prop :=
  match a, b with
  | NegInf, Fin _ | NegInf, PosInf | Fin _, PosInf => True
  | Fin x, Fin y => (x < y)%Z
  | _, _ => False
  end.

Definition ekey (h : list Node) (p : NodePtr) : EKey :=
  if Nat.eqb p head then NegInf
  else if Nat.eqb p tail then PosInf
  else Fin (key_of h p).

Definition before (h : list Node) (a b : NodePtr) : Prop :=
  ekey_lt (ekey h a) (ekey h b).

(** A chain runs from the head sentinel to the tail sentinel. *)
Definition ends (c : list NodePtr) : Prop :=
  hd_error c = Some head /\ last c = Some tail.

(** [c] is the chain of the list in heap [h]. *)
Definition is_chain (h : list Node) (c : list NodePtr) : Prop :=
  ends c /\
  links h c /\
  StronglySorted (before h) c /\
  Forall (active_in h) c /\
  prev_of h head = None /\
  next_of h tail = None.

(** The heap after a new node with [key0] and [data0] is linked in between
    [prev] and [next], and the heap after [del] is unlinked from between
    [prev] and [next]. *)
Definition spliced_in (h : list Node) (prev next : NodePtr) (key0 : Z)
    (data0 : ascii) : list Node :=
  alter (set_prevPtr (Some (length h))) next
    (alter (set_nextPtr (Some (length h))) prev h)
  ++ [new_Node key0 data0 (Some prev) (Some next)].

Definition spliced_out (h : list Node) (prev del next : NodePtr) : list Node :=
  alter (set_isNodeActive false) del
    (alter (set_prevPtr (Some prev)) next
       (alter (set_nextPtr (Some next)) prev h)).

(** Key [k] is in the list. *)
Definition present (h : list Node) (c : list NodePtr) (k : Z) : Prop :=
  exists p, In p c /\ ekey h p = Fin k.

Definition locks_free (h : list Node) : Prop :=
  Forall (fun n => lock n = new_lock) h.

(** The heap of a list no operation is running on. *)
Definition WF (h : list Node) : Prop :=
  (exists c, is_chain h c) /\ locks_free h.

(** The node locks a thread holds after its lock calls [tr], when it held
    [hs] before them. *)
Fixpoint remove_one (p : NodePtr) (hs : list NodePtr) : list NodePtr :=
  match hs with
  | [] => []
  | x :: r => if Nat.eqb x p then r else x :: remove_one p r
  end.

Definition holds_step (hs : list NodePtr) (e : Event) : list NodePtr :=
  match e with
  | EvAcquire _ p => p :: hs
  | EvUpgrade _ => hs
  | EvReleaseShared p | EvReleaseExclusive p => remove_one p hs
  end.

Definition holds (hs : list NodePtr) (tr : list Event) : list NodePtr :=
  fold_left holds_step tr hs.

(** In [h], along the chain [c], a node is below [key0] when it is the head
    sentinel or an internal node with a smaller key. *)
Definition below (h : list Node) (key0 : Z) (x : NodePtr) : Prop :=
  x = head \/ (x <> tail /\ (key_of h x < key0)%Z).

(** ** Example lists *)

(** The list with the single key 5, and the store in which thread 1 has
    locked its head in READ, as [Search] does before it calls [FindKey]. *)
Definition list_5 : list Node := spliced_in (heap new_list) head tail 5 "a".

Definition list_5_head_read : Store :=
  mkStore (relock held_READ head list_5) [EvAcquire READ head].

(** ** Readings to compare the code with

    Hand-over-hand locking in READ mode as a step from [cur] to [nxt] would
    do it: the lock of [nxt] is acquired, then the lock of [cur] is
    released. *)
Definition hand_over_hand_READ (cur nxt : NodePtr) : list Event :=
  [EvAcquire READ nxt; EvReleaseShared cur].

(** The first node of [l] that is the tail sentinel, or is not the head
    sentinel and has a key that is at least [key0]; the tail sentinel when
    [l] has none. *)
Fixpoint first_not_below (h : list Node) (key0 : Z) (l : list NodePtr)
    : NodePtr :=
  match l with
  | [] => tail
  | x :: r =>
      if Nat.eqb x tail || (negb (Nat.eqb x head) && (key0 <=? key_of h x)%Z)
      then x
      else first_not_below h key0 r
  end.

(** Nodes that a walk along [nextPtr] reaches. *)
Inductive reaches (h : list Node) (a : NodePtr) : NodePtr -> Prop :=
| reaches_refl : reaches h a a
| reaches_next b b' :
    reaches h a b -> next_of h b = Some b' -> reaches h a b'.

(** The invariants of the quiescent list: the walk from the head reaches
    the tail along [l]; on the chain, [nextPtr] and [prevPtr] are inverse to
    each other; the keys of the internal nodes increase strictly; every node
    that the walk from the head reaches is active. *)
Definition quiescent (h : list Node) : Prop :=
  exists l : list NodePtr,
    let c := head :: l ++ [tail] in
    (forall i a b, c !! i = Some a -> c !! (S i) = Some b ->
       next_of h a = Some b) /\
    reaches h head tail /\
    (forall a b, In a c -> In b c ->
       (next_of h a = Some b <-> prev_of h b = Some a)) /\
    StronglySorted Z.lt (map (key_of h) l) /\
    (forall p, reaches h head p -> active_in h p).

(** ** The list as a sorted table

    The nodes met on the walk from [p] along [nextPtr]. *)
Fixpoint walk (fuel : nat) (h : list Node) (p : NodePtr) : list NodePtr :=
  match fuel with
  | O => []
  | S fuel' =>
      p :: match next_of h p with
           | Some q => walk fuel' h q
           | None => []
           end
  end.

Definition data_of (h : list Node) (p : NodePtr) : ascii :=
  match h !! p with Some n => data n | None => "000"%char end.

Definition is_sentinel (p : NodePtr) : bool :=
  Nat.eqb p head || Nat.eqb p tail.

Definition inner (c : list NodePtr) : list NodePtr :=
  List.filter (fun p => negb (is_sentinel p)) c.

Definition entry_of (h : list Node) (p : NodePtr) : Z * ascii :=
  (key_of h p, data_of h p).

(** The keys of the list with their data, in the order of the walk from the
    head sentinel. *)
Definition contents (h : list Node) : list (Z * ascii) :=
  map (entry_of h) (inner (walk (length h) h head)).

(** A sorted table of keys with their data: look-up, insertion of a key
    that is not there, removal. *)
Fixpoint assoc (k : Z) (l : list (Z * ascii)) : option ascii :=
  match l with
  | [] => None
  | (k', v) :: r => if (k' =? k)%Z then Some v else assoc k r
  end.

Definition has_key (k : Z) (l : list (Z * ascii)) : bool :=
  match assoc k l with Some _ => true | None => false end.

Fixpoint put (k : Z) (v : ascii) (l : list (Z * ascii)) : list (Z * ascii) :=
  match l with
  | [] => [(k, v)]
  | (k', v') :: r =>
      if (k <? k')%Z then (k, v) :: l
      else if (k =? k')%Z then l
      else (k', v') :: put k v r
  end.

Fixpoint remove_key (k : Z) (l : list (Z * ascii)) : list (Z * ascii) :=
  match l with
  | [] => []
  | (k', v') :: r => if (k' =? k)%Z then r else (k', v') :: remove_key k r
  end.

Definition table_sorted (l : list (Z * ascii)) : Prop :=
  StronglySorted Z.lt (map fst l).

(** The key a call is about. *)
Definition call_key (c : Call) : Z :=
  match c with
  | CallInsertHead k _ | CallInsertTail k _ | CallDelete k | CallSearch k _ =>
      k
  end.

(** What [Search] returns for a key and an out-parameter that holds [d],
    by the table. *)
Definition found (k : Z) (d : ascii) (l : list (Z * ascii)) : Return :=
  match assoc k l with
  | Some v => RetSearch true (Some v)
  | None => RetSearch false (Some d)
  end.

(** An insertion at either end. *)
Definition CallInsert (at_tail : bool) (k : Z) (v : ascii) : Call :=
  if at_tail then CallInsertTail k v else CallInsertHead k v.

(** What every operation keeps of a node: its key and its data, and that it
    is inactive once it is. *)
Definition node_kept (n n' : Node) : Prop :=
  key n' = key n /\ data n' = data n /\
  (isNodeActive n = false -> isNodeActive n' = false).

(** Every node of [h] is a node of [h'], at the same address. *)
Definition heap_kept (h h' : list Node) : Prop :=
  forall (p : NodePtr) n,
    h !! p = Some n -> exists n', h' !! p = Some n' /\ node_kept n n'.

(** A node that is in [h] and is still there in [h'] has kept its key and
    its data, and is inactive in [h'] when it was in [h]. *)
Definition nodes_kept (h h' : list Node) : Prop :=
  forall (p : NodePtr) n n',
    h !! p = Some n -> h' !! p = Some n' -> node_kept n n'.

(** ** The destructor

    The body of the [for] loop runs for every node but the tail sentinel; a
    null [node] is not the tail sentinel, so the body dereferences it. *)
Fixpoint destroy_loop (fuel : nat) (node : NodePtr) : M unit :=
  match fuel with
  | O => fail
  | S fuel' =>
      if Nat.eqb node tail then ret tt
      else
        p <~ load_prevPtr node ;;
        store p (set_nextPtr None) ;;;
        store node (set_prevPtr None) ;;;
        next <~ load_nextPtr node ;;
        destroy_loop fuel' next
  end.

Definition destroy (fuel : nat) : M unit :=
  node <~ load_nextPtr head ;;
  destroy_loop fuel node ;;;
  store tail (set_prevPtr None).

(** [h'] is [h] with [prevPtr] of the nodes [ps] and [nextPtr] of the nodes
    [ns] set to null, and nothing else changed. *)
Definition unlinked (ps ns : list NodePtr) (h h' : list Node) : Prop :=
  length h' = length h /\
  forall (q : NodePtr) n,
    h !! q = Some n ->
    h' !! q = Some (mkNode (key n) (data n)
                      (if decide (q ∈ ps) then None else prevPtr n)
                      (if decide (q ∈ ns) then None else nextPtr n)
                      (isNodeActive n) (lock n)).

(** ** The two halves of [InsertTail]

    [InsertTail] up to the point where it has read [tail->prevPtr] and holds
    no lock, and [InsertTail] from that point on. *)
Definition InsertTail_begin (self : ThreadId) : M NodePtr :=
  let next := tail in
  LockRead self next ;;;
  prev <~ load_prevPtr next ;;
  ReleaseSharedLock self next ;;;
  ret prev.

Definition InsertTail_finish (self : ThreadId) (fuel : nat) (key0 : Z)
    (data0 : ascii) (prev : NodePtr) : M bool :=
  p <~ load prev ;;
  if negb (Nat.eqb prev head) && (key p =? key0)%Z then
    ReleaseSharedLock self prev ;;;
    ret false
  else InsertFromPosition self fuel prev key0 data0.

Definition InsertTail_end (self : ThreadId) (fuel : nat) (key0 : Z)
    (data0 : ascii) (prev : NodePtr) : M bool :=
  LockMayWrite self prev ;;;
  prev <~ InsertTail_loop self fuel key0 prev ;;
  InsertTail_finish self fuel key0 data0 prev.

(** ** The table as a model of the calls

    What a call returns and the table it leaves, by the table alone. *)
Definition table_call (c : Call) (t : list (Z * ascii))
    : Return * list (Z * ascii) :=
  match c with
  | CallInsertHead k v | CallInsertTail k v =>
      (RetBool (negb (has_key k t)), put k v t)
  | CallDelete k => (RetBool (has_key k t), remove_key k t)
  | CallSearch k (Some d) => (found k d t, t)
  | CallSearch k None => (RetSearch false None, t)
  end.

Fixpoint table_calls (cs : list Call) (t : list (Z * ascii))
    : list Return * list (Z * ascii) :=
  match cs with
  | [] => ([], t)
  | c :: cs' =>
      let '(r, t1) := table_call c t in
      let '(rs, t2) := table_calls cs' t1 in
      (r :: rs, t2)
  end.

(** ** The locking discipline

    The lock calls [tr] of a thread that holds the locks of the nodes [hs],
    the one locked last first, keep to the discipline in heap [h] with a
    budget of [k] locks: a lock is acquired only while fewer than [k] locks
    are held and, while a lock is held, only on the successor of the node
    that was locked last; only a lock that is held is upgraded or
    released. *)
Definition event_allowed (h : list Node) (k : nat) (hs : list NodePtr)
    (e : Event) : Prop :=
  match e with
  | EvAcquire _ p =>
      length hs < k /\
      match hs with [] => True | q :: _ => next_of h q = Some p end
  | EvUpgrade p | EvReleaseShared p | EvReleaseExclusive p => In p hs
  end.

Fixpoint disciplined (h : list Node) (k : nat) (hs : list NodePtr)
    (tr : list Event) : Prop :=
  match tr with
  | [] => True
  | e :: tr' =>
      event_allowed h k hs e /\ disciplined h k (holds_step hs e) tr'
  end.

(** The number of node locks a call may hold at a time. *)
Definition lock_budget (c : Call) : nat :=
  match c with
  | CallSearch _ _ => 1
  | CallInsertHead _ _ | CallInsertTail _ _ => 2
  | CallDelete _ => 3
  end.

(** From store [s] to store [s'] a thread that held [hs] made lock calls
    that keep to the discipline, are all in [P], and leave it with [hs']. *)
Definition traced (h : list Node) (k : nat) (P : Event -> Prop)
    (hs : list NodePtr) (s s' : Store) (hs' : list NodePtr) : Prop :=
  exists tr,
    trace s' = trace s ++ tr /\ disciplined h k hs tr /\ Forall P tr /\
    holds hs tr = hs'.

(** The lock calls of a reader: [LockRead] and [ReleaseSharedLock]. *)
Definition reader_event (e : Event) : Prop :=
  match e with
  | EvAcquire READ _ | EvReleaseShared _ => True
  | _ => False
  end.

Definition any_event (e : Event) : Prop := True.

(** ** [Search] around a hand-over

    In read mode the step from a node to its successor releases the lock of
    the node before it acquires the lock of the successor.
    [Search_handover] is that step up to the release, [Search_resume] is
    [Search] from the acquisition on, and [Search_finish] is what [Search]
    does with the candidate. *)
Definition Search_handover (self : ThreadId) (p : NodePtr) : M NodePtr :=
  next <~ load_nextPtr p ;;
  ReleaseSharedLock self p ;;;
  ret next.

Definition Search_finish (self : ThreadId) (key0 : Z) (c : ascii)
    (node : NodePtr) : M (bool * option ascii) :=
  n <~ load node ;;
  let result :=
    (key n =? key0)%Z && isNodeActive n && negb (Nat.eqb node tail) in
  ReleaseSharedLock self node ;;;
  ret (result, Some (if result then data n else c)).

Definition Search_resume (self : ThreadId) (fuel : nat) (key0 : Z)
    (c : ascii) (prev next : NodePtr) : M (bool * option ascii) :=
  LockRead self next ;;;
  r <~ FindKey_loop self fuel key0 true prev next ;;
  Search_finish self key0 c (snd r).

(** What [Search] returns for a key and an out-parameter that holds [d],
    by the table. *)
Definition looked_up (k : Z) (d : ascii) (l : list (Z * ascii))
    : bool * option ascii :=
  match assoc k l with
  | Some v => (true, Some v)
  | None => (false, Some d)
  end.

(** ** [Search] among readers

    A node lock that admits [self] as one more reader at once: nobody
    waits, no writer holds it, the count of readers has room, and [self] is
    not its may-writer.  So is the lock of a node that nobody holds, and of
    a node that other threads hold in READ or in MAY_WRITE. *)
Definition admits_reader (self : ThreadId) (l : Lock) : Prop :=
  threadQueue l = [] /\ isWriterHolding l = false /\
  (0 <= readersNumber l < UINT_MOD - 1)%Z /\
  mayWriterThreadId l <> Some self.

(** The lock with one more reader, and the heap in which the thread holds
    node [p] in READ as well. *)
Definition with_reader (l : Lock) : Lock :=
  set_readersNumber (uint_incr (readersNumber l)) l.

Definition reading (h : list Node) (p : NodePtr) : list Node :=
  alter (fun n => set_lock (with_reader (lock n)) n) p h.

(** The list with the single key 5 while thread 2 holds its node in
    MAY_WRITE and another thread holds the head sentinel in READ. *)
Definition list_5_shared : list Node :=
  relock held_READ head (relock (held_MAY_WRITE 2) 2 list_5).

(** ** Pointers of deleted nodes

    The nodes met on the walk from [p] along [prevPtr], as the loop of
    [InsertTail] walks. *)
Fixpoint walk_back (fuel : nat) (h : list Node) (p : NodePtr)
    : list NodePtr :=
  match fuel with
  | O => []
  | S fuel' =>
      p :: match prev_of h p with
           | Some q => walk_back fuel' h q
           | None => []
           end
  end.

(** Every node of the heap, in the list or deleted from it, has a [nextPtr]
    to a node of the heap that comes later in the order of the keys, unless
    it is the tail sentinel, and a [prevPtr] to a node of the heap that comes
    earlier, unless it is the head sentinel. *)
Definition ordered_links (h : list Node) : Prop :=
  forall (p : NodePtr) n, h !! p = Some n ->
    (p <> tail ->
     exists q : NodePtr, nextPtr n = Some q /\ q < length h /\ before h p q) /\
    (p <> head ->
     exists q : NodePtr, prevPtr n = Some q /\ q < length h /\ before h q p).

(** ** Lock calls are only added

    A computation adds lock calls to those made so far and takes none away. *)
Definition trace_grows {A} (m : M A) : Prop :=
  forall s a s', m s = Some (a, s') -> exists tr, trace s' = trace s ++ tr.

End CDLL.

(** * Properties of the lock *)

Module LockProofs.
Import RMWLock.

Lemma Operation_eqb_spec a b : reflect (a = b) (Operation_eqb a b).
Proof. destruct a, b; constructor; congruence. Qed.

(** Two lock states with the same holders: only the queue may differ. *)
Definition same_holders (l l' : Lock) : Prop :=
  readersNumber l' = readersNumber l /\
  isWriterHolding l' = isWriterHolding l /\
  mayWriterThreadId l' = mayWriterThreadId l.

Lemma same_holders_refl l : same_holders l l.
Proof. by repeat split. Qed.

Lemma same_holders_set_threadQueue q l : same_holders l (set_threadQueue q l).
Proof. by repeat split. Qed.

Lemma same_holders_CanAcquireLock op l l' :
  same_holders l l' -> CanAcquireLock op l' = CanAcquireLock op l.
Proof.
  intros (Hr & Hw & Hm).
  destruct op; unfold CanAcquireLock, CanWriterAcquireLock,
    CanMayWriterAcquireLock, CanReaderAcquireLock; by rewrite ?Hr, ?Hw, ?Hm.
Qed.

Create HintDb lockdb.
#[local] Hint Resolve same_holders_refl same_holders_set_threadQueue : lockdb.

Lemma assert_Some b u : assert b = Some u -> b = true.
Proof. by destruct b. Qed.

(** Inversion of the option binds of the lock code. *)
Ltac inv_bind :=
  repeat match goal with
  | H : mbind _ ?m = Some _ |- _ =>
      let E := fresh "E" in
      destruct m eqn:E; simpl in H; [| discriminate H]
  | H : (?m ≫= _) = Some _ |- _ =>
      let E := fresh "E" in
      destruct m eqn:E; simpl in H; [| discriminate H]
  | H : assert _ = Some _ |- _ => apply assert_Some in H
  | H : Some _ = Some _ |- _ => injection H as H; try subst
  | H : (_, _) = (_, _) |- _ => injection H as ? ?; try subst
  end.

Lemma ShouldThreadWait_finish_holders op w l w' l' :
  ShouldThreadWait_finish op w l = Some (w', l') ->
  w' = w /\ same_holders l l'.
Proof.
  unfold ShouldThreadWait_finish, InsertConditionTuple. intros [= <- <-].
  split; [done|]. destruct w; auto with lockdb.
Qed.

Lemma ShouldThreadWait_default_holders op w l w' l' :
  ShouldThreadWait_default op w l = Some (w', l') ->
  w' = w /\ same_holders l l'.
Proof.
  unfold ShouldThreadWait_default. intros H.
  destruct (Operation_eqb op READ && w);
    [| by apply ShouldThreadWait_finish_holders in H].
  destruct (last (threadQueue l)) as [b|]; [| discriminate].
  destruct (Operation_eqb (oper b) READ);
    [| by apply ShouldThreadWait_finish_holders in H].
  destruct (assert _); simpl in H; [| discriminate].
  injection H as <- <-. auto with lockdb.
Qed.

(** [ShouldThreadWait] never touches the holders, and lets a request through
    only if the lock state permits its mode. *)
Lemma ShouldThreadWait_holders op l w l' :
  ShouldThreadWait op l = Some (w, l') ->
  same_holders l l' /\ (w = false -> CanAcquireLock op l = true).
Proof.
  unfold ShouldThreadWait. intros H.
  destruct (threadQueue l) as [|front [|second rest]].
  - apply ShouldThreadWait_finish_holders in H as [-> ?]. split; [done|].
    by intros ->%negb_false_iff.
  - apply ShouldThreadWait_default_holders in H as [-> ?]. split; [done|].
    intros Hw. apply orb_false_iff in Hw as [_ Hw].
    by apply negb_false_iff in Hw.
  - apply ShouldThreadWait_default_holders in H as [-> ?]. by split.
Qed.

Lemma Wait_enter_holders op l r :
  Wait_enter op l = Some r ->
  match r with
  | Proceed l' _ => same_holders l l' /\ CanAcquireLock op l' = true
  | Sleep l' _ => same_holders l l'
  end.
Proof.
  unfold Wait_enter. intros H. inv_bind. destruct p as [w l1].
  apply ShouldThreadWait_holders in E as [Hs Hc].
  destruct w; simpl in H; inv_bind; [done|].
  split; [done|]. rewrite (same_holders_CanAcquireLock _ _ _ Hs). by apply Hc.
Qed.

Lemma Wait_resume_holders c op l r :
  Wait_resume c op l = Some r ->
  match r with
  | Proceed l' _ => same_holders l l' /\ CanAcquireLock op l' = true
  | Sleep l' _ => same_holders l l'
  end.
Proof.
  unfold Wait_resume. intros H.
  destruct (threadQueue l) as [|front rest]; [discriminate|].
  destruct (negb (cond front =? c) || negb (CanAcquireLock op l)) eqn:Hg.
  { inv_bind. auto with lockdb. }
  apply orb_false_iff in Hg as [_ Hg]. apply negb_false_iff in Hg.
  assert (forall q, same_holders l (set_threadQueue q l) /\
                    CanAcquireLock op (set_threadQueue q l) = true) as Hq.
  { intros q. split; [auto with lockdb|].
    by rewrite (same_holders_CanAcquireLock _ l); auto with lockdb. }
  destruct (Operation_eqb op READ); simpl in H.
  - inv_bind. destruct (negb _); inv_bind; apply Hq.
  - inv_bind. apply Hq.
Qed.

Lemma lock_inv_same_holders l l' :
  same_holders l l' -> lock_inv l -> lock_inv l'.
Proof. intros (Hr & Hw & Hm) Hi. unfold lock_inv. by rewrite Hr, Hw, Hm. Qed.

Lemma lock_inv_writer_free l :
  isWriterHolding l = false -> lock_inv l.
Proof. unfold lock_inv. congruence. Qed.

Lemma tid_eqb_eq a b : tid_eqb a b = true <-> a = b.
Proof.
  destruct a, b; simpl; try (split; congruence).
  rewrite Nat.eqb_eq. split; congruence.
Qed.

Lemma CanWriterAcquireLock_true l :
  CanWriterAcquireLock l = true <->
  readersNumber l = 0%Z /\ mayWriterThreadId l = None /\
  isWriterHolding l = false.
Proof.
  unfold CanWriterAcquireLock, CanMayWriterAcquireLock, CanReaderAcquireLock.
  rewrite !andb_true_iff, Z.eqb_eq, tid_eqb_eq, negb_true_iff. tauto.
Qed.

Lemma CanMayWriterAcquireLock_true l :
  CanMayWriterAcquireLock l = true <->
  mayWriterThreadId l = None /\ isWriterHolding l = false.
Proof.
  unfold CanMayWriterAcquireLock, CanReaderAcquireLock.
  rewrite !andb_true_iff, tid_eqb_eq, negb_true_iff. tauto.
Qed.

Lemma Lock_after_Wait_inv self op l l' :
  CanAcquireLock op l = true ->
  Lock_after_Wait self op l = Some l' -> lock_inv l'.
Proof.
  intros Hc H. destruct op; simpl in *.
  - injection H as <-. apply lock_inv_writer_free. simpl.
    by apply negb_true_iff in Hc.
  - apply CanMayWriterAcquireLock_true in Hc as [Hm Hw].
    destruct (assert _); simpl in H; [| discriminate]. injection H as <-.
    by apply lock_inv_writer_free.
  - apply CanWriterAcquireLock_true in Hc as (Hr & Hm & Hw).
    destruct (assert _); simpl in H; [| discriminate]. injection H as <-.
    by split.
Qed.

Lemma after_Wait_inv self op l r r' :
  lock_inv l ->
  match r with
  | Proceed l' _ => same_holders l l' /\ CanAcquireLock op l' = true
  | Sleep l' _ => same_holders l l'
  end ->
  after_Wait self op r = Some r' ->
  lock_inv (match r' with Proceed l' _ | Sleep l' _ => l' end).
Proof.
  intros Hi Hr H. destruct r as [l1 n|l1 c]; simpl in H.
  - destruct Hr as [_ Hc].
    destruct (Lock_after_Wait self op l1) as [l2|] eqn:E; [| discriminate].
    injection H as <-. by eapply Lock_after_Wait_inv.
  - injection H as <-. by eapply lock_inv_same_holders.
Qed.

Lemma readers_positive_writer_free l :
  lock_inv l -> (0 <? readersNumber l)%Z = true -> isWriterHolding l = false.
Proof.
  intros Hi Hr. destruct (isWriterHolding l) eqn:Hw; [| done].
  destruct (Hi Hw) as [H0 _]. rewrite H0 in Hr. discriminate.
Qed.

Lemma UpgradeLock_enter_inv self l r :
  lock_inv l -> UpgradeLock_enter self l = Some r ->
  lock_inv (match r with Proceed l' _ | Sleep l' _ => l' end).
Proof.
  intros Hi H. unfold UpgradeLock_enter in H.
  destruct (assert (0 <? _)%Z) eqn:Ha; simpl in H; [| discriminate].
  apply assert_Some in Ha. pose proof (readers_positive_writer_free _ Hi Ha).
  destruct (assert (tid_eqb _ _)); simpl in H; [| discriminate].
  destruct (negb _) eqn:Hc; simpl in H.
  - injection H as <-. by apply lock_inv_writer_free.
  - apply negb_false_iff, CanWriterAcquireLock_true in Hc as (Hr & Hm & Hw).
    simpl in *. unfold UpgradeLock_finish in H. simpl in H. rewrite Hw in H.
    simpl in H. injection H as <-. by split.
Qed.

Lemma UpgradeLock_resume_inv c l r :
  lock_inv l -> UpgradeLock_resume c l = Some r ->
  lock_inv (match r with Proceed l' _ | Sleep l' _ => l' end).
Proof.
  intros Hi H. unfold UpgradeLock_resume in H.
  destruct (negb _) eqn:Hc; simpl in H; [by injection H as <-|].
  apply negb_false_iff, CanWriterAcquireLock_true in Hc as (Hr & Hm & Hw).
  destruct (threadQueue l); [discriminate|].
  unfold UpgradeLock_finish in H. simpl in H. rewrite Hw in H. simpl in H.
  injection H as <-. by split.
Qed.

Lemma ReleaseSharedLock_inv self l l' n :
  lock_inv l -> ReleaseSharedLock self l = Some (l', n) -> lock_inv l'.
Proof.
  intros Hi H. unfold ReleaseSharedLock in H.
  destruct (assert (0 <? _)%Z) eqn:Ha; simpl in H; [| discriminate].
  apply assert_Some in Ha. pose proof (readers_positive_writer_free _ Hi Ha).
  apply lock_inv_writer_free.
  destruct (tid_eqb _ _); [| destruct (0 <? uint_decr _)%Z]; by injection H as <- _.
Qed.

Lemma ReleaseExclusiveLock_inv l l' n :
  ReleaseExclusiveLock l = Some (l', n) -> lock_inv l'.
Proof.
  unfold ReleaseExclusiveLock. intros H.
  destruct (assert _); simpl in H; [| discriminate].
  injection H as <- _. by apply lock_inv_writer_free.
Qed.

Lemma lock_step_inv l l' : lock_inv l -> lock_step l l' -> lock_inv l'.
Proof.
  intros Hi [self op r H|self c op r H|self r H|c r H|self l1 n H|l1 n H].
  - unfold Lock_enter in H.
    destruct (Wait_enter op l) as [r0|] eqn:E; simpl in H; [| discriminate].
    eapply after_Wait_inv; [done | by apply Wait_enter_holders | done].
  - unfold Lock_resume in H.
    destruct (Wait_resume c op l) as [r0|] eqn:E; simpl in H; [| discriminate].
    eapply after_Wait_inv; [done | by eapply Wait_resume_holders | done].
  - by eapply UpgradeLock_enter_inv.
  - by eapply UpgradeLock_resume_inv.
  - by eapply ReleaseSharedLock_inv.
  - by eapply ReleaseExclusiveLock_inv.
Qed.

Lemma lock_reachable_inv l : lock_reachable l -> lock_inv l.
Proof.
  induction 1 as [|l l' _ IH Hs]; [by apply lock_inv_writer_free|].
  by eapply lock_step_inv.
Qed.

(** C7: in every lock state reachable through the methods of the lock, a
    writer and a may-writer never hold the lock together, and while a writer
    holds it the count of readers is zero. *)
Theorem C7_writer_is_exclusive (l : Lock) :
  lock_reachable l ->
  ~ (isWriterHolding l = true /\ mayWriterThreadId l <> None) /\
  (isWriterHolding l = true -> readersNumber l = 0%Z).
Proof.
  intros Hi%lock_reachable_inv. split.
  - intros [Hw Hm]. by destruct (Hi Hw).
  - intros Hw. by destruct (Hi Hw).
Qed.

(** A reachable state with a writer in it: one [LockWrite] on a new lock. *)
Lemma C7_writer_is_exclusive_witness :
  lock_reachable (mkLock [] 0 true None) /\
  (~ (isWriterHolding (mkLock [] 0 true None) = true /\
      mayWriterThreadId (mkLock [] 0 true None) <> None) /\
   (isWriterHolding (mkLock [] 0 true None) = true ->
    readersNumber (mkLock [] 0 true None) = 0%Z)).
Proof.
  assert (lock_reachable (mkLock [] 0 true None)) as H.
  { eapply reach_step; [apply reach_new|].
    exact (step_Lock_enter new_lock 1 WRITE (Proceed (mkLock [] 0 true None) None)
             eq_refl). }
  split; [exact H | exact (C7_writer_is_exclusive _ H)].
Defined.

(** ** Queueing on arrival *)

Lemma ShouldThreadWait_default_snoc op w l q e :
  threadQueue l = q ++ [e] ->
  (0 < counter e)%Z ->
  ShouldThreadWait_default op w l =
  if Operation_eqb op READ && w && Operation_eqb (oper e) READ then
    Some (w, set_threadQueue
               (q ++ [mkTuple (cond e) (oper e) (uint_incr (counter e))]) l)
  else
    Some (w, if w then
               set_threadQueue
                 (threadQueue l ++ [mkTuple (fresh_cond (threadQueue l)) op 1])
                 l
             else l).
Proof.
  intros Hq Hc. unfold ShouldThreadWait_default, ShouldThreadWait_finish,
    InsertConditionTuple.
  destruct l as [tq r wh mw]; simpl in *; subst tq.
  rewrite last_snoc, removelast_last.
  destruct (Operation_eqb op READ && w); simpl; [| done].
  destruct (Operation_eqb (oper e) READ); simpl; [| done].
  apply Z.ltb_lt in Hc. by rewrite Hc.
Qed.

Lemma queue_snoc_cases (q : list ConditionTuple) :
  q = [] \/ (exists e, q = [e]) \/
  (exists a b q' q0 e, q = a :: b :: q' /\ q = q0 ++ [e]).
Proof.
  destruct q as [|a [|b q']]; [by left | right; left; by eexists |].
  right; right. destruct (exists_last (l:=a :: b :: q')) as (q0 & e & Hq);
    [done|].
  by exists a, b, q', q0, e.
Qed.

(** C3 (as the code has it): a request goes on without queueing exactly when
    the lock state permits its mode and either the queue is empty or the
    request is a READ and the queue consists of a single READ entry; a READ
    that has to wait behind a READ entry at the back of the queue increments
    that entry's counter and adds no entry; every other request that has to
    wait pushes a fresh entry with count 1 to the back. *)
Theorem C3_arrival_queueing (op : Operation) (l : Lock) :
  Forall (fun e => (0 < counter e)%Z) (threadQueue l) ->
  exists w l',
    ShouldThreadWait op l = Some (w, l') /\
    (w = false <->
     CanAcquireLock op l = true /\
     (threadQueue l = [] \/
      (op = READ /\ exists e, threadQueue l = [e] /\ oper e = READ))) /\
    (w = false -> l' = l) /\
    (w = true -> op = READ ->
     forall q e, threadQueue l = q ++ [e] -> oper e = READ ->
       l' = set_threadQueue
              (q ++ [mkTuple (cond e) READ (uint_incr (counter e))]) l) /\
    (w = true ->
     (op <> READ \/ threadQueue l = [] \/
      exists q e, threadQueue l = q ++ [e] /\ oper e <> READ) ->
     l' = set_threadQueue
            (threadQueue l ++ [mkTuple (fresh_cond (threadQueue l)) op 1]) l).
Proof.
  intros Hpos. unfold ShouldThreadWait.
  destruct (queue_snoc_cases (threadQueue l))
    as [Hq|[[e Hq]|(a & b & q' & qs & e & Hq & Hsn)]].
  - (* empty queue *)
    rewrite Hq. unfold ShouldThreadWait_finish, InsertConditionTuple.
    rewrite Hq. simpl. eexists _, _. split; [done|].
    split; [| split; [| split]].
    + rewrite negb_false_iff. split; [auto | tauto].
    + by intros ->%negb_false_iff.
    + intros _ _ q e Hq'. by destruct q.
    + by intros ->.
  - (* a single entry *)
    rewrite Hq. rewrite Hq in Hpos. apply Forall_inv in Hpos.
    rewrite (ShouldThreadWait_default_snoc _ _ _ [] e Hq Hpos), Hq.
    destruct (Operation_eqb_spec op READ) as [->|Hop];
      destruct (Operation_eqb_spec (oper e) READ) as [He|He];
      destruct (CanAcquireLock _ l) eqn:Hc; simpl;
      eexists _, _; (split; [done|]);
      (split; [split; [try done | intros (? & [?|(? & e' & [= <-] & ?)]);
                                  congruence]
              | split; [try done
                       | split; [try done;
                                 intros _ _ q e' Hq' He';
                                 destruct q as [|? [|]]; try done;
                                 injection Hq' as <-; try done;
                                 by rewrite He
                                | try done]]]).
    all: try by (intros _; split; [done | right; eauto]).
    all: try by (intros _ [?|[?|(q & e' & Hq' & He')]]; try done;
                 destruct q as [|? [|]]; try done; by injection Hq' as <-).
  - (* two entries or more *)
    rewrite Hq. rewrite <- Hq.
    assert (0 < counter e)%Z as Hpe.
    { rewrite Hsn in Hpos. apply Forall_app in Hpos as [_ Hpos].
      by apply Forall_inv in Hpos. }
    rewrite (ShouldThreadWait_default_snoc _ _ _ _ e Hsn Hpe).
    destruct (Operation_eqb_spec op READ) as [->|Hop];
      destruct (Operation_eqb_spec (oper e) READ) as [He|He]; simpl;
      eexists _, _; (split; [done|]);
      (split; [split; [done | intros (? & [?|(? & e' & ? & ?)]); congruence]
              | split; [done|]]).
    + split.
      * intros _ _ q0 e0 Hq0 He0. rewrite Hsn in Hq0.
        apply app_inj_tail in Hq0 as [-> ->]. by rewrite He.
      * intros _ [?|[?|(q0 & e0 & Hq0 & He0)]]; [done | congruence |].
        rewrite Hsn in Hq0. apply app_inj_tail in Hq0 as [-> ->]. done.
    + split; [| done].
      intros _ _ q0 e0 Hq0 He0. rewrite Hsn in Hq0.
      apply app_inj_tail in Hq0 as [-> ->]. done.
    + split; [done | done].
    + split; [done | done].
Qed.

Lemma one_reader_queued_reachable : lock_reachable one_reader_queued.
Proof.
  eapply reach_step;
    [| exact (step_ReleaseExclusiveLock
                (mkLock [mkTuple 1 READ 1] 0 true None) _ _ eq_refl)].
  eapply reach_step;
    [| exact (step_Lock_enter (mkLock [] 0 true None) 2 READ
                (Sleep (mkLock [mkTuple 1 READ 1] 0 true None) 1) eq_refl)].
  eapply reach_step; [apply reach_new|].
  exact (step_Lock_enter new_lock 1 WRITE
           (Proceed (mkLock [] 0 true None) None) eq_refl).
Qed.

Lemma C3_arrival_queueing_witness :
  Forall (fun e => (0 < counter e)%Z) (threadQueue one_reader_queued) /\
  exists w l', ShouldThreadWait READ one_reader_queued = Some (w, l').
Proof.
  assert (Forall (fun e => (0 < counter e)%Z) (threadQueue one_reader_queued))
    as H by (repeat constructor).
  split; [exact H|].
  destruct (C3_arrival_queueing READ one_reader_queued H) as (w & l' & E & _).
  exists w, l'. exact E.
Defined.

(** C3 as stated fails: in the reachable state [one_reader_queued] a READ
    request goes on without queueing although the queue is not empty. *)
Lemma C3_counterexample :
  lock_reachable one_reader_queued /\
  ~ (forall w l',
       ShouldThreadWait READ one_reader_queued = Some (w, l') ->
       (w = false <->
        CanAcquireLock READ one_reader_queued = true /\
        threadQueue one_reader_queued = [])).
Proof.
  split; [apply one_reader_queued_reachable|].
  intros H. destruct (H false one_reader_queued eq_refl) as [H1 _].
  destruct (H1 eq_refl) as [_ Hq]. discriminate Hq.
Qed.

(** ** Upgrading *)

Lemma fresh_cond_gt q e : In e q -> cond e < fresh_cond q.
Proof.
  intros Hin. unfold fresh_cond.
  assert (cond e <= list_max (map cond q)); [| lia].
  pose proof (proj1 (list_max_le (map cond q) (list_max (map cond q)))
                (le_n _)) as Hall.
  rewrite List.Forall_forall in Hall. apply Hall. by apply in_map.
Qed.

Lemma fresh_cond_not_in q : ~ In (fresh_cond q) (map cond q).
Proof.
  intros (e & He & Hin)%in_map_iff. apply fresh_cond_gt in Hin. lia.
Qed.

(** Behind an upgrader's entry every arrival queues up, behind that entry. *)
Lemma ShouldThreadWait_behind_vip op l c q w l' :
  threadQueue l = mkTuple c WRITE 1 :: q ->
  ~ In c (map cond q) ->
  ShouldThreadWait op l = Some (w, l') ->
  w = true /\
  exists q' b, threadQueue l' = mkTuple c WRITE 1 :: q' /\
               ~ In c (map cond q') /\
               last (threadQueue l') = Some b /\ cond b <> c.
Proof.
  intros Hq Hc H.
  assert (forall q0, ~ In c (map cond (q0)) ->
            fresh_cond (mkTuple c WRITE 1 :: q0) <> c) as Hfresh.
  { intros q0 _ E.
    pose proof (fresh_cond_gt (mkTuple c WRITE 1 :: q0) _ (or_introl eq_refl)).
    simpl in *. lia. }
  assert (forall w0, ShouldThreadWait_finish op w0 l = Some (w, l') ->
            w0 = true ->
            w = true /\
            exists q' b, threadQueue l' = mkTuple c WRITE 1 :: q' /\
               ~ In c (map cond q') /\
               last (threadQueue l') = Some b /\ cond b <> c) as Hfin.
  { intros w0 [= <- <-] ->. split; [done|].
    unfold InsertConditionTuple. simpl. rewrite Hq.
    eexists (q ++ [_]), _. split; [done|]. split; [| split].
    - rewrite map_app, in_app_iff. simpl. intros [?|[E|[]]]; [done|].
      by apply (Hfresh q).
    - apply (last_snoc _ (mkTuple c WRITE 1 :: q)).
    - simpl. by apply Hfresh. }
  unfold ShouldThreadWait in H. rewrite Hq in H.
  destruct q as [|x q2].
  - simpl in H. rewrite orb_true_r in H. unfold ShouldThreadWait_default in H.
    rewrite Hq in H. simpl in H.
    destruct (Operation_eqb op READ); simpl in H; by eapply Hfin.
  - unfold ShouldThreadWait_default in H.
    destruct (Operation_eqb op READ); simpl in H; [| by eapply Hfin].
    destruct (exists_last (l:=x :: q2)) as (q0 & b & Eq); [done|].
    rewrite Hq, Eq, app_comm_cons, last_snoc, removelast_last in H.
    destruct (Operation_eqb (oper b) READ); [| by eapply Hfin].
    destruct (assert _); simpl in H; [| discriminate].
    injection H as <- <-. split; [done|]. simpl.
    rewrite Eq, map_app, in_app_iff in Hc. simpl in Hc.
    eexists (q0 ++ [_]), _. split; [done|]. split; [| split].
    + rewrite map_app, in_app_iff. simpl. tauto.
    + apply (last_snoc _ (mkTuple c WRITE 1 :: q0)).
    + simpl. tauto.
Qed.

Lemma Lock_enter_behind_vip t op l c q r :
  threadQueue l = mkTuple c WRITE 1 :: q ->
  ~ In c (map cond q) ->
  Lock_enter t op l = Some r ->
  exists l' c' q', r = Sleep l' c' /\ c' <> c /\ same_holders l l' /\
    threadQueue l' = mkTuple c WRITE 1 :: q' /\ ~ In c (map cond q').
Proof.
  intros Hq Hc H. unfold Lock_enter, Wait_enter in H.
  destruct (ShouldThreadWait op l) as [[w l1]|] eqn:E; simpl in H;
    [| discriminate].
  pose proof (ShouldThreadWait_holders _ _ _ _ E) as [Hs _].
  destruct (ShouldThreadWait_behind_vip _ _ _ _ _ _ Hq Hc E)
    as (-> & q' & b & Hq' & Hc' & Hl & Hb).
  simpl in H. rewrite Hl in H. simpl in H. injection H as <-.
  by exists l1, (cond b), q'.
Qed.

Lemma Lock_resume_behind_vip t c' op l c q r :
  threadQueue l = mkTuple c WRITE 1 :: q ->
  c' <> c ->
  Lock_resume t c' op l = Some r -> r = Sleep l c'.
Proof.
  intros Hq Hc H. unfold Lock_resume, Wait_resume in H. rewrite Hq in H.
  simpl in H. destruct (Nat.eqb_spec c c') as [->|_]; [done|].
  simpl in H. by injection H as <-.
Qed.

Lemma UpgradeLock_enter_may_writer t l r :
  UpgradeLock_enter t l = Some r -> mayWriterThreadId l = Some t.
Proof.
  unfold UpgradeLock_enter. intros H.
  destruct (assert (0 <? _)%Z); simpl in H; [| discriminate].
  destruct (assert (tid_eqb _ _)) eqn:Ha; simpl in H; [| discriminate].
  apply assert_Some in Ha. by apply tid_eqb_eq in Ha.
Qed.

(** While the upgrader [u] sleeps at the front of the queue, a critical
    section of another thread admits nobody and leaves [u] at the front. *)
Lemma vip_inv_step u c S t o S' :
  vip_inv u c S -> t <> u -> sys_step S t o S' ->
  (forall op, o <> Acquired op) /\ vip_inv u c S'.
Proof.
  intros ((q & Hq & Hc) & Hm & Hw & Hsl) Hne Hstep.
  destruct Hstep as [op l' n _ H|op l' c' _ H|c' op l' n Hin H
                    |c' op l' c'' Hin H|l' n _ H|l' c' _ H
                    |c' l' n Hin H|c' l' c'' Hin H|l' n _ H|l' n _ H].
  - destruct (Lock_enter_behind_vip _ _ _ _ _ _ Hq Hc H)
      as (? & ? & ? & ? & _); discriminate.
  - destruct (Lock_enter_behind_vip _ _ _ _ _ _ Hq Hc H)
      as (l1 & c1 & q' & [= <- <-] & Hc1 & (Hr1 & Hw1 & Hm1) & Hq' & Hc').
    split; [done|]. split; [by exists q'|]. simpl.
    split; [congruence|]. split; [congruence|].
    intros t0 p [[= <- <-]|Hin] Hne0;
      [by exists c', op | exact (Hsl _ _ Hin Hne0)].
  - destruct (Hsl _ _ Hin Hne) as (c0 & op0 & [= <- <-] & Hc0).
    by pose proof (Lock_resume_behind_vip _ _ _ _ _ _ _ Hq Hc0 H).
  - destruct (Hsl _ _ Hin Hne) as (c0 & op0 & [= <- <-] & Hc0).
    pose proof (Lock_resume_behind_vip _ _ _ _ _ _ _ Hq Hc0 H) as [= -> ->].
    split; [done|]. split; [by exists q|]. done.
  - apply UpgradeLock_enter_may_writer in H. congruence.
  - apply UpgradeLock_enter_may_writer in H. congruence.
  - by destruct (Hsl _ _ Hin Hne) as (c0 & op0 & ? & _).
  - by destruct (Hsl _ _ Hin Hne) as (c0 & op0 & ? & _).
  - split; [done|]. unfold ReleaseSharedLock in H.
    destruct (assert _); simpl in H; [| discriminate].
    rewrite Hm in H. simpl in H.
    destruct (0 <? _)%Z; injection H as <- _;
      (split; [by exists q | done]).
  - unfold ReleaseExclusiveLock in H. rewrite Hw in H. discriminate.
Qed.

Lemma vip_inv_run u c S os S' :
  vip_inv u c S -> run_others u S os S' ->
  Forall (fun o => forall op, o <> Acquired op) os /\ vip_inv u c S'.
Proof.
  intros Hv Hrun. induction Hrun as [S|S t o S1 os S2 Hne Hs _ IH];
    [by split|].
  destruct (vip_inv_step _ _ _ _ _ _ Hv Hne Hs) as [Ho Hv1].
  destruct (IH Hv1) as [Hos Hv2]. split; [by constructor | done].
Qed.

Lemma uint_decr_small n : (0 < n < UINT_MOD)%Z -> uint_decr n = (n - 1)%Z.
Proof. intros H. unfold uint_decr. apply Z.mod_small. lia. Qed.

(** C4: [UpgradeLock], called by the thread [u] registered as the may-writer,
    gives up the reservation in the critical section in which it tries to
    acquire; as the only shared holder it acquires WRITE at once and leaves
    the queue alone; otherwise it puts a WRITE entry at the front of the queue
    and sleeps, and from then on, whatever the other threads do, none of them
    is admitted, the last reader to leave signals the upgrader's condition
    variable, and the upgrader acquires WRITE when it wakes up with no reader
    left. *)
Theorem C4_upgrade_has_priority (u : ThreadId) (S : System) :
  lock_inv (the_lock S) ->
  mayWriterThreadId (the_lock S) = Some u ->
  (0 < readersNumber (the_lock S) < UINT_MOD)%Z ->
  all_queued S ->
  exists r l',
    UpgradeLock_enter u (the_lock S) = Some r /\
    l' = match r with Proceed l' _ | Sleep l' _ => l' end /\
    readersNumber l' = (readersNumber (the_lock S) - 1)%Z /\
    mayWriterThreadId l' = None /\
    (readersNumber (the_lock S) = 1%Z ->
     r = Proceed l' None /\ isWriterHolding l' = true /\
     threadQueue l' = threadQueue (the_lock S)) /\
    (readersNumber (the_lock S) <> 1%Z ->
     exists c,
       r = Sleep l' c /\ isWriterHolding l' = false /\
       threadQueue l' = mkTuple c WRITE 1 :: threadQueue (the_lock S) /\
       forall os S',
         run_others u (mkSystem l' ((u, InUpgradeLock c) :: sleeping S)) os S' ->
         Forall (fun o => forall op, o <> Acquired op) os /\
         (forall t l'' n,
            ReleaseSharedLock t (the_lock S') = Some (l'', n) ->
            readersNumber l'' = 0%Z -> n = Some c) /\
         (readersNumber (the_lock S') <> 0%Z ->
          UpgradeLock_resume c (the_lock S') = Some (Sleep (the_lock S') c)) /\
         (readersNumber (the_lock S') = 0%Z ->
          exists l3,
            UpgradeLock_resume c (the_lock S') = Some (Proceed l3 None) /\
            isWriterHolding l3 = true /\
            threadQueue (the_lock S') = mkTuple c WRITE 1 :: threadQueue l3)).
Proof.
  destruct S as [l sl]. simpl. intros Hi Hm Hr Hqd.
  assert (isWriterHolding l = false) as Hw.
  { apply (readers_positive_writer_free l Hi). apply Z.ltb_lt. lia. }
  unfold UpgradeLock_enter.
  assert ((0 <? readersNumber l)%Z = true) as -> by (apply Z.ltb_lt; lia).
  simpl. rewrite Hm. simpl. rewrite Nat.eqb_refl. simpl.
  unfold CanWriterAcquireLock, CanMayWriterAcquireLock, CanReaderAcquireLock.
  simpl. rewrite Hw, (uint_decr_small _ Hr). simpl. rewrite andb_true_r.
  destruct (Z.eqb_spec (readersNumber l - 1) 0) as [H0|H0]; simpl.
  - unfold UpgradeLock_finish. simpl. rewrite Hw. simpl.
    eexists _, _. split; [done|]. split; [done|]. simpl.
    repeat split; try done. intros ?; lia.
  - eexists _, _. split; [done|]. split; [done|]. simpl.
    split; [done|]. split; [done|]. split; [intros ?; lia|]. intros _.
    eexists. split; [done|]. split; [done|]. split; [done|].
    intros os S' Hrun.
    set (c := fresh_cond (threadQueue l)) in *.
    assert (vip_inv u c
              (mkSystem
                 (InsertConditionTuple WRITE true
                    (set_mayWriterThreadId None
                       (set_readersNumber (readersNumber l - 1) l)))
                 ((u, InUpgradeLock c) :: sl))) as Hv.
    { split; [| split; [done | split; [done|]]].
      - exists (threadQueue l). split; [done|]. apply fresh_cond_not_in.
      - simpl. intros t p [[= <- <-]|Hin] Hne; [done|].
        destruct (Hqd _ _ Hin) as (c' & op & -> & Hc'). simpl in Hc'.
        exists c', op. split; [done|]. intros ->.
        by apply (fresh_cond_not_in (threadQueue l)). }
    destruct (vip_inv_run _ _ _ _ _ Hv Hrun)
      as [Hos ((q & Hq & Hc) & Hm' & Hw' & _)].
    split; [done|]. split; [| split].
    + intros t l'' n H Hz. unfold ReleaseSharedLock in H.
      destruct (assert _); simpl in H; [| discriminate].
      rewrite Hm' in H. simpl in H.
      destruct (0 <? uint_decr _)%Z eqn:Hlt; injection H as <- <-.
      * simpl in Hz. rewrite Hz in Hlt. discriminate.
      * unfold TryNotifyingNext. simpl in *. rewrite Hq. simpl.
        unfold CanWriterAcquireLock, CanMayWriterAcquireLock,
          CanReaderAcquireLock. simpl. by rewrite Hz, Hm', Hw'.
    + intros Hnz. unfold UpgradeLock_resume, CanWriterAcquireLock.
      by destruct (Z.eqb_spec (readersNumber (the_lock S')) 0).
    + intros Hz. unfold UpgradeLock_resume, CanWriterAcquireLock,
        CanMayWriterAcquireLock, CanReaderAcquireLock.
      rewrite Hz, Hm', Hw', Hq. simpl.
      unfold UpgradeLock_finish. simpl. rewrite Hw'. simpl.
      by eexists.
Qed.

Lemma C4_upgrade_has_priority_witness :
  lock_inv (the_lock may_writer_and_reader) /\
  mayWriterThreadId (the_lock may_writer_and_reader) = Some 1 /\
  (0 < readersNumber (the_lock may_writer_and_reader) < UINT_MOD)%Z /\
  all_queued may_writer_and_reader /\
  exists r l', UpgradeLock_enter 1 (the_lock may_writer_and_reader) = Some r /\
               l' = match r with Proceed l' _ | Sleep l' _ => l' end.
Proof.
  assert (lock_inv (the_lock may_writer_and_reader)) as H1
    by (intros H; discriminate H).
  assert ((0 < readersNumber (the_lock may_writer_and_reader) < UINT_MOD)%Z)
    as H3 by (split; reflexivity).
  assert (all_queued may_writer_and_reader) as H4.
  { intros t p [[= <- <-]|[]]. exists 1, WRITE. split; [done | by left]. }
  split; [exact H1|]. split; [reflexivity|]. split; [exact H3|].
  split; [exact H4|].
  destruct (C4_upgrade_has_priority 1 may_writer_and_reader H1 eq_refl H3 H4)
    as (r & l' & E & El & _).
  by exists r, l'.
Defined.

(** ** Releasing a shared hold *)

(** The may-writer's [ReleaseSharedLock] takes it out of the count of
    readers and clears the may-writer identity, after which the lock state
    permits MAY_WRITE; with an empty queue the next [LockMayWrite] of any
    thread goes through at once. *)
Lemma ReleaseSharedLock_may_writer self l :
  lock_inv l ->
  mayWriterThreadId l = Some self ->
  (0 < readersNumber l < UINT_MOD)%Z ->
  exists l',
    ReleaseSharedLock self l = Some (l', TryNotifyingNext l') /\
    readersNumber l' = (readersNumber l - 1)%Z /\
    mayWriterThreadId l' = None /\
    isWriterHolding l' = false /\
    threadQueue l' = threadQueue l /\
    CanAcquireLock MAY_WRITE l' = true /\
    (threadQueue l = [] ->
     forall other, exists l'',
       LockMayWrite_enter other l' = Some (Proceed l'' None) /\
       mayWriterThreadId l'' = Some other).
Proof.
  intros Hi Hm Hr.
  assert (isWriterHolding l = false) as Hw.
  { apply (readers_positive_writer_free l Hi). apply Z.ltb_lt. lia. }
  unfold ReleaseSharedLock.
  assert ((0 <? readersNumber l)%Z = true) as -> by (apply Z.ltb_lt; lia).
  simpl. rewrite Hm. simpl. rewrite Nat.eqb_refl.
  eexists. split; [done|]. simpl. rewrite (uint_decr_small _ Hr).
  split; [done|]. split; [done|]. split; [done|]. split; [done|].
  unfold CanMayWriterAcquireLock, CanReaderAcquireLock. simpl. rewrite Hw.
  split; [done|]. intros Hq other.
  unfold LockMayWrite_enter, Lock_enter, Wait_enter, ShouldThreadWait. simpl.
  rewrite Hq. simpl.
  unfold CanMayWriterAcquireLock, CanReaderAcquireLock. simpl. rewrite Hw.
  simpl. by eexists.
Qed.

End LockProofs.

(** * Properties of the list *)

Module ListProofs.
Import RMWLock CDLL LockProofs.

(** ** Running computations *)

Lemma returns_ret {A} h (a : A) : returns h (ret a) a h.
Proof. intros s Hs. by exists s. Qed.

Lemma returns_bind {A B} h h1 h2 (m : M A) (k : A -> M B) a b :
  returns h m a h1 -> returns h1 (k a) b h2 -> returns h (bind m k) b h2.
Proof.
  intros Hm Hk s Hs. destruct (Hm s Hs) as (s1 & E1 & H1).
  destruct (Hk s1 H1) as (s2 & E2 & H2). exists s2.
  unfold bind. by rewrite E1.
Qed.

Lemma returns_load h p n : h !! p = Some n -> returns h (load p) n h.
Proof. intros Hp s <-. exists s. unfold load. by rewrite Hp. Qed.

Lemma returns_store h p n f :
  h !! p = Some n -> returns h (store p f) tt (alter f p h).
Proof. intros Hp s <-. unfold store. rewrite Hp. by eexists. Qed.

Lemma returns_alloc h n : returns h (alloc n) (length h) (h ++ [n]).
Proof. intros s <-. unfold alloc. by eexists. Qed.

Lemma returns_load_nextPtr h p q :
  next_of h p = Some q -> returns h (load_nextPtr p) q h.
Proof.
  unfold next_of. intros Hp s <-. unfold load_nextPtr, bind, load.
  destruct (heap s !! p) as [n|]; [| done]. rewrite Hp. by exists s.
Qed.

Lemma returns_load_prevPtr h p q :
  prev_of h p = Some q -> returns h (load_prevPtr p) q h.
Proof.
  unfold prev_of. intros Hp s <-. unfold load_prevPtr, bind, load.
  destruct (heap s !! p) as [n|]; [| done]. rewrite Hp. by exists s.
Qed.

(** ** Heaps *)

Lemma lookup_relock_eq l (p : NodePtr) (h : list Node) n :
  h !! p = Some n -> relock l p h !! p = Some (set_lock l n).
Proof. intros H. unfold relock. by rewrite list_lookup_alter_eq, H. Qed.

Lemma lookup_relock_ne l (p q : NodePtr) (h : list Node) :
  p <> q -> relock l p h !! q = h !! q.
Proof. intros H. unfold relock. by rewrite list_lookup_alter_ne. Qed.

Lemma alter_fixed (f : Node -> Node) (p : NodePtr) (h : list Node) n :
  h !! p = Some n -> f n = n -> alter f p h = h.
Proof.
  intros Hp Hf. apply list_eq. intros i. rewrite list_lookup_alter.
  case_decide; [subst; by rewrite Hp; simpl; rewrite Hf | done].
Qed.

Lemma set_lock_lock n : set_lock (lock n) n = n.
Proof. by destruct n. Qed.

Lemma relock_id l p h n : h !! p = Some n -> lock n = l -> relock l p h = h.
Proof.
  intros Hp <-. eapply alter_fixed; [done|]. apply set_lock_lock.
Qed.

Lemma relock_relock l l' p h : relock l p (relock l' p h) = relock l p h.
Proof. unfold relock. rewrite list_alter_alter_eq. by apply list_alter_ext. Qed.

Lemma relock_comm l l' p q h :
  p <> q -> relock l p (relock l' q h) = relock l' q (relock l p h).
Proof. intros H. unfold relock. by apply list_alter_alter_ne. Qed.

(** Releasing the lock taken on a node of a heap gives the heap back. *)
Lemma relock_release l p h n :
  h !! p = Some n -> lock n = new_lock ->
  relock new_lock p (relock l p h) = h.
Proof. intros Hp Hl. rewrite relock_relock. by eapply relock_id. Qed.

Lemma length_relock l p h : length (relock l p h) = length h.
Proof. apply length_alter. Qed.

(** The fields of the nodes that a lock call leaves alone. *)
Definition same_fields (h h' : list Node) : Prop :=
  forall q, next_of h' q = next_of h q /\ prev_of h' q = prev_of h q /\
            key_of h' q = key_of h q /\ (active_in h' q <-> active_in h q).

Lemma same_fields_relock l p h : same_fields h (relock l p h).
Proof.
  intros q. unfold next_of, prev_of, key_of, active_in, relock.
  rewrite list_lookup_alter. case_decide; [subst|]; [| tauto].
  destruct (h !! q) as [n|] eqn:E; simpl.
  - split_and!; try done.
    split; intros (n' & [= <-] & ?); eexists; (split; [done|]); done.
  - tauto.
Qed.

Lemma next_of_relock l p h q : next_of (relock l p h) q = next_of h q.
Proof. apply same_fields_relock. Qed.
Lemma prev_of_relock l p h q : prev_of (relock l p h) q = prev_of h q.
Proof. apply same_fields_relock. Qed.
Lemma key_of_relock l p h q : key_of (relock l p h) q = key_of h q.
Proof. apply same_fields_relock. Qed.

(** ** Chains *)

#[local] Instance EKey_eq_dec : EqDecision EKey.
Proof. solve_decision. Defined.

Lemma ekey_lt_irrefl a : ~ ekey_lt a a.
Proof. destruct a; simpl; lia. Qed.

Lemma ekey_lt_trans a b c : ekey_lt a b -> ekey_lt b c -> ekey_lt a c.
Proof. destruct a, b, c; simpl; lia. Qed.

Lemma ekey_head h : ekey h head = NegInf.
Proof. done. Qed.
Lemma ekey_tail h : ekey h tail = PosInf.
Proof. done. Qed.

Lemma ekey_inner h p :
  p <> head -> p <> tail -> ekey h p = Fin (key_of h p).
Proof.
  intros H1 H2. unfold ekey.
  destruct (Nat.eqb_spec p head); [done|]. by destruct (Nat.eqb_spec p tail).
Qed.

Lemma before_irrefl h a : ~ before h a a.
Proof. apply ekey_lt_irrefl. Qed.

Lemma before_head h a : before h a head -> False.
Proof. unfold before. rewrite ekey_head. by destruct (ekey h a). Qed.

Lemma before_tail h a : before h tail a -> False.
Proof. unfold before. rewrite ekey_tail. by destruct (ekey h a). Qed.

Lemma links_app h c1 a c2 :
  links h (c1 ++ a :: c2) <-> links h (c1 ++ [a]) /\ links h (a :: c2).
Proof.
  induction c1 as [|x c1 IH]; simpl; [tauto|].
  destruct c1 as [|y c1]; simpl in *; [tauto|]. rewrite IH. tauto.
Qed.

Lemma links_middle h c1 a b c2 :
  links h (c1 ++ a :: b :: c2) -> linked h a b.
Proof. rewrite links_app. by intros [_ [? _]]. Qed.

(** Links only look at [nextPtr] of the nodes that have a successor in the
    list and at [prevPtr] of those that have a predecessor. *)
Lemma links_ext h h' c :
  (forall q, In q (removelast c) -> next_of h' q = next_of h q) ->
  (forall q, In q (tl c) -> prev_of h' q = prev_of h q) ->
  links h c -> links h' c.
Proof.
  induction c as [|a [|b c] IH]; [done..|].
  intros Hn Hp [[Hab Hba] Hl]. split.
  - split.
    + rewrite Hn; [done | by left].
    + rewrite Hp; [done | by left].
  - apply IH; [| | done].
    + intros q Hq. apply Hn. by right.
    + intros q Hq. apply Hp. simpl. simpl in Hq. by right.
Qed.

Lemma sorted_ext h h' c :
  (forall a, In a c -> ekey h' a = ekey h a) ->
  StronglySorted (before h) c -> StronglySorted (before h') c.
Proof.
  intros He Hs. induction Hs as [|a c Hs IH Ha]; [constructor|].
  constructor.
  - apply IH. intros b Hb. apply He. by right.
  - rewrite Forall_forall in *. intros b Hb. unfold before.
    rewrite !He; [by apply Ha | right; by apply list_elem_of_In | by left].
Qed.

Lemma sorted_split {A} (R : relation A) c1 a c2 :
  StronglySorted R (c1 ++ a :: c2) ->
  Forall (fun x => R x a) c1 /\ Forall (R a) c2.
Proof.
  rewrite StronglySorted_app, StronglySorted_cons.
  intros (H1 & _ & H2 & _). split; [| done].
  apply Forall_forall. intros x Hx. apply H1; [done | by left].
Qed.

Lemma sorted_middle {A} (R : relation A) c1 a b c2 :
  StronglySorted R (c1 ++ a :: b :: c2) -> R a b.
Proof. intros [_ H]%sorted_split. by apply Forall_inv in H. Qed.

Lemma sorted_remove {A} (R : relation A) c1 a c2 :
  StronglySorted R (c1 ++ a :: c2) -> StronglySorted R (c1 ++ c2).
Proof.
  rewrite !StronglySorted_app, StronglySorted_cons.
  intros (H1 & ? & _ & ?). split_and!; try done.
  intros x y Hx Hy. apply H1; [done | by right].
Qed.

Lemma sorted_insert {A} (R : relation A) `{!Transitive R} c1 a x b c2 :
  StronglySorted R (c1 ++ a :: b :: c2) -> R a x -> R x b ->
  StronglySorted R (c1 ++ a :: x :: b :: c2).
Proof.
  rewrite !StronglySorted_app, !StronglySorted_cons, !Forall_cons.
  intros (H1 & ? & (Hab & Hac) & Hbc & ?) Hax Hxb.
  assert (Forall (R x) c2) as Hxc.
  { eapply Forall_impl; [exact Hbc|]. intros y ?. by transitivity b. }
  split_and!; try done.
  intros y z Hy Hz. apply elem_of_cons in Hz as [->|Hz].
  - apply H1; [done | by left].
  - apply elem_of_cons in Hz as [->|Hz]; [| by apply H1; [| right]].
    transitivity a; [| done]. apply H1; [done | by left].
Qed.

#[local] Instance before_trans h : Transitive (before h).
Proof. intros a b c. apply ekey_lt_trans. Qed.

Lemma ends_snoc c1 a : ends (c1 ++ [a]) -> a = tail.
Proof. intros [_ H]. rewrite last_snoc in H. congruence. Qed.

Lemma ends_cons a c2 : ends (a :: c2) -> a = head.
Proof. intros [H _]. simpl in H. congruence. Qed.

(** In a chain, a node that is followed by another one is not the tail
    sentinel, and a node that follows another one is not the head sentinel. *)
Lemma chain_not_tail h c1 a b c2 :
  StronglySorted (before h) (c1 ++ a :: b :: c2) -> a <> tail.
Proof. intros H%sorted_middle ->. by apply before_tail in H. Qed.

Lemma chain_not_head h c1 a b c2 :
  StronglySorted (before h) (c1 ++ a :: b :: c2) -> b <> head.
Proof. intros H%sorted_middle ->. by apply before_head in H. Qed.

Lemma chain_has_next c1 a c2 :
  ends (c1 ++ a :: c2) -> a <> tail -> exists b c2', c2 = b :: c2'.
Proof.
  intros He Ha. destruct c2 as [|b c2']; [| by eauto].
  by apply ends_snoc in He.
Qed.

Lemma chain_has_prev c1 a c2 :
  ends (c1 ++ a :: c2) -> a <> head -> exists c1' b, c1 = c1' ++ [b].
Proof.
  intros He Ha. destruct c1 as [|x c1] using rev_ind; [| by eauto].
  by apply ends_cons in He.
Qed.

Lemma chain_node h c p :
  is_chain h c -> In p c ->
  exists n, h !! p = Some n /\ isNodeActive n = true.
Proof.
  intros (_ & _ & _ & Ha & _) Hin. rewrite Forall_forall in Ha.
  apply Ha. by apply list_elem_of_In.
Qed.

Lemma free_lock h (p : NodePtr) n :
  locks_free h -> h !! p = Some n -> lock n = new_lock.
Proof.
  intros Hf Hp. unfold locks_free in Hf. rewrite Forall_forall in Hf.
  apply Hf. by eapply list_elem_of_lookup_2.
Qed.

Lemma in_middle {A} (c1 : list A) a c2 : In a (c1 ++ a :: c2).
Proof. apply in_or_app. right. by left. Qed.

Lemma in_middle2 {A} (c1 : list A) a b c2 : In b (c1 ++ a :: b :: c2).
Proof. apply in_or_app. right. right. by left. Qed.

(** The loop test of [FindKey]. *)
Lemma FindKey_test h (next : NodePtr) n key0 :
  h !! next = Some n ->
  ((key n <? key0)%Z && negb (Nat.eqb next tail) || Nat.eqb next head = true
   <-> ekey_lt (ekey h next) (Fin key0)).
Proof.
  intros Hn. unfold ekey, key_of. rewrite Hn.
  destruct (Nat.eqb_spec next head) as [->|Hh]; simpl.
  - rewrite orb_true_r. tauto.
  - rewrite orb_false_r.
    destruct (Nat.eqb_spec next tail); simpl.
    + rewrite andb_false_r. split; [done | tauto].
    + rewrite andb_true_r. apply Z.ltb_lt.
Qed.

(** ** Splicing a node in *)

Lemma lookup_spliced_in h prev next k v (q : NodePtr) :
  spliced_in h prev next k v !! q =
  if decide (q = length h) then Some (new_Node k v (Some prev) (Some next))
  else if decide (next = q) then
    set_prevPtr (Some (length h)) <$>
      (if decide (prev = q) then set_nextPtr (Some (length h)) <$> h !! q
       else h !! q)
  else if decide (prev = q) then set_nextPtr (Some (length h)) <$> h !! q
  else h !! q.
Proof.
  unfold spliced_in. rewrite lookup_app, !length_alter, !list_lookup_alter.
  destruct (decide (q = length h)) as [->|Hq].
  - repeat case_decide; subst; rewrite ?Nat.sub_diag;
      rewrite ?(lookup_ge_None_2 h (length h)) by lia; done.
  - destruct (h !! q) as [n|] eqn:E.
    + repeat case_decide; subst; by rewrite ?E.
    + apply lookup_ge_None in E.
      assert (q - length h = S (q - length h - 1)) as -> by lia.
      repeat case_decide; subst;
        rewrite ?(lookup_ge_None_2 h _ E); simpl; done.
Qed.

Section SplicedIn.
Context (h : list Node) (prev next : NodePtr) (k : Z) (v : ascii).
Context (np nn : Node).
Hypothesis Hnp : h !! prev = Some np.
Hypothesis Hnn : h !! next = Some nn.
Hypothesis Hne : prev <> next.

Let h' := spliced_in h prev next k v.
Let new : NodePtr := length h.

Lemma prev_in_heap : prev < length h.
Proof. by eapply lookup_lt_Some. Qed.
Lemma next_in_heap : next < length h.
Proof. by eapply lookup_lt_Some. Qed.

Lemma next_of_spliced_in_prev : next_of h' prev = Some new.
Proof.
  pose proof prev_in_heap. unfold next_of, h', new in *. rewrite lookup_spliced_in.
  repeat case_decide; try lia; try congruence. by rewrite Hnp.
Qed.

Lemma next_of_spliced_in_new : next_of h' new = Some next.
Proof.
  unfold next_of, h', new in *. rewrite lookup_spliced_in. by case_decide.
Qed.

Lemma next_of_spliced_in_other q :
  q <> prev -> q <> new -> next_of h' q = next_of h q.
Proof.
  intros H1 H2. unfold next_of, h', new in *. rewrite lookup_spliced_in.
  repeat case_decide; try congruence. subst. by rewrite Hnn.
Qed.

Lemma prev_of_spliced_in_next : prev_of h' next = Some new.
Proof.
  pose proof next_in_heap. unfold prev_of, h', new in *. rewrite lookup_spliced_in.
  repeat case_decide; try lia; try congruence. by rewrite Hnn.
Qed.

Lemma prev_of_spliced_in_new : prev_of h' new = Some prev.
Proof.
  unfold prev_of, h', new in *. rewrite lookup_spliced_in. by case_decide.
Qed.

Lemma prev_of_spliced_in_other q :
  q <> next -> q <> new -> prev_of h' q = prev_of h q.
Proof.
  intros H1 H2. unfold prev_of, h', new in *. rewrite lookup_spliced_in.
  repeat case_decide; try congruence. subst. by rewrite Hnp.
Qed.

Lemma key_of_spliced_in_new : key_of h' new = k.
Proof.
  unfold key_of, h', new in *. rewrite lookup_spliced_in. by case_decide.
Qed.

Lemma key_of_spliced_in_other q : q <> new -> key_of h' q = key_of h q.
Proof.
  intros H1. unfold key_of, h', new in *. rewrite lookup_spliced_in.
  repeat case_decide; try congruence; subst; by rewrite ?Hnn, ?Hnp.
Qed.

Lemma ekey_spliced_in_other q : q <> new -> ekey h' q = ekey h q.
Proof. intros H. unfold ekey. by rewrite key_of_spliced_in_other. Qed.

Lemma active_in_spliced_in_new : active_in h' new.
Proof.
  unfold active_in, h', new in *. rewrite lookup_spliced_in.
  case_decide; [by eexists | done].
Qed.

Lemma active_in_spliced_in_other q : active_in h q -> active_in h' q.
Proof.
  intros (n & Hn & Ha). pose proof (lookup_lt_Some _ _ _ Hn).
  unfold active_in, h', new in *. rewrite lookup_spliced_in.
  repeat case_decide; try lia; subst; rewrite Hn; simpl; by eexists.
Qed.

Lemma locks_free_spliced_in : locks_free h -> locks_free h'.
Proof.
  unfold locks_free. rewrite !Forall_lookup. intros Hf q n.
  unfold h'. rewrite lookup_spliced_in.
  repeat case_decide; subst.
  - by intros [= <-].
  - rewrite Hnp. by intros [= <-].
  - rewrite Hnn. simpl. intros [= <-]. simpl. by apply (Hf _ _ Hnn).
  - rewrite Hnp. simpl. intros [= <-]. simpl. by apply (Hf _ _ Hnp).
  - apply Hf.
Qed.

End SplicedIn.

Lemma last_skip {A} (l : list A) a b c2 :
  last (l ++ a :: b :: c2) = last (b :: c2).
Proof.
  rewrite last_app, (last_cons a). destruct (last (b :: c2)) eqn:E; [done|].
  rewrite last_cons in E. by destruct (last c2).
Qed.

Lemma hd_error_skip {A} (l : list A) a r r' :
  hd_error (l ++ a :: r) = hd_error (l ++ a :: r').
Proof. by destruct l. Qed.

Lemma ends_middle c1 a x b c2 :
  ends (c1 ++ a :: b :: c2) <-> ends (c1 ++ a :: x :: b :: c2).
Proof.
  unfold ends. rewrite (hd_error_skip c1 a (b :: c2) (x :: b :: c2)).
  rewrite last_skip.
  assert (last (c1 ++ a :: x :: b :: c2) = last (b :: c2)) as ->; [| done].
  change (c1 ++ a :: x :: b :: c2) with (c1 ++ [a] ++ x :: b :: c2).
  by rewrite app_assoc, last_skip.
Qed.

Lemma chain_in_heap h c p : is_chain h c -> In p c -> p < length h.
Proof.
  intros Hc Hin. destruct (chain_node _ _ _ Hc Hin) as (n & Hn & _).
  by eapply lookup_lt_Some.
Qed.

Lemma ends_head_in c : ends c -> In head c.
Proof. intros [H _]. destruct c; [done|]. injection H as ->. by left. Qed.

Lemma ends_tail_in c : ends c -> In tail c.
Proof.
  intros [_ H]. apply list_elem_of_In. rewrite list_elem_of_lookup.
  rewrite last_lookup in H. by eexists.
Qed.

Lemma ekey_lt_total a b : ~ ekey_lt a b -> a <> b -> ekey_lt b a.
Proof.
  destruct a, b; simpl; try tauto; try congruence.
  intros H1 H2. assert (k <> k0) by congruence. lia.
Qed.

(** Linking a new node in between two adjacent nodes of the chain of a
    list gives the chain of a list. *)
Lemma spliced_in_chain h c1 prev next c2 k v :
  is_chain h (c1 ++ prev :: next :: c2) ->
  ekey_lt (ekey h prev) (Fin k) ->
  ekey_lt (Fin k) (ekey h next) ->
  is_chain (spliced_in h prev next k v)
    (c1 ++ prev :: length h :: next :: c2).
Proof.
  intros Hc Hlo Hhi. pose proof Hc as (He & Hl & Hs & Ha & Hp & Hn).
  set (c := c1 ++ prev :: next :: c2) in *.
  destruct (chain_node _ _ prev Hc) as (np & Hnp & _); [apply in_middle|].
  destruct (chain_node _ _ next Hc) as (nn & Hnn & _); [apply in_middle2|].
  destruct (sorted_split _ _ _ _ Hs) as [Hc1 Hc2].
  apply Forall_cons in Hc2 as [Hpn Hc2].
  assert (prev <> next) as Hne by (intros ->; by apply before_irrefl in Hpn).
  assert (forall q, In q c -> q <> length h) as Hfresh.
  { intros q Hq%(chain_in_heap _ _ _ Hc). lia. }
  pose proof (Hfresh _ (ends_head_in _ He)) as Hhead.
  pose proof (Hfresh _ (ends_tail_in _ He)) as Htail.
  assert (forall q, In q c1 -> q <> prev /\ q <> next /\ q <> length h) as Hq1.
  { intros q Hq. rewrite Forall_forall in Hc1.
    pose proof (Hc1 q (proj2 (list_elem_of_In _ _) Hq)) as Hb.
    split_and!.
    - intros ->. by apply before_irrefl in Hb.
    - intros ->. apply (before_irrefl h next). by transitivity prev.
    - apply Hfresh. apply in_or_app. by left. }
  assert (Forall (before h next) c2) as Hnc2.
  { assert (c = (c1 ++ [prev]) ++ next :: c2) as Ec
      by (unfold c; by rewrite <- app_assoc).
    pose proof Hs as Hs'. rewrite Ec in Hs'.
    by apply sorted_split in Hs' as [_ ?]. }
  assert (forall q, In q c2 -> q <> prev /\ q <> next /\ q <> length h) as Hq2.
  { intros q Hq. rewrite Forall_forall in Hc2, Hnc2.
    pose proof (Hc2 q (proj2 (list_elem_of_In _ _) Hq)) as Hb.
    pose proof (Hnc2 q (proj2 (list_elem_of_In _ _) Hq)) as Hb'.
    split_and!.
    - intros ->. by apply before_irrefl in Hb.
    - intros ->. by apply before_irrefl in Hb'.
    - apply Hfresh. apply in_or_app. right. right. by right. }
  assert (ekey (spliced_in h prev next k v) (length h) = Fin k) as Hknew.
  { rewrite ekey_inner by done. f_equal. by eapply key_of_spliced_in_new. }
  split_and!.
  - by apply (ends_middle c1 prev (length h) next c2).
  - change (c1 ++ prev :: length h :: next :: c2)
      with (c1 ++ prev :: [length h] ++ next :: c2).
    apply links_app. split; [| split; [| apply links_app; split]].
    + unfold c in Hl. apply links_app in Hl as [Hl _].
      revert Hl. apply links_ext.
      * intros q Hq. rewrite removelast_last in Hq.
        destruct (Hq1 q Hq) as (? & ? & ?).
        by eapply next_of_spliced_in_other.
      * intros q Hq. assert (In q (c1 ++ [prev])) as Hq'
          by (destruct c1; [done | by right]).
        apply in_app_or in Hq' as [Hq'|[<-|[]]].
        -- destruct (Hq1 q Hq') as (? & ? & ?).
           by eapply prev_of_spliced_in_other.
        -- eapply prev_of_spliced_in_other; eauto using in_middle.
    + split; [by eapply next_of_spliced_in_prev
             | by eapply prev_of_spliced_in_new].
    + simpl. split; [| done].
      split; [by eapply next_of_spliced_in_new
             | by eapply prev_of_spliced_in_next].
    + unfold c in Hl. apply links_app in Hl as [_ [_ Hl]].
      revert Hl. apply links_ext.
      * intros q Hq. assert (In q (next :: c2)) as [<-|Hq'].
        { clear -Hq. revert Hq. generalize (next :: c2). intros l.
          induction l as [|x [|y l] IH]; simpl; [done..|].
          intros [<-|Hq]; [by left | right; by apply IH]. }
        -- eapply next_of_spliced_in_other; eauto using in_middle2.
        -- destruct (Hq2 q Hq') as (? & ? & ?).
           by eapply next_of_spliced_in_other.
      * intros q Hq. simpl in Hq. destruct (Hq2 q Hq) as (? & ? & ?).
        by eapply prev_of_spliced_in_other.
  - pose proof (ekey_spliced_in_other h prev next k v np nn Hnp Hnn Hne)
      as Hek.
    apply sorted_insert; [apply _ | | |].
    + revert Hs. apply sorted_ext. intros a Ha'. apply Hek. by apply Hfresh.
    + unfold before. rewrite Hknew, Hek; [done | apply Hfresh, in_middle].
    + unfold before. rewrite Hknew, Hek; [done | apply Hfresh, in_middle2].
  - rewrite Forall_forall in Ha. apply Forall_forall. intros q Hq.
    apply list_elem_of_In, in_app_or in Hq as [Hq|[<-|[<-|Hq]]].
    + eapply active_in_spliced_in_other; eauto. apply Ha, list_elem_of_In.
      apply in_or_app. by left.
    + eapply active_in_spliced_in_other; eauto. apply Ha, list_elem_of_In.
      apply in_middle.
    + by eapply active_in_spliced_in_new.
    + eapply active_in_spliced_in_other; eauto. apply Ha, list_elem_of_In.
      apply in_or_app. right. by right.
  - erewrite prev_of_spliced_in_other; eauto.
    intros Heq. unfold c in Hs. apply chain_not_head in Hs. congruence.
  - erewrite next_of_spliced_in_other; eauto.
    intros Heq. unfold c in Hs. apply chain_not_tail in Hs. congruence.
Qed.

(** ** Splicing a node out *)

Section SplicedOut.
Context (h : list Node) (prev del next : NodePtr).
Context (np nd nn : Node).
Hypothesis Hnp : h !! prev = Some np.
Hypothesis Hnd : h !! del = Some nd.
Hypothesis Hnn : h !! next = Some nn.
Hypothesis Hpd : prev <> del.
Hypothesis Hdn : del <> next.
Hypothesis Hpn : prev <> next.

Lemma lookup_spliced_out (q : NodePtr) :
  spliced_out h prev del next !! q =
  if decide (q = prev) then Some (set_nextPtr (Some next) np)
  else if decide (q = del) then Some (set_isNodeActive false nd)
  else if decide (q = next) then Some (set_prevPtr (Some prev) nn)
  else h !! q.
Proof using All.
  unfold spliced_out. rewrite !list_lookup_alter.
  repeat case_decide; subst; try congruence; by rewrite ?Hnp, ?Hnd, ?Hnn.
Qed.

Lemma next_of_spliced_out_prev :
  next_of (spliced_out h prev del next) prev = Some next.
Proof using All.
  unfold next_of. rewrite lookup_spliced_out. by case_decide.
Qed.

Lemma next_of_spliced_out_other q :
  q <> prev -> next_of (spliced_out h prev del next) q = next_of h q.
Proof using All.
  intros H. unfold next_of. rewrite lookup_spliced_out.
  repeat case_decide; subst; try congruence; by rewrite ?Hnd, ?Hnn.
Qed.

Lemma prev_of_spliced_out_next :
  prev_of (spliced_out h prev del next) next = Some prev.
Proof using All.
  unfold prev_of. rewrite lookup_spliced_out.
  repeat case_decide; subst; done.
Qed.

Lemma prev_of_spliced_out_other q :
  q <> next -> prev_of (spliced_out h prev del next) q = prev_of h q.
Proof using All.
  intros H. unfold prev_of. rewrite lookup_spliced_out.
  repeat case_decide; subst; try congruence; by rewrite ?Hnd, ?Hnp.
Qed.

Lemma key_of_spliced_out q :
  key_of (spliced_out h prev del next) q = key_of h q.
Proof using All.
  unfold key_of. rewrite lookup_spliced_out.
  repeat case_decide; subst; by rewrite ?Hnd, ?Hnp, ?Hnn.
Qed.

Lemma ekey_spliced_out q : ekey (spliced_out h prev del next) q = ekey h q.
Proof using All. unfold ekey. by rewrite key_of_spliced_out. Qed.

Lemma active_in_spliced_out q :
  q <> del -> active_in h q -> active_in (spliced_out h prev del next) q.
Proof using All.
  intros H (n & Hn & Ha). unfold active_in. rewrite lookup_spliced_out.
  repeat case_decide; subst; try congruence; eexists; (split; [done|]);
    simpl; congruence.
Qed.

Lemma locks_free_spliced_out :
  locks_free h -> locks_free (spliced_out h prev del next).
Proof using All.
  unfold locks_free. rewrite !Forall_lookup. intros Hf q n.
  rewrite lookup_spliced_out.
  repeat case_decide; subst; try (intros [= <-]; simpl; by eapply Hf).
  apply Hf.
Qed.

End SplicedOut.

(** Unlinking a node of the chain that is not a sentinel gives the chain of
    a list. *)
Lemma spliced_out_chain h c1 prev del next c2 :
  is_chain h (c1 ++ prev :: del :: next :: c2) ->
  is_chain (spliced_out h prev del next) (c1 ++ prev :: next :: c2).
Proof.
  intros Hc. pose proof Hc as (He & Hl & Hs & Ha & Hp & Hn).
  set (c := c1 ++ prev :: del :: next :: c2) in *.
  assert (c = (c1 ++ [prev]) ++ del :: next :: c2) as Ec
    by (unfold c; by rewrite <- app_assoc).
  destruct (chain_node _ _ prev Hc) as (np & Hnp & _); [apply in_middle|].
  destruct (chain_node _ _ del Hc) as (nd & Hnd & _); [apply in_middle2|].
  destruct (chain_node _ _ next Hc) as (nn & Hnn & _);
    [rewrite Ec; apply in_middle2|].
  destruct (sorted_split _ _ _ _ Hs) as [Hc1 Hc2].
  apply Forall_cons in Hc2 as [Hpd Hc2]. apply Forall_cons in Hc2 as [Hpn Hc2].
  pose proof Hs as Hs'. rewrite Ec in Hs'.
  destruct (sorted_split _ _ _ _ Hs') as [Hd1 Hd2].
  apply Forall_cons in Hd2 as [Hdn Hd2].
  assert (prev <> del) as Hne1 by (intros ->; by apply before_irrefl in Hpd).
  assert (del <> next) as Hne2 by (intros ->; by apply before_irrefl in Hdn).
  assert (prev <> next) as Hne3 by (intros ->; by apply before_irrefl in Hpn).
  assert (forall q, In q c1 -> q <> prev /\ q <> del /\ q <> next) as Hq1.
  { intros q Hq. rewrite Forall_forall in Hc1.
    pose proof (Hc1 q (proj2 (list_elem_of_In _ _) Hq)) as Hb.
    split_and!; intros ->.
    - by apply before_irrefl in Hb.
    - apply (before_irrefl h del). by transitivity prev.
    - apply (before_irrefl h next). by transitivity prev. }
  assert (Forall (before h next) c2) as He2.
  { assert (c = (c1 ++ [prev; del]) ++ next :: c2) as Ec2
      by (unfold c; by rewrite <- app_assoc).
    pose proof Hs as Hs2. rewrite Ec2 in Hs2.
    by apply sorted_split in Hs2 as [_ ?]. }
  assert (forall q, In q c2 -> q <> prev /\ q <> del /\ q <> next) as Hq2.
  { intros q Hq. rewrite Forall_forall in Hc2, Hd2, He2.
    pose proof (Hc2 q (proj2 (list_elem_of_In _ _) Hq)) as Hb.
    pose proof (Hd2 q (proj2 (list_elem_of_In _ _) Hq)) as Hb'.
    pose proof (He2 q (proj2 (list_elem_of_In _ _) Hq)) as Hb''.
    split_and!; intros ->.
    - by apply before_irrefl in Hb.
    - by apply before_irrefl in Hb'.
    - by apply before_irrefl in Hb''. }
  pose proof (next_of_spliced_out_other h prev del next np nd nn
                Hnp Hnd Hnn Hne1 Hne2 Hne3) as Hnext.
  pose proof (prev_of_spliced_out_other h prev del next np nd nn
                Hnp Hnd Hnn Hne1 Hne2 Hne3) as Hprev.
  split_and!.
  - by apply (ends_middle c1 prev del next c2).
  - apply links_app. split; [| split].
    + unfold c in Hl. apply links_app in Hl as [Hl _].
      revert Hl. apply links_ext.
      * intros q Hq. rewrite removelast_last in Hq.
        destruct (Hq1 q Hq) as (? & ? & ?). by apply Hnext.
      * intros q Hq. assert (In q (c1 ++ [prev])) as Hq'
          by (destruct c1; [done | by right]).
        apply in_app_or in Hq' as [Hq'|[<-|[]]].
        -- destruct (Hq1 q Hq') as (? & ? & ?). by apply Hprev.
        -- by apply Hprev.
    + split; [by eapply next_of_spliced_out_prev
             | by eapply prev_of_spliced_out_next].
    + rewrite Ec in Hl. apply links_app in Hl as [_ [_ Hl]].
      revert Hl. apply links_ext.
      * intros q Hq. assert (In q (next :: c2)) as [<-|Hq'].
        { clear -Hq. revert Hq. generalize (next :: c2). intros l.
          induction l as [|x [|y l] IH]; simpl; [done..|].
          intros [<-|Hq]; [by left | right; by apply IH]. }
        -- by apply Hnext.
        -- destruct (Hq2 q Hq') as (? & ? & ?). by apply Hnext.
      * intros q Hq. simpl in Hq. destruct (Hq2 q Hq) as (? & ? & ?).
        by apply Hprev.
  - rewrite Ec in Hs. apply sorted_remove in Hs. rewrite <- app_assoc in Hs.
    revert Hs. apply sorted_ext. intros a _.
    by eapply ekey_spliced_out.
  - rewrite Forall_forall in Ha. apply Forall_forall. intros q Hq.
    apply list_elem_of_In, in_app_or in Hq as [Hq|[<-|[<-|Hq]]].
    + destruct (Hq1 q Hq) as (? & ? & ?).
      eapply active_in_spliced_out; eauto. apply Ha, list_elem_of_In.
      apply in_or_app. by left.
    + eapply active_in_spliced_out; eauto. apply Ha, list_elem_of_In.
      apply in_middle.
    + eapply active_in_spliced_out; eauto. apply Ha, list_elem_of_In.
      rewrite Ec. apply in_middle2.
    + destruct (Hq2 q Hq) as (? & ? & ?).
      eapply active_in_spliced_out; eauto. apply Ha, list_elem_of_In.
      apply in_or_app. right. right. right. by right.
  - rewrite Hprev; [done|].
    intros Heq. rewrite Ec in Hs. apply chain_not_head in Hs. congruence.
  - rewrite Hnext; [done|].
    intros Heq. apply chain_not_tail in Hs. congruence.
Qed.

Section Thread.
Variable self : ThreadId.

Abbreviation MW := (held_MAY_WRITE self).
Abbreviation RD := held_READ.
Abbreviation WR := held_WRITE.

Lemma returns_lock_call h p e m n l' notified :
  h !! p = Some n ->
  m (lock n) = Some (Proceed l' notified) ->
  returns h (lock_call p e m) tt (relock l' p h).
Proof.
  intros Hp Hm s <-. unfold lock_call, bind, load, store, log.
  rewrite Hp, Hm. simpl. rewrite Hp. by eexists.
Qed.

Lemma returns_release_call h p e m n l' notified :
  h !! p = Some n ->
  m (lock n) = Some (l', notified) ->
  returns h (release_call p e m) tt (relock l' p h).
Proof.
  intros Hp Hm s <-. unfold release_call, bind, load, store, log.
  rewrite Hp, Hm. simpl. rewrite Hp. by eexists.
Qed.

Lemma returns_LockRead h p n :
  h !! p = Some n -> lock n = new_lock ->
  returns h (LockRead self p) tt (relock RD p h).
Proof. intros Hp Hl. eapply returns_lock_call; [done|]. by rewrite Hl. Qed.

Lemma returns_LockMayWrite h p n :
  h !! p = Some n -> lock n = new_lock ->
  returns h (LockMayWrite self p) tt (relock MW p h).
Proof.
  intros Hp Hl. eapply returns_lock_call; [done|]. rewrite Hl.
  unfold LockMayWrite_enter, Lock_enter. simpl. reflexivity.
Qed.

Lemma returns_LockWrite h p n :
  h !! p = Some n -> lock n = new_lock ->
  returns h (LockWrite self p) tt (relock WR p h).
Proof. intros Hp Hl. eapply returns_lock_call; [done|]. by rewrite Hl. Qed.

Lemma returns_UpgradeLock h p n :
  h !! p = Some n -> lock n = MW ->
  returns h (UpgradeLock self p) tt (relock WR p h).
Proof.
  intros Hp Hl. eapply returns_lock_call; [done|]. rewrite Hl.
  unfold UpgradeLock_enter. simpl. rewrite Nat.eqb_refl. simpl. reflexivity.
Qed.

Lemma returns_ReleaseSharedLock h p n :
  h !! p = Some n -> lock n = MW \/ lock n = RD ->
  returns h (ReleaseSharedLock self p) tt (relock new_lock p h).
Proof.
  intros Hp [Hl|Hl]; (eapply returns_release_call; [done|]); rewrite Hl;
    unfold RMWLock.ReleaseSharedLock; simpl; rewrite ?Nat.eqb_refl;
    reflexivity.
Qed.

Lemma returns_ReleaseExclusiveLock h p n :
  h !! p = Some n -> lock n = WR ->
  returns h (ReleaseExclusiveLock p) tt (relock new_lock p h).
Proof.
  intros Hp Hl. eapply returns_release_call; [done|]. by rewrite Hl.
Qed.

(** ** Traversal in may-write mode *)

(** [FindKey]'s loop, started on two adjacent nodes [prev] and [next] of
    the chain that the thread holds in MAY_WRITE: it passes the nodes below
    [key0] and stops at the first node [next'] that is not below [key0],
    holding [next'] and its predecessor. *)
Lemma FindKey_loop_may_write h0 c key0 :
  is_chain h0 c -> locks_free h0 ->
  forall fuel c1 prev next c2,
    c = c1 ++ prev :: next :: c2 ->
    length c2 < fuel ->
    exists passed next' c2',
      next :: c2 = passed ++ next' :: c2' /\
      Forall (fun x => ekey_lt (ekey h0 x) (Fin key0)) passed /\
      ~ ekey_lt (ekey h0 next') (Fin key0) /\
      returns (relock MW next (relock MW prev h0))
        (FindKey_loop self fuel key0 false prev next)
        (default prev (last passed), next')
        (relock MW next' (relock MW (default prev (last passed)) h0)).
Proof.
  intros Hc Hf. pose proof Hc as (He & Hl & Hs & _).
  induction fuel as [|fuel IH]; intros c1 prev next c2 Ec Hlen;
    [simpl in Hlen; lia|].
  destruct (chain_node _ _ prev Hc) as (np & Hnp & _);
    [rewrite Ec; apply in_middle|].
  destruct (chain_node _ _ next Hc) as (nn & Hnn & _);
    [rewrite Ec; apply in_middle2|].
  assert (prev <> next) as Hpn.
  { intros ->. rewrite Ec in Hs. apply sorted_middle in Hs.
    by apply before_irrefl in Hs. }
  assert (relock MW next (relock MW prev h0) !! next = Some (set_lock MW nn))
    as Hnext.
  { apply lookup_relock_eq. by rewrite lookup_relock_ne. }
  simpl FindKey_loop.
  destruct ((key nn <? key0)%Z && negb (Nat.eqb next tail)
            || Nat.eqb next head) eqn:Ht.
  - (* the node is below the key: advance *)
    apply (FindKey_test h0 next nn key0 Hnn) in Ht.
    assert (next <> tail) as Hnt.
    { intros ->. by rewrite ekey_tail in Ht. }
    destruct (chain_has_next (c1 ++ [prev]) next c2) as (next2 & c2r & ->);
      [by rewrite <- app_assoc; simpl; rewrite <- Ec | done |].
    assert (c = (c1 ++ [prev]) ++ next :: next2 :: c2r) as Ec'
      by (by rewrite <- app_assoc).
    destruct (IH (c1 ++ [prev]) next next2 c2r Ec')
      as (passed & next' & c2' & Esplit & Hpassed & Hstop & Hret);
      [simpl in Hlen; lia|].
    destruct (chain_node _ _ next2 Hc) as (n2 & Hn2 & _);
      [rewrite Ec'; apply in_middle2|].
    assert (next <> next2) as Hnn2.
    { intros ->. rewrite Ec' in Hs. apply sorted_middle in Hs.
      by apply before_irrefl in Hs. }
    exists (next :: passed), next', c2'. split; [by rewrite Esplit|].
    split; [by constructor|]. split; [done|].
    assert (default prev (last (next :: passed)) = default next (last passed))
      as -> by (rewrite last_cons; by destruct (last passed)).
    eapply returns_bind; [by apply returns_load|]. simpl.
    apply (FindKey_test h0 next nn key0 Hnn) in Ht. rewrite Ht.
    eapply returns_bind.
    { unfold AdvanceAndLockReadMayWrite.
      eapply returns_bind.
      { eapply returns_ReleaseSharedLock;
          [rewrite lookup_relock_ne by done; by apply lookup_relock_eq
          | by left]. }
      rewrite (relock_comm _ _ prev next), relock_relock,
        (relock_id _ prev h0 np) by eauto using free_lock.
      eapply returns_bind.
      { apply returns_load_nextPtr. rewrite next_of_relock.
        rewrite Ec' in Hl. by apply links_middle in Hl as [? _]. }
      eapply returns_bind.
      { eapply returns_LockMayWrite.
        - by rewrite lookup_relock_ne.
        - by eapply free_lock. }
      apply returns_ret. }
    exact Hret.
  - (* the node is not below the key: stop *)
    exists [], next, c2. split; [done|]. split; [done|]. split.
    + intros Hlt. apply (FindKey_test h0 next nn key0 Hnn) in Hlt. congruence.
    + eapply returns_bind; [by apply returns_load|]. simpl. rewrite Ht.
      apply returns_ret.
Qed.

Lemma split_last_default {A} (pos : A) passed :
  exists front, pos :: passed = front ++ [default pos (last passed)].
Proof.
  destruct passed as [|x passed _] using rev_ind; [by exists []|].
  exists (pos :: passed). by rewrite last_snoc.
Qed.

(** [FindKey] in may-write mode, from a node [pos] of the chain that the
    thread holds in MAY_WRITE. *)
Lemma FindKey_may_write h0 c key0 fuel c1 pos nx c2 :
  is_chain h0 c -> locks_free h0 ->
  c = c1 ++ pos :: nx :: c2 ->
  length c2 < fuel ->
  exists passed c1' prev' next' c2',
    c = c1' ++ prev' :: next' :: c2' /\
    c1' ++ [prev'] = c1 ++ pos :: passed /\
    Forall (fun x => ekey_lt (ekey h0 x) (Fin key0)) passed /\
    ~ ekey_lt (ekey h0 next') (Fin key0) /\
    returns (relock MW pos h0) (FindKey self fuel pos key0 false)
      (prev', next') (relock MW next' (relock MW prev' h0)).
Proof.
  intros Hc Hf Ec Hlen. pose proof Hc as (He & Hl & Hs & _).
  destruct (FindKey_loop_may_write h0 c key0 Hc Hf fuel c1 pos nx c2 Ec Hlen)
    as (passed & next' & c2' & Esplit & Hpassed & Hstop & Hret).
  destruct (split_last_default pos passed) as [front Efront].
  exists passed, (c1 ++ front), (default pos (last passed)), next', c2'.
  split_and!; try done.
  - rewrite Ec, <- app_assoc. simpl.
    change (c1 ++ front ++ default pos (last passed) :: next' :: c2')
      with (c1 ++ front ++ [default pos (last passed)] ++ next' :: c2').
    rewrite (app_assoc front), <- Efront. simpl. by rewrite Esplit.
  - by rewrite <- app_assoc, <- Efront.
  - destruct (chain_node _ _ nx Hc) as (nn & Hnn & _);
      [rewrite Ec; apply in_middle2|].
    assert (pos <> nx) as Hpn.
    { intros ->. rewrite Ec in Hs. apply sorted_middle in Hs.
      by apply before_irrefl in Hs. }
    unfold FindKey. simpl.
    eapply returns_bind.
    { apply returns_load_nextPtr. rewrite next_of_relock.
      rewrite Ec in Hl. by apply links_middle in Hl as [? _]. }
    eapply returns_bind.
    { eapply returns_LockMayWrite.
      - by rewrite lookup_relock_ne.
      - by eapply free_lock. }
    exact Hret.
Qed.

(** Looking a node up in a heap that lock calls, stores and an allocation
    have changed. *)
Ltac heap_lookup :=
  unfold relock;
  repeat match goal with
  | |- context [alter ?f ?p ?h !! ?p] => rewrite (list_lookup_alter_eq f h p)
  | |- context [alter ?f ?p ?h !! ?q] =>
      rewrite (list_lookup_alter_ne f h p q) by (congruence || lia)
  | |- context [(?h ++ ?t) !! ?q] =>
      rewrite (lookup_app_l h t q) by (rewrite ?length_alter; lia)
  end;
  repeat match goal with H : _ !! _ = Some _ |- _ => rewrite H end;
  reflexivity.

Lemma insert_heap_eq h0 (prev next : NodePtr) np nn k v :
  h0 !! prev = Some np -> h0 !! next = Some nn ->
  lock np = new_lock -> lock nn = new_lock -> prev <> next ->
  relock new_lock next
    (relock new_lock prev
       (alter (set_prevPtr (Some (length h0))) next
          (alter (set_nextPtr (Some (length h0))) prev
             (relock WR next (relock WR prev
                (relock MW next (relock MW prev h0)))
              ++ [new_Node k v (Some prev) (Some next)])))) =
  spliced_in h0 prev next k v.
Proof.
  intros Hnp Hnn Hlp Hln Hne.
  pose proof (lookup_lt_Some _ _ _ Hnp). pose proof (lookup_lt_Some _ _ _ Hnn).
  apply list_eq. intros i. rewrite lookup_spliced_in. unfold relock.
  rewrite !list_lookup_alter, !lookup_app, !list_lookup_alter.
  rewrite !length_alter.
  destruct np, nn; simpl in *; subst.
  repeat case_decide; subst; try lia; try congruence;
    rewrite ?Hnp, ?Hnn; simpl; try done.
  - by rewrite Nat.sub_diag, (lookup_ge_None_2 h0 (length h0)) by lia.
  - destruct (h0 !! i) eqn:E; [done|]. apply lookup_ge_None in E.
    by assert (i - length h0 = S (i - length h0 - 1)) as -> by lia.
Qed.

(** [InsertFromPosition], from a node [pos] of the chain below [key0] that
    the thread holds in MAY_WRITE: it finds the adjacent nodes [prev'] and
    [next'] around [key0]; if [next'] has the key it returns false and the
    heap is as it was before [pos] was locked, otherwise it returns true and
    a new node is linked in between the two. *)
Lemma InsertFromPosition_spec h0 c key0 data0 fuel c1 pos nx c2 :
  is_chain h0 c -> locks_free h0 ->
  c = c1 ++ pos :: nx :: c2 ->
  ekey_lt (ekey h0 pos) (Fin key0) ->
  length c2 < fuel ->
  exists passed c1' prev' next' c2',
    c = c1' ++ prev' :: next' :: c2' /\
    c1' ++ [prev'] = c1 ++ pos :: passed /\
    Forall (fun x => ekey_lt (ekey h0 x) (Fin key0)) passed /\
    ekey_lt (ekey h0 prev') (Fin key0) /\
    ((ekey h0 next' = Fin key0 /\
      returns (relock MW pos h0)
        (InsertFromPosition self fuel pos key0 data0) false h0) \/
     (ekey_lt (Fin key0) (ekey h0 next') /\
      returns (relock MW pos h0)
        (InsertFromPosition self fuel pos key0 data0) true
        (spliced_in h0 prev' next' key0 data0))).
Proof.
  intros Hc Hf Ec Hlo Hlen. pose proof Hc as (He & Hl & Hs & _).
  destruct (FindKey_may_write h0 c key0 fuel c1 pos nx c2 Hc Hf Ec Hlen)
    as (passed & c1' & prev' & next' & c2' & Ec' & Efront & Hpassed & Hstop
        & Hret).
  exists passed, c1', prev', next', c2'. split_and!; try done.
  { (* [prev'] is below the key *)
    destruct passed as [|x passed _] using rev_ind.
    - apply app_inj_tail in Efront as [_ ->]. done.
    - rewrite app_comm_cons, app_assoc in Efront.
      apply app_inj_tail in Efront as [_ ->].
      by apply Forall_app in Hpassed as [_ ?%Forall_inv]. }
  destruct (chain_node _ _ prev' Hc) as (np & Hnp & _);
    [rewrite Ec'; apply in_middle|].
  destruct (chain_node _ _ next' Hc) as (nn & Hnn & _);
    [rewrite Ec'; apply in_middle2|].
  pose proof (free_lock _ _ _ Hf Hnp) as Hlp.
  pose proof (free_lock _ _ _ Hf Hnn) as Hln.
  pose proof (lookup_lt_Some _ _ _ Hnp). pose proof (lookup_lt_Some _ _ _ Hnn).
  assert (prev' <> next') as Hne.
  { intros ->. rewrite Ec' in Hs. apply sorted_middle in Hs.
    by apply before_irrefl in Hs. }
  assert (next' <> head) as Hnh by (rewrite Ec' in Hs; by eapply chain_not_head).
  assert (ekey h0 next' =
          if Nat.eqb next' tail then PosInf else Fin (key nn)) as Hek.
  { unfold ekey, key_of. rewrite Hnn.
    by destruct (Nat.eqb_spec next' head). }
  destruct (negb (key nn =? key0)%Z || Nat.eqb next' tail) eqn:Hres.
  - (* the key is new *)
    right. split.
    { apply ekey_lt_total; [done|]. rewrite Hek.
      destruct (Nat.eqb_spec next' tail); [done|].
      rewrite orb_false_r in Hres. apply negb_true_iff, Z.eqb_neq in Hres.
      congruence. }
    unfold InsertFromPosition.
    eapply returns_bind; [exact Hret|]. simpl.
    eapply returns_bind; [apply returns_load; heap_lookup|]. simpl.
    rewrite Hres.
    eapply returns_bind;
      [eapply returns_UpgradeLock; [heap_lookup | reflexivity]|].
    eapply returns_bind;
      [eapply returns_UpgradeLock; [heap_lookup | reflexivity]|].
    eapply returns_bind; [apply returns_alloc|]. rewrite !length_relock.
    eapply returns_bind; [eapply returns_store; heap_lookup|].
    eapply returns_bind; [eapply returns_load; heap_lookup|]. simpl.
    eapply returns_bind; [eapply returns_store; heap_lookup|].
    eapply returns_bind;
      [eapply returns_ReleaseExclusiveLock; [heap_lookup | reflexivity]|].
    eapply returns_bind;
      [eapply returns_ReleaseExclusiveLock; [heap_lookup | reflexivity]|].
    erewrite insert_heap_eq by done. apply returns_ret.
  - (* the key is there *)
    left. apply orb_false_iff in Hres as [Hk Ht].
    apply negb_false_iff, Z.eqb_eq in Hk. split.
    { rewrite Hek, Ht. by rewrite Hk. }
    unfold InsertFromPosition.
    eapply returns_bind; [exact Hret|]. simpl.
    eapply returns_bind; [apply returns_load; heap_lookup|]. simpl.
    rewrite Ht, Hk, Z.eqb_refl. simpl.
    eapply returns_bind;
      [eapply returns_ReleaseSharedLock; [heap_lookup | by left]|].
    eapply returns_bind;
      [eapply returns_ReleaseSharedLock; [heap_lookup | by left]|].
    rewrite (relock_comm _ _ prev' next') by done.
    rewrite !relock_relock, (relock_id _ prev' h0 np) by done.
    rewrite (relock_id _ next' h0 nn) by done.
    apply returns_ret.
Qed.

Lemma no_key_between h c1 a b c2 k :
  StronglySorted (before h) (c1 ++ a :: b :: c2) ->
  ekey_lt (ekey h a) (Fin k) -> ekey_lt (Fin k) (ekey h b) ->
  ~ present h (c1 ++ a :: b :: c2) k.
Proof.
  intros Hs Ha Hb (p & Hin & Hp).
  destruct (sorted_split _ _ _ _ Hs) as [Hc1 Hc2].
  apply Forall_cons in Hc2 as [Hab Hc2].
  assert (Forall (before h b) c2) as Hbc.
  { assert (c1 ++ a :: b :: c2 = (c1 ++ [a]) ++ b :: c2) as Ec
      by (by rewrite <- app_assoc).
    rewrite Ec in Hs. by apply sorted_split in Hs as [_ ?]. }
  rewrite Forall_forall in Hc1, Hbc.
  apply in_app_or in Hin as [Hin|[<-|[<-|Hin]]].
  - apply list_elem_of_In, Hc1 in Hin. unfold before in Hin.
    rewrite Hp in Hin. apply (ekey_lt_irrefl (Fin k)).
    by eapply ekey_lt_trans.
  - rewrite Hp in Ha. by apply ekey_lt_irrefl in Ha.
  - rewrite Hp in Hb. by apply ekey_lt_irrefl in Hb.
  - apply list_elem_of_In, Hbc in Hin. unfold before in Hin.
    rewrite Hp in Hin. apply (ekey_lt_irrefl (Fin k)).
    by eapply ekey_lt_trans.
Qed.

Lemma chain_shape h c : is_chain h c -> exists nx c2, c = head :: nx :: c2.
Proof.
  intros ([Hh Ht] & _). destruct c as [|a [|nx c2]]; simpl in *; try done.
  - rewrite Hh in Ht. discriminate Ht.
  - injection Hh as ->. by eauto.
Qed.

Lemma chain_shape_last h c :
  is_chain h c -> exists c1 p, c = c1 ++ [p; tail].
Proof.
  intros ([Hh Ht] & _).
  destruct c as [|t c0 _] using rev_ind; [done|].
  rewrite last_snoc in Ht. injection Ht as ->.
  destruct c0 as [|p c1 _] using rev_ind; [simpl in Hh; discriminate Hh|].
  exists c1, p. by rewrite <- app_assoc.
Qed.

(** [InsertHead] on the heap of a quiescent list with chain [c]. *)
Lemma InsertHead_spec h0 c key0 data0 fuel :
  is_chain h0 c -> locks_free h0 -> length c <= fuel ->
  (present h0 c key0 /\
   returns h0 (InsertHead self fuel key0 data0) false h0) \/
  (~ present h0 c key0 /\
   exists c1 prev next c2,
     c = c1 ++ prev :: next :: c2 /\
     ekey_lt (ekey h0 prev) (Fin key0) /\ ekey_lt (Fin key0) (ekey h0 next) /\
     returns h0 (InsertHead self fuel key0 data0) true
       (spliced_in h0 prev next key0 data0)).
Proof.
  intros Hc Hf Hlen. pose proof Hc as (He & Hl & Hs & _).
  destruct (chain_shape _ _ Hc) as (nx & c2 & Ec).
  destruct (chain_node _ _ head Hc) as (nh & Hnh & _);
    [rewrite Ec; by left|].
  assert (returns h0 (LockMayWrite self head) tt (relock MW head h0)) as Hlock.
  { eapply returns_LockMayWrite; [done | by eapply free_lock]. }
  destruct (InsertFromPosition_spec h0 c key0 data0 fuel [] head nx c2
              Hc Hf Ec) as (passed & c1' & prev' & next' & c2' & Ec' & _ & _
                            & Hlo & [[Hk Hret]|[Hhi Hret]]);
    [done | rewrite Ec in Hlen; simpl in Hlen; lia | |].
  - left. split.
    + exists next'. split; [rewrite Ec'; apply in_middle2 | done].
    + unfold InsertHead. by eapply returns_bind.
  - right. split.
    + rewrite Ec'. apply no_key_between; [by rewrite <- Ec' | done..].
    + exists c1', prev', next', c2'. split_and!; try done.
      unfold InsertHead. by eapply returns_bind.
Qed.

Lemma delete_heap_eq h0 (prev del next : NodePtr) np nd nn :
  h0 !! prev = Some np -> h0 !! del = Some nd -> h0 !! next = Some nn ->
  lock np = new_lock -> lock nd = new_lock -> lock nn = new_lock ->
  prev <> del -> del <> next -> prev <> next ->
  relock new_lock next
    (relock new_lock del
       (relock new_lock prev
          (alter (set_isNodeActive false) del
             (alter (set_prevPtr (Some prev)) next
                (alter (set_nextPtr (Some next)) prev
                   (relock WR next
                      (relock WR del
                         (relock WR prev
                            (relock MW del (relock MW prev h0))))))))))
  = spliced_out h0 prev del next.
Proof.
  intros Hnp Hnd Hnn Hlp Hld Hln Hpd Hdn Hpn.
  apply list_eq. intros i.
  rewrite (lookup_spliced_out h0 prev del next np nd nn) by done.
  unfold relock.
  destruct np, nd, nn; simpl in *; subst.
  destruct (decide (i = prev)) as [->|];
    [| destruct (decide (i = del)) as [->|];
       [| destruct (decide (i = next)) as [->|]]];
    repeat (rewrite list_lookup_alter_eq
            || rewrite list_lookup_alter_ne by congruence);
    rewrite ?Hnp, ?Hnd, ?Hnn; simpl; repeat case_decide;
    try congruence; done.
Qed.

(** [Delete] on the heap of a quiescent list with chain [c]. *)
Lemma Delete_spec h0 c key0 fuel :
  is_chain h0 c -> locks_free h0 -> length c <= fuel ->
  (~ present h0 c key0 /\ returns h0 (Delete self fuel key0) false h0) \/
  (exists c1 prev del next c2,
     c = c1 ++ prev :: del :: next :: c2 /\
     ekey h0 del = Fin key0 /\
     returns h0 (Delete self fuel key0) true (spliced_out h0 prev del next)).
Proof.
  intros Hc Hf Hlen. pose proof Hc as (He & Hl & Hs & _).
  destruct (chain_shape _ _ Hc) as (nx & c2 & Ec).
  destruct (chain_node _ _ head Hc) as (nh & Hnh & _);
    [rewrite Ec; by left|].
  assert (returns h0 (LockMayWrite self head) tt (relock MW head h0)) as Hlock.
  { eapply returns_LockMayWrite; [done | by eapply free_lock]. }
  destruct (FindKey_may_write h0 c key0 fuel [] head nx c2 Hc Hf Ec)
    as (passed & c1' & prev' & next' & c2' & Ec' & Efront & Hpassed & Hstop
        & Hret);
    [rewrite Ec in Hlen; simpl in Hlen; lia|].
  assert (ekey_lt (ekey h0 prev') (Fin key0)) as Hlo.
  { destruct passed as [|x passed _] using rev_ind.
    - apply app_inj_tail in Efront as [_ ->]. done.
    - rewrite app_comm_cons, app_assoc in Efront.
      apply app_inj_tail in Efront as [_ ->].
      by apply Forall_app in Hpassed as [_ ?%Forall_inv]. }
  destruct (chain_node _ _ prev' Hc) as (np & Hnp & _);
    [rewrite Ec'; apply in_middle|].
  destruct (chain_node _ _ next' Hc) as (nn & Hnn & _);
    [rewrite Ec'; apply in_middle2|].
  pose proof (free_lock _ _ _ Hf Hnp) as Hlp.
  pose proof (free_lock _ _ _ Hf Hnn) as Hln.
  assert (prev' <> next') as Hne.
  { intros ->. rewrite Ec' in Hs. apply sorted_middle in Hs.
    by apply before_irrefl in Hs. }
  assert (next' <> head) as Hnh' by (rewrite Ec' in Hs; by eapply chain_not_head).
  assert (ekey h0 next' =
          if Nat.eqb next' tail then PosInf else Fin (key nn)) as Hek.
  { unfold ekey, key_of. rewrite Hnn.
    by destruct (Nat.eqb_spec next' head). }
  destruct ((key nn =? key0)%Z && negb (Nat.eqb next' tail)) eqn:Hres.
  - (* the key is there *)
    right. apply andb_true_iff in Hres as [Hk Ht].
    apply Z.eqb_eq in Hk. apply negb_true_iff in Ht.
    assert (next' <> tail) as Hnt by (by apply Nat.eqb_neq).
    destruct (chain_has_next (c1' ++ [prev']) next' c2')
      as (next2 & c2r & ->); [by rewrite <- app_assoc; simpl; rewrite <- Ec'
                             | done |].
    assert (c = (c1' ++ [prev']) ++ next' :: next2 :: c2r) as Ec2
      by (by rewrite <- app_assoc).
    destruct (chain_node _ _ next2 Hc) as (n2 & Hn2 & _);
      [rewrite Ec2; apply in_middle2|].
    pose proof (free_lock _ _ _ Hf Hn2) as Hl2.
    assert (next' <> next2) as Hne2.
    { intros ->. rewrite Ec2 in Hs. apply sorted_middle in Hs.
      by apply before_irrefl in Hs. }
    assert (prev' <> next2) as Hne3.
    { intros ->. rewrite Ec' in Hs. apply sorted_split in Hs as [_ Hs].
      apply Forall_cons in Hs as [_ Hs]. apply Forall_inv in Hs.
      by apply before_irrefl in Hs. }
    exists c1', prev', next', next2, c2r. split; [done|].
    split; [by rewrite Hek, Ht, Hk|].
    unfold Delete.
    eapply returns_bind; [exact Hlock|].
    eapply returns_bind; [exact Hret|]. simpl.
    eapply returns_bind; [apply returns_load; heap_lookup|]. simpl.
    rewrite Ht, Hk, Z.eqb_refl. simpl.
    eapply returns_bind;
      [eapply returns_UpgradeLock; [heap_lookup | reflexivity]|].
    eapply returns_bind;
      [eapply returns_UpgradeLock; [heap_lookup | reflexivity]|].
    eapply returns_bind.
    { apply returns_load_nextPtr. rewrite !next_of_relock.
      rewrite Ec2 in Hl. by apply links_middle in Hl as [? _]. }
    eapply returns_bind;
      [eapply returns_LockWrite; [heap_lookup | done]|].
    eapply returns_bind; [eapply returns_store; heap_lookup|].
    eapply returns_bind; [eapply returns_store; heap_lookup|].
    eapply returns_bind; [eapply returns_store; heap_lookup|].
    eapply returns_bind;
      [eapply returns_ReleaseExclusiveLock; [heap_lookup | reflexivity]|].
    eapply returns_bind;
      [eapply returns_ReleaseExclusiveLock; [heap_lookup | reflexivity]|].
    eapply returns_bind;
      [eapply returns_ReleaseExclusiveLock; [heap_lookup | reflexivity]|].
    erewrite delete_heap_eq by done. apply returns_ret.
  - (* the key is not there *)
    left. split.
    { rewrite Ec'. apply no_key_between; [by rewrite <- Ec' | done |].
      apply ekey_lt_total; [done|]. rewrite Hek.
      destruct (Nat.eqb_spec next' tail); [done|].
      rewrite andb_true_r in Hres. apply Z.eqb_neq in Hres. congruence. }
    unfold Delete.
    eapply returns_bind; [exact Hlock|].
    eapply returns_bind; [exact Hret|]. simpl.
    eapply returns_bind; [apply returns_load; heap_lookup|]. simpl.
    rewrite Hres.
    eapply returns_bind;
      [eapply returns_ReleaseSharedLock; [heap_lookup | by left]|].
    eapply returns_bind;
      [eapply returns_ReleaseSharedLock; [heap_lookup | by left]|].
    rewrite (relock_comm _ _ prev' next') by done.
    rewrite !relock_relock, (relock_id _ prev' h0 np) by done.
    rewrite (relock_id _ next' h0 nn) by done.
    apply returns_ret.
Qed.

(** ** Traversal in read mode *)

(** [FindKey]'s loop in read mode, started on a node [next] of the chain
    that the thread holds in READ. *)
Lemma FindKey_loop_read h0 c key0 :
  is_chain h0 c -> locks_free h0 ->
  forall fuel c1 prev next c2,
    c = c1 ++ next :: c2 ->
    length c2 < fuel ->
    exists passed next' c2',
      next :: c2 = passed ++ next' :: c2' /\
      Forall (fun x => ekey_lt (ekey h0 x) (Fin key0)) passed /\
      ~ ekey_lt (ekey h0 next') (Fin key0) /\
      returns (relock RD next h0)
        (FindKey_loop self fuel key0 true prev next)
        (default prev (last passed), next')
        (relock RD next' h0).
Proof.
  intros Hc Hf. pose proof Hc as (He & Hl & Hs & _).
  induction fuel as [|fuel IH]; intros c1 prev next c2 Ec Hlen;
    [simpl in Hlen; lia|].
  destruct (chain_node _ _ next Hc) as (nn & Hnn & _);
    [rewrite Ec; apply in_middle|].
  pose proof (free_lock _ _ _ Hf Hnn) as Hln.
  simpl FindKey_loop.
  destruct ((key nn <? key0)%Z && negb (Nat.eqb next tail)
            || Nat.eqb next head) eqn:Ht.
  - apply (FindKey_test h0 next nn key0 Hnn) in Ht.
    assert (next <> tail) as Hnt.
    { intros ->. by rewrite ekey_tail in Ht. }
    destruct (chain_has_next c1 next c2) as (next2 & c2r & ->);
      [by rewrite <- Ec | done |].
    assert (c = (c1 ++ [next]) ++ next2 :: c2r) as Ec'
      by (by rewrite <- app_assoc).
    destruct (IH (c1 ++ [next]) next next2 c2r Ec')
      as (passed & next' & c2' & Esplit & Hpassed & Hstop & Hret);
      [simpl in Hlen; lia|].
    destruct (chain_node _ _ next2 Hc) as (n2 & Hn2 & _);
      [rewrite Ec'; apply in_middle|].
    exists (next :: passed), next', c2'. split; [by rewrite Esplit|].
    split; [by constructor|]. split; [done|].
    assert (default prev (last (next :: passed)) = default next (last passed))
      as -> by (rewrite last_cons; by destruct (last passed)).
    eapply returns_bind; [apply returns_load; heap_lookup|]. simpl.
    apply (FindKey_test h0 next nn key0 Hnn) in Ht. rewrite Ht.
    eapply returns_bind.
    { unfold AdvanceAndLockReadMayWrite.
      eapply returns_bind.
      { apply returns_load_nextPtr. rewrite next_of_relock.
        rewrite Ec in Hl. by apply links_middle in Hl as [? _]. }
      eapply returns_bind;
        [eapply returns_ReleaseSharedLock; [heap_lookup | by right]|].
      rewrite (relock_release _ next h0 nn) by done.
      eapply returns_bind;
        [eapply returns_LockRead; [done | by eapply free_lock]|].
      apply returns_ret. }
    exact Hret.
  - exists [], next, c2. split; [done|]. split; [done|]. split.
    + intros Hlt. apply (FindKey_test h0 next nn key0 Hnn) in Hlt. congruence.
    + eapply returns_bind; [apply returns_load; heap_lookup|]. simpl.
      rewrite Ht. apply returns_ret.
Qed.

(** [Search] on the heap of a quiescent list with chain [c]: the heap is
    left as it was, and the key is found exactly when it is in the list. *)
Lemma Search_spec h0 c key0 d fuel :
  is_chain h0 c -> locks_free h0 -> length c <= fuel ->
  exists b d',
    returns h0 (Search self fuel key0 (Some d)) (b, Some d') h0 /\
    (b = true <-> present h0 c key0) /\
    (b = true ->
     exists p n, In p c /\ h0 !! p = Some n /\ ekey h0 p = Fin key0 /\
                 d' = data n) /\
    (b = false -> d' = d).
Proof.
  intros Hc Hf Hlen. pose proof Hc as (He & Hl & Hs & _).
  destruct (chain_shape _ _ Hc) as (nx & c2 & Ec).
  destruct (chain_node _ _ head Hc) as (nh & Hnh & _);
    [rewrite Ec; by left|].
  destruct (FindKey_loop_read h0 c key0 Hc Hf fuel [] head head (nx :: c2) Ec)
    as (passed & next' & c2' & Esplit & Hpassed & Hstop & Hret);
    [rewrite Ec in Hlen; simpl in *; lia|].
  assert (c = passed ++ next' :: c2') as Ec' by (by rewrite Ec).
  destruct (chain_node _ _ next' Hc) as (nn & Hnn & Hact);
    [rewrite Ec'; apply in_middle|].
  pose proof (free_lock _ _ _ Hf Hnn) as Hln.
  assert (next' <> head) as Hnh'.
  { intros ->. by rewrite ekey_head in Hstop. }
  assert (ekey h0 next' =
          if Nat.eqb next' tail then PosInf else Fin (key nn)) as Hek.
  { unfold ekey, key_of. rewrite Hnn.
    by destruct (Nat.eqb_spec next' head). }
  set (b := (key nn =? key0)%Z && isNodeActive nn && negb (Nat.eqb next' tail)).
  assert (b = true <-> ekey h0 next' = Fin key0) as Hb.
  { unfold b. rewrite Hek, Hact, andb_true_r.
    destruct (Nat.eqb_spec next' tail); simpl.
    - rewrite andb_false_r. split; done.
    - rewrite andb_true_r, Z.eqb_eq. split; congruence. }
  exists b, (if b then data nn else d). split_and!.
  - unfold Search.
    eapply returns_bind;
      [eapply returns_LockRead; [done | by eapply free_lock]|].
    eapply returns_bind; [unfold FindKey; simpl|].
    { eapply returns_bind; [apply returns_ret|].
      eapply returns_bind; [apply returns_ret|]. exact Hret. }
    simpl.
    eapply returns_bind; [apply returns_load; heap_lookup|]. simpl.
    eapply returns_bind;
      [eapply returns_ReleaseSharedLock; [heap_lookup | by right]|].
    rewrite (relock_release _ next' h0 nn) by done.
    apply returns_ret.
  - rewrite Hb. split.
    + intros Hk. exists next'. split; [rewrite Ec'; apply in_middle | done].
    + intros (p & Hin & Hp). rewrite Ec' in Hin, Hs.
      apply in_app_or in Hin as [Hin|[<-|Hin]]; [| done |].
      * rewrite Forall_forall in Hpassed.
        apply list_elem_of_In, Hpassed in Hin. rewrite Hp in Hin.
        by apply ekey_lt_irrefl in Hin.
      * destruct (decide (ekey h0 next' = Fin key0)) as [|Hne]; [done|].
        apply ekey_lt_total in Hne; [| done].
        apply sorted_split in Hs as [_ Hs]. rewrite Forall_forall in Hs.
        apply list_elem_of_In, Hs in Hin. unfold before in Hin.
        rewrite Hp in Hin. exfalso. apply (ekey_lt_irrefl (Fin key0)).
        by eapply ekey_lt_trans.
  - intros Hbt. rewrite Hbt. exists next', nn.
    split_and!; try done; [rewrite Ec'; apply in_middle | by apply Hb].
  - by intros ->.
Qed.

(** ** The backward walk of [InsertTail] *)

(** The loop test of [InsertTail], on an active node that is not the tail
    sentinel. *)
Lemma InsertTail_test h (prev : NodePtr) n key0 :
  h !! prev = Some n -> prev <> tail -> isNodeActive n = true ->
  ((key n >? key0)%Z && negb (Nat.eqb prev head) || negb (isNodeActive n)
   = true <-> ekey_lt (Fin key0) (ekey h prev)).
Proof.
  intros Hn Ht Ha. unfold ekey, key_of. rewrite Hn, Ha. simpl.
  rewrite orb_false_r.
  destruct (Nat.eqb_spec prev head) as [->|Hh]; simpl.
  - rewrite andb_false_r. split; done.
  - destruct (Nat.eqb_spec prev tail); [done|]. simpl.
    rewrite andb_true_r. rewrite Z.gtb_ltb. apply Z.ltb_lt.
Qed.

(** One step of the backward walk, from a node [p] that the thread holds
    in MAY_WRITE to its predecessor [q]: [p] is released, [q] is held. *)
Lemma InsertTail_step_spec h0 (p q : NodePtr) np nq :
  h0 !! p = Some np -> lock np = new_lock ->
  h0 !! q = Some nq -> lock nq = new_lock ->
  prev_of h0 p = Some q ->
  returns (relock MW p h0) (InsertTail_step self p) q (relock MW q h0).
Proof.
  intros Hnp Hlp Hnq Hlq Hpq. unfold InsertTail_step.
  eapply returns_bind.
  { apply returns_load_prevPtr. by rewrite prev_of_relock. }
  eapply returns_bind;
    [eapply returns_ReleaseSharedLock; [heap_lookup | by left]|].
  rewrite (relock_release _ p h0 np) by done.
  eapply returns_bind; [by eapply returns_LockMayWrite|].
  apply returns_ret.
Qed.

Lemma InsertTail_loop_spec h0 c key0 :
  is_chain h0 c -> locks_free h0 ->
  forall fuel c1 prev c2,
    c = c1 ++ prev :: c2 -> prev <> tail ->
    length c1 < fuel ->
    exists c1' prev' skipped,
      c1 ++ [prev] = c1' ++ prev' :: skipped /\
      Forall (fun x => ekey_lt (Fin key0) (ekey h0 x)) skipped /\
      ~ ekey_lt (Fin key0) (ekey h0 prev') /\
      returns (relock MW prev h0) (InsertTail_loop self fuel key0 prev)
        prev' (relock MW prev' h0).
Proof.
  intros Hc Hf. pose proof Hc as (He & Hl & Hs & _).
  induction fuel as [|fuel IH]; intros c1 prev c2 Ec Hpt Hlen;
    [simpl in Hlen; lia|].
  destruct (chain_node _ _ prev Hc) as (np & Hnp & Hact);
    [rewrite Ec; apply in_middle|].
  pose proof (free_lock _ _ _ Hf Hnp) as Hlp.
  simpl InsertTail_loop.
  destruct ((key np >? key0)%Z && negb (Nat.eqb prev head)
            || negb (isNodeActive np)) eqn:Ht.
  - apply (InsertTail_test h0 prev np key0 Hnp Hpt Hact) in Ht.
    assert (prev <> head) as Hph.
    { intros ->. by rewrite ekey_head in Ht. }
    destruct (chain_has_prev c1 prev c2) as (c1r & prev2 & ->);
      [by rewrite <- Ec | done |].
    assert (c = c1r ++ prev2 :: prev :: c2) as Ec'
      by (by rewrite Ec, <- app_assoc).
    destruct (IH c1r prev2 (prev :: c2) Ec')
      as (c1' & prev' & skipped & Esplit & Hskipped & Hstop & Hret).
    { rewrite Ec' in Hs. by eapply chain_not_tail. }
    { rewrite length_app in Hlen. simpl in Hlen. lia. }
    destruct (chain_node _ _ prev2 Hc) as (n2 & Hn2 & _);
      [rewrite Ec'; apply in_middle|].
    exists c1', prev', (skipped ++ [prev]). split_and!; try done.
    + by rewrite Esplit, <- app_assoc.
    + apply Forall_app. split; [done | by constructor].
    + eapply returns_bind; [apply returns_load; heap_lookup|]. simpl.
      apply (InsertTail_test h0 prev np key0 Hnp Hpt Hact) in Ht. rewrite Ht.
      eapply returns_bind; [| exact Hret].
      eapply InsertTail_step_spec; eauto using free_lock.
      rewrite Ec' in Hl. by apply links_middle in Hl as [_ ?].
  - exists c1, prev, []. split_and!; try done.
    + intros Hlt. apply (InsertTail_test h0 prev np key0 Hnp Hpt Hact) in Hlt.
      congruence.
    + eapply returns_bind; [apply returns_load; heap_lookup|]. simpl.
      rewrite Ht. apply returns_ret.
Qed.

(** [InsertTail] on the heap of a quiescent list with chain [c]. *)
Lemma InsertTail_spec h0 c key0 data0 fuel :
  is_chain h0 c -> locks_free h0 -> length c <= fuel ->
  (present h0 c key0 /\
   returns h0 (InsertTail self fuel key0 data0) false h0) \/
  (~ present h0 c key0 /\
   exists c1 prev next c2,
     c = c1 ++ prev :: next :: c2 /\
     ekey_lt (ekey h0 prev) (Fin key0) /\ ekey_lt (Fin key0) (ekey h0 next) /\
     returns h0 (InsertTail self fuel key0 data0) true
       (spliced_in h0 prev next key0 data0)).
Proof.
  intros Hc Hf Hlen. pose proof Hc as (He & Hl & Hs & _).
  destruct (chain_shape_last _ _ Hc) as (c1 & p & Ec).
  destruct (chain_node _ _ tail Hc) as (nt & Hnt & _);
    [by apply ends_tail_in|].
  pose proof (free_lock _ _ _ Hf Hnt) as Hlt.
  destruct (chain_node _ _ p Hc) as (np & Hnp & _);
    [rewrite Ec; apply in_middle|].
  assert (p <> tail) as Hpt by (rewrite Ec in Hs; by eapply chain_not_tail).
  destruct (InsertTail_loop_spec h0 c key0 Hc Hf fuel c1 p [tail] Ec Hpt)
    as (c1' & prev' & skipped & Esplit & Hskipped & Hstop & Hloop).
  { rewrite Ec, length_app in Hlen. simpl in Hlen. lia. }
  assert (c = c1' ++ prev' :: skipped ++ [tail]) as Ec'.
  { rewrite Ec. change (c1 ++ [p; tail]) with (c1 ++ [p] ++ [tail]).
    by rewrite app_assoc, Esplit, <- app_assoc. }
  assert (exists nx c2, skipped ++ [tail] = nx :: c2) as (nx & c2 & Enx).
  { destruct skipped; simpl; by eauto. }
  rewrite Enx in Ec'.
  assert (prev' <> tail) as Hpt' by (rewrite Ec' in Hs; by eapply chain_not_tail).
  destruct (chain_node _ _ prev' Hc) as (np' & Hnp' & _);
    [rewrite Ec'; apply in_middle|].
  pose proof (free_lock _ _ _ Hf Hnp') as Hlp'.
  assert (ekey h0 prev' =
          if Nat.eqb prev' head then NegInf else Fin (key np')) as Hek.
  { unfold ekey, key_of. rewrite Hnp'.
    destruct (Nat.eqb_spec prev' head); [done|].
    by destruct (Nat.eqb_spec prev' tail). }
  destruct (negb (Nat.eqb prev' head) && (key np' =? key0)%Z) eqn:Hdup.
  - (* the walk stopped on the key *)
    left. apply andb_true_iff in Hdup as [Hh Hk].
    apply negb_true_iff in Hh. apply Z.eqb_eq in Hk. split.
    { exists prev'. split; [rewrite Ec'; apply in_middle|].
      by rewrite Hek, Hh, Hk. }
    unfold InsertTail.
    eapply returns_bind;
      [eapply returns_LockRead; [done | done]|].
    eapply returns_bind.
    { apply returns_load_prevPtr. rewrite prev_of_relock.
      rewrite Ec in Hl. by apply links_middle in Hl as [_ ?]. }
    eapply returns_bind;
      [eapply returns_ReleaseSharedLock; [heap_lookup | by right]|].
    rewrite (relock_release _ tail h0 nt) by done.
    eapply returns_bind;
      [eapply returns_LockMayWrite; [done | by eapply free_lock]|].
    eapply returns_bind; [exact Hloop|].
    eapply returns_bind; [apply returns_load; heap_lookup|]. simpl.
    rewrite Hh, Hk, Z.eqb_refl. simpl.
    eapply returns_bind;
      [eapply returns_ReleaseSharedLock; [heap_lookup | by left]|].
    rewrite (relock_release _ prev' h0 np') by done.
    apply returns_ret.
  - (* the walk stopped below the key *)
    assert (ekey_lt (ekey h0 prev') (Fin key0)) as Hlo.
    { rewrite Hek in *. destruct (Nat.eqb_spec prev' head); [done|].
      simpl in Hdup. apply Z.eqb_neq in Hdup. simpl in *. lia. }
    destruct (InsertFromPosition_spec h0 c key0 data0 fuel c1' prev' nx c2
                Hc Hf Ec' Hlo)
      as (passed & c1'' & prev'' & next'' & c2'' & Ec'' & _ & _ & Hlo'
          & [[Hk Hret]|[Hhi Hret]]).
    { rewrite Ec', length_app in Hlen. simpl in Hlen. lia. }
    + left. split.
      { exists next''. split; [rewrite Ec''; apply in_middle2 | done]. }
      unfold InsertTail.
      eapply returns_bind;
        [eapply returns_LockRead; [done | done]|].
      eapply returns_bind.
      { apply returns_load_prevPtr. rewrite prev_of_relock.
        rewrite Ec in Hl. by apply links_middle in Hl as [_ ?]. }
      eapply returns_bind;
        [eapply returns_ReleaseSharedLock; [heap_lookup | by right]|].
      rewrite (relock_release _ tail h0 nt) by done.
      eapply returns_bind;
        [eapply returns_LockMayWrite; [done | by eapply free_lock]|].
      eapply returns_bind; [exact Hloop|].
      eapply returns_bind; [apply returns_load; heap_lookup|]. simpl.
      rewrite Hdup. exact Hret.
    + right. split.
      { rewrite Ec''. apply no_key_between; [by rewrite <- Ec'' | done..]. }
      exists c1'', prev'', next'', c2''. split_and!; try done.
      unfold InsertTail.
      eapply returns_bind;
        [eapply returns_LockRead; [done | done]|].
      eapply returns_bind.
      { apply returns_load_prevPtr. rewrite prev_of_relock.
        rewrite Ec in Hl. by apply links_middle in Hl as [_ ?]. }
      eapply returns_bind;
        [eapply returns_ReleaseSharedLock; [heap_lookup | by right]|].
      rewrite (relock_release _ tail h0 nt) by done.
      eapply returns_bind;
        [eapply returns_LockMayWrite; [done | by eapply free_lock]|].
      eapply returns_bind; [exact Hloop|].
      eapply returns_bind; [apply returns_load; heap_lookup|]. simpl.
      rewrite Hdup. exact Hret.
Qed.

(** ** Fuel *)

Lemma fuel_mono_const {A} (m : M A) : fuel_mono (fun _ => m).
Proof. by intros f f' s r _ H. Qed.

Lemma fuel_mono_bind {A B} (m : nat -> M A) (k : nat -> A -> M B) :
  fuel_mono m -> (forall a, fuel_mono (fun f => k f a)) ->
  fuel_mono (fun f => bind (m f) (k f)).
Proof.
  intros Hm Hk f f' s r Hle H. unfold bind in *.
  destruct (m f s) as [[a s1]|] eqn:E; [| discriminate].
  rewrite (Hm f f' s _ Hle E). by eapply Hk.
Qed.

Lemma fuel_mono_FindKey_loop key0 isRead prev next :
  fuel_mono (fun f => FindKey_loop self f key0 isRead prev next).
Proof.
  intros f. revert prev next.
  induction f as [|f IH]; intros prev next f' s r Hle H; [discriminate|].
  destruct f' as [|f']; [lia|]. simpl in *. unfold bind in *.
  destruct (load next s) as [[n s1]|]; [| discriminate].
  destruct (_ || _); [| done].
  destruct (AdvanceAndLockReadMayWrite self prev next isRead s1)
    as [[[p' n'] s2]|]; [| discriminate].
  apply (IH p' n'); [lia | done].
Qed.

Lemma fuel_mono_InsertTail_loop key0 prev :
  fuel_mono (fun f => InsertTail_loop self f key0 prev).
Proof.
  intros f. revert prev.
  induction f as [|f IH]; intros prev f' s r Hle H; [discriminate|].
  destruct f' as [|f']; [lia|]. simpl in *. unfold bind in *.
  destruct (load prev s) as [[n s1]|]; [| discriminate].
  destruct (_ || _); [| done].
  destruct (InsertTail_step self prev s1) as [[p' s2]|]; [| discriminate].
  apply (IH p'); [lia | done].
Qed.

Lemma fuel_mono_FindKey position key0 isRead :
  fuel_mono (fun f => FindKey self f position key0 isRead).
Proof.
  unfold FindKey.
  apply (fuel_mono_bind (fun _ => _) (fun f next => _));
    [apply fuel_mono_const|]. intros next.
  apply (fuel_mono_bind (fun _ => _) (fun f _ => _));
    [apply fuel_mono_const|]. intros _.
  apply fuel_mono_FindKey_loop.
Qed.

Lemma fuel_mono_InsertFromPosition position key0 data0 :
  fuel_mono (fun f => InsertFromPosition self f position key0 data0).
Proof.
  unfold InsertFromPosition.
  apply (fuel_mono_bind (fun f => FindKey self f position key0 false)
           (fun _ x => _)); [apply fuel_mono_FindKey|].
  intros [prev next]. apply fuel_mono_const.
Qed.

Lemma fuel_mono_InsertHead key0 data0 :
  fuel_mono (fun f => InsertHead self f key0 data0).
Proof.
  unfold InsertHead.
  apply (fuel_mono_bind (fun _ => _) (fun f _ => _));
    [apply fuel_mono_const|]. intros _.
  apply fuel_mono_InsertFromPosition.
Qed.

Lemma fuel_mono_InsertTail key0 data0 :
  fuel_mono (fun f => InsertTail self f key0 data0).
Proof.
  unfold InsertTail.
  apply (fuel_mono_bind (fun _ => _) (fun f _ => _));
    [apply fuel_mono_const|]. intros _.
  apply (fuel_mono_bind (fun _ => _) (fun f prev => _));
    [apply fuel_mono_const|]. intros prev.
  apply (fuel_mono_bind (fun _ => _) (fun f _ => _));
    [apply fuel_mono_const|]. intros _.
  apply (fuel_mono_bind (fun _ => _) (fun f _ => _));
    [apply fuel_mono_const|]. intros _.
  apply (fuel_mono_bind (fun f => InsertTail_loop self f key0 prev)
           (fun f prev' => _)); [apply fuel_mono_InsertTail_loop|].
  intros prev'.
  apply (fuel_mono_bind (fun _ => _) (fun f p => _));
    [apply fuel_mono_const|]. intros p.
  destruct (_ && _); [apply fuel_mono_const|].
  apply fuel_mono_InsertFromPosition.
Qed.

Lemma fuel_mono_Delete key0 : fuel_mono (fun f => Delete self f key0).
Proof.
  unfold Delete.
  apply (fuel_mono_bind (fun _ => _) (fun f _ => _));
    [apply fuel_mono_const|]. intros _.
  apply (fuel_mono_bind (fun f => FindKey self f head key0 false)
           (fun _ x => _)); [apply fuel_mono_FindKey|].
  intros [prev next]. apply fuel_mono_const.
Qed.

Lemma fuel_mono_Search key0 data0 :
  fuel_mono (fun f => Search self f key0 data0).
Proof.
  unfold Search. destruct data0 as [d|]; [| apply fuel_mono_const].
  apply (fuel_mono_bind (fun _ => _) (fun f _ => _));
    [apply fuel_mono_const|]. intros _.
  apply (fuel_mono_bind (fun f => FindKey self f head key0 true)
           (fun _ x => _)); [apply fuel_mono_FindKey|].
  intros [prev next]. apply fuel_mono_const.
Qed.

Lemma fuel_mono_call cl : fuel_mono (fun f => call self f cl).
Proof.
  destruct cl; simpl.
  - apply (fuel_mono_bind (fun f => InsertHead self f _ _) (fun _ b => _));
      [apply fuel_mono_InsertHead|]. intros b. apply fuel_mono_const.
  - apply (fuel_mono_bind (fun f => InsertTail self f _ _) (fun _ b => _));
      [apply fuel_mono_InsertTail|]. intros b. apply fuel_mono_const.
  - apply (fuel_mono_bind (fun f => Delete self f _) (fun _ b => _));
      [apply fuel_mono_Delete|]. intros b. apply fuel_mono_const.
  - apply (fuel_mono_bind (fun f => Search self f _ _) (fun _ b => _));
      [apply fuel_mono_Search|]. intros b. apply fuel_mono_const.
Qed.

Lemma fuel_mono_calls cs : fuel_mono (fun f => calls self f cs).
Proof.
  induction cs as [|cl cs IH]; simpl; [apply fuel_mono_const|].
  apply (fuel_mono_bind (fun f => call self f cl) (fun f r => _));
    [apply fuel_mono_call|]. intros r.
  apply (fuel_mono_bind (fun f => calls self f cs) (fun _ rs => _));
    [apply IH|]. intros rs. apply fuel_mono_const.
Qed.

(** What a computation returns with some fuel, it returns with more. *)
Lemma returns_mono {A} (m : nat -> M A) h a h' N :
  fuel_mono m -> returns h (m N) a h' ->
  forall fuel, N <= fuel -> returns h (m fuel) a h'.
Proof.
  intros Hm Hr fuel Hle s Hs. destruct (Hr s Hs) as (s' & E & Hh).
  exists s'. split; [by eapply Hm | done].
Qed.

(** ** Every call keeps the list well formed *)

Lemma WF_spliced_in h c1 prev next c2 k v :
  is_chain h (c1 ++ prev :: next :: c2) -> locks_free h ->
  ekey_lt (ekey h prev) (Fin k) -> ekey_lt (Fin k) (ekey h next) ->
  WF (spliced_in h prev next k v).
Proof.
  intros Hc Hf Hlo Hhi. pose proof Hc as (_ & _ & Hs & _).
  destruct (chain_node _ _ prev Hc) as (np & Hnp & _); [apply in_middle|].
  destruct (chain_node _ _ next Hc) as (nn & Hnn & _); [apply in_middle2|].
  split.
  - eexists. by apply spliced_in_chain.
  - eapply locks_free_spliced_in; eauto.
    intros ->. apply sorted_middle in Hs. by apply before_irrefl in Hs.
Qed.

Lemma WF_spliced_out h c1 prev del next c2 :
  is_chain h (c1 ++ prev :: del :: next :: c2) -> locks_free h ->
  WF (spliced_out h prev del next).
Proof.
  intros Hc Hf. pose proof Hc as (_ & _ & Hs & _).
  assert (c1 ++ prev :: del :: next :: c2
          = (c1 ++ [prev]) ++ del :: next :: c2) as Ec
    by (by rewrite <- app_assoc).
  destruct (chain_node _ _ prev Hc) as (np & Hnp & _); [apply in_middle|].
  destruct (chain_node _ _ del Hc) as (nd & Hnd & _); [apply in_middle2|].
  destruct (chain_node _ _ next Hc) as (nn & Hnn & _);
    [rewrite Ec; apply in_middle2|].
  split.
  - eexists. by apply spliced_out_chain.
  - pose proof (sorted_middle _ _ _ _ _ Hs) as H1.
    pose proof Hs as Hs'. rewrite Ec in Hs'.
    pose proof (sorted_middle _ _ _ _ _ Hs') as H2.
    eapply locks_free_spliced_out; eauto.
    + intros ->. by apply before_irrefl in H1.
    + intros ->. by apply before_irrefl in H2.
    + intros ->. apply (before_irrefl h next). by transitivity del.
Qed.

Lemma call_spec h cl :
  WF h ->
  exists N r h',
    WF h' /\ forall fuel, N <= fuel -> returns h (call self fuel cl) r h'.
Proof.
  intros [[c Hc] Hf]. exists (length c).
  assert (forall A (m : nat -> M A) (g : A -> Return) a h',
            fuel_mono m -> returns h (m (length c)) a h' ->
            forall fuel, length c <= fuel ->
              returns h (bind (m fuel) (fun x => ret (g x))) (g a) h')
    as Hwrap.
  { intros A m g a h' Hm Hr fuel Hle.
    eapply returns_bind; [by eapply (returns_mono m) | apply returns_ret]. }
  destruct cl as [k v|k v|k|k d]; simpl.
  - destruct (InsertHead_spec h c k v (length c) Hc Hf (le_n _))
      as [[_ Hr]|(_ & c1 & prev & next & c2 & -> & Hlo & Hhi & Hr)].
    + exists (RetBool false), h. split; [by split; [exists c|]|].
      apply (Hwrap _ (fun f => InsertHead self f k v) RetBool);
        [apply fuel_mono_InsertHead | done].
    + eexists (RetBool true), _. split; [by eapply WF_spliced_in|].
      apply (Hwrap _ (fun f => InsertHead self f k v) RetBool);
        [apply fuel_mono_InsertHead | done].
  - destruct (InsertTail_spec h c k v (length c) Hc Hf (le_n _))
      as [[_ Hr]|(_ & c1 & prev & next & c2 & -> & Hlo & Hhi & Hr)].
    + exists (RetBool false), h. split; [by split; [exists c|]|].
      apply (Hwrap _ (fun f => InsertTail self f k v) RetBool);
        [apply fuel_mono_InsertTail | done].
    + eexists (RetBool true), _. split; [by eapply WF_spliced_in|].
      apply (Hwrap _ (fun f => InsertTail self f k v) RetBool);
        [apply fuel_mono_InsertTail | done].
  - destruct (Delete_spec h c k (length c) Hc Hf (le_n _))
      as [[_ Hr]|(c1 & prev & del & next & c2 & -> & _ & Hr)].
    + exists (RetBool false), h. split; [by split; [exists c|]|].
      apply (Hwrap _ (fun f => Delete self f k) RetBool);
        [apply fuel_mono_Delete | done].
    + eexists (RetBool true), _. split; [by eapply WF_spliced_out|].
      apply (Hwrap _ (fun f => Delete self f k) RetBool);
        [apply fuel_mono_Delete | done].
  - destruct d as [d|].
    + destruct (Search_spec h c k d (length c) Hc Hf (le_n _))
        as (b & d' & Hr & _).
      exists (RetSearch b (Some d')), h. split; [by split; [exists c|]|].
      intros fuel Hle.
      eapply (returns_bind _ _ _ _ _ (b, Some d')); [| apply returns_ret].
      by eapply (returns_mono (fun f => Search self f k (Some d)));
        [apply fuel_mono_Search | |].
    + exists (RetSearch false None), h. split; [by split; [exists c|]|].
      intros fuel _. eapply returns_bind; apply returns_ret.
Qed.

Lemma calls_spec cs h :
  WF h ->
  exists N rs h',
    WF h' /\ forall fuel, N <= fuel -> returns h (calls self fuel cs) rs h'.
Proof.
  revert h. induction cs as [|cl cs IH]; intros h Hwf.
  - exists 0, [], h. split; [done|]. intros fuel _. apply returns_ret.
  - destruct (call_spec h cl Hwf) as (N1 & r & h1 & Hwf1 & Hr1).
    destruct (IH h1 Hwf1) as (N2 & rs & h2 & Hwf2 & Hr2).
    exists (N1 `max` N2), (r :: rs), h2. split; [done|].
    intros fuel Hle. simpl.
    eapply returns_bind; [apply Hr1; lia|].
    eapply returns_bind; [apply Hr2; lia|].
    apply returns_ret.
Qed.

End Thread.

(** ** The invariants of the quiescent list *)

Lemma links_lookup h c i a b :
  links h c -> c !! i = Some a -> c !! S i = Some b -> linked h a b.
Proof.
  revert i. induction c as [|x [|y c] IH]; intros i Hl Ha Hb; [done..|].
  destruct Hl as [Hxy Hl]. destruct i as [|i].
  - simpl in *. by injection Ha as <-; injection Hb as <-.
  - by apply (IH i).
Qed.

Lemma ends_internal c : ends c -> exists l, c = head :: l ++ [tail].
Proof.
  intros [Hh Ht]. destruct c as [|a c]; [done|]. injection Hh as ->.
  destruct c as [|t l _] using rev_ind; [discriminate Ht|].
  rewrite app_comm_cons, last_snoc in Ht. injection Ht as ->. by exists l.
Qed.

Lemma chain_succ h c a :
  is_chain h c -> In a c -> a = tail \/ exists b, In b c /\ linked h a b.
Proof.
  intros (He & Hl & _) Hin. apply in_split in Hin as (c1 & c2 & ->).
  destruct c2 as [|b c2]; [left; by apply ends_snoc in He|].
  right. exists b. split; [apply in_middle2 | by apply links_middle in Hl].
Qed.

Lemma chain_pred h c a :
  is_chain h c -> In a c -> a = head \/ exists b, In b c /\ linked h b a.
Proof.
  intros (He & Hl & _) Hin. apply in_split in Hin as (c1 & c2 & ->).
  destruct c1 as [|b c1 _] using rev_ind; [left; by apply ends_cons in He|].
  right. exists b. rewrite <- app_assoc in *. simpl in *.
  split; [apply in_middle | by apply links_middle in Hl].
Qed.

Lemma chain_reaches h c p : is_chain h c -> In p c -> reaches h head p.
Proof.
  intros (He & Hl & _) Hin. apply in_split in Hin as (c1 & c2 & ->).
  revert p c2 He Hl. induction c1 as [|b c1 IH] using rev_ind;
    intros p c2 He Hl.
  - apply ends_cons in He as ->. constructor.
  - rewrite <- app_assoc in *. simpl in *.
    eapply reaches_next; [by eapply IH|].
    by apply links_middle in Hl as [? _].
Qed.

Lemma reaches_in_chain h c p : is_chain h c -> reaches h head p -> In p c.
Proof.
  intros Hc Hr. induction Hr as [|b b' _ IH Hn].
  - apply ends_head_in, Hc.
  - destruct (chain_succ _ _ _ Hc IH) as [->|(b2 & Hin & Hb & _)].
    + destruct Hc as (_ & _ & _ & _ & _ & Ht). congruence.
    + congruence.
Qed.

Lemma sorted_keys h l :
  StronglySorted (before h) l ->
  Forall (fun x => x <> head /\ x <> tail) l ->
  StronglySorted Z.lt (map (key_of h) l).
Proof.
  induction 1 as [|a l Hs IH Ha]; intros Hf; simpl; [constructor|].
  apply Forall_cons in Hf as [[Hah Hat] Hf]. constructor; [by apply IH|].
  rewrite Forall_forall in Ha. rewrite Forall_forall in Hf.
  apply Forall_forall. intros k Hk.
  apply list_elem_of_In, in_map_iff in Hk as (x & <- & Hx).
  apply list_elem_of_In in Hx. destruct (Hf x Hx) as [Hxh Hxt].
  pose proof (Ha x Hx) as Hb. unfold before in Hb.
  by rewrite !ekey_inner in Hb.
Qed.

(** The heap of a quiescent list has the invariants of the list. *)
Lemma WF_quiescent h : WF h -> quiescent h.
Proof.
  intros [[c Hc] _]. pose proof Hc as (He & Hl & Hs & Ha & Hp & Hn).
  destruct (ends_internal _ He) as [l ->]. exists l. split_and!.
  - intros i a b Hia Hib. by destruct (links_lookup _ _ _ _ _ Hl Hia Hib).
  - eapply chain_reaches; [done|]. by apply ends_tail_in.
  - intros a b Hina Hinb. split.
    + intros Hab. destruct (chain_succ _ _ _ Hc Hina) as [->|(b' & _ & H1 & H2)];
        congruence.
    + intros Hba. destruct (chain_pred _ _ _ Hc Hinb) as [->|(a' & _ & H1 & H2)];
        congruence.
  - apply StronglySorted_inv in Hs as [Hs Hhead].
    pose proof (StronglySorted_app_1_l _ _ _ Hs) as Hsl.
    apply sorted_keys; [done|]. apply Forall_forall. intros x Hx. split.
    + intros ->. apply Forall_app in Hhead as [Hhead _].
      rewrite Forall_forall in Hhead. by apply Hhead, before_irrefl in Hx.
    + intros ->. apply StronglySorted_app in Hs as (Hs & _).
      apply (before_irrefl h tail), Hs; [done | by left].
  - intros p Hr. rewrite Forall_forall in Ha.
    apply Ha, list_elem_of_In. by eapply reaches_in_chain.
Qed.

(** The constructor makes the heap of a quiescent, empty list. *)
Lemma new_list_chain : is_chain (heap new_list) [head; tail].
Proof.
  split_and!; try done.
  - repeat constructor.
  - repeat constructor; by eexists.
Qed.

Lemma new_list_WF : WF (heap new_list).
Proof.
  split; [eexists; apply new_list_chain | by repeat constructor].
Qed.

(** C2: after every finite sequence of calls of [InsertHead], [InsertTail],
    [Delete] and [Search] run by one thread on a new list, each call returns
    (with enough fuel for its loops), and in the heap they leave the walk
    from the head along [nextPtr] reaches the tail, [nextPtr] and [prevPtr]
    are inverse to each other on the chain, the keys of the internal nodes
    increase strictly, and every node that the walk from the head reaches is
    active. *)
Theorem C2_quiescent_invariants (self : ThreadId) (cs : list Call) :
  exists N rs h',
    quiescent h' /\
    forall fuel, N <= fuel ->
      exists s', calls self fuel cs new_list = Some (rs, s') /\ heap s' = h'.
Proof.
  destruct (calls_spec self cs _ new_list_WF) as (N & rs & h' & Hwf & Hr).
  exists N, rs, h'. split; [by apply WF_quiescent|].
  intros fuel Hle. by apply (Hr fuel Hle).
Qed.

Lemma present_internal h c k :
  (exists p, In p c /\ p <> head /\ p <> tail /\ key_of h p = k) <->
  present h c k.
Proof.
  split.
  - intros (p & Hin & Hh & Ht & <-). exists p. by rewrite ekey_inner.
  - intros (p & Hin & Hp). exists p. unfold ekey in Hp.
    destruct (Nat.eqb_spec p head); [done|].
    destruct (Nat.eqb_spec p tail); [done|]. injection Hp as <-. done.
Qed.

Lemma list_5_chain : is_chain list_5 [head; 2; tail].
Proof.
  apply (spliced_in_chain (heap new_list) [] head tail [] 5 "a"%char);
    [apply new_list_chain | done..].
Qed.

Lemma list_5_free : locks_free list_5.
Proof. by repeat constructor. Qed.

(** C9: when key [k] is in the list, [InsertHead] and [InsertTail] both
    return false and leave the heap exactly as it was: no node is added, no
    field of a node is changed, and every node lock is back in the state it
    had before the call. *)
Theorem C9_duplicate_key_rejected (self : ThreadId) (h : list Node)
    (c : list NodePtr) (k : Z) (v : ascii) :
  is_chain h c -> locks_free h ->
  (exists p, In p c /\ p <> head /\ p <> tail /\ key_of h p = k) ->
  exists N, forall fuel s, N <= fuel -> heap s = h ->
    (exists s', InsertHead self fuel k v s = Some (false, s') /\
                heap s' = heap s) /\
    (exists s', InsertTail self fuel k v s = Some (false, s') /\
                heap s' = heap s).
Proof.
  intros Hc Hf Hp%present_internal. exists (length c).
  intros fuel s Hle Hs. split.
  - destruct (InsertHead_spec self h c k v fuel Hc Hf Hle) as [[_ Hr]|[Hn _]];
      [| done].
    destruct (Hr s Hs) as (s' & E & Hh). exists s'. by rewrite Hs.
  - destruct (InsertTail_spec self h c k v fuel Hc Hf Hle) as [[_ Hr]|[Hn _]];
      [| done].
    destruct (Hr s Hs) as (s' & E & Hh). exists s'. by rewrite Hs.
Qed.

Lemma C9_duplicate_key_rejected_witness :
  is_chain list_5 [head; 2; tail] /\ locks_free list_5 /\
  (exists p, In p [head; 2; tail] /\ p <> head /\ p <> tail /\
             key_of list_5 p = 5%Z) /\
  exists N, forall fuel s, N <= fuel -> heap s = list_5 ->
    (exists s', InsertHead 1 fuel 5 "y" s = Some (false, s') /\
                heap s' = heap s) /\
    (exists s', InsertTail 1 fuel 5 "y" s = Some (false, s') /\
                heap s' = heap s).
Proof.
  assert (exists p, In p [head; 2; tail] /\ p <> head /\ p <> tail /\
                    key_of list_5 p = 5%Z) as H.
  { exists 2. split; [right; by left | done]. }
  split; [apply list_5_chain|]. split; [apply list_5_free|].
  split; [exact H|].
  exact (C9_duplicate_key_rejected 1 list_5 [head; 2; tail] 5 "y"
           list_5_chain list_5_free H).
Defined.

(** C10: a [Delete] of a key that is in the list returns true and changes
    three fields only: [nextPtr] of the predecessor, [prevPtr] of the
    successor and [isNodeActive] of the victim.  The victim keeps its key,
    its data and its two pointers, which still point to the two neighbours
    it had; every other node, and every node lock, is as before. *)
Theorem C10_delete_frame (self : ThreadId) (h : list Node)
    (c : list NodePtr) (k : Z) :
  is_chain h c -> locks_free h ->
  (exists p, In p c /\ p <> head /\ p <> tail /\ key_of h p = k) ->
  exists N prev del next np nd nn,
    h !! prev = Some np /\ h !! del = Some nd /\ h !! next = Some nn /\
    key nd = k /\ prevPtr nd = Some prev /\ nextPtr nd = Some next /\
    forall fuel s, N <= fuel -> heap s = h ->
      exists s',
        Delete self fuel k s = Some (true, s') /\
        heap s' !! prev = Some (set_nextPtr (Some next) np) /\
        heap s' !! next = Some (set_prevPtr (Some prev) nn) /\
        heap s' !! del =
          Some (mkNode (key nd) (data nd) (prevPtr nd) (nextPtr nd) false
                  (lock nd)) /\
        length (heap s') = length (heap s) /\
        forall q, q <> prev -> q <> del -> q <> next ->
                  heap s' !! q = heap s !! q.
Proof.
  intros Hc Hf Hp%present_internal. pose proof Hc as (_ & Hl & Hs & _).
  destruct (Delete_spec self h c k (length c) Hc Hf (le_n _))
    as [[Hn _]|(c1 & prev & del & next & c2 & Ec & Hk & Hr)]; [done|].
  assert (c = (c1 ++ [prev]) ++ del :: next :: c2) as Ec'
    by (by rewrite Ec, <- app_assoc).
  destruct (chain_node _ _ prev Hc) as (np & Hnp & _);
    [rewrite Ec; apply in_middle|].
  destruct (chain_node _ _ del Hc) as (nd & Hnd & _);
    [rewrite Ec; apply in_middle2|].
  destruct (chain_node _ _ next Hc) as (nn & Hnn & _);
    [rewrite Ec'; apply in_middle2|].
  pose proof Hs as Hs'. rewrite Ec in Hs'.
  pose proof (sorted_middle _ _ _ _ _ Hs') as H1.
  pose proof Hs as Hs''. rewrite Ec' in Hs''.
  pose proof (sorted_middle _ _ _ _ _ Hs'') as H2.
  assert (prev <> del) as Hpd by (intros ->; by apply before_irrefl in H1).
  assert (del <> next) as Hdn by (intros ->; by apply before_irrefl in H2).
  assert (prev <> next) as Hpn.
  { intros ->. apply (before_irrefl h next). by transitivity del. }
  exists (length c), prev, del, next, np, nd, nn.
  split_and!; try done.
  - unfold ekey, key_of in Hk. rewrite Hnd in Hk.
    destruct (Nat.eqb del head); [done|]. destruct (Nat.eqb del tail); [done|].
    by injection Hk.
  - pose proof Hl as Hl1. rewrite Ec in Hl1.
    apply links_middle in Hl1 as [_ Hl1]. unfold prev_of in Hl1.
    by rewrite Hnd in Hl1.
  - pose proof Hl as Hl2. rewrite Ec' in Hl2.
    apply links_middle in Hl2 as [Hl2 _]. unfold next_of in Hl2.
    by rewrite Hnd in Hl2.
  - intros fuel s Hle Hhs.
    destruct (returns_mono (fun f => Delete self f k) _ _ _ _
                (fuel_mono_Delete self k) Hr fuel Hle s Hhs)
      as (s' & E & Hh').
    exists s'. split; [done|]. rewrite Hh', Hhs.
    pose proof (lookup_spliced_out h prev del next np nd nn
                  Hnp Hnd Hnn Hpd Hdn Hpn) as Hlk.
    split_and!.
    + rewrite Hlk. by case_decide.
    + rewrite Hlk. repeat case_decide; congruence.
    + rewrite Hlk. repeat case_decide; try congruence. reflexivity.
    + unfold spliced_out. by rewrite !length_alter.
    + intros q Hq1 Hq2 Hq3. rewrite Hlk. repeat case_decide; congruence.
Qed.

Lemma C10_delete_frame_witness :
  is_chain list_5 [head; 2; tail] /\ locks_free list_5 /\
  (exists p, In p [head; 2; tail] /\ p <> head /\ p <> tail /\
             key_of list_5 p = 5%Z) /\
  exists N prev del next np nd nn,
    list_5 !! prev = Some np /\ list_5 !! del = Some nd /\
    list_5 !! next = Some nn /\ key nd = 5%Z /\
    prevPtr nd = Some prev /\ nextPtr nd = Some next /\
    forall fuel s, N <= fuel -> heap s = list_5 ->
      exists s', Delete 1 fuel 5 s = Some (true, s').
Proof.
  assert (exists p, In p [head; 2; tail] /\ p <> head /\ p <> tail /\
                    key_of list_5 p = 5%Z) as H.
  { exists 2. split; [right; by left | done]. }
  split; [apply list_5_chain|]. split; [apply list_5_free|].
  split; [exact H|].
  destruct (C10_delete_frame 1 list_5 [head; 2; tail] 5
              list_5_chain list_5_free H)
    as (N & prev & del & next & np & nd & nn & H1 & H2 & H3 & H4 & H5 & H6
        & H7).
  exists N, prev, del, next, np, nd, nn. split_and!; try done.
  intros fuel s Hle Hs. destruct (H7 fuel s Hle Hs) as (s' & E & _).
  by exists s'.
Defined.

(** ** The scenario on an empty list *)

Lemma list_5_absent k : k <> 5%Z -> ~ present list_5 [head; 2; tail] k.
Proof.
  intros Hk (p & Hin & Hp).
  destruct Hin as [<-|[<-|[<-|[]]]]; try discriminate Hp.
  injection Hp as Hp. apply Hk. by rewrite <- Hp.
Qed.

Lemma list_5_present : present list_5 [head; 2; tail] 5.
Proof. exists 2. split; [right; by left | done]. Qed.

Lemma scenario_InsertHead self fuel :
  2 <= fuel -> returns (heap new_list) (InsertHead self fuel 5 "a") true list_5.
Proof.
  intros Hle.
  destruct (InsertHead_spec self (heap new_list) [head; tail] 5 "a" fuel
              new_list_chain (proj2 new_list_WF) Hle)
    as [[(p & Hin & Hp) _]|(_ & c1 & prev & next & c2 & Ec & _ & _ & Hr)].
  - by destruct Hin as [<-|[<-|[]]].
  - destruct c1 as [|x [|y [|z c1]]]; simplify_eq/=;
      first [done | by destruct c1].
Qed.

Lemma scenario_Search self fuel k d :
  3 <= fuel ->
  returns list_5 (Search self fuel k (Some d))
    (if decide (k = 5%Z) then (true, Some "a"%char) else (false, Some d))
    list_5.
Proof.
  intros Hle.
  destruct (Search_spec self list_5 [head; 2; tail] k d fuel
              list_5_chain list_5_free Hle)
    as (b & d' & Hr & Hb & Ht & Hf).
  case_decide as Hk.
  - subst k. destruct b.
    + destruct (Ht eq_refl) as (p & n & Hin & Hn & Hp & ->).
      destruct Hin as [<-|[<-|[<-|[]]]]; try discriminate Hp.
      by injection Hn as <-.
    + destruct Hb as [_ Hb]. discriminate (Hb list_5_present).
  - destruct b.
    + destruct Hb as [Hb _]. by destruct (list_5_absent k Hk (Hb eq_refl)).
    + by rewrite (Hf eq_refl) in Hr.
Qed.

Lemma scenario_Delete self fuel :
  3 <= fuel ->
  returns list_5 (Delete self fuel 5) true (spliced_out list_5 head 2 tail).
Proof.
  intros Hle.
  destruct (Delete_spec self list_5 [head; 2; tail] 5 fuel
              list_5_chain list_5_free Hle)
    as [[Hn _]|(c1 & prev & del & next & c2 & Ec & _ & Hr)].
  - destruct (Hn list_5_present).
  - destruct c1 as [|x [|y [|z c1]]]; simplify_eq/=;
      first [done | by destruct c1].
Qed.

Lemma scenario_Delete_again self fuel :
  3 <= fuel ->
  returns (spliced_out list_5 head 2 tail) (Delete self fuel 5) false
    (spliced_out list_5 head 2 tail).
Proof.
  intros Hle.
  assert (is_chain (spliced_out list_5 head 2 tail) [head; tail]) as Hc
    by apply (spliced_out_chain list_5 [] head 2 tail [] list_5_chain).
  assert (locks_free (spliced_out list_5 head 2 tail)) as Hf
    by (by repeat constructor).
  destruct (Delete_spec self _ [head; tail] 5 fuel Hc Hf)
    as [[_ Hr]|(c1 & prev & del & next & c2 & Ec & _ & _)];
    [simpl; lia | done |].
  destruct c1 as [|x [|y [|z c1]]]; simplify_eq/=; by destruct c1.
Qed.

(** C1: on a new list, run by one thread, [InsertHead(5,'a')] returns true,
    [Search(5)] returns true and writes 'a', [Search(6)] returns false (and
    leaves the out-parameter alone), [Delete(5)] returns true and a second
    [Delete(5)] returns false. *)
Theorem C1_empty_list_scenario (self : ThreadId) (d1 d2 : ascii) :
  exists N, forall fuel, N <= fuel ->
    exists s',
      calls self fuel
        [CallInsertHead 5 "a"; CallSearch 5 (Some d1); CallSearch 6 (Some d2);
         CallDelete 5; CallDelete 5] new_list
      = Some ([RetBool true; RetSearch true (Some "a"%char);
               RetSearch false (Some d2); RetBool true; RetBool false], s').
Proof.
  exists 3. intros fuel Hle.
  assert (returns (heap new_list)
            (calls self fuel
               [CallInsertHead 5 "a"; CallSearch 5 (Some d1);
                CallSearch 6 (Some d2); CallDelete 5; CallDelete 5])
            [RetBool true; RetSearch true (Some "a"%char);
             RetSearch false (Some d2); RetBool true; RetBool false]
            (spliced_out list_5 head 2 tail)) as Hr.
  { simpl.
    eapply returns_bind.
    { eapply returns_bind; [apply scenario_InsertHead; lia | apply returns_ret]. }
    eapply returns_bind.
    { eapply returns_bind.
      { eapply returns_bind;
          [apply (scenario_Search self fuel 5 d1 Hle) | apply returns_ret]. }
      eapply returns_bind.
      { eapply returns_bind.
        { eapply returns_bind;
            [apply (scenario_Search self fuel 6 d2 Hle) | apply returns_ret]. }
        eapply returns_bind.
        { eapply returns_bind.
          { eapply returns_bind;
              [by apply scenario_Delete | apply returns_ret]. }
          eapply returns_bind.
          { eapply returns_bind.
            { eapply returns_bind;
                [by apply scenario_Delete_again | apply returns_ret]. }
            eapply returns_bind; apply returns_ret. }
          apply returns_ret. }
        apply returns_ret. }
      apply returns_ret. }
    apply returns_ret. }
  destruct (Hr new_list eq_refl) as (s' & E & _). by exists s'.
Qed.

(** ** Lock calls in the trace *)

Lemma lock_call_run s p e m n l' notified :
  heap s !! p = Some n ->
  m (lock n) = Some (Proceed l' notified) ->
  lock_call p e m s
  = Some (tt, mkStore (relock l' p (heap s)) (trace s ++ [e])).
Proof.
  intros Hp Hm. unfold lock_call, bind, load, store, log.
  rewrite Hp, Hm. simpl. by rewrite Hp.
Qed.

Lemma release_call_run s p e m n l' notified :
  heap s !! p = Some n ->
  m (lock n) = Some (l', notified) ->
  release_call p e m s
  = Some (tt, mkStore (relock l' p (heap s)) (trace s ++ [e])).
Proof.
  intros Hp Hm. unfold release_call, bind, load, store, log.
  rewrite Hp, Hm. simpl. by rewrite Hp.
Qed.

Lemma load_nextPtr_run s p n q :
  heap s !! p = Some n -> nextPtr n = Some q -> load_nextPtr p s = Some (q, s).
Proof. intros Hp Hq. unfold load_nextPtr, bind, load. by rewrite Hp, Hq. Qed.

Lemma load_prevPtr_run s p n q :
  heap s !! p = Some n -> prevPtr n = Some q -> load_prevPtr p s = Some (q, s).
Proof. intros Hp Hq. unfold load_prevPtr, bind, load. by rewrite Hp, Hq. Qed.

Lemma ReleaseSharedLock_run self s p n :
  heap s !! p = Some n ->
  lock n = held_MAY_WRITE self \/ lock n = held_READ ->
  ReleaseSharedLock self p s
  = Some (tt, mkStore (relock new_lock p (heap s))
                (trace s ++ [EvReleaseShared p])).
Proof.
  intros Hp [Hl|Hl]; (eapply release_call_run; [done|]); rewrite Hl;
    unfold RMWLock.ReleaseSharedLock; simpl; rewrite ?Nat.eqb_refl;
    reflexivity.
Qed.

Lemma LockRead_run self s p n :
  heap s !! p = Some n -> lock n = new_lock ->
  LockRead self p s
  = Some (tt, mkStore (relock held_READ p (heap s))
                (trace s ++ [EvAcquire READ p])).
Proof. intros Hp Hl. eapply lock_call_run; [done|]. by rewrite Hl. Qed.

Lemma LockMayWrite_run self s p n :
  heap s !! p = Some n -> lock n = new_lock ->
  LockMayWrite self p s
  = Some (tt, mkStore (relock (held_MAY_WRITE self) p (heap s))
                (trace s ++ [EvAcquire MAY_WRITE p])).
Proof.
  intros Hp Hl. eapply lock_call_run; [done|]. rewrite Hl.
  unfold LockMayWrite_enter, Lock_enter. simpl. reflexivity.
Qed.

(** ** The read-mode advance step *)

(** C5 (as the code has it): a read-mode step of the traversal from [cur],
    which the thread holds in READ, to its successor [nxt] makes two lock
    calls: it releases the lock of [cur], then it acquires the lock of [nxt]
    in READ.  The thread holds the one lock of [cur] before the step, no
    lock between the two calls, and the one lock of [nxt] after the step. *)
Theorem C5_read_advance_releases_first (self : ThreadId) (s : Store)
    (prev cur nxt : NodePtr) (n nn : Node) :
  heap s !! cur = Some n -> lock n = held_READ -> nextPtr n = Some nxt ->
  heap s !! nxt = Some nn -> lock nn = new_lock ->
  exists s',
    AdvanceAndLockReadMayWrite self prev cur true s = Some ((cur, nxt), s') /\
    trace s' = trace s ++ [EvReleaseShared cur; EvAcquire READ nxt] /\
    heap s' = relock held_READ nxt (relock new_lock cur (heap s)) /\
    holds [cur] [] = [cur] /\
    holds [cur] [EvReleaseShared cur] = [] /\
    holds [cur] [EvReleaseShared cur; EvAcquire READ nxt] = [nxt].
Proof.
  intros Hn Hl Hnx Hnn Hln.
  assert (cur <> nxt) as Hne.
  { intros ->. rewrite Hn in Hnn. injection Hnn as ->.
    rewrite Hl in Hln. discriminate Hln. }
  eexists. split_and!.
  - unfold AdvanceAndLockReadMayWrite, bind.
    rewrite (load_nextPtr_run s cur n nxt Hn Hnx).
    rewrite (ReleaseSharedLock_run self s cur n Hn (or_intror Hl)).
    erewrite LockRead_run;
      [reflexivity | simpl; by rewrite lookup_relock_ne | done].
  - simpl. by rewrite <- app_assoc.
  - done.
  - done.
  - unfold holds. simpl. by rewrite Nat.eqb_refl.
  - unfold holds. simpl. by rewrite Nat.eqb_refl.
Qed.

Lemma C5_read_advance_releases_first_witness :
  heap list_5_head_read !! head
  = Some (mkNode 0 "0" None (Some 2) true held_READ) /\
  heap list_5_head_read !! 2 = Some (new_Node 5 "a" (Some head) (Some tail)) /\
  exists s',
    AdvanceAndLockReadMayWrite 1 head head true list_5_head_read
    = Some ((head, 2), s') /\
    trace s' = [EvAcquire READ head; EvReleaseShared head; EvAcquire READ 2].
Proof.
  split; [reflexivity|]. split; [reflexivity|].
  destruct (C5_read_advance_releases_first 1 list_5_head_read head head 2
              (mkNode 0 "0" None (Some 2) true held_READ)
              (new_Node 5 "a" (Some head) (Some tail))
              eq_refl eq_refl eq_refl eq_refl eq_refl)
    as (s' & E & Ht & _).
  exists s'. by split.
Defined.

(** The step of [Search] from the head of the list with the single key 5:
    the lock calls are not those of hand-over-hand locking, and after the
    first of them the thread holds no lock. *)
Lemma C5_counterexample :
  exists s',
    AdvanceAndLockReadMayWrite 1 head head true list_5_head_read
    = Some ((head, 2), s') /\
    trace s'
    = trace list_5_head_read ++ [EvReleaseShared head; EvAcquire READ 2] /\
    trace s' <> trace list_5_head_read ++ hand_over_hand_READ head 2 /\
    holds [] (trace list_5_head_read) = [head] /\
    holds [] (trace list_5_head_read ++ [EvReleaseShared head]) = [].
Proof. eexists. split_and!; [reflexivity | done..]. Qed.

(** ** The release of the may-writer *)

Lemma bind_run {A B} (m : M A) (k : A -> M B) s a s1 :
  m s = Some (a, s1) -> bind m k s = k a s1.
Proof. intros E. unfold bind. by rewrite E. Qed.

Lemma tg_ret {A} (a : A) : trace_grows (ret a).
Proof. intros s a' s' [= <- <-]. exists []. by rewrite app_nil_r. Qed.

Lemma tg_fail {A} : trace_grows (@fail A).
Proof. intros s a s' H. discriminate H. Qed.

Lemma tg_bind {A B} (m : M A) (k : A -> M B) :
  trace_grows m -> (forall a, trace_grows (k a)) -> trace_grows (bind m k).
Proof.
  intros Hm Hk s b s' H. unfold bind in H.
  destruct (m s) as [[a s1]|] eqn:E; [| discriminate].
  destruct (Hm _ _ _ E) as (tr1 & E1). destruct (Hk a _ _ _ H) as (tr2 & E2).
  exists (tr1 ++ tr2). by rewrite E2, E1, app_assoc.
Qed.

Lemma tg_load p : trace_grows (load p).
Proof.
  intros s a s' H. unfold load in H.
  destruct (heap s !! p); [| discriminate]. injection H as <- <-.
  exists []. by rewrite app_nil_r.
Qed.

Lemma tg_store p f : trace_grows (store p f).
Proof.
  intros s a s' H. unfold store in H.
  destruct (heap s !! p); [| discriminate]. injection H as <- <-.
  exists []. simpl. by rewrite app_nil_r.
Qed.

Lemma tg_alloc n : trace_grows (alloc n).
Proof.
  intros s a s' [= <- <-]. exists []. simpl. by rewrite app_nil_r.
Qed.

Lemma tg_log e : trace_grows (log e).
Proof. intros s a s' [= <- <-]. by exists [e]. Qed.

Ltac tg :=
  repeat first
    [ assumption
    | apply tg_ret | apply tg_fail | apply tg_load | apply tg_store
    | apply tg_alloc | apply tg_log
    | apply tg_bind; [| intros]
    | match goal with
      | |- trace_grows (if ?b then _ else _) => destruct b
      | |- trace_grows (match ?x with _ => _ end) => destruct x
      end ].

Lemma tg_lock_call p e m : trace_grows (lock_call p e m).
Proof. unfold lock_call. tg. Qed.

Lemma tg_release_call p e m : trace_grows (release_call p e m).
Proof. unfold release_call. tg. Qed.

Lemma tg_load_nextPtr p : trace_grows (load_nextPtr p).
Proof. unfold load_nextPtr. tg. Qed.

Lemma tg_load_prevPtr p : trace_grows (load_prevPtr p).
Proof. unfold load_prevPtr. tg. Qed.

Ltac tg_calls :=
  repeat first
    [ apply tg_ret | apply tg_load | apply tg_store | apply tg_alloc
    | apply tg_load_nextPtr | apply tg_load_prevPtr
    | apply tg_lock_call | apply tg_release_call
    | apply tg_bind; [| intros]
    | progress cbv beta zeta ].

Lemma tg_FindKey_loop self fuel key0 isRead prev next :
  trace_grows (FindKey_loop self fuel key0 isRead prev next).
Proof.
  revert prev next. induction fuel as [|fuel IH]; intros prev next; simpl.
  { apply tg_fail. }
  apply tg_bind; [apply tg_load|]. intros n.
  destruct (_ || _); [| apply tg_ret].
  apply tg_bind; [| intros [prev' next']; apply IH].
  unfold AdvanceAndLockReadMayWrite, ReleaseSharedLock, LockRead,
    LockMayWrite.
  destruct isRead; tg_calls.
Qed.

Lemma tg_InsertFromPosition self fuel position key0 data0 :
  trace_grows (InsertFromPosition self fuel position key0 data0).
Proof.
  unfold InsertFromPosition, FindKey, UpgradeLock, ReleaseExclusiveLock,
    ReleaseSharedLock, LockMayWrite.
  apply tg_bind.
  { simpl. apply tg_bind; [apply tg_load_nextPtr|]. intros next.
    apply tg_bind; [apply tg_lock_call|]. intros _.
    apply tg_FindKey_loop. }
  intros [prev next]. apply tg_bind; [apply tg_load|]. intros n.
  destruct (_ || _); tg_calls.
Qed.

Lemma tg_InsertTail_loop self fuel key0 prev :
  trace_grows (InsertTail_loop self fuel key0 prev).
Proof.
  revert prev. induction fuel as [|fuel IH]; intros prev; simpl.
  { apply tg_fail. }
  apply tg_bind; [apply tg_load|]. intros n.
  destruct (_ || _); [| apply tg_ret].
  apply tg_bind; [| intros prev'; apply IH].
  unfold InsertTail_step, ReleaseSharedLock, LockMayWrite. tg_calls.
Qed.

Lemma tg_InsertTail_finish self fuel key0 data0 prev :
  trace_grows (InsertTail_finish self fuel key0 data0 prev).
Proof.
  unfold InsertTail_finish, ReleaseSharedLock.
  apply tg_bind; [apply tg_load|]. intros n.
  destruct (_ && _); [| apply tg_InsertFromPosition].
  apply tg_bind; [apply tg_release_call | intros; apply tg_ret].
Qed.

(** The run of [InsertTail] on a list whose last node [p] has a key above
    [key0]: it comes to the store [s0] below, in which the thread holds [p]
    in MAY_WRITE and has made three lock calls, and goes on from there with
    the first step of the backward walk, to the predecessor [q] of [p]. *)
Lemma InsertTail_first_step self h c1 (q p : NodePtr) key0 data0 fuel s :
  is_chain h (c1 ++ [q; p; tail]) -> locks_free h ->
  ekey_lt (Fin key0) (ekey h p) ->
  heap s = h ->
  InsertTail self (S fuel) key0 data0 s
  = bind (InsertTail_step self p)
      (fun prev =>
         bind (InsertTail_loop self fuel key0 prev)
           (InsertTail_finish self (S fuel) key0 data0))
      (mkStore (relock (held_MAY_WRITE self) p h)
         (trace s ++ [EvAcquire READ tail; EvReleaseShared tail;
                      EvAcquire MAY_WRITE p])).
Proof.
  intros Hc Hf Hlt Hs. pose proof Hc as (_ & Hl & Hso & _).
  assert (is_chain h ((c1 ++ [q]) ++ [p; tail])) as Hc'
    by by rewrite <- app_assoc.
  pose proof Hc' as (_ & Hl' & Hso' & _).
  destruct (chain_node _ _ tail Hc') as (nt & Hnt & _); [apply in_middle2|].
  destruct (chain_node _ _ p Hc') as (np & Hnp & Hact); [apply in_middle|].
  pose proof (free_lock _ _ _ Hf Hnt) as Hlt'.
  pose proof (free_lock _ _ _ Hf Hnp) as Hlp.
  assert (p <> tail) as Hpt by by eapply chain_not_tail.
  apply links_middle in Hl' as [_ Hprev].
  unfold prev_of in Hprev. rewrite Hnt in Hprev.
  subst h.
  pose proof (LockRead_run self s tail nt Hnt Hlt') as E1.
  set (sA := mkStore (relock held_READ tail (heap s))
               (trace s ++ [EvAcquire READ tail])) in E1.
  assert (heap sA !! tail = Some (set_lock held_READ nt)) as HA
    by (simpl; by apply lookup_relock_eq).
  pose proof (load_prevPtr_run sA tail _ p HA Hprev) as E2.
  pose proof (ReleaseSharedLock_run self sA tail _ HA (or_intror eq_refl))
    as E3.
  simpl heap in E3. rewrite (relock_release _ tail (heap s) nt Hnt Hlt') in E3.
  set (sB := mkStore (heap s) (trace sA ++ [EvReleaseShared tail])) in E3.
  pose proof (LockMayWrite_run self sB p np Hnp Hlp) as E4.
  unfold InsertTail.
  rewrite (bind_run _ _ _ _ _ E1), (bind_run _ _ _ _ _ E2),
    (bind_run _ _ _ _ _ E3), (bind_run _ _ _ _ _ E4).
  simpl heap. simpl trace. rewrite <- !app_assoc. simpl app.
  set (s0 := mkStore _ _).
  assert (heap s0 !! p = Some (set_lock (held_MAY_WRITE self) np)) as Hp0
    by (simpl; by apply lookup_relock_eq).
  simpl InsertTail_loop. unfold bind at 1 2. unfold load at 1. rewrite Hp0.
  change (key (set_lock (held_MAY_WRITE self) np)) with (key np).
  change (isNodeActive (set_lock (held_MAY_WRITE self) np))
    with (isNodeActive np).
  pose proof (proj2 (InsertTail_test (heap s) p np key0 Hnp Hpt Hact) Hlt)
    as Ht.
  rewrite Ht. unfold InsertTail_finish, bind.
  by destruct (InsertTail_step self p s0) as [[a s1]|].
Qed.

(** C6: [ReleaseSharedLock] by the thread that is the may-writer takes one
    off the count of readers and clears the may-writer identity, so that
    the state of the lock permits MAY_WRITE again, and with nobody queued
    the [LockMayWrite] of another thread goes through at once.  So it is in
    the backward walk of [InsertTail].  On a list whose last node [p] has a
    key above [key0], and whose node before [p] is [q], [InsertTail] locks
    and releases the tail sentinel, locks [p] in MAY_WRITE and so comes to
    the store [s0]; what it does from there is the step of the walk from [p]
    and then the rest of the walk.  The step releases [p], of which the
    thread is the may-writer, and locks [q]: after the release the lock of
    [p] has no may-writer and no reader and permits MAY_WRITE, and another
    thread locks [p] in MAY_WRITE.  [InsertTail] returns, and its lock calls
    begin with those five. *)
Theorem C6_may_writer_release (self other : ThreadId) (l : Lock)
    (h : list Node) (c1 : list NodePtr) (q p : NodePtr) (key0 : Z)
    (data0 : ascii) :
  lock_inv l -> mayWriterThreadId l = Some self ->
  (0 < readersNumber l < UINT_MOD)%Z ->
  is_chain h (c1 ++ [q; p; tail]) -> locks_free h ->
  ekey_lt (Fin key0) (ekey h p) ->
  (exists l',
     RMWLock.ReleaseSharedLock self l = Some (l', TryNotifyingNext l') /\
     readersNumber l' = (readersNumber l - 1)%Z /\
     mayWriterThreadId l' = None /\
     CanAcquireLock MAY_WRITE l' = true /\
     (threadQueue l = [] ->
      exists l'',
        LockMayWrite_enter other l' = Some (Proceed l'' None) /\
        mayWriterThreadId l'' = Some other)) /\
  (forall fuel s,
     heap s = h -> length (c1 ++ [q; p; tail]) <= S fuel ->
     exists s0 n0 s1 n1 s2 s3 r s' tr,
       trace s0 = trace s ++ [EvAcquire READ tail; EvReleaseShared tail;
                              EvAcquire MAY_WRITE p] /\
       heap s0 !! p = Some n0 /\
       mayWriterThreadId (lock n0) = Some self /\
       InsertTail self (S fuel) key0 data0 s
       = bind (InsertTail_step self p)
           (fun prev =>
              bind (InsertTail_loop self fuel key0 prev)
                (InsertTail_finish self (S fuel) key0 data0)) s0 /\
       ReleaseSharedLock self p s0 = Some (tt, s1) /\
       heap s1 !! p = Some n1 /\
       readersNumber (lock n1) = 0%Z /\
       mayWriterThreadId (lock n1) = None /\
       CanAcquireLock MAY_WRITE (lock n1) = true /\
       LockMayWrite self q s1 = Some (tt, s2) /\
       InsertTail_step self p s0 = Some (q, s2) /\
       heap s2 = relock (held_MAY_WRITE self) q h /\
       LockMayWrite other p s1 = Some (tt, s3) /\
       heap s3 = relock (held_MAY_WRITE other) p h /\
       InsertTail self (S fuel) key0 data0 s = Some (r, s') /\
       trace s' = trace s ++ [EvAcquire READ tail; EvReleaseShared tail;
                              EvAcquire MAY_WRITE p; EvReleaseShared p;
                              EvAcquire MAY_WRITE q] ++ tr).
Proof.
  intros Hi Hm Hr Hc Hf Hlt. split.
  - destruct (ReleaseSharedLock_may_writer self l Hi Hm Hr)
      as (l' & E & H1 & H2 & _ & _ & H3 & H4).
    exists l'. split_and!; try done.
    intros Hq. apply (H4 Hq other).
  - intros fuel s Hs Hlen. pose proof Hc as (_ & Hl & Hso & _).
    assert (is_chain h ((c1 ++ [q]) ++ [p; tail])) as Hc'
      by by rewrite <- app_assoc.
    destruct (chain_node _ _ p Hc') as (np & Hnp & Hact); [apply in_middle|].
    destruct (chain_node _ _ q Hc) as (nq & Hnq & _); [apply in_middle|].
    pose proof (free_lock _ _ _ Hf Hnp) as Hlp.
    pose proof (free_lock _ _ _ Hf Hnq) as Hlq.
    assert (q <> p) as Hqp.
    { intros ->. apply sorted_middle in Hso. by apply before_irrefl in Hso. }
    apply links_middle in Hl as [_ Hprev].
    unfold prev_of in Hprev. rewrite Hnp in Hprev.
    set (s0 := mkStore (relock (held_MAY_WRITE self) p h)
                 (trace s ++ [EvAcquire READ tail; EvReleaseShared tail;
                              EvAcquire MAY_WRITE p])).
    assert (heap s0 !! p = Some (set_lock (held_MAY_WRITE self) np)) as Hp0
      by (simpl; by apply lookup_relock_eq).
    pose proof (ReleaseSharedLock_run self s0 p _ Hp0 (or_introl eq_refl))
      as E1.
    simpl heap in E1. rewrite (relock_release _ p h np Hnp Hlp) in E1.
    set (s1 := mkStore h (trace s0 ++ [EvReleaseShared p])) in *.
    pose proof (LockMayWrite_run self s1 q nq Hnq Hlq) as E2.
    set (s2 := mkStore (relock (held_MAY_WRITE self) q (heap s1))
                 (trace s1 ++ [EvAcquire MAY_WRITE q])) in *.
    pose proof (LockMayWrite_run other s1 p np Hnp Hlp) as E3.
    set (s3 := mkStore (relock (held_MAY_WRITE other) p (heap s1))
                 (trace s1 ++ [EvAcquire MAY_WRITE p])) in *.
    assert (InsertTail_step self p s0 = Some (q, s2)) as Estep.
    { unfold InsertTail_step.
      rewrite (bind_run _ _ _ _ _ (load_prevPtr_run s0 p _ q Hp0 Hprev)).
      rewrite (bind_run _ _ _ _ _ E1), (bind_run _ _ _ _ _ E2). done. }
    pose proof (InsertTail_first_step self h c1 q p key0 data0 fuel s
                  Hc Hf Hlt Hs) as Erun.
    fold s0 in Erun.
    assert (exists r s', InsertTail self (S fuel) key0 data0 s = Some (r, s'))
      as (r & s' & Eret).
    { destruct (InsertTail_spec self h _ key0 data0 (S fuel) Hc Hf Hlen)
        as [[_ Hret]|(_ & ? & ? & ? & ? & _ & _ & _ & Hret)];
        destruct (Hret s Hs) as (s' & E & _); by eauto. }
    assert (exists tr, trace s' = trace s2 ++ tr) as (tr & Etr).
    { rewrite Erun, (bind_run _ _ _ _ _ Estep) in Eret.
      revert Eret. apply tg_bind; [apply tg_InsertTail_loop|].
      intros prev. apply tg_InsertTail_finish. }
    exists s0, (set_lock (held_MAY_WRITE self) np), s1, np, s2, s3, r, s', tr.
    split_and!; try done.
    + by rewrite Hlp.
    + by rewrite Hlp.
    + by rewrite Hlp.
    + rewrite Etr. simpl. by rewrite <- !app_assoc.
Qed.

Lemma C6_may_writer_release_witness :
  lock_inv (held_MAY_WRITE 1) /\
  (0 < readersNumber (held_MAY_WRITE 1%nat) < UINT_MOD)%Z /\
  is_chain list_5 ([] ++ [head; 2; tail]) /\ locks_free list_5 /\
  ekey_lt (Fin 3) (ekey list_5 2) /\
  exists r s' tr,
    InsertTail 1 3 3 "c" (mkStore list_5 []) = Some (r, s') /\
    trace s' = [EvAcquire READ tail; EvReleaseShared tail;
                EvAcquire MAY_WRITE 2; EvReleaseShared 2;
                EvAcquire MAY_WRITE head] ++ tr.
Proof.
  assert (lock_inv (held_MAY_WRITE 1)) as Hi by (intros H; discriminate H).
  assert (0 < readersNumber (held_MAY_WRITE 1%nat) < UINT_MOD)%Z as Hr
    by (split; reflexivity).
  assert (ekey_lt (Fin 3) (ekey list_5 2)) as Hlt by reflexivity.
  split; [exact Hi|]. split; [exact Hr|].
  split; [exact list_5_chain|]. split; [exact list_5_free|].
  split; [exact Hlt|].
  destruct (C6_may_writer_release 1 2 (held_MAY_WRITE 1) list_5 [] head 2 3
              "c" Hi eq_refl Hr list_5_chain list_5_free Hlt)
    as [_ Hrun].
  destruct (Hrun 2 (mkStore list_5 []) eq_refl (le_n 3))
    as (_ & _ & _ & _ & _ & _ & r & s' & tr & _ & _ & _ & _ & _ & _ & _ & _
        & _ & _ & _ & _ & _ & _ & E & Etr).
  exists r, s', tr. split; [exact E | exact Etr].
Defined.

(** ** The candidate of [FindKey] *)

Lemma below_ekey h key0 x :
  ekey_lt (ekey h x) (Fin key0) <-> below h key0 x.
Proof.
  unfold ekey, below. destruct (Nat.eqb_spec x head) as [->|Hh]; simpl.
  - split; [by left | done].
  - destruct (Nat.eqb_spec x tail) as [->|Ht]; simpl.
    + split; [done|]. by intros [?|[? _]].
    + split; [by right|]. by intros [?|[_ ?]].
Qed.

Lemma not_below_ekey h key0 x :
  ~ ekey_lt (ekey h x) (Fin key0) ->
  x <> head /\ (x = tail \/ (key0 <= key_of h x)%Z).
Proof.
  unfold ekey. destruct (Nat.eqb_spec x head) as [->|Hh]; simpl.
  - intros H. by destruct H.
  - destruct (Nat.eqb_spec x tail) as [->|Ht]; simpl.
    + intros _. split; [done | by left].
    + intros H. split; [done|]. right. lia.
Qed.

Lemma last_cons_default {A} (x : A) l :
  last (x :: l) = Some (default x (last l)).
Proof. rewrite last_cons. by destruct (last l). Qed.

(** [FindKey] from any node [pos] of the chain that is not the tail sentinel
    and that the thread holds, in a list that is otherwise unlocked.  In
    may-write mode the search starts at the successor
    of [pos], in read mode at [pos] itself.  The nodes [passed] from the
    start of the search to the candidate [cand] are all below [key0]; [cand]
    is not: it is the tail sentinel or has a key that is at least [key0],
    and it is not the head sentinel.  The new position [pos'] is the last of
    [pos] and the nodes passed.  It is the predecessor of [cand], except in
    read mode when [pos] itself is the candidate: then the position stays
    [pos].  With enough fuel the call returns, holding [cand] in READ in
    read mode, and [pos'] and [cand] in MAY_WRITE in may-write mode. *)
Lemma FindKey_from_position (self : ThreadId) (h : list Node)
    (c c1 c2 : list NodePtr) (pos : NodePtr) (key0 : Z) (isRead : bool) :
  is_chain h c -> locks_free h -> c = c1 ++ pos :: c2 -> pos <> tail ->
  exists N passed pos' cand rest,
    (if isRead then pos :: c2 else c2) = passed ++ cand :: rest /\
    Forall (below h key0) passed /\
    (cand = tail \/ (key0 <= key_of h cand)%Z) /\
    cand <> head /\
    last (pos :: passed) = Some pos' /\
    ((isRead = true /\ pos <> head /\ pos' = pos /\ cand = pos) \/
     next_of h pos' = Some cand) /\
    forall fuel s,
      N <= fuel ->
      heap s = relock (if isRead then held_READ else held_MAY_WRITE self)
                 pos h ->
      exists s',
        FindKey self fuel pos key0 isRead s = Some ((pos', cand), s') /\
        heap s' = if isRead then relock held_READ cand h
                  else relock (held_MAY_WRITE self) cand
                         (relock (held_MAY_WRITE self) pos' h).
Proof.
  intros Hc Hf Ec Hpos. pose proof Hc as (He & Hl & Hs & _).
  destruct isRead.
  - destruct (FindKey_loop_read self h c key0 Hc Hf (S (length c2))
                c1 pos pos c2 Ec (Nat.lt_succ_diag_r _))
      as (passed & cand & rest & Esp & Hpassed & Hstop & Hret).
    destruct (not_below_ekey _ _ _ Hstop) as [Hch Hck].
    exists (S (length c2)), passed, (default pos (last passed)), cand, rest.
    split_and!; try done.
    + eapply Forall_impl; [exact Hpassed|]. intros x. apply below_ekey.
    + apply last_cons_default.
    + destruct passed as [|x passed _] using rev_ind.
      * left. simpl in Esp. injection Esp as <- _. by split_and!.
      * right. rewrite last_snoc. simpl.
        rewrite Ec, Esp, <- app_assoc, app_assoc in Hl. simpl in Hl.
        by apply links_middle in Hl as [? _].
    + intros fuel s Hle Hhs.
      assert (returns (relock held_READ pos h)
                (FindKey self (S (length c2)) pos key0 true)
                (default pos (last passed), cand) (relock held_READ cand h))
        as Hr.
      { unfold FindKey. simpl.
        eapply returns_bind; [apply returns_ret|].
        eapply returns_bind; [apply returns_ret|]. exact Hret. }
      exact (returns_mono (fun f => FindKey self f pos key0 true) _ _ _ _
               (fuel_mono_FindKey self pos key0 true) Hr fuel Hle s Hhs).
  - destruct c2 as [|nx c2];
      [rewrite Ec in He; by apply ends_snoc in He|].
    destruct (FindKey_may_write self h c key0 (S (length c2)) c1 pos nx c2
                Hc Hf Ec (Nat.lt_succ_diag_r _))
      as (passed & c1' & pos' & cand & rest & Ec' & Efront & Hpassed & Hstop
          & Hret).
    destruct (not_below_ekey _ _ _ Hstop) as [Hch Hck].
    assert (c = c1 ++ pos :: passed ++ cand :: rest) as Ec''.
    { rewrite Ec'.
      change (c1' ++ pos' :: cand :: rest)
        with (c1' ++ [pos'] ++ cand :: rest).
      by rewrite app_assoc, Efront, <- app_assoc. }
    exists (S (length c2)), passed, pos', cand, rest.
    split_and!; try done.
    + rewrite Ec in Ec''. apply app_inv_head in Ec''. by injection Ec''.
    + eapply Forall_impl; [exact Hpassed|]. intros x. apply below_ekey.
    + apply (f_equal last) in Efront.
      rewrite last_snoc, last_app, last_cons_default in Efront.
      by rewrite last_cons_default.
    + right. rewrite Ec' in Hl. by apply links_middle in Hl as [? _].
    + intros fuel s Hle Hhs.
      exact (returns_mono (fun f => FindKey self f pos key0 false) _ _ _ _
               (fuel_mono_FindKey self pos key0 false) Hret fuel Hle s Hhs).
Qed.

(** The positions that [FindKey] is called with are below the key: the head
    sentinel, in [InsertHead], [Delete] and [Search]; and in [InsertTail] the
    node [prev] that the backward walk stops at, which passes on to
    [InsertFromPosition] only when [prev] does not have the key itself. *)
Lemma call_sites_below h key0 (prev : NodePtr) n :
  below h key0 head /\
  (h !! prev = Some n -> prev <> tail ->
   (key n >? key0)%Z && negb (Nat.eqb prev head) || negb (isNodeActive n)
   = false ->
   negb (Nat.eqb prev head) && (key n =? key0)%Z = false ->
   below h key0 prev).
Proof.
  split; [by left|]. intros Hn Ht H1 H2. unfold below, key_of. rewrite Hn.
  destruct (Nat.eqb_spec prev head) as [|Hh]; [by left | right].
  simpl in H1, H2. rewrite andb_true_r in H1.
  apply orb_false_iff in H1 as [H1 _].
  rewrite Z.gtb_ltb in H1. apply Z.ltb_ge in H1. apply Z.eqb_neq in H2.
  split; [done | lia].
Qed.

Lemma first_not_below_split h key0 passed cand rest :
  Forall (below h key0) passed ->
  cand = tail \/ (key0 <= key_of h cand)%Z -> cand <> head ->
  first_not_below h key0 (passed ++ cand :: rest) = cand.
Proof.
  intros Hp Hc Hh. induction Hp as [|x passed Hx _ IH]; simpl.
  - destruct (Nat.eqb_spec cand tail) as [|Ht]; [done|].
    destruct (Nat.eqb_spec cand head) as [|_]; [done|]. simpl.
    destruct Hc as [|Hk]; [done|]. apply Z.leb_le in Hk. by rewrite Hk.
  - rewrite IH. destruct Hx as [->|[Ht Hk]]; [done|].
    destruct (Nat.eqb_spec x tail) as [|_]; [done|]. simpl.
    apply Z.leb_gt in Hk. rewrite Hk. by rewrite andb_false_r.
Qed.

Lemma below_not_candidate h key0 x :
  below h key0 x -> x = tail \/ (key0 <= key_of h x)%Z -> x <> head -> False.
Proof. intros [->|[Ht Hk]] [->|Hc] Hh; try done. lia. Qed.

(** C8: [FindKey] from a node [pos] of the chain that is not the tail
    sentinel, that is below [key0] (it is the head sentinel or has a smaller
    key, as at every call of [FindKey] in the list) and that the thread
    holds, in a list that is otherwise unlocked.  In both modes the nodes
    [passed], from [pos] up to the candidate [cand], are all below [key0],
    and [cand] is the first node at or after [pos] that is the tail sentinel
    or has a key that is at least [key0]; it is not the head sentinel.  The
    new position [pos'] is the last node passed, and it is the predecessor
    of [cand].  With enough fuel the call returns these two, holding [cand]
    in READ in read mode, and [pos'] and [cand] in MAY_WRITE in may-write
    mode. *)
Theorem C8_FindKey_candidate (self : ThreadId) (h : list Node)
    (c c1 c2 : list NodePtr) (pos : NodePtr) (key0 : Z) (isRead : bool) :
  is_chain h c -> locks_free h -> c = c1 ++ pos :: c2 -> pos <> tail ->
  below h key0 pos ->
  exists N passed pos' cand rest,
    pos :: c2 = passed ++ cand :: rest /\
    Forall (below h key0) passed /\
    (cand = tail \/ (key0 <= key_of h cand)%Z) /\
    cand <> head /\
    cand = first_not_below h key0 (pos :: c2) /\
    last passed = Some pos' /\
    next_of h pos' = Some cand /\
    forall fuel s,
      N <= fuel ->
      heap s = relock (if isRead then held_READ else held_MAY_WRITE self)
                 pos h ->
      exists s',
        FindKey self fuel pos key0 isRead s = Some ((pos', cand), s') /\
        heap s' = (if isRead then relock held_READ cand h
                   else relock (held_MAY_WRITE self) cand
                          (relock (held_MAY_WRITE self) pos' h)) /\
        next_of (heap s') pos' = Some cand.
Proof.
  intros Hc Hf Ec Hpos Hbelow.
  destruct (FindKey_from_position self h c c1 c2 pos key0 isRead Hc Hf Ec Hpos)
    as (N & passed0 & pos' & cand & rest & Esp & Hpassed & Hck & Hch & Hlast
        & Hnext & Hrun).
  assert (next_of h pos' = Some cand) as Hnx.
  { destruct Hnext as [(_ & _ & _ & ->)|]; [| done].
    destruct (below_not_candidate _ _ _ Hbelow Hck Hch). }
  assert (exists passed,
            pos :: c2 = passed ++ cand :: rest /\
            Forall (below h key0) passed /\ last passed = Some pos')
    as (passed & Esp' & Hpassed' & Hlast').
  { destruct isRead.
    - destruct passed0 as [|x passed0].
      + simpl in Esp. injection Esp as -> _.
        destruct (below_not_candidate _ _ _ Hbelow Hck Hch).
      + by exists (x :: passed0).
    - exists (pos :: passed0). split_and!; [by rewrite Esp | | done].
      by constructor. }
  exists N, passed, pos', cand, rest. split_and!; try done.
  - rewrite Esp'. symmetry. by apply first_not_below_split.
  - intros fuel s Hle Hs. destruct (Hrun fuel s Hle Hs) as (s' & E & Hs').
    exists s'. split_and!; try done.
    rewrite Hs'. destruct isRead; by rewrite ?next_of_relock.
Qed.

Lemma C8_FindKey_candidate_witness :
  is_chain list_5 [head; 2; tail] /\ locks_free list_5 /\ head <> tail /\
  below list_5 5 head /\
  exists N,
    forall fuel, N <= fuel ->
      exists s', FindKey 1 fuel head 5 true list_5_head_read
                 = Some ((head, 2), s').
Proof.
  split; [apply list_5_chain|]. split; [apply list_5_free|].
  split; [discriminate|]. split; [by left|].
  destruct (C8_FindKey_candidate 1 list_5 [head; 2; tail] [] [2; tail] head 5
              true list_5_chain list_5_free eq_refl
              (fun H : head = tail => O_S 0 H) (or_introl eq_refl))
    as (N & passed & pos' & cand & rest & Esp & _ & _ & _ & Ecand & Hlast & _
        & Hrun).
  exists N. intros fuel Hle.
  destruct (Hrun fuel list_5_head_read Hle eq_refl) as (s' & E & _).
  exists s'. rewrite E.
  assert (cand = 2) as -> by (rewrite Ecand; reflexivity).
  unfold head, tail in *.
  destruct passed as [|x [|y passed]].
  - discriminate Hlast.
  - simpl in Esp, Hlast. injection Esp as <- _. by injection Hlast as <-.
  - simpl in Esp. injection Esp as _ _ Erest.
    destruct passed as [|z [|w passed]]; discriminate Erest.
Defined.

End ListProofs.

(** * Laws of the lock *)

Module LockLaws.
Import RMWLock LockProofs.

(** ** Arrivals *)

Lemma ShouldThreadWait_finish_false op w l l' :
  ShouldThreadWait_finish op w l = Some (false, l') -> w = false /\ l' = l.
Proof. unfold ShouldThreadWait_finish. intros [= -> <-]. done. Qed.

Lemma ShouldThreadWait_default_false op w l l' :
  ShouldThreadWait_default op w l = Some (false, l') -> w = false /\ l' = l.
Proof.
  unfold ShouldThreadWait_default. intros H.
  destruct (Operation_eqb op READ && w) eqn:E;
    [| by apply ShouldThreadWait_finish_false in H].
  apply andb_true_iff in E as [_ ->].
  destruct (last (threadQueue l)) as [b|]; [| discriminate].
  destruct (Operation_eqb (oper b) READ);
    [| by apply ShouldThreadWait_finish_false in H as [? _]].
  destruct (assert _); simpl in H; [| discriminate]. by injection H.
Qed.

(** A request that does not have to wait leaves the lock as it is. *)
Lemma ShouldThreadWait_false op l l' :
  ShouldThreadWait op l = Some (false, l') -> l' = l.
Proof.
  unfold ShouldThreadWait. intros H.
  destruct (threadQueue l) as [|front [|second rest]].
  - by apply ShouldThreadWait_finish_false in H as [_ ?].
  - by apply ShouldThreadWait_default_false in H as [_ ?].
  - by apply ShouldThreadWait_default_false in H as [_ ?].
Qed.

(** With positive counters, [ShouldThreadWait] trips no assertion, and a
    request that has to wait finds an entry at the back of the queue. *)
Lemma ShouldThreadWait_total op l :
  positive_counters l ->
  exists w l',
    ShouldThreadWait op l = Some (w, l') /\
    (w = true -> exists b, last (threadQueue l') = Some b).
Proof.
  intros Hpos. unfold ShouldThreadWait.
  assert (forall w, exists w' l',
            ShouldThreadWait_finish op w l = Some (w', l') /\
            (w' = true -> exists b, last (threadQueue l') = Some b)) as Hfin.
  { intros w. unfold ShouldThreadWait_finish. eexists _, _. split; [done|].
    intros ->. unfold InsertConditionTuple. simpl. rewrite last_snoc.
    by eexists. }
  assert (forall w q e, threadQueue l = q ++ [e] -> exists w' l',
            ShouldThreadWait_default op w l = Some (w', l') /\
            (w' = true -> exists b, last (threadQueue l') = Some b)) as Hdef.
  { intros w q e Hq.
    assert (0 < counter e)%Z as He.
    { unfold positive_counters in Hpos. rewrite Hq in Hpos.
      apply Forall_app in Hpos as [_ Hpos]. by apply Forall_inv in Hpos. }
    rewrite (ShouldThreadWait_default_snoc op w l q e Hq He).
    destruct (Operation_eqb op READ && w && Operation_eqb (oper e) READ).
    - eexists _, _. split; [done|]. intros _. simpl. rewrite last_snoc.
      by eexists.
    - eexists _, _. split; [done|]. intros ->. simpl. rewrite last_snoc.
      by eexists. }
  destruct (queue_snoc_cases (threadQueue l))
    as [Hq|[[e Hq]|(a & b & q' & qs & e & Hq & Hsn)]].
  - rewrite Hq. apply Hfin.
  - rewrite Hq. apply (Hdef _ [] e Hq).
  - rewrite Hq. apply (Hdef _ qs e Hsn).
Qed.

Lemma uint_incr_small n : (0 <= n < UINT_MOD - 1)%Z -> uint_incr n = (n + 1)%Z.
Proof. intros H. unfold uint_incr. apply Z.mod_small. lia. Qed.

Lemma Lock_after_Wait_total self op l :
  CanAcquireLock op l = true ->
  exists l', Lock_after_Wait self op l = Some l'.
Proof.
  intros Hc. destruct op; simpl in *.
  - by eexists.
  - apply CanMayWriterAcquireLock_true in Hc as [Hm Hw]. rewrite Hm. simpl.
    by eexists.
  - apply CanWriterAcquireLock_true in Hc as (Hr & Hm & Hw). rewrite Hw.
    simpl. by eexists.
Qed.

(** What an admission changes: the holders, and nothing else. *)
Lemma Lock_after_Wait_spec self op l l' :
  Lock_after_Wait self op l = Some l' ->
  threadQueue l' = threadQueue l /\
  match op with
  | READ =>
      readersNumber l' = uint_incr (readersNumber l) /\
      isWriterHolding l' = isWriterHolding l /\
      mayWriterThreadId l' = mayWriterThreadId l
  | MAY_WRITE =>
      readersNumber l' = uint_incr (readersNumber l) /\
      isWriterHolding l' = isWriterHolding l /\
      mayWriterThreadId l' = Some self
  | WRITE =>
      readersNumber l' = readersNumber l /\
      isWriterHolding l' = true /\
      mayWriterThreadId l' = mayWriterThreadId l
  end.
Proof.
  destruct op; simpl; intros H.
  - by injection H as <-.
  - destruct (assert _); simpl in H; [| discriminate]. by injection H as <-.
  - destruct (assert _); simpl in H; [| discriminate]. by injection H as <-.
Qed.

Lemma Lock_enter_Proceed self op l l1 n :
  Lock_enter self op l = Some (Proceed l1 n) ->
  CanAcquireLock op l = true /\ n = None /\
  Lock_after_Wait self op l = Some l1.
Proof.
  unfold Lock_enter, Wait_enter. intros H.
  destruct (ShouldThreadWait op l) as [[w l']|] eqn:E; simpl in H;
    [| discriminate].
  destruct w; simpl in H.
  - destruct (last (threadQueue l')); simpl in H; discriminate.
  - pose proof (ShouldThreadWait_holders _ _ _ _ E) as [_ Hc].
    apply ShouldThreadWait_false in E as ->.
    destruct (Lock_after_Wait self op l) as [l2|]; simpl in H; [| discriminate].
    injection H as <- <-. by split; [apply Hc|].
Qed.

(** X12: [LockRead], [LockMayWrite] and [LockWrite], up to the first wait: with
    positive counters in the queue the call trips no assertion; the caller
    is let in only in a state that permits its mode, and then the holders
    are updated for that mode and the queue is as it was; otherwise the
    caller sleeps on the condition variable of the entry at the back of the
    queue, and the holders are as they were. *)
Theorem acquire_admits_or_queues (self : ThreadId) (op : Operation) (l : Lock) :
  positive_counters l ->
  exists r,
    Lock_enter self op l = Some r /\
    match r with
    | Proceed l' n =>
        CanAcquireLock op l = true /\ n = None /\
        Lock_after_Wait self op l = Some l' /\
        threadQueue l' = threadQueue l
    | Sleep l' c =>
        same_holders l l' /\
        exists b, last (threadQueue l') = Some b /\ cond b = c
    end.
Proof.
  intros Hpos.
  destruct (ShouldThreadWait_total op l Hpos) as (w & l' & E & Hback).
  pose proof (ShouldThreadWait_holders _ _ _ _ E) as [Hs Hc].
  unfold Lock_enter, Wait_enter. rewrite E. simpl.
  destruct w; simpl.
  - destruct (Hback eq_refl) as [b Hb]. rewrite Hb. simpl.
    eexists. split; [done|]. split; [done|]. by exists b.
  - apply ShouldThreadWait_false in E as ->.
    destruct (Lock_after_Wait_total self op l (Hc eq_refl)) as [l1 E1].
    rewrite E1. simpl. eexists. split; [done|].
    split_and!; [by apply Hc | done | done |].
    by apply Lock_after_Wait_spec in E1 as [? _].
Qed.

Lemma acquire_admits_or_queues_witness :
  positive_counters one_reader_queued /\
  exists r, Lock_enter 2 WRITE one_reader_queued = Some r.
Proof.
  assert (positive_counters one_reader_queued) as H by (repeat constructor).
  split; [exact H|].
  destruct (acquire_admits_or_queues 2 WRITE one_reader_queued H) as (r & E & _).
  by exists r.
Defined.

(** ** Wake-ups *)

(** X13: [Wait] after a wake-up, spurious or not: with a queue that is not empty
    and positive counters it trips no assertion; the thread goes on only
    when the entry at the front of the queue is its own and the state
    permits its mode, and then one reader is taken off that entry, or the
    entry is popped; otherwise it goes back to sleep on the same condition
    variable and the lock is exactly as it was. *)
Theorem wake_up_admits_front_only (self : ThreadId) (c : ConditionPtr)
    (op : Operation) (l : Lock) (e : ConditionTuple)
    (rest : list ConditionTuple) :
  threadQueue l = e :: rest -> (0 < counter e)%Z ->
  exists r,
    Lock_resume self c op l = Some r /\
    match r with
    | Proceed l' n =>
        cond e = c /\ CanAcquireLock op l = true /\
        (threadQueue l' = rest \/
         (op = READ /\ (1 < counter e)%Z /\
          threadQueue l' =
            mkTuple (cond e) (oper e) (uint_decr (counter e)) :: rest /\
          n = None))
    | Sleep l' c' =>
        l' = l /\ c' = c /\
        (cond e <> c \/ CanAcquireLock op l = false)
    end.
Proof.
  intros Hq He. unfold Lock_resume, Wait_resume. rewrite Hq.
  destruct (Nat.eqb_spec (cond e) c) as [Hc|Hc]; simpl;
    [| eexists; split; [done|]; split_and!; [done | done | by left]].
  destruct (CanAcquireLock op l) eqn:Hcan; simpl;
    [| eexists; split; [done|]; split_and!; [done | done | by right]].
  assert (forall q, exists l1,
            Lock_after_Wait self op (set_threadQueue q l) = Some l1 /\
            threadQueue l1 = q) as Hafter.
  { intros q.
    destruct (Lock_after_Wait_total self op (set_threadQueue q l)) as [l1 E].
    - rewrite (same_holders_CanAcquireLock _ l); [done|].
      apply same_holders_set_threadQueue.
    - exists l1. split; [done|]. by apply Lock_after_Wait_spec in E as [? _]. }
  destruct (Operation_eqb_spec op READ) as [->|Hop]; simpl.
  - apply Z.ltb_lt in He as He'. rewrite He'. simpl.
    destruct (Z.eqb_spec (uint_decr (counter e)) 0) as [H0|H0]; simpl.
    + eexists. split; [done|]. split_and!; [done | done | by left].
    + eexists. split; [done|]. split_and!; [done | done |]. right.
      split_and!; try done.
      unfold uint_decr in H0.
      destruct (Z.eq_dec (counter e) 1%Z) as [E1|E1]; [| lia].
      rewrite E1 in H0. by compute in H0.
  - destruct (Hafter rest) as (l1 & E & Hq1). rewrite E. simpl.
    eexists. split; [done|]. split_and!; [done | done | by left].
Qed.

Lemma wake_up_admits_front_only_witness :
  threadQueue one_reader_queued = [mkTuple 1 READ 1] /\
  (0 < counter (mkTuple 1%nat READ 1))%Z /\
  exists r, Lock_resume 2 1 READ one_reader_queued = Some r.
Proof.
  assert (0 < counter (mkTuple 1%nat READ 1))%Z as H by reflexivity.
  split; [reflexivity|]. split; [exact H|].
  destruct (wake_up_admits_front_only 2 1 READ one_reader_queued
              (mkTuple 1 READ 1) [] eq_refl H) as (r & E & _).
  by exists r.
Defined.

(** ** Acquire, then release *)

Lemma uint_decr_incr n : (0 <= n < UINT_MOD - 1)%Z -> uint_decr (uint_incr n) = n.
Proof.
  intros H. rewrite uint_incr_small by done. unfold uint_decr.
  replace (n + 1 - 1)%Z with n by lia. apply Z.mod_small.
  unfold UINT_MOD in *. lia.
Qed.

(** X14: Acquire, then release: when a thread is admitted at once, in any mode,
    and then releases with the release of that mode, the lock is exactly
    as it was before the two calls.  So it is for MAY_WRITE followed by
    [UpgradeLock] and [ReleaseExclusiveLock] when nobody else reads.  (For
    READ the thread must not be the registered may-writer.) *)
Theorem acquire_release_restores (self : ThreadId) (op : Operation)
    (l l1 : Lock) (n : option ConditionPtr) :
  Lock_enter self op l = Some (Proceed l1 n) ->
  room_for_reader l ->
  (op = READ -> mayWriterThreadId l <> Some self) ->
  (exists notified, release self op l1 = Some (l, notified)) /\
  (op = MAY_WRITE -> readersNumber l = 0%Z ->
   exists l2 notified,
     UpgradeLock_enter self l1 = Some (Proceed l2 None) /\
     isWriterHolding l2 = true /\
     ReleaseExclusiveLock l2 = Some (l, notified)).
Proof.
  intros H Hroom Hself.
  apply Lock_enter_Proceed in H as (Hc & _ & H).
  pose proof (uint_incr_small _ Hroom) as Hincr.
  pose proof (uint_decr_incr _ Hroom) as Hdi.
  unfold room_for_reader in Hroom.
  destruct l as [q r w m]. simpl in *.
  destruct op; simpl in *.
  - injection H as <-. split; [| done].
    unfold ReleaseSharedLock. simpl. rewrite Hdi.
    assert ((0 <? uint_incr r)%Z = true) as ->
      by (apply Z.ltb_lt; rewrite Hincr; lia).
    simpl.
    assert (tid_eqb m (Some self) = false) as ->.
    { destruct (tid_eqb m (Some self)) eqn:E; [| done].
      apply tid_eqb_eq in E. by destruct (Hself eq_refl). }
    destruct (0 <? r)%Z; by eexists.
  - apply CanMayWriterAcquireLock_true in Hc as [Hm Hw]. simpl in *.
    subst m w. simpl in H. injection H as <-. split.
    + unfold ReleaseSharedLock. simpl. rewrite Hdi.
      assert ((0 <? uint_incr r)%Z = true) as ->
        by (apply Z.ltb_lt; rewrite Hincr; lia).
      simpl. rewrite Nat.eqb_refl. by eexists.
    + intros _ ->. unfold UpgradeLock_enter. simpl.
      rewrite Nat.eqb_refl. simpl. eexists _, _. split_and!; done.
  - apply CanWriterAcquireLock_true in Hc as (Hr & Hm & Hw). simpl in *.
    subst r m w. simpl in H. injection H as <-. split; [| done].
    by eexists.
Qed.

Lemma acquire_release_restores_witness :
  Lock_enter 1 MAY_WRITE new_lock
  = Some (Proceed (mkLock [] 1 false (Some 1)) None) /\
  room_for_reader new_lock /\
  exists notified,
    release 1 MAY_WRITE (mkLock [] 1 false (Some 1))
    = Some (new_lock, notified).
Proof.
  assert (room_for_reader new_lock) as H by (split; [done | reflexivity]).
  split; [reflexivity|]. split; [exact H|].
  exact (proj1 (acquire_release_restores 1 MAY_WRITE new_lock _ None
                  eq_refl H (fun E : MAY_WRITE = READ =>
                               ltac:(discriminate E)))).
Defined.

(** X15: The lock is not re-entrant for the may-writer: when the thread that is
    registered as the may-writer also locks the lock in READ and releases
    that, [ReleaseSharedLock] takes it for the may-writer's release and
    clears the registration; the count of readers still counts the thread,
    and its [UpgradeLock] then fails the assertion on the may-writer
    identity. *)
Theorem may_writer_read_reentry (self : ThreadId) (l : Lock) :
  mayWriterThreadId l = Some self ->
  isWriterHolding l = false ->
  threadQueue l = [] ->
  (0 < readersNumber l < UINT_MOD - 1)%Z ->
  exists l1 l2 notified,
    Lock_enter self READ l = Some (Proceed l1 None) /\
    ReleaseSharedLock self l1 = Some (l2, notified) /\
    mayWriterThreadId l2 = None /\
    readersNumber l2 = readersNumber l /\
    UpgradeLock_enter self l2 = None.
Proof.
  intros Hm Hw Hq Hr. destruct l as [q r w m]. simpl in *. subst.
  assert (uint_incr r = (r + 1)%Z) as Hincr by (apply uint_incr_small; lia).
  assert (uint_decr (uint_incr r) = r) as Hdi by (apply uint_decr_incr; lia).
  unfold Lock_enter, Wait_enter, ShouldThreadWait. simpl.
  eexists _, _, _. split; [done|].
  unfold ReleaseSharedLock. simpl. rewrite Hdi.
  assert ((0 <? uint_incr r)%Z = true) as ->
    by (apply Z.ltb_lt; rewrite Hincr; lia).
  simpl. rewrite Nat.eqb_refl. split; [done|]. simpl.
  split_and!; try done.
  unfold UpgradeLock_enter. simpl.
  assert ((0 <? r)%Z = true) as -> by (apply Z.ltb_lt; lia). done.
Qed.

Lemma may_writer_read_reentry_witness :
  (0 < readersNumber (mkLock [] 1 false (Some 1%nat)) < UINT_MOD - 1)%Z /\
  exists l1 l2 notified,
    Lock_enter 1 READ (mkLock [] 1 false (Some 1)) = Some (Proceed l1 None) /\
    ReleaseSharedLock 1 l1 = Some (l2, notified) /\
    UpgradeLock_enter 1 l2 = None.
Proof.
  assert (0 < readersNumber (mkLock [] 1 false (Some 1%nat)) < UINT_MOD - 1)%Z
    as H by (split; reflexivity).
  split; [exact H|].
  destruct (may_writer_read_reentry 1 (mkLock [] 1 false (Some 1))
              eq_refl eq_refl eq_refl H)
    as (l1 & l2 & n & E1 & E2 & _ & _ & E3).
  by exists l1, l2, n.
Defined.

(** ** Releases and the front of the queue *)

Lemma Lock_resume_front self l e rest :
  threadQueue l = e :: rest -> (0 < counter e)%Z ->
  CanAcquireLock (oper e) l = true ->
  exists l' n, Lock_resume self (cond e) (oper e) l = Some (Proceed l' n).
Proof.
  intros Hq He Hc. unfold Lock_resume, Wait_resume. rewrite Hq.
  rewrite Nat.eqb_refl, Hc. simpl.
  assert (forall q, exists l1,
            Lock_after_Wait self (oper e) (set_threadQueue q l) = Some l1)
    as Hafter.
  { intros q. apply Lock_after_Wait_total.
    rewrite (same_holders_CanAcquireLock _ l); [done|].
    apply same_holders_set_threadQueue. }
  destruct (Operation_eqb (oper e) READ); simpl.
  - apply Z.ltb_lt in He. rewrite He. simpl.
    destruct (negb (uint_decr (counter e) =? 0)%Z); simpl.
    + destruct (Hafter (mkTuple (cond e) (oper e) (uint_decr (counter e))
                          :: rest)) as [l1 E]. rewrite E. by eexists _, _.
    + destruct (Hafter rest) as [l1 E]. rewrite E. by eexists _, _.
  - destruct (Hafter rest) as [l1 E]. rewrite E. by eexists _, _.
Qed.

(** X16: [ReleaseExclusiveLock] in a reachable state in which a writer holds the
    lock: the lock is then held by nobody, every mode is permitted, and the
    condition variable of the entry at the front of the queue is signalled,
    whatever that entry waits for; the thread that waits on it is admitted
    when it runs next. *)
Theorem writer_release_hands_over (l : Lock) :
  lock_reachable l -> isWriterHolding l = true ->
  exists l',
    ReleaseExclusiveLock l = Some (l', cond <$> head (threadQueue l)) /\
    threadQueue l' = threadQueue l /\
    readersNumber l' = 0%Z /\ mayWriterThreadId l' = None /\
    isWriterHolding l' = false /\
    (forall op, CanAcquireLock op l' = true) /\
    forall self e rest,
      threadQueue l = e :: rest -> (0 < counter e)%Z ->
      exists l'' n,
        Lock_resume self (cond e) (oper e) l' = Some (Proceed l'' n).
Proof.
  intros Hi%lock_reachable_inv Hw. destruct (Hi Hw) as [Hr Hm].
  unfold ReleaseExclusiveLock. rewrite Hw. simpl.
  eexists. split; [done|]. simpl.
  assert (forall op, CanAcquireLock op (set_isWriterHolding false l) = true)
    as Hcan.
  { intros op. destruct op; simpl; try done.
    - apply CanMayWriterAcquireLock_true. by split.
    - apply CanWriterAcquireLock_true. by split_and!. }
  split_and!; try done.
  intros self e rest Hq He.
  by apply (Lock_resume_front self _ e rest).
Qed.

Lemma writer_release_hands_over_witness :
  lock_reachable (mkLock [mkTuple 1 READ 1] 0 true None) /\
  exists l',
    ReleaseExclusiveLock (mkLock [mkTuple 1 READ 1] 0 true None)
    = Some (l', Some 1).
Proof.
  assert (lock_reachable (mkLock [mkTuple 1 READ 1] 0 true None)) as H.
  { eapply reach_step;
      [| exact (step_Lock_enter (mkLock [] 0 true None) 2 READ
                  (Sleep (mkLock [mkTuple 1 READ 1] 0 true None) 1) eq_refl)].
    eapply reach_step; [apply reach_new|].
    exact (step_Lock_enter new_lock 1 WRITE
             (Proceed (mkLock [] 0 true None) None) eq_refl). }
  split; [exact H|].
  destruct (writer_release_hands_over _ H eq_refl) as (l' & E & _).
  by exists l'.
Defined.

(** X17: [ReleaseSharedLock] in a reachable state: the queue is left as it is;
    a plain reader that leaves other shared holders behind signals
    nobody; a release that leaves the lock held by nobody signals the
    condition variable of the entry at the front of the queue; and whenever
    a condition variable is signalled, it is that of the front entry, the
    state permits the mode that entry waits for, and the thread that waits
    on it is admitted when it runs next. *)
Theorem shared_release_signals (self : ThreadId) (l l' : Lock)
    (notified : option ConditionPtr) :
  lock_reachable l ->
  ReleaseSharedLock self l = Some (l', notified) ->
  threadQueue l' = threadQueue l /\
  isWriterHolding l' = false /\
  (mayWriterThreadId l <> Some self -> readersNumber l' <> 0%Z ->
   notified = None) /\
  (readersNumber l' = 0%Z -> mayWriterThreadId l' = None ->
   notified = cond <$> head (threadQueue l')) /\
  (forall c, notified = Some c ->
     exists e rest,
       threadQueue l' = e :: rest /\ cond e = c /\
       CanAcquireLock (oper e) l' = true /\
       ((0 < counter e)%Z ->
        forall t, exists l'' n,
          Lock_resume t c (oper e) l' = Some (Proceed l'' n))).
Proof.
  intros Hi%lock_reachable_inv H. unfold ReleaseSharedLock in H.
  destruct (assert (0 <? _)%Z) eqn:Ha; simpl in H; [| discriminate].
  apply assert_Some in Ha.
  pose proof (readers_positive_writer_free _ Hi Ha) as Hw.
  assert (forall l0 c, TryNotifyingNext l0 = Some c ->
            exists e rest,
              threadQueue l0 = e :: rest /\ cond e = c /\
              CanAcquireLock (oper e) l0 = true /\
              ((0 < counter e)%Z ->
               forall t, exists l'' n,
                 Lock_resume t c (oper e) l0 = Some (Proceed l'' n)))
    as Hnotify.
  { intros l0 c Hn. unfold TryNotifyingNext in Hn.
    destruct (threadQueue l0) as [|e rest] eqn:Hq; [discriminate|].
    destruct (CanAcquireLock (oper e) l0) eqn:Hc; [| discriminate].
    injection Hn as <-. exists e, rest. split_and!; try done.
    intros He t. by apply (Lock_resume_front t _ e rest). }
  assert (forall l0, readersNumber l0 = 0%Z -> mayWriterThreadId l0 = None ->
            isWriterHolding l0 = false ->
            TryNotifyingNext l0 = cond <$> head (threadQueue l0)) as Hfree.
  { intros l0 H0 Hm0 Hw0. unfold TryNotifyingNext.
    destruct (threadQueue l0) as [|e rest]; [done|].
    assert (CanAcquireLock (oper e) l0 = true) as ->; [| done].
    destruct (oper e); simpl.
    - unfold CanReaderAcquireLock. by rewrite Hw0.
    - apply CanMayWriterAcquireLock_true. by split.
    - apply CanWriterAcquireLock_true. by split_and!. }
  destruct (tid_eqb _ (Some self)) eqn:Hself; simpl in H.
  - injection H as <- <-. simpl in *. apply tid_eqb_eq in Hself.
    split_and!; try done.
    + intros H0 Hm0. by rewrite Hfree.
    + intros c Hc. destruct (Hnotify _ c Hc) as (e & rest & ? & ? & ? & ?).
      by exists e, rest.
  - assert (mayWriterThreadId l <> Some self) as Hne.
    { intros E. simpl in Hself. rewrite E in Hself. simpl in Hself.
      by rewrite Nat.eqb_refl in Hself. }
    destruct (0 <? uint_decr (readersNumber l))%Z eqn:Hlt;
      injection H as <- <-; simpl in *.
    + split_and!; try done. intros H0. rewrite H0 in Hlt. discriminate.
    + split_and!; try done.
      * intros _ Hnz. exfalso. apply Hnz. unfold uint_decr in *.
        pose proof (Z.mod_pos_bound (readersNumber l - 1) UINT_MOD
                      eq_refl) as Hb.
        apply Z.ltb_ge in Hlt. lia.
      * intros H0 Hm0. by rewrite Hfree.
      * intros c Hc. destruct (Hnotify _ c Hc) as (e & rest & ? & ? & ? & ?).
        by exists e, rest.
Qed.

Lemma shared_release_signals_witness :
  lock_reachable (mkLock [mkTuple 1 WRITE 1] 1 false None) /\
  ReleaseSharedLock 1 (mkLock [mkTuple 1 WRITE 1] 1 false None)
  = Some (mkLock [mkTuple 1 WRITE 1] 0 false None, Some 1) /\
  threadQueue (mkLock [mkTuple 1 WRITE 1] 0 false None)
  = threadQueue (mkLock [mkTuple 1 WRITE 1] 1 false None) /\
  exists l'' n,
    Lock_resume 2 1 WRITE (mkLock [mkTuple 1 WRITE 1] 0 false None)
    = Some (Proceed l'' n).
Proof.
  assert (lock_reachable (mkLock [mkTuple 1 WRITE 1] 1 false None)) as H.
  { eapply reach_step;
      [| exact (step_Lock_enter (mkLock [] 1 false None) 2 WRITE
                  (Sleep (mkLock [mkTuple 1 WRITE 1] 1 false None) 1)
                  eq_refl)].
    eapply reach_step; [apply reach_new|].
    exact (step_Lock_enter new_lock 1 READ
             (Proceed (mkLock [] 1 false None) None) eq_refl). }
  split; [exact H|]. split; [reflexivity|].
  destruct (shared_release_signals 1 _ _ _ H eq_refl)
    as (Hq & _ & _ & _ & Hn).
  split; [exact Hq|].
  destruct (Hn 1 eq_refl) as (e & rest & Eq & Ec & _ & Hres).
  simpl in Eq. injection Eq as <- <-.
  exact (Hres eq_refl 2).
Defined.

(** ** The order of the queue *)

Lemma waiting_set_threadQueue q l :
  waiting (set_threadQueue q l) = map (fun e => (cond e, oper e)) q.
Proof. done. Qed.

Lemma ShouldThreadWait_waiting op l w l' :
  ShouldThreadWait op l = Some (w, l') ->
  waiting l' = waiting l \/
  waiting l' = waiting l ++ [(fresh_cond (threadQueue l), op)].
Proof.
  assert (forall w0, ShouldThreadWait_finish op w0 l = Some (w, l') ->
            waiting l' = waiting l \/
            waiting l' = waiting l ++ [(fresh_cond (threadQueue l), op)])
    as Hfin.
  { intros w0 [= <- <-]. destruct w0; [right | by left].
    unfold InsertConditionTuple, waiting. simpl. by rewrite map_app. }
  assert (forall w0, ShouldThreadWait_default op w0 l = Some (w, l') ->
            waiting l' = waiting l \/
            waiting l' = waiting l ++ [(fresh_cond (threadQueue l), op)])
    as Hdef.
  { intros w0 H. unfold ShouldThreadWait_default in H.
    destruct (Operation_eqb op READ && w0); [| by eapply Hfin].
    destruct (last (threadQueue l)) as [b|] eqn:Hb; [| discriminate].
    destruct (Operation_eqb (oper b) READ); [| by eapply Hfin].
    destruct (assert _); simpl in H; [| discriminate].
    injection H as <- <-. left. unfold waiting. simpl.
    destruct (threadQueue l) as [|x q] using rev_ind; [done|].
    rewrite last_snoc in Hb. injection Hb as ->.
    by rewrite removelast_last, !map_app. }
  unfold ShouldThreadWait. intros H.
  destruct (threadQueue l) as [|front [|second rest]];
    [by eapply Hfin | by eapply Hdef | by eapply Hdef].
Qed.

Lemma Lock_after_Wait_waiting self op l l' :
  Lock_after_Wait self op l = Some l' -> waiting l' = waiting l.
Proof.
  intros [H _]%Lock_after_Wait_spec. unfold waiting. by rewrite H.
Qed.

Lemma after_Wait_waiting self op r r' :
  after_Wait self op r = Some r' -> waiting (lock_of r') = waiting (lock_of r).
Proof.
  destruct r as [l n|l c]; simpl; intros H.
  - destruct (Lock_after_Wait self op l) as [l1|] eqn:E; [| discriminate].
    injection H as <-. by apply Lock_after_Wait_waiting in E.
  - by injection H as <-.
Qed.

Lemma Wait_resume_waiting c op l r :
  Wait_resume c op l = Some r ->
  waiting (lock_of r) = waiting l \/
  exists x, waiting l = x :: waiting (lock_of r).
Proof.
  unfold Wait_resume, waiting. intros H.
  destruct (threadQueue l) as [|e rest] eqn:Hq; [discriminate|].
  destruct (negb (cond e =? c) || negb (CanAcquireLock op l)).
  { injection H as <-. left. simpl. by rewrite Hq. }
  destruct (Operation_eqb op READ); simpl in H.
  - destruct (assert _); simpl in H; [| discriminate].
    destruct (negb _); injection H as <-; simpl.
    + by left.
    + right. by eexists.
  - injection H as <-. right. by eexists.
Qed.

(** X18: The queue is a queue: a critical section of any method of the lock
    leaves the entries of the queue in the order they are in; it may add one
    entry with a new condition variable at the back, or, in [UpgradeLock], a
    WRITE entry with a new condition variable at the front, or take the
    entry at the front away, and nothing else. *)
Theorem queue_order_is_kept (l l' : Lock) :
  lock_step l l' ->
  ~ In (fresh_cond (threadQueue l)) (map fst (waiting l)) /\
  (waiting l' = waiting l \/
   (exists op, waiting l' = waiting l ++ [(fresh_cond (threadQueue l), op)]) \/
   waiting l' = (fresh_cond (threadQueue l), WRITE) :: waiting l \/
   (exists x, waiting l = x :: waiting l')).
Proof.
  intros Hstep. split.
  { unfold waiting. rewrite map_map. simpl. apply fresh_cond_not_in. }
  destruct Hstep as [self op r H|self c op r H|self r H|c r H|self l1 n H
                    |l1 n H].
  - unfold Lock_enter in H.
    destruct (Wait_enter op l) as [r0|] eqn:E; simpl in H; [| discriminate].
    apply after_Wait_waiting in H. fold (lock_of r). rewrite H.
    unfold Wait_enter in E.
    destruct (ShouldThreadWait op l) as [[w l0]|] eqn:E0; simpl in E;
      [| discriminate].
    assert (lock_of r0 = l0) as ->.
    { destruct w; simpl in E.
      - destruct (last (threadQueue l0)); simpl in E; [| discriminate].
        by injection E as <-.
      - by injection E as <-. }
    destruct (ShouldThreadWait_waiting _ _ _ _ E0) as [->| ->];
      [by left | right; left; by eexists].
  - unfold Lock_resume in H.
    destruct (Wait_resume c op l) as [r0|] eqn:E; simpl in H; [| discriminate].
    apply after_Wait_waiting in H. fold (lock_of r). rewrite H.
    destruct (Wait_resume_waiting _ _ _ _ E) as [->|[x ->]];
      [by left | right; right; right; by eexists].
  - unfold UpgradeLock_enter in H.
    destruct (assert (0 <? _)%Z); simpl in H; [| discriminate].
    destruct (assert (tid_eqb _ _)); simpl in H; [| discriminate].
    destruct (negb _); simpl in H.
    + injection H as <-. right. right. by left.
    + unfold UpgradeLock_finish in H. simpl in H.
      destruct (assert _); simpl in H; [| discriminate].
      injection H as <-. by left.
  - unfold UpgradeLock_resume in H.
    destruct (negb _); simpl in H; [injection H as <-; by left|].
    destruct (threadQueue l) as [|e rest] eqn:Hq; [discriminate|].
    unfold UpgradeLock_finish in H. simpl in H.
    destruct (assert _); simpl in H; [| discriminate].
    injection H as <-. right. right. right. unfold waiting. rewrite Hq.
    by eexists.
  - left. unfold ReleaseSharedLock in H.
    destruct (assert _); simpl in H; [| discriminate].
    destruct (tid_eqb _ _); [| destruct (0 <? uint_decr _)%Z];
      by injection H as <- _.
  - left. unfold ReleaseExclusiveLock in H.
    destruct (assert _); simpl in H; [| discriminate].
    by injection H as <- _.
Qed.

Lemma queue_order_is_kept_witness :
  lock_step (mkLock [mkTuple 1 READ 1] 2 false (Some 1))
    (mkLock [mkTuple 2 WRITE 1; mkTuple 1 READ 1] 1 false None) /\
  (waiting (mkLock [mkTuple 2 WRITE 1; mkTuple 1 READ 1] 1 false None)
   = waiting (mkLock [mkTuple 1 READ 1] 2 false (Some 1)) \/
   (exists op,
      waiting (mkLock [mkTuple 2 WRITE 1; mkTuple 1 READ 1] 1 false None)
      = waiting (mkLock [mkTuple 1 READ 1] 2 false (Some 1))
        ++ [(fresh_cond [mkTuple 1 READ 1], op)]) \/
   waiting (mkLock [mkTuple 2 WRITE 1; mkTuple 1 READ 1] 1 false None)
   = (fresh_cond [mkTuple 1 READ 1], WRITE)
     :: waiting (mkLock [mkTuple 1 READ 1] 2 false (Some 1)) \/
   (exists x,
      waiting (mkLock [mkTuple 1 READ 1] 2 false (Some 1))
      = x :: waiting (mkLock [mkTuple 2 WRITE 1; mkTuple 1 READ 1] 1 false
                        None))).
Proof.
  assert (lock_step (mkLock [mkTuple 1 READ 1] 2 false (Some 1))
            (mkLock [mkTuple 2 WRITE 1; mkTuple 1 READ 1] 1 false None)) as H
    by exact (step_UpgradeLock_enter
                (mkLock [mkTuple 1 READ 1] 2 false (Some 1)) 1
                (Sleep (mkLock [mkTuple 2 WRITE 1; mkTuple 1 READ 1] 1 false
                          None) 2) eq_refl).
  split; [exact H|]. exact (proj2 (queue_order_is_kept _ _ H)).
Defined.

(** ** Counting the threads that sleep *)

Lemma sleepers_on_cons c t p sl :
  sleepers_on c ((t, p) :: sl)
  = (if Nat.eqb (pending_cond p) c then 1 else 0) + sleepers_on c sl.
Proof. unfold sleepers_on. simpl. by destruct (Nat.eqb _ _). Qed.

Lemma sleepers_on_zero c sl :
  (forall t p, In (t, p) sl -> pending_cond p <> c) -> sleepers_on c sl = 0.
Proof.
  induction sl as [|[t p] sl IH]; intros H; [done|].
  rewrite sleepers_on_cons, IH.
  - destruct (Nat.eqb_spec (pending_cond p) c) as [E|]; [|done].
    exfalso. apply (H t p); [by left | done].
  - intros t' p' Hin. apply (H t' p'). by right.
Qed.

Lemma sleepers_on_pos c t p sl :
  In (t, p) sl -> pending_cond p = c -> 1 <= sleepers_on c sl.
Proof.
  induction sl as [|[t' p'] sl IH]; intros Hin Hc; [done|].
  rewrite sleepers_on_cons. destruct Hin as [E|Hin].
  - injection E as -> ->. rewrite Hc, Nat.eqb_refl. lia.
  - specialize (IH Hin Hc). lia.
Qed.

Lemma sleepers_on_le c sl : sleepers_on c sl <= length sl.
Proof.
  induction sl as [|[t p] sl IH]; [done|].
  rewrite sleepers_on_cons. simpl. destruct (Nat.eqb _ _); lia.
Qed.

Lemma In_wake t t' p' sl :
  In (t', p') (wake t sl) <-> In (t', p') sl /\ t' <> t.
Proof.
  unfold wake. rewrite filter_In. simpl.
  by rewrite negb_true_iff, Nat.eqb_neq.
Qed.

Lemma NoDup_wake t sl :
  List.NoDup (map fst sl) -> List.NoDup (map fst (wake t sl)).
Proof.
  induction sl as [|[t' p'] sl IH]; simpl; intros H; [constructor|].
  apply List.NoDup_cons_iff in H as [Hn H].
  destruct (negb (Nat.eqb t' t)); simpl; [|by apply IH].
  apply List.NoDup_cons_iff. split; [|by apply IH].
  intros Hin. apply Hn. apply in_map_iff in Hin as ([t2 p2] & E & Hin).
  simpl in E. subst t2. apply In_wake in Hin as [Hin _].
  apply in_map_iff. by exists (t', p2).
Qed.

Lemma wake_absent t sl : ~ In t (map fst sl) -> wake t sl = sl.
Proof.
  induction sl as [|[t' p'] sl IH]; simpl; intros H; [done|].
  destruct (Nat.eqb_spec t' t) as [->|Hne]; simpl.
  - exfalso. apply H. by left.
  - f_equal. apply IH. intros Hin. apply H. by right.
Qed.

Lemma sleepers_on_wake c t p sl :
  List.NoDup (map fst sl) -> In (t, p) sl ->
  sleepers_on c sl
  = (if Nat.eqb (pending_cond p) c then 1 else 0)
    + sleepers_on c (wake t sl).
Proof.
  induction sl as [|[t' p'] sl IH]; intros Hnd Hin; [done|].
  simpl in Hnd. apply List.NoDup_cons_iff in Hnd as [Hn Hnd].
  destruct Hin as [E|Hin].
  - injection E as -> ->. simpl. rewrite Nat.eqb_refl. simpl.
    fold (wake t sl). rewrite sleepers_on_cons. by rewrite wake_absent.
  - assert (t' <> t) as Hne.
    { intros ->. apply Hn. apply in_map_iff. by exists (t, p). }
    simpl. destruct (Nat.eqb_spec t' t) as [|_]; [done|]. simpl.
    fold (wake t sl). rewrite !sleepers_on_cons, (IH Hnd Hin). lia.
Qed.

Lemma cond_unique q e e' :
  List.NoDup (map cond q) -> In e q -> In e' q -> cond e = cond e' -> e = e'.
Proof.
  induction q as [|a q IH]; intros Hnd H1 H2 Hc; [done|].
  simpl in Hnd. apply List.NoDup_cons_iff in Hnd as [Hn Hnd].
  destruct H1 as [->|H1], H2 as [->|H2]; try done.
  - exfalso. apply Hn. rewrite Hc. by apply in_map.
  - exfalso. apply Hn. rewrite <- Hc. by apply in_map.
  - by apply IH.
Qed.

Lemma sleepers_bound N (sl : list (ThreadId * Pending)) :
  List.NoDup (map fst sl) -> (forall t p, In (t, p) sl -> t < N) ->
  length sl <= N.
Proof.
  intros Hnd Hlt.
  assert (incl (map fst sl) (seq 0 N)) as Hincl.
  { intros t Hin. apply in_map_iff in Hin as ([t' p] & E & Hin).
    simpl in E. subst t'. apply in_seq. specialize (Hlt t p Hin). lia. }
  pose proof (List.NoDup_incl_length Hnd Hincl) as H.
  by rewrite length_map, length_seq in H.
Qed.

Lemma awake_not_in t St : awake t St -> ~ In t (map fst (sleeping St)).
Proof.
  intros Ha Hin. apply in_map_iff in Hin as ([t' p] & E & Hin).
  simpl in E. subst t'. by apply (Ha p).
Qed.

Lemma ListNoDup_snoc {A} (q : list A) (x : A) :
  List.NoDup q -> ~ In x q -> List.NoDup (q ++ [x]).
Proof.
  intros Hq Hx. apply NoDup_ListNoDup. apply NoDup_app. split_and!.
  - by apply NoDup_ListNoDup.
  - intros y Hy Hy'. apply list_elem_of_In in Hy.
    apply list_elem_of_singleton in Hy'. by subst y.
  - apply NoDup_singleton.
Qed.

(** ** What a critical section does to the queue *)

Lemma ShouldThreadWait_cases op l w l' :
  (forall e, In e (threadQueue l) -> (0 < counter e)%Z) ->
  ShouldThreadWait op l = Some (w, l') ->
  mayWriterThreadId l' = mayWriterThreadId l /\
  (w = false -> l' = l /\ (threadQueue l = [] \/ op = READ)) /\
  (w = true ->
   threadQueue l'
   = threadQueue l ++ [mkTuple (fresh_cond (threadQueue l)) op 1] \/
   exists q e,
     threadQueue l = q ++ [e] /\ op = READ /\ oper e = READ /\
     threadQueue l'
     = q ++ [mkTuple (cond e) (oper e) (uint_incr (counter e))]).
Proof.
  intros Hpos H.
  pose proof (ShouldThreadWait_holders _ _ _ _ H) as [(_ & _ & Hm) _].
  split; [done|]. split.
  - intros ->. pose proof (ShouldThreadWait_false _ _ _ H) as ->.
    split; [done|]. unfold ShouldThreadWait in H.
    destruct (threadQueue l) as [|front [|second rest]]; [by left | |].
    + right. apply ShouldThreadWait_default_false in H as [Hw _].
      destruct op; [done | |]; simpl in Hw; discriminate.
    + by apply ShouldThreadWait_default_false in H as [? _].
  - intros ->. unfold ShouldThreadWait in H.
    destruct (queue_snoc_cases (threadQueue l))
      as [E|[[e E]|(a & b & q' & q0 & e & E & E')]].
    + rewrite E in H. unfold ShouldThreadWait_finish in H.
      destruct (negb (CanAcquireLock op l)); [|discriminate].
      injection H as <-. left. unfold InsertConditionTuple. simpl.
      by rewrite E.
    + rewrite E in H.
      rewrite (ShouldThreadWait_default_snoc op _ l [] e) in H;
        [| done | apply Hpos; rewrite E; by left].
      destruct (negb (Operation_eqb op READ)
                || negb (Operation_eqb (oper e) READ)
                || negb (CanAcquireLock op l)) eqn:Ew;
        [| rewrite andb_false_r in H; simpl in H; discriminate].
      rewrite andb_true_r in H.
      destruct (Operation_eqb_spec op READ) as [->|];
        destruct (Operation_eqb_spec (oper e) READ) as [Ee|];
        simpl in H; injection H as <-; simpl; rewrite ?E;
        first [by left | right; exists [], e; by rewrite Ee].
    + rewrite E in H.
      rewrite (ShouldThreadWait_default_snoc op _ l q0 e) in H;
        [| exact E' | apply Hpos; rewrite E'; apply in_app_iff; right; by left].
      rewrite andb_true_r in H.
      destruct (Operation_eqb_spec op READ) as [->|];
        destruct (Operation_eqb_spec (oper e) READ) as [Ee|];
        simpl in H; injection H as <-; simpl;
        first [by left | right; exists q0, e; by rewrite Ee].
Qed.

Lemma Lock_enter_cases t op l r :
  (forall e, In e (threadQueue l) -> (0 < counter e)%Z) ->
  Lock_enter t op l = Some r ->
  match r with
  | Proceed l' _ =>
      threadQueue l' = threadQueue l /\
      (mayWriterThreadId l' = mayWriterThreadId l \/ threadQueue l = [])
  | Sleep l' c =>
      mayWriterThreadId l' = mayWriterThreadId l /\
      ((threadQueue l'
        = threadQueue l ++ [mkTuple (fresh_cond (threadQueue l)) op 1] /\
        c = fresh_cond (threadQueue l)) \/
       exists q e,
         threadQueue l = q ++ [e] /\ op = READ /\ oper e = READ /\
         threadQueue l'
         = q ++ [mkTuple (cond e) (oper e) (uint_incr (counter e))] /\
         c = cond e)
  end.
Proof.
  intros Hpos H. unfold Lock_enter, Wait_enter in H.
  destruct (ShouldThreadWait op l) as [[w l1]|] eqn:E; [|discriminate].
  destruct (ShouldThreadWait_cases op l w l1 Hpos E) as (Hm & Hf & Ht).
  simpl in H. destruct w; simpl in H.
  - destruct (last (threadQueue l1)) as [b|] eqn:Eb; [|discriminate].
    simpl in H. injection H as <-. split; [done|].
    destruct (Ht eq_refl) as [Hq|(q & e & Hq & -> & He & Hq')].
    + left. split; [done|]. rewrite Hq, last_snoc in Eb. by injection Eb as <-.
    + right. exists q, e. split_and!; try done.
      rewrite Hq', last_snoc in Eb. by injection Eb as <-.
  - destruct (Hf eq_refl) as [-> Hc].
    destruct (Lock_after_Wait t op l) as [l2|] eqn:E2; [|discriminate].
    simpl in H. injection H as <-.
    apply Lock_after_Wait_spec in E2 as [Hq Hh]. split; [done|].
    destruct Hc as [Hc| ->]; [by right|]. left. by destruct Hh as (_ & _ & ?).
Qed.

Lemma Lock_resume_cases t c op l r :
  Lock_resume t c op l = Some r ->
  match r with
  | Sleep l' _ => l' = l
  | Proceed l' _ =>
      exists e rest,
        threadQueue l = e :: rest /\ cond e = c /\
        ((threadQueue l' = rest /\
          (op = READ ->
           (0 < counter e)%Z /\ uint_decr (counter e) = 0%Z)) \/
         (op = READ /\ (0 < counter e)%Z /\ uint_decr (counter e) <> 0%Z /\
          threadQueue l'
          = mkTuple (cond e) (oper e) (uint_decr (counter e)) :: rest /\
          mayWriterThreadId l' = mayWriterThreadId l))
  end.
Proof.
  unfold Lock_resume, Wait_resume. intros H.
  destruct (threadQueue l) as [|e rest] eqn:Eq; [discriminate|].
  destruct (negb (Nat.eqb (cond e) c) || negb (CanAcquireLock op l)) eqn:Et.
  { simpl in H. by injection H as <-. }
  apply orb_false_iff in Et as [Ec _].
  apply negb_false_iff, Nat.eqb_eq in Ec.
  destruct (Operation_eqb_spec op READ) as [->|Hop].
  - destruct (assert (0 <? counter e)%Z) eqn:Ea; [|discriminate].
    apply assert_Some, Z.ltb_lt in Ea. simpl in H.
    destruct (uint_decr (counter e) =? 0)%Z eqn:Ed; simpl in H;
      injection H as <-; exists e, rest; split_and!; try done.
    + left. split; [done|]. intros _. by apply Z.eqb_eq in Ed.
    + right. by apply Z.eqb_neq in Ed.
  - simpl in H.
    destruct (Lock_after_Wait t op (set_threadQueue rest l)) as [l2|] eqn:E2;
      [|discriminate].
    simpl in H. injection H as <-.
    apply Lock_after_Wait_spec in E2 as [Hq _].
    exists e, rest. split_and!; try done. by left.
Qed.

Lemma UpgradeLock_enter_cases t l r :
  UpgradeLock_enter t l = Some r ->
  mayWriterThreadId l = Some t /\
  match r with
  | Proceed l' _ =>
      threadQueue l' = threadQueue l /\ mayWriterThreadId l' = None
  | Sleep l' c =>
      threadQueue l'
      = mkTuple (fresh_cond (threadQueue l)) WRITE 1 :: threadQueue l /\
      c = fresh_cond (threadQueue l) /\ mayWriterThreadId l' = None
  end.
Proof.
  intros H. split; [by eapply UpgradeLock_enter_may_writer|].
  unfold UpgradeLock_enter in H.
  destruct (assert (0 <? readersNumber l)%Z); [|discriminate]. simpl in H.
  destruct (assert (tid_eqb _ _)); [|discriminate]. simpl in H.
  destruct (negb (CanWriterAcquireLock _)); simpl in H.
  - by injection H as <-.
  - unfold UpgradeLock_finish in H. simpl in H.
    destruct (assert (negb (isWriterHolding l))); [|discriminate].
    simpl in H. by injection H as <-.
Qed.

Lemma UpgradeLock_resume_cases c l r :
  UpgradeLock_resume c l = Some r ->
  match r with
  | Sleep l' _ => l' = l
  | Proceed l' _ =>
      exists e rest, threadQueue l = e :: rest /\ threadQueue l' = rest
  end.
Proof.
  unfold UpgradeLock_resume. intros H.
  destruct (negb (CanWriterAcquireLock l)); [by injection H as <-|].
  destruct (threadQueue l) as [|e rest]; [discriminate|].
  unfold UpgradeLock_finish in H. simpl in H.
  destruct (assert (negb (isWriterHolding l))); [|discriminate].
  simpl in H. injection H as <-. by exists e, rest.
Qed.

Lemma ReleaseSharedLock_cases t l l' n :
  ReleaseSharedLock t l = Some (l', n) ->
  threadQueue l' = threadQueue l /\
  (mayWriterThreadId l = None -> mayWriterThreadId l' = None).
Proof.
  unfold ReleaseSharedLock. intros H.
  destruct (assert (0 <? readersNumber l)%Z); [|discriminate]. simpl in H.
  destruct (tid_eqb _ _); [by injection H as <- _|].
  destruct (0 <? _)%Z; by injection H as <- _.
Qed.

Lemma ReleaseExclusiveLock_cases l l' n :
  ReleaseExclusiveLock l = Some (l', n) ->
  threadQueue l' = threadQueue l /\
  mayWriterThreadId l' = mayWriterThreadId l.
Proof.
  unfold ReleaseExclusiveLock. intros H.
  destruct (assert (isWriterHolding l)); [|discriminate]. simpl in H.
  by injection H as <- _.
Qed.

(** ** The invariant of the queue and the sleeping threads *)

Lemma sys_inv_new N : sys_inv N (mkSystem new_lock []).
Proof.
  unfold sys_inv, queue_matches_sleepers, upgrader_first. simpl.
  split_and!; try done; constructor.
Qed.

(** A critical section that leaves the queue and the sleeping threads as
    they are. *)
Lemma sys_inv_holders N l l' sl :
  sys_inv N (mkSystem l sl) ->
  threadQueue l' = threadQueue l ->
  (sl <> [] -> mayWriterThreadId l = None -> mayWriterThreadId l' = None) ->
  sys_inv N (mkSystem l' sl).
Proof.
  unfold sys_inv, queue_matches_sleepers, upgrader_first. simpl.
  intros (H1 & H2 & (H3 & H4 & H5) & H6) Hq Hm. rewrite Hq.
  split_and!; try done.
  intros t c Hin. destruct (H6 t c Hin) as [Hn He]. split; [|done].
  apply Hm; [|done]. by destruct sl.
Qed.

(** A thread goes to sleep on a new entry at the back. *)
Lemma sys_inv_push N l l' sl t op :
  sys_inv N (mkSystem l sl) ->
  t < N -> ~ In t (map fst sl) ->
  threadQueue l'
  = threadQueue l ++ [mkTuple (fresh_cond (threadQueue l)) op 1] ->
  mayWriterThreadId l' = mayWriterThreadId l ->
  sys_inv N (mkSystem l' ((t, InWait (fresh_cond (threadQueue l)) op) :: sl)).
Proof.
  unfold sys_inv, queue_matches_sleepers, upgrader_first. simpl.
  intros (H1 & H2 & (H3 & H4 & H5) & H6) Ht Hn Hq Hm. rewrite Hq, Hm.
  pose proof (fresh_cond_not_in (threadQueue l)) as Hfresh.
  assert (forall t' p', In (t', p') sl ->
            pending_cond p' <> fresh_cond (threadQueue l)) as Hsl.
  { intros t' p' Hin E. destruct (H5 t' p' Hin) as (e & He & Hc & _).
    apply Hfresh. rewrite <- E, <- Hc. by apply in_map. }
  split_and!.
  - by apply List.NoDup_cons.
  - intros t' p' [E|Hin]; [by injection E as <- _ | by eapply H2].
  - rewrite map_app. simpl. by apply ListNoDup_snoc.
  - intros e He. rewrite sleepers_on_cons. cbn [pending_cond].
    apply in_app_iff in He as [He|[<-|[]]].
    + destruct (Nat.eqb_spec (fresh_cond (threadQueue l)) (cond e)) as [E|_];
        [| by apply H4].
      exfalso. apply Hfresh. rewrite E. by apply in_map.
    + cbn [cond counter oper].
      rewrite Nat.eqb_refl, (sleepers_on_zero _ sl Hsl). done.
  - intros t' p' [E|Hin].
    + injection E as <- <-.
      exists (mkTuple (fresh_cond (threadQueue l)) op 1). split; [|done].
      apply in_app_iff. right. by left.
    + destruct (H5 t' p' Hin) as (e & He & Hc). exists e. split; [|done].
      apply in_app_iff. by left.
  - intros t' c [E|Hin]; [discriminate|].
    destruct (H6 t' c Hin) as (Hmw & e & q & Eq & Hc). split; [done|].
    exists e, (q ++ [mkTuple (fresh_cond (threadQueue l)) op 1]).
    by rewrite Eq.
Qed.

(** A reader goes to sleep on the READ entry at the back. *)
Lemma sys_inv_join N l l' sl t q e :
  (Z.of_nat N < UINT_MOD)%Z ->
  sys_inv N (mkSystem l sl) ->
  t < N -> ~ In t (map fst sl) ->
  threadQueue l = q ++ [e] -> oper e = READ ->
  threadQueue l'
  = q ++ [mkTuple (cond e) (oper e) (uint_incr (counter e))] ->
  mayWriterThreadId l' = mayWriterThreadId l ->
  sys_inv N (mkSystem l' ((t, InWait (cond e) READ) :: sl)).
Proof.
  unfold sys_inv, queue_matches_sleepers, upgrader_first. simpl.
  intros HN (H1 & H2 & (H3 & H4 & H5) & H6) Ht Hn Hq He Hq' Hm.
  rewrite Hq', Hm. rewrite Hq in H3, H4, H5, H6.
  assert (List.NoDup (map fst ((t, InWait (cond e) READ) :: sl))) as Hnd
    by (by apply List.NoDup_cons).
  assert (forall t' p', In (t', p') ((t, InWait (cond e) READ) :: sl) ->
            t' < N) as Hlt.
  { intros t' p' [E|Hin]; [by injection E as <- _ | by eapply H2]. }
  pose proof (sleepers_bound N _ Hnd Hlt) as Hlen. simpl in Hlen.
  destruct (H4 e) as (Hpos & Hcnt & _); [apply in_app_iff; right; by left|].
  pose proof (sleepers_on_le (cond e) sl) as Hle.
  assert (uint_incr (counter e) = (counter e + 1)%Z) as Hincr
    by (apply uint_incr_small; lia).
  rewrite map_app in H3. simpl in H3.
  pose proof (NoDup_remove_2 _ _ _ H3) as Hnotin. rewrite app_nil_r in Hnotin.
  split_and!.
  - exact Hnd.
  - exact Hlt.
  - by rewrite map_app.
  - intros e2 He2. rewrite sleepers_on_cons. cbn [pending_cond].
    apply in_app_iff in He2 as [He2|[<-|[]]].
    + destruct (Nat.eqb_spec (cond e) (cond e2)) as [E|_].
      * exfalso. apply Hnotin. rewrite E. by apply in_map.
      * apply H4, in_app_iff. by left.
    + cbn [cond counter oper]. rewrite Nat.eqb_refl, Hincr.
      split_and!; [lia | lia | done].
  - intros t' p' [E|Hin].
    + injection E as <- <-.
      exists (mkTuple (cond e) (oper e) (uint_incr (counter e))).
      split; [| done]. apply in_app_iff. right. by left.
    + destruct (H5 t' p' Hin) as (e0 & He0 & Hc).
      apply in_app_iff in He0 as [He0|[<-|[]]].
      * exists e0. split; [|done]. apply in_app_iff. by left.
      * exists (mkTuple (cond e) (oper e) (uint_incr (counter e))).
        split; [| done]. apply in_app_iff. right. by left.
  - intros t' c [E|Hin]; [discriminate|].
    destruct (H6 t' c Hin) as (Hmw & e0 & q0 & Eq & Hc). split; [done|].
    destruct q as [|a q]; simpl in Eq; injection Eq as <- <-.
    + by exists (mkTuple (cond e) (oper e) (uint_incr (counter e))), [].
    + by eexists a, _.
Qed.

(** The may-writer goes to sleep in [UpgradeLock] on a new entry at the
    front. *)
Lemma sys_inv_vip N l l' sl t :
  sys_inv N (mkSystem l sl) ->
  t < N -> ~ In t (map fst sl) ->
  mayWriterThreadId l = Some t ->
  threadQueue l'
  = mkTuple (fresh_cond (threadQueue l)) WRITE 1 :: threadQueue l ->
  mayWriterThreadId l' = None ->
  sys_inv N
    (mkSystem l' ((t, InUpgradeLock (fresh_cond (threadQueue l))) :: sl)).
Proof.
  unfold sys_inv, queue_matches_sleepers, upgrader_first. simpl.
  intros (H1 & H2 & (H3 & H4 & H5) & H6) Ht Hn Hmw Hq Hm. rewrite Hq, Hm.
  pose proof (fresh_cond_not_in (threadQueue l)) as Hfresh.
  assert (forall t' p', In (t', p') sl ->
            pending_cond p' <> fresh_cond (threadQueue l)) as Hsl.
  { intros t' p' Hin E. destruct (H5 t' p' Hin) as (e & He & Hc & _).
    apply Hfresh. rewrite <- E, <- Hc. by apply in_map. }
  split_and!.
  - by apply List.NoDup_cons.
  - intros t' p' [E|Hin]; [by injection E as <- _ | by eapply H2].
  - simpl. by apply List.NoDup_cons.
  - intros e He. rewrite sleepers_on_cons. cbn [pending_cond].
    destruct He as [<-|He].
    + cbn [cond counter oper].
      rewrite Nat.eqb_refl, (sleepers_on_zero _ sl Hsl). done.
    + destruct (Nat.eqb_spec (fresh_cond (threadQueue l)) (cond e)) as [E|_];
        [| by apply H4].
      exfalso. apply Hfresh. rewrite E. by apply in_map.
  - intros t' p' [E|Hin].
    + injection E as <- <-.
      exists (mkTuple (fresh_cond (threadQueue l)) WRITE 1).
      split; [by left | done].
    + destruct (H5 t' p' Hin) as (e & He & Hc). exists e.
      split; [by right | done].
  - intros t' c [E|Hin].
    + injection E as <- <-. split; [done|]. by eexists _, _.
    + destruct (H6 t' c Hin) as [Hnone _]. congruence.
Qed.

(** A thread wakes up and takes away the entry at the front, of which it is
    the one sleeper. *)
Lemma sys_inv_pop N l l' sl t p e rest :
  sys_inv N (mkSystem l sl) ->
  In (t, p) sl -> threadQueue l = e :: rest -> cond e = pending_cond p ->
  counter e = 1%Z -> threadQueue l' = rest ->
  sys_inv N (mkSystem l' (wake t sl)).
Proof.
  unfold sys_inv, queue_matches_sleepers, upgrader_first. simpl.
  intros (H1 & H2 & (H3 & H4 & H5) & H6) Hin Hq Hc Hone Hq'.
  rewrite Hq'. rewrite Hq in H3, H4, H5, H6. simpl in H3.
  apply List.NoDup_cons_iff in H3 as [Hnotin H3].
  assert (sleepers_on (cond e) (wake t sl) = 0) as Hzero.
  { destruct (H4 e) as (_ & Hcnt & _); [by left|].
    rewrite (sleepers_on_wake (cond e) t p sl H1 Hin), <- Hc, Nat.eqb_refl
      in Hcnt. lia. }
  split_and!.
  - by apply NoDup_wake.
  - intros t' p' Hin'. apply In_wake in Hin' as [Hin' _]. by eapply H2.
  - done.
  - intros e2 He2. destruct (H4 e2) as (Hpos & Hcnt & Hrd); [by right|].
    split_and!; try done.
    rewrite (sleepers_on_wake (cond e2) t p sl H1 Hin), <- Hc in Hcnt.
    destruct (Nat.eqb_spec (cond e) (cond e2)) as [E|_]; [|done].
    exfalso. apply Hnotin. rewrite E. by apply in_map.
  - intros t' p' Hin'. pose proof Hin' as Hw.
    apply In_wake in Hin' as [Hin' _].
    destruct (H5 t' p' Hin') as (e0 & [<-|He0] & Hc0 & Ho0).
    + exfalso. pose proof (sleepers_on_pos (cond e) t' p' _ Hw) as Hp.
      rewrite Hzero in Hp. specialize (Hp (eq_sym Hc0)). lia.
    + by exists e0.
  - intros t' c Hin'. pose proof Hin' as Hw.
    apply In_wake in Hin' as [Hin' _].
    destruct (H6 t' c Hin') as (_ & e0 & q0 & Eq & Hc0).
    injection Eq as <- <-. exfalso.
    pose proof (sleepers_on_pos (cond e) t' _ _ Hw (eq_sym Hc0)) as Hp.
    rewrite Hzero in Hp. lia.
Qed.

(** A reader wakes up and leaves the READ entry at the front to the other
    readers that sleep on it. *)
Lemma sys_inv_decr N l l' sl t e rest :
  (Z.of_nat N < UINT_MOD)%Z ->
  sys_inv N (mkSystem l sl) ->
  In (t, InWait (cond e) READ) sl -> threadQueue l = e :: rest ->
  uint_decr (counter e) <> 0%Z ->
  threadQueue l'
  = mkTuple (cond e) (oper e) (uint_decr (counter e)) :: rest ->
  mayWriterThreadId l' = mayWriterThreadId l ->
  sys_inv N (mkSystem l' (wake t sl)).
Proof.
  unfold sys_inv, queue_matches_sleepers, upgrader_first. simpl.
  intros HN (H1 & H2 & (H3 & H4 & H5) & H6) Hin Hq Hnz Hq' Hm.
  rewrite Hq', Hm. rewrite Hq in H3, H4, H5, H6.
  destruct (H4 e) as (Hpos & Hcnt & _); [by left|].
  pose proof (sleepers_on_le (cond e) sl) as Hle.
  pose proof (sleepers_bound N sl H1 H2) as Hlen.
  assert (uint_decr (counter e) = (counter e - 1)%Z) as Hdecr
    by (apply uint_decr_small; lia).
  pose proof (sleepers_on_wake (cond e) t _ sl H1 Hin) as Hw.
  cbn [pending_cond] in Hw. rewrite Nat.eqb_refl in Hw.
  assert (oper e = READ) as Hrd.
  { destruct (H5 _ _ Hin) as (e0 & He0 & Hc0 & Ho0).
    assert (e0 = e) as -> by (apply (cond_unique _ _ _ H3); [done | by left | done]).
    done. }
  simpl in H3. apply List.NoDup_cons_iff in H3 as [Hnotin H3].
  split_and!.
  - by apply NoDup_wake.
  - intros t' p' Hin'. apply In_wake in Hin' as [Hin' _]. by eapply H2.
  - simpl. by apply List.NoDup_cons.
  - intros e2 [<-|He2].
    + cbn [cond counter oper]. rewrite Hdecr. split_and!; [lia | lia | done].
    + destruct (H4 e2) as (Hpos2 & Hcnt2 & Hrd2); [by right|].
      split_and!; try done.
      rewrite (sleepers_on_wake (cond e2) t _ sl H1 Hin) in Hcnt2.
      cbn [pending_cond] in Hcnt2.
      destruct (Nat.eqb_spec (cond e) (cond e2)) as [E|_]; [|done].
      exfalso. apply Hnotin. rewrite E. by apply in_map.
  - intros t' p' Hin'. apply In_wake in Hin' as [Hin' _].
    destruct (H5 t' p' Hin') as (e0 & [<-|He0] & Hc0).
    + exists (mkTuple (cond e) (oper e) (uint_decr (counter e))).
      split; [by left | done].
    + exists e0. split; [by right | done].
  - intros t' c Hin'. apply In_wake in Hin' as [Hin' _].
    destruct (H6 t' c Hin') as (Hnone & e0 & q0 & Eq & Hc0).
    injection Eq as <- <-. split; [done|]. by eexists _, _.
Qed.

(** The entry at the front on which a thread sleeps. *)
Lemma entry_of_sleeper N l sl t p e rest :
  sys_inv N (mkSystem l sl) ->
  In (t, p) sl -> threadQueue l = e :: rest -> cond e = pending_cond p ->
  oper e = pending_oper p /\
  (0 < counter e <= Z.of_nat N)%Z /\
  (oper e <> READ -> counter e = 1%Z).
Proof.
  unfold sys_inv, queue_matches_sleepers. simpl.
  intros (H1 & H2 & (H3 & H4 & H5) & _) Hin Hq Hc.
  destruct (H5 t p Hin) as (e0 & He0 & Hc0 & Ho0).
  assert (In e (threadQueue l)) as He by (rewrite Hq; by left).
  assert (e0 = e) as ->
    by (apply (cond_unique _ _ _ H3); [done | done | congruence]).
  destruct (H4 e He) as (Hpos & Hcnt & Hrd).
  pose proof (sleepers_on_le (cond e) sl).
  pose proof (sleepers_bound N sl H1 H2).
  split_and!; [done | lia | lia | done].
Qed.

Lemma sys_inv_positive N l sl e :
  sys_inv N (mkSystem l sl) -> In e (threadQueue l) -> (0 < counter e)%Z.
Proof.
  unfold sys_inv, queue_matches_sleepers. simpl.
  intros (_ & _ & (_ & H4 & _) & _) He. by apply H4.
Qed.

Lemma sys_inv_empty_queue N l sl :
  sys_inv N (mkSystem l sl) -> threadQueue l = [] -> sl = [].
Proof.
  unfold sys_inv, queue_matches_sleepers. simpl.
  intros (_ & _ & (_ & _ & H5) & _) Hq. destruct sl as [|[t p] sl]; [done|].
  destruct (H5 t p) as (e & He & _); [by left|]. by rewrite Hq in He.
Qed.

Lemma sys_inv_upgrader N l sl t c :
  sys_inv N (mkSystem l sl) -> In (t, InUpgradeLock c) sl ->
  exists e q, threadQueue l = e :: q /\ cond e = c.
Proof.
  unfold sys_inv, upgrader_first. simpl.
  intros (_ & _ & _ & H6) Hin. by destruct (H6 t c Hin) as [_ ?].
Qed.

(** Every critical section keeps the invariant. *)
Lemma sys_inv_step N St t o St' :
  (Z.of_nat N < UINT_MOD)%Z ->
  sys_inv N St -> t < N -> sys_step St t o St' -> sys_inv N St'.
Proof.
  intros HN Hinv Ht Hstep. destruct St as [l sl].
  pose proof (fun e => sys_inv_positive N l sl e Hinv) as Hpos.
  destruct Hstep as [op l' n Ha H | op l' c Ha H | c op l' n Hin H
                    | c op l' c' Hin H | l' n Ha H | l' c Ha H
                    | c l' n Hin H | c l' c' Hin H | l' n Ha H | l' n Ha H];
    simpl in *.
  - apply Lock_enter_cases in H as [Hq Hm]; [|done].
    apply sys_inv_holders with l; [done | done |].
    intros Hsl Hnone. destruct Hm as [->|Hempty]; [done|].
    by apply (sys_inv_empty_queue N l sl Hinv) in Hempty.
  - apply awake_not_in in Ha. simpl in Ha.
    apply Lock_enter_cases in H
      as (Hm & [[Hq ->]|(q & e & Hq & -> & He & Hq' & ->)]); [| |done].
    + by apply sys_inv_push.
    + by apply sys_inv_join with l q.
  - apply Lock_resume_cases in H
      as (e & rest & Hq & Hc
          & [[Hq' Hrd]|(-> & Hp & Hnz & Hq' & Hm)]).
    + destruct (entry_of_sleeper N l sl t (InWait c op) e rest Hinv Hin Hq Hc)
        as (Ho & Hcnt & Hone).
      apply sys_inv_pop with l (InWait c op) e rest; try done.
      destruct (Operation_eqb_spec op READ) as [->|Hop].
      * destruct (Hrd eq_refl) as [_ Hz].
        rewrite uint_decr_small in Hz; lia.
      * apply Hone. by rewrite Ho.
    + subst c. by apply sys_inv_decr with l e rest.
  - apply Lock_resume_cases in H as ->. done.
  - apply UpgradeLock_enter_cases in H as (Hmw & Hq & Hm).
    by apply sys_inv_holders with l.
  - apply awake_not_in in Ha. simpl in Ha.
    apply UpgradeLock_enter_cases in H as (Hmw & Hq & -> & Hm).
    by apply sys_inv_vip.
  - apply UpgradeLock_resume_cases in H as (e & rest & Hq & Hq').
    destruct (sys_inv_upgrader N l sl t c Hinv Hin) as (e0 & q0 & Eq & Hc).
    rewrite Hq in Eq. injection Eq as <- <-.
    destruct (entry_of_sleeper N l sl t (InUpgradeLock c) e rest Hinv Hin Hq
                Hc) as (Ho & _ & Hone).
    apply sys_inv_pop with l (InUpgradeLock c) e rest; try done.
    apply Hone. by rewrite Ho.
  - apply UpgradeLock_resume_cases in H as ->. done.
  - apply ReleaseSharedLock_cases in H as [Hq Hm].
    apply sys_inv_holders with l; [done | done | by intros _].
  - apply ReleaseExclusiveLock_cases in H as [Hq Hm].
    apply sys_inv_holders with l; [done | done |]. intros _. by rewrite Hm.
Qed.

Lemma sys_reachable_inv N St :
  (Z.of_nat N < UINT_MOD)%Z -> sys_reachable N St -> sys_inv N St.
Proof.
  intros HN H. induction H as [|St t o St' _ IH Ht Hstep].
  - apply sys_inv_new.
  - by apply (sys_inv_step N St t o St').
Qed.

(** X20: In every state that fewer than 2^32 threads reach from a new lock by
    critical sections of the lock's methods, the queue and the sleeping
    threads match: the entries of the queue have condition variables of
    their own; the counter of every entry is the number of threads that
    sleep on its condition variable, which is at least one, and exactly one
    for a MAY_WRITE or WRITE entry; every sleeping thread waits on the
    condition variable of an entry of its mode; and a thread that sleeps in
    [UpgradeLock] has its entry at the front of the queue. *)
Theorem queue_counts_sleepers (N : nat) (St : System) :
  (Z.of_nat N < UINT_MOD)%Z -> sys_reachable N St ->
  queue_matches_sleepers St /\ upgrader_first St.
Proof.
  intros HN H. by destruct (sys_reachable_inv N St HN H) as (_ & _ & ? & ?).
Qed.

Lemma may_writer_and_reader_reachable : sys_reachable 4 may_writer_and_reader.
Proof.
  assert (forall t, awake t (mkSystem new_lock [])) as Ha0 by (intros t p []).
  pose proof (sys_reach_new 4) as R0.
  pose proof (sys_reach_step 4 _ 1 _ _ R0 ltac:(lia)
                (sys_enter_proceed _ 1 MAY_WRITE
                   (mkLock [] 1 false (Some 1)) None (Ha0 1) eq_refl)) as R1.
  assert (awake 2 (mkSystem (mkLock [] 1 false (Some 1)) [])) as Ha1
    by (intros p []).
  pose proof (sys_reach_step 4 _ 2 _ _ R1 ltac:(lia)
                (sys_enter_proceed _ 2 READ
                   (mkLock [] 2 false (Some 1)) None Ha1 eq_refl)) as R2.
  assert (awake 3 (mkSystem (mkLock [] 2 false (Some 1)) [])) as Ha2
    by (intros p []).
  exact (sys_reach_step 4 _ 3 _ _ R2 ltac:(lia)
           (sys_enter_sleep _ 3 WRITE
              (mkLock [mkTuple 1 WRITE 1] 2 false (Some 1)) 1 Ha2 eq_refl)).
Qed.

Lemma queue_counts_sleepers_witness :
  (Z.of_nat 4 < UINT_MOD)%Z /\ sys_reachable 4 may_writer_and_reader /\
  queue_matches_sleepers may_writer_and_reader /\
  upgrader_first may_writer_and_reader.
Proof.
  assert (Z.of_nat 4 < UINT_MOD)%Z as HN by reflexivity.
  split; [exact HN|]. split; [exact may_writer_and_reader_reachable|].
  exact (queue_counts_sleepers 4 may_writer_and_reader HN
           may_writer_and_reader_reachable).
Defined.

(** ** No assertion trips in [Wait] *)

Lemma Lock_enter_total t op l :
  positive_counters l -> exists r, Lock_enter t op l = Some r.
Proof.
  intros Hpos.
  destruct (ShouldThreadWait_total op l Hpos) as (w & l' & E & Hback).
  pose proof (ShouldThreadWait_holders _ _ _ _ E) as [_ Hc].
  unfold Lock_enter, Wait_enter. rewrite E. simpl. destruct w; simpl.
  - destruct (Hback eq_refl) as [b ->]. simpl. by eexists.
  - apply ShouldThreadWait_false in E as ->.
    destruct (Lock_after_Wait_total t op l (Hc eq_refl)) as [l1 ->].
    simpl. by eexists.
Qed.

Lemma Lock_resume_total t c op l e rest :
  threadQueue l = e :: rest -> (0 < counter e)%Z ->
  exists r, Lock_resume t c op l = Some r.
Proof.
  intros Hq He. unfold Lock_resume, Wait_resume. rewrite Hq.
  destruct (negb (Nat.eqb (cond e) c)); simpl; [by eexists|].
  destruct (CanAcquireLock op l) eqn:Hcan; simpl; [|by eexists].
  assert (forall q, exists l1,
            Lock_after_Wait t op (set_threadQueue q l) = Some l1) as Hafter.
  { intros q. apply Lock_after_Wait_total.
    rewrite (same_holders_CanAcquireLock _ l); [done|].
    apply same_holders_set_threadQueue. }
  destruct (Operation_eqb_spec op READ) as [->|Hop]; simpl.
  - apply Z.ltb_lt in He. rewrite He. simpl.
    destruct (uint_decr (counter e) =? 0)%Z; simpl; by eexists.
  - destruct (Hafter rest) as [l1 ->]. simpl. by eexists.
Qed.

Lemma UpgradeLock_resume_total c l e rest :
  threadQueue l = e :: rest -> exists r, UpgradeLock_resume c l = Some r.
Proof.
  intros Hq. unfold UpgradeLock_resume.
  destruct (CanWriterAcquireLock l) eqn:E; simpl; [|by eexists].
  rewrite Hq. unfold UpgradeLock_finish. simpl.
  apply CanWriterAcquireLock_true in E as (_ & _ & ->). simpl. by eexists.
Qed.

(** X21: In every state that fewer than 2^32 threads reach from a new lock,
    the critical sections of the acquiring methods run without a failed
    assertion and without [front()], [back()] or [pop_front()] on an empty
    queue: the entry section of [LockRead], [LockMayWrite] and [LockWrite],
    the section a thread that sleeps in [Wait] runs when it wakes up, and
    the section a thread that sleeps in [UpgradeLock] runs when it wakes
    up. *)
Theorem waits_trip_no_assertion (N : nat) (St : System) :
  (Z.of_nat N < UINT_MOD)%Z -> sys_reachable N St ->
  (forall t op, exists r, Lock_enter t op (the_lock St) = Some r) /\
  (forall t c op,
     In (t, InWait c op) (sleeping St) ->
     exists r, Lock_resume t c op (the_lock St) = Some r) /\
  (forall t c,
     In (t, InUpgradeLock c) (sleeping St) ->
     exists r, UpgradeLock_resume c (the_lock St) = Some r).
Proof.
  intros HN H. pose proof (sys_reachable_inv N St HN H) as Hinv.
  destruct St as [l sl]. simpl.
  pose proof (fun e => sys_inv_positive N l sl e Hinv) as Hpos.
  split_and!.
  - intros t op. apply Lock_enter_total. unfold positive_counters.
    apply List.Forall_forall. intros e He. by apply Hpos.
  - intros t c op Hin.
    destruct Hinv as (_ & _ & (_ & _ & H5) & _). simpl in H5.
    destruct (H5 _ _ Hin) as (e0 & He0 & _).
    destruct (threadQueue l) as [|e rest] eqn:Hq; [done|].
    apply (Lock_resume_total t c op l e rest Hq). apply Hpos. by left.
  - intros t c Hin.
    destruct (sys_inv_upgrader N l sl t c Hinv Hin) as (e & q & Hq & _).
    by apply (UpgradeLock_resume_total c l e q).
Qed.

Lemma waits_trip_no_assertion_witness :
  (Z.of_nat 4 < UINT_MOD)%Z /\ sys_reachable 4 may_writer_and_reader /\
  exists r, Lock_resume 3 1 WRITE (the_lock may_writer_and_reader) = Some r.
Proof.
  assert (Z.of_nat 4 < UINT_MOD)%Z as HN by reflexivity.
  split; [exact HN|]. split; [exact may_writer_and_reader_reachable|].
  destruct (waits_trip_no_assertion 4 may_writer_and_reader HN
              may_writer_and_reader_reachable) as (_ & Hw & _).
  apply (Hw 3 1 WRITE). by left.
Defined.

(** ** Counting the threads that hold *)

Lemma shared_holders_cons t op hl :
  shared_holders ((t, op) :: hl)
  = (if is_shared op then 1 else 0) + shared_holders hl.
Proof. unfold shared_holders. simpl. by destruct (is_shared op). Qed.

Lemma shared_holders_le hl : shared_holders hl <= length hl.
Proof.
  induction hl as [|[t op] hl IH]; [done|].
  rewrite shared_holders_cons. simpl. destruct (is_shared op); lia.
Qed.

Lemma In_drop_thread t t' op hl :
  In (t', op) (drop_thread t hl) <-> In (t', op) hl /\ t' <> t.
Proof.
  unfold drop_thread. rewrite filter_In. simpl.
  by rewrite negb_true_iff, Nat.eqb_neq.
Qed.

Lemma NoDup_drop_thread t hl :
  List.NoDup (map fst hl) -> List.NoDup (map fst (drop_thread t hl)).
Proof.
  induction hl as [|[t' op'] hl IH]; simpl; intros H; [constructor|].
  apply List.NoDup_cons_iff in H as [Hn H].
  destruct (negb (Nat.eqb t' t)); simpl; [|by apply IH].
  apply List.NoDup_cons_iff. split; [|by apply IH].
  intros Hin. apply Hn. apply in_map_iff in Hin as ([t2 op2] & E & Hin).
  simpl in E. subst t2. apply In_drop_thread in Hin as [Hin _].
  apply in_map_iff. by exists (t', op2).
Qed.

Lemma drop_thread_absent t hl :
  ~ In t (map fst hl) -> drop_thread t hl = hl.
Proof.
  induction hl as [|[t' op'] hl IH]; simpl; intros H; [done|].
  destruct (Nat.eqb_spec t' t) as [->|Hne]; simpl.
  - exfalso. apply H. by left.
  - f_equal. apply IH. intros Hin. apply H. by right.
Qed.

Lemma shared_holders_drop t op hl :
  List.NoDup (map fst hl) -> In (t, op) hl ->
  shared_holders hl
  = (if is_shared op then 1 else 0) + shared_holders (drop_thread t hl).
Proof.
  induction hl as [|[t' op'] hl IH]; intros Hnd Hin; [done|].
  simpl in Hnd. apply List.NoDup_cons_iff in Hnd as [Hn Hnd].
  destruct Hin as [E|Hin].
  - injection E as -> ->. simpl. rewrite Nat.eqb_refl. simpl.
    fold (drop_thread t hl). rewrite shared_holders_cons.
    by rewrite drop_thread_absent.
  - assert (t' <> t) as Hne.
    { intros ->. apply Hn. apply in_map_iff. by exists (t, op). }
    simpl. destruct (Nat.eqb_spec t' t) as [|_]; [done|]. simpl.
    fold (drop_thread t hl). rewrite !shared_holders_cons, (IH Hnd Hin). lia.
Qed.

Lemma holders_bound N (hl : list (ThreadId * Operation)) :
  List.NoDup (map fst hl) -> (forall t op, In (t, op) hl -> t < N) ->
  length hl <= N.
Proof.
  intros Hnd Hlt.
  assert (incl (map fst hl) (seq 0 N)) as Hincl.
  { intros t Hin. apply in_map_iff in Hin as ([t' op] & E & Hin).
    simpl in E. subst t'. apply in_seq. specialize (Hlt t op Hin). lia. }
  pose proof (List.NoDup_incl_length Hnd Hincl) as H.
  by rewrite length_map, length_seq in H.
Qed.

Lemma no_holders hl :
  shared_holders hl = 0 -> (forall t, ~ In (t, WRITE) hl) -> hl = [].
Proof.
  destruct hl as [|[t op] hl]; [done|]. rewrite shared_holders_cons.
  intros H0 Hw. destruct op; simpl in H0; try lia.
  exfalso. apply (Hw t). by left.
Qed.

Lemma holder_mode t op op' (hl : list (ThreadId * Operation)) :
  List.NoDup (map fst hl) -> In (t, op) hl -> In (t, op') hl -> op = op'.
Proof.
  induction hl as [|[t' o] hl IH]; intros Hnd H1 H2; [done|].
  simpl in Hnd. apply List.NoDup_cons_iff in Hnd as [Hn Hnd].
  destruct H1 as [E1|H1], H2 as [E2|H2].
  - congruence.
  - injection E1 as -> ->. exfalso. apply Hn. apply in_map_iff.
    by exists (t, op').
  - injection E2 as -> ->. exfalso. apply Hn. apply in_map_iff.
    by exists (t, op).
  - by apply IH.
Qed.

(** ** What a critical section does to the fields that say who holds *)

Lemma Lock_enter_Sleep_holders t op l l' c :
  Lock_enter t op l = Some (Sleep l' c) -> same_holders l l'.
Proof.
  unfold Lock_enter. intros H.
  destruct (Wait_enter op l) as [r|] eqn:E; [|discriminate]. simpl in H.
  apply Wait_enter_holders in E. destruct r as [l1 n|l1 c1]; simpl in H.
  - destruct (Lock_after_Wait t op l1); discriminate.
  - by injection H as <- <-.
Qed.

Lemma Lock_resume_Proceed_holders t c op l l' n :
  Lock_resume t c op l = Some (Proceed l' n) ->
  exists l1,
    same_holders l l1 /\ CanAcquireLock op l1 = true /\
    Lock_after_Wait t op l1 = Some l'.
Proof.
  unfold Lock_resume. intros H.
  destruct (Wait_resume c op l) as [r|] eqn:E; [|discriminate]. simpl in H.
  apply Wait_resume_holders in E. destruct r as [l1 n1|l1 c1]; simpl in H.
  - destruct (Lock_after_Wait t op l1) as [l2|] eqn:E2; [|discriminate].
    simpl in H. injection H as <- <-. exists l1. by destruct E.
  - discriminate.
Qed.

Lemma UpgradeLock_enter_fields t l r :
  UpgradeLock_enter t l = Some r ->
  (0 < readersNumber l)%Z /\ mayWriterThreadId l = Some t /\
  readersNumber (lock_of r) = uint_decr (readersNumber l) /\
  mayWriterThreadId (lock_of r) = None /\
  match r with
  | Proceed l' _ =>
      readersNumber l' = 0%Z /\ isWriterHolding l = false /\
      isWriterHolding l' = true
  | Sleep l' _ => isWriterHolding l' = isWriterHolding l
  end.
Proof.
  intros H. pose proof (UpgradeLock_enter_may_writer _ _ _ H) as Hm.
  unfold UpgradeLock_enter in H.
  destruct (assert (0 <? readersNumber l)%Z) eqn:Ea; [|discriminate].
  apply assert_Some, Z.ltb_lt in Ea. simpl in H.
  destruct (assert (tid_eqb _ _)); [|discriminate]. simpl in H.
  destruct (CanWriterAcquireLock _) eqn:Ec; simpl in H.
  - apply CanWriterAcquireLock_true in Ec as (Hr & _ & Hw). simpl in Hr, Hw.
    unfold UpgradeLock_finish in H. simpl in H. rewrite Hw in H. simpl in H.
    injection H as <-. simpl. by split_and!.
  - injection H as <-. simpl. by split_and!.
Qed.

Lemma UpgradeLock_resume_fields c l l' n :
  UpgradeLock_resume c l = Some (Proceed l' n) ->
  readersNumber l = 0%Z /\ mayWriterThreadId l = None /\
  isWriterHolding l = false /\
  readersNumber l' = 0%Z /\ mayWriterThreadId l' = None /\
  isWriterHolding l' = true.
Proof.
  unfold UpgradeLock_resume. intros H.
  destruct (CanWriterAcquireLock l) eqn:Ec; simpl in H; [|discriminate].
  apply CanWriterAcquireLock_true in Ec as (Hr & Hm & Hw).
  destruct (threadQueue l) as [|e rest]; [discriminate|].
  unfold UpgradeLock_finish in H. simpl in H. rewrite Hw in H. simpl in H.
  injection H as <- _. simpl. by split_and!.
Qed.

Lemma ReleaseSharedLock_fields t l l' n :
  ReleaseSharedLock t l = Some (l', n) ->
  (0 < readersNumber l)%Z /\
  readersNumber l' = uint_decr (readersNumber l) /\
  isWriterHolding l' = isWriterHolding l /\
  mayWriterThreadId l'
  = if tid_eqb (mayWriterThreadId l) (Some t) then None
    else mayWriterThreadId l.
Proof.
  unfold ReleaseSharedLock. intros H.
  destruct (assert (0 <? readersNumber l)%Z) eqn:Ea; [|discriminate].
  apply assert_Some, Z.ltb_lt in Ea. simpl in H.
  destruct (tid_eqb (mayWriterThreadId l) (Some t)) eqn:Et.
  - injection H as <- _. simpl. by split_and!.
  - destruct (0 <? _)%Z; injection H as <- _; simpl; by split_and!.
Qed.

Lemma ReleaseExclusiveLock_fields l l' n :
  ReleaseExclusiveLock l = Some (l', n) ->
  isWriterHolding l = true /\ isWriterHolding l' = false /\
  readersNumber l' = readersNumber l /\
  mayWriterThreadId l' = mayWriterThreadId l.
Proof.
  unfold ReleaseExclusiveLock. intros H.
  destruct (isWriterHolding l) eqn:E; simpl in H; [|discriminate].
  injection H as <- _. simpl. by split_and!.
Qed.

(** ** The invariant of the holders *)

Lemma holders_match_same l l' hl :
  same_holders l l' -> holders_match l hl -> holders_match l' hl.
Proof.
  intros (Hr & Hw & Hm) (H1 & H2 & H3). unfold holders_match.
  rewrite Hr, Hw. split_and!; [done | done |]. intros t. by rewrite Hm.
Qed.

Lemma holders_not_writing l hl t op :
  holders_match l hl -> In (t, op) hl -> op <> WRITE ->
  isWriterHolding l = false.
Proof.
  intros (_ & H2 & _) Hin Hop. destruct (isWriterHolding l); [|done].
  destruct H2 as [t' E]. rewrite E in Hin. destruct Hin as [E'|[]].
  injection E' as _ <-. done.
Qed.

Lemma holders_match_acquire N l l' hl t op :
  (Z.of_nat N < UINT_MOD)%Z ->
  holders_match l hl ->
  List.NoDup (map fst hl) -> (forall t' op', In (t', op') hl -> t' < N) ->
  t < N -> ~ In t (map fst hl) ->
  CanAcquireLock op l = true -> Lock_after_Wait t op l = Some l' ->
  holders_match l' ((t, op) :: hl).
Proof.
  intros HN (H1 & H2 & H3) Hnd Hlt Ht Hn Hcan Hafter.
  assert (S (length hl) <= N) as Hlen.
  { apply (holders_bound N ((t, op) :: hl));
      [simpl; by apply List.NoDup_cons|].
    intros t' op' [E|Hin]; [by injection E as <- _ | by eapply Hlt]. }
  pose proof (shared_holders_le hl) as Hle.
  apply Lock_after_Wait_spec in Hafter as [_ Hf].
  unfold holders_match. rewrite shared_holders_cons.
  destruct op; simpl in Hcan, Hf |- *; destruct Hf as (Hr & Hw & Hm);
    rewrite Hr, Hw.
  - apply negb_true_iff in Hcan. rewrite Hcan in H2 |- *.
    rewrite uint_incr_small by lia. split_and!.
    + lia.
    + intros t' [E|Hin]; [discriminate | by apply (H2 t')].
    + intros t'. rewrite Hm, H3.
      split; [by right | intros [E|Hin]; [discriminate | done]].
  - apply CanMayWriterAcquireLock_true in Hcan as [Hnone Hwf].
    rewrite Hwf in H2 |- *. rewrite uint_incr_small by lia. split_and!.
    + lia.
    + intros t' [E|Hin]; [discriminate | by apply (H2 t')].
    + intros t'. rewrite Hm. split.
      * intros [= <-]. by left.
      * intros [E|Hin]; [by injection E as -> |].
        apply H3 in Hin. congruence.
  - apply CanWriterAcquireLock_true in Hcan as (Hzero & Hnone & Hwf).
    rewrite Hwf in H2.
    assert (hl = []) as -> by (apply no_holders; [lia | done]).
    split_and!; [done | by exists t |].
    intros t'. rewrite Hm, Hnone.
    split; [done | intros [E|[]]; discriminate].
Qed.

Lemma holders_match_release_shared N l l' hl t op n :
  (Z.of_nat N < UINT_MOD)%Z ->
  holders_match l hl ->
  List.NoDup (map fst hl) -> (forall t' op', In (t', op') hl -> t' < N) ->
  In (t, op) hl -> op <> WRITE ->
  RMWLock.ReleaseSharedLock t l = Some (l', n) ->
  holders_match l' (drop_thread t hl).
Proof.
  intros HN Hmatch Hnd Hlt Hin Hop H.
  pose proof (holders_not_writing l hl t op Hmatch Hin Hop) as Hwf.
  destruct Hmatch as (H1 & H2 & H3).
  apply ReleaseSharedLock_fields in H as (Hpos & Hr & Hw & Hm).
  pose proof (shared_holders_drop t op hl Hnd Hin) as Hcount.
  assert (is_shared op = true) as Hs by (by destruct op).
  rewrite Hs in Hcount.
  pose proof (shared_holders_le hl) as Hle.
  pose proof (holders_bound N hl Hnd Hlt) as Hlen.
  unfold holders_match. rewrite Hr, Hw, Hwf. rewrite Hwf in H2.
  rewrite uint_decr_small by lia. split_and!.
  - lia.
  - intros t' Hin'. apply In_drop_thread in Hin' as [Hin' _].
    by apply (H2 t').
  - intros t'. rewrite In_drop_thread, Hm.
    destruct (tid_eqb (mayWriterThreadId l) (Some t)) eqn:Et.
    + apply tid_eqb_eq in Et. split; [done|]. intros [Hin' Hne].
      apply H3 in Hin'. congruence.
    + split.
      * intros Hm'. split; [by apply H3|]. intros ->. rewrite Hm' in Et.
        simpl in Et. by rewrite Nat.eqb_refl in Et.
      * intros [Hin' _]. by apply H3.
Qed.

Lemma holders_match_release_exclusive l l' hl t n :
  holders_match l hl -> In (t, WRITE) hl ->
  RMWLock.ReleaseExclusiveLock l = Some (l', n) ->
  holders_match l' (drop_thread t hl).
Proof.
  intros (H1 & H2 & H3) Hin H.
  apply ReleaseExclusiveLock_fields in H as (Hwt & Hwf & Hr & Hm).
  rewrite Hwt in H2. destruct H2 as [t' E]. subst hl.
  destruct Hin as [E|[]]. injection E as ->.
  unfold holders_match. rewrite Hr, Hwf, H1. simpl. rewrite Nat.eqb_refl.
  simpl. split_and!; [done | by intros t' [] |].
  intros t'. rewrite Hm, H3. split; [intros [E|[]]; discriminate | done].
Qed.

Lemma holders_match_upgrade N l hl t r :
  (Z.of_nat N < UINT_MOD)%Z ->
  holders_match l hl ->
  List.NoDup (map fst hl) -> (forall t' op', In (t', op') hl -> t' < N) ->
  In (t, MAY_WRITE) hl ->
  UpgradeLock_enter t l = Some r ->
  holders_match (lock_of r)
    (match r with
     | Proceed _ _ => (t, WRITE) :: drop_thread t hl
     | Sleep _ _ => drop_thread t hl
     end).
Proof.
  intros HN Hmatch Hnd Hlt Hin H.
  pose proof (holders_not_writing l hl t MAY_WRITE Hmatch Hin ltac:(done))
    as Hwf.
  destruct Hmatch as (H1 & H2 & H3). rewrite Hwf in H2.
  apply UpgradeLock_enter_fields in H as (Hpos & Hmw & Hr & Hm & Hrest).
  pose proof (shared_holders_drop t MAY_WRITE hl Hnd Hin) as Hcount.
  simpl in Hcount.
  pose proof (shared_holders_le hl) as Hle.
  pose proof (holders_bound N hl Hnd Hlt) as Hlen.
  rewrite uint_decr_small in Hr by lia.
  assert (forall t', ~ In (t', WRITE) (drop_thread t hl)) as Hnw.
  { intros t' Hin'. apply In_drop_thread in Hin' as [Hin' _].
    by apply (H2 t'). }
  assert (forall t', ~ In (t', MAY_WRITE) (drop_thread t hl)) as Hnm.
  { intros t' Hin'. apply In_drop_thread in Hin' as [Hin' Hne].
    apply H3 in Hin'. congruence. }
  unfold holders_match. rewrite Hr, Hm.
  destruct r as [l' n|l' c]; simpl in *.
  - destruct Hrest as (Hz & _ & Hwt). rewrite Hwt.
    assert (drop_thread t hl = []) as ->
      by (apply no_holders; [lia | done]).
    split_and!; [unfold shared_holders; simpl; lia | by exists t |].
    intros t'. split; [done | intros [E|[]]; discriminate].
  - rewrite Hrest, Hwf. split_and!; [lia | done |].
    intros t'. split; [done | intros Hin'; by apply Hnm in Hin'].
Qed.

Lemma holders_match_upgrade_resume l l' hl t c n :
  holders_match l hl ->
  UpgradeLock_resume c l = Some (Proceed l' n) ->
  holders_match l' ((t, WRITE) :: hl).
Proof.
  intros (H1 & H2 & H3) H.
  apply UpgradeLock_resume_fields in H
    as (Hz & Hnone & Hwf & Hz' & Hnone' & Hwt).
  rewrite Hwf in H2.
  assert (hl = []) as -> by (apply no_holders; [lia | done]).
  unfold holders_match. rewrite Hz', Hwt, Hnone'.
  split_and!; [done | by exists t |].
  intros t'. split; [done | intros [E|[]]; discriminate].
Qed.

Lemma not_in_drop_thread t hl : ~ In t (map fst (drop_thread t hl)).
Proof.
  intros Hin. apply in_map_iff in Hin as ([t' op] & E & Hin).
  simpl in E. subst t'. by apply In_drop_thread in Hin as [_ ?].
Qed.

Lemma clients_inv_new N : clients_inv N (mkClients (mkSystem new_lock []) []).
Proof.
  unfold clients_inv, holders_match. simpl.
  split_and!; [apply List.NoDup_nil | by intros ? ? [] | done
              | by intros ? [] | intros t; split; [done | by intros []]].
Qed.

(** A thread that sleeps does not hold the lock. *)
Lemma sleeper_not_holding N C t p :
  clients_inv N C -> In (t, p) (sleeping (sys C)) ->
  ~ In t (map fst (holding C)).
Proof.
  intros (_ & Ha & _) Hin Hh.
  apply in_map_iff in Hh as ([t' op] & E & Hh). simpl in E. subst t'.
  destruct (Ha t op Hh) as [_ Haw]. by apply (Haw p).
Qed.

Lemma clients_inv_step N C t C' :
  (Z.of_nat N < UINT_MOD)%Z ->
  clients_inv N C -> t < N -> client_step C t C' -> clients_inv N C'.
Proof.
  intros HN Hinv Ht Hstep.
  pose proof Hinv as (Hnd & Hb & Hmatch).
  assert (forall t' op', In (t', op') (holding C) -> t' < N) as Hlt
    by (intros t' op' Hin; by destruct (Hb t' op' Hin)).
  destruct C as [[l sl] hl]. unfold clients_inv.
  destruct Hstep as [op l' n Ha Hn H | op l' c Ha Hn H | c op l' n Hin H
                    | c op l' c' Hin H | l' n Ha Hh H | l' c Ha Hh H
                    | c l' n Hin H | c l' c' Hin H | op l' n Ha Hh Hop H
                    | l' n Ha Hh H];
    simpl in *.
  - apply Lock_enter_Proceed in H as (Hcan & _ & Hafter). split_and!.
    + by apply List.NoDup_cons.
    + intros t' op' [E|Hin']; [by injection E as <- _ | by apply Hb in Hin'].
    + by apply (holders_match_acquire N l).
  - apply Lock_enter_Sleep_holders in H. split_and!; [done | |].
    + intros t' op' Hin'. destruct (Hb t' op' Hin') as [? Haw].
      split; [done|]. intros p [E|Hs]; [|by apply (Haw p)].
      injection E as <- _. apply Hn. apply in_map_iff. by exists (t, op').
    + by apply (holders_match_same l).
  - pose proof (sleeper_not_holding N _ t _ Hinv Hin) as Hn. simpl in Hn.
    apply Lock_resume_Proceed_holders in H as (l1 & Hs & Hcan & Hafter).
    split_and!.
    + by apply List.NoDup_cons.
    + intros t' op' [E|Hin'].
      * injection E as <- _. split; [done|]. intros p Hp.
        by apply In_wake in Hp as [_ ?].
      * destruct (Hb t' op' Hin') as [? Haw]. split; [done|].
        intros p Hp. apply In_wake in Hp as [Hp _]. by apply (Haw p).
    + apply (holders_match_acquire N l1); try done.
      by apply (holders_match_same l).
  - apply Lock_resume_cases in H as ->. done.
  - pose proof (holders_match_upgrade N l hl t _ HN Hmatch Hnd Hlt Hh H)
      as Hm'. simpl in Hm'. split_and!.
    + apply List.NoDup_cons;
        [apply not_in_drop_thread | by apply NoDup_drop_thread].
    + intros t' op' [E|Hin']; [injection E as <- _; by split|].
      apply In_drop_thread in Hin' as [Hin' _]. by apply Hb in Hin'.
    + done.
  - pose proof (holders_match_upgrade N l hl t _ HN Hmatch Hnd Hlt Hh H)
      as Hm'. simpl in Hm'. split_and!.
    + by apply NoDup_drop_thread.
    + intros t' op' Hin'. apply In_drop_thread in Hin' as [Hin' Hne].
      destruct (Hb t' op' Hin') as [? Haw]. split; [done|].
      intros p [E|Hs]; [by injection E as <- _ | by apply (Haw p)].
    + done.
  - pose proof (sleeper_not_holding N _ t _ Hinv Hin) as Hn. simpl in Hn.
    split_and!.
    + by apply List.NoDup_cons.
    + intros t' op' [E|Hin'].
      * injection E as <- _. split; [done|]. intros p Hp.
        by apply In_wake in Hp as [_ ?].
      * destruct (Hb t' op' Hin') as [? Haw]. split; [done|].
        intros p Hp. apply In_wake in Hp as [Hp _]. by apply (Haw p).
    + by apply (holders_match_upgrade_resume l l' hl t c n).
  - apply UpgradeLock_resume_cases in H as ->. done.
  - split_and!.
    + by apply NoDup_drop_thread.
    + intros t' op' Hin'. apply In_drop_thread in Hin' as [Hin' _].
      by apply Hb in Hin'.
    + by apply (holders_match_release_shared N l l' hl t op n).
  - split_and!.
    + by apply NoDup_drop_thread.
    + intros t' op' Hin'. apply In_drop_thread in Hin' as [Hin' _].
      by apply Hb in Hin'.
    + by apply (holders_match_release_exclusive l l' hl t n).
Qed.

Lemma client_reachable_inv N C :
  (Z.of_nat N < UINT_MOD)%Z -> client_reachable N C -> clients_inv N C.
Proof.
  intros HN H. induction H as [|C t C' _ IH Ht Hstep].
  - apply clients_inv_new.
  - by apply (clients_inv_step N C t C').
Qed.

(** The threads that hold are threads of the system of the lock. *)
Lemma client_step_sys C t C' :
  client_step C t C' -> exists o, sys_step (sys C) t o (sys C').
Proof.
  intros [op l' n Ha Hn H | op l' c Ha Hn H | c op l' n Hin H
         | c op l' c' Hin H | l' n Ha Hh H | l' c Ha Hh H
         | c l' n Hin H | c l' c' Hin H | op l' n Ha Hh Hop H
         | l' n Ha Hh H]; simpl; eexists.
  - by eapply sys_enter_proceed.
  - by eapply sys_enter_sleep.
  - by eapply sys_resume_proceed.
  - by eapply sys_resume_sleep.
  - by eapply sys_upgrade_proceed.
  - by eapply sys_upgrade_sleep.
  - by eapply sys_upgrade_resume_proceed.
  - by eapply sys_upgrade_resume_sleep.
  - by eapply sys_release_shared.
  - by eapply sys_release_exclusive.
Qed.

Lemma client_reachable_sys N C :
  client_reachable N C -> sys_reachable N (sys C).
Proof.
  intros H. induction H as [|C t C' _ IH Ht Hstep]; [constructor|].
  destruct (client_step_sys C t C' Hstep) as [o Ho].
  by apply (sys_reach_step N (sys C) t o).
Qed.

Lemma may_writer_with_reader_reachable :
  client_reachable 4 may_writer_with_reader.
Proof.
  pose proof (client_reach_new 4) as R0.
  assert (awake 1 (mkSystem new_lock [])) as Ha0 by (intros p []).
  pose proof (client_reach_step 4 _ 1 _ R0 ltac:(lia)
                (client_enter_proceed
                   (mkClients (mkSystem new_lock []) []) 1 MAY_WRITE
                   (mkLock [] 1 false (Some 1)) None Ha0 ltac:(by intros [])
                   eq_refl)) as R1.
  assert (awake 2 (mkSystem (mkLock [] 1 false (Some 1)) [])) as Ha1
    by (intros p []).
  assert (~ In 2 (map fst [(1, MAY_WRITE)])) as Hn1
    by (intros [E|[]]; discriminate).
  exact (client_reach_step 4 _ 2 _ R1 ltac:(lia)
           (client_enter_proceed
              (mkClients (mkSystem (mkLock [] 1 false (Some 1)) [])
                 [(1, MAY_WRITE)]) 2 READ
              (mkLock [] 2 false (Some 1)) None Ha1 Hn1 eq_refl)).
Qed.

(** X23: Mutual exclusion for threads that use the lock as the list does
    (at most one mode held per thread, released with the release of that
    mode, [UpgradeLock] only while holding MAY_WRITE), fewer than 2^32 of
    them: in every state they reach from a new lock, a thread that holds
    WRITE is the only holder; at most one thread holds MAY_WRITE;
    [readersNumber] is the number of threads that hold READ or MAY_WRITE,
    [isWriterHolding] is set exactly when a thread holds WRITE, and
    [mayWriterThreadId] is the thread that holds MAY_WRITE; and no thread
    that holds the lock sleeps on it. *)
Theorem holders_are_compatible (N : nat) (C : Clients) :
  (Z.of_nat N < UINT_MOD)%Z -> client_reachable N C ->
  (forall t, In (t, WRITE) (holding C) -> holding C = [(t, WRITE)]) /\
  (forall t t',
     In (t, MAY_WRITE) (holding C) -> In (t', MAY_WRITE) (holding C) ->
     t = t') /\
  readersNumber (the_lock (sys C)) = Z.of_nat (shared_holders (holding C)) /\
  (isWriterHolding (the_lock (sys C)) = true <->
   exists t, In (t, WRITE) (holding C)) /\
  (forall t, mayWriterThreadId (the_lock (sys C)) = Some t <->
             In (t, MAY_WRITE) (holding C)) /\
  (forall t op, In (t, op) (holding C) -> awake t (sys C)).
Proof.
  intros HN H.
  destruct (client_reachable_inv N C HN H) as (Hnd & Hb & H1 & H2 & H3).
  split_and!.
  - intros t Hin. destruct (isWriterHolding (the_lock (sys C))).
    + destruct H2 as [t' E]. rewrite E in Hin |- *.
      destruct Hin as [E'|[]]. by injection E' as ->.
    + by apply H2 in Hin.
  - intros t t' Hin Hin'. apply H3 in Hin, Hin'. congruence.
  - done.
  - destruct (isWriterHolding (the_lock (sys C))).
    + split; [|done]. intros _. destruct H2 as [t ->]. exists t. by left.
    + split; [done|]. intros [t Hin]. by apply H2 in Hin.
  - done.
  - intros t op Hin. by destruct (Hb t op Hin).
Qed.

Lemma holders_are_compatible_witness :
  (Z.of_nat 4 < UINT_MOD)%Z /\ client_reachable 4 may_writer_with_reader /\
  readersNumber (the_lock (sys may_writer_with_reader))
  = Z.of_nat (shared_holders (holding may_writer_with_reader)).
Proof.
  assert (Z.of_nat 4 < UINT_MOD)%Z as HN by reflexivity.
  split; [exact HN|]. split; [exact may_writer_with_reader_reachable|].
  exact (proj1 (proj2 (proj2
           (holders_are_compatible 4 may_writer_with_reader HN
              may_writer_with_reader_reachable)))).
Defined.

Lemma UpgradeLock_enter_total t l :
  (0 < readersNumber l)%Z -> mayWriterThreadId l = Some t ->
  isWriterHolding l = false ->
  exists r, UpgradeLock_enter t l = Some r.
Proof.
  intros Hpos Hm Hw. unfold UpgradeLock_enter.
  apply Z.ltb_lt in Hpos. rewrite Hpos. simpl. rewrite Hm. simpl.
  rewrite Nat.eqb_refl. simpl.
  destruct (CanWriterAcquireLock _) eqn:E; simpl; [|by eexists].
  unfold UpgradeLock_finish. simpl. rewrite Hw. simpl. by eexists.
Qed.

(** X24: No assertion of the lock fails for threads that use the lock as
    the list does, fewer than 2^32 of them: in every state they reach from
    a new lock, [UpgradeLock] by the thread that holds MAY_WRITE,
    [ReleaseSharedLock] by a thread that holds READ or MAY_WRITE and
    [ReleaseExclusiveLock] by the thread that holds WRITE run their
    critical section without a failed assertion, and so do the entry
    section of [LockRead], [LockMayWrite] and [LockWrite] and the sections
    that threads sleeping in [Wait] or in [UpgradeLock] run when they wake
    up. *)
Theorem protocol_trips_no_assertion (N : nat) (C : Clients) :
  (Z.of_nat N < UINT_MOD)%Z -> client_reachable N C ->
  (forall t,
     In (t, MAY_WRITE) (holding C) ->
     exists r, UpgradeLock_enter t (the_lock (sys C)) = Some r) /\
  (forall t op,
     In (t, op) (holding C) -> op <> WRITE ->
     exists l' n,
       RMWLock.ReleaseSharedLock t (the_lock (sys C)) = Some (l', n)) /\
  (forall t,
     In (t, WRITE) (holding C) ->
     exists l' n,
       RMWLock.ReleaseExclusiveLock (the_lock (sys C)) = Some (l', n)) /\
  (forall t op, exists r, Lock_enter t op (the_lock (sys C)) = Some r) /\
  (forall t c op,
     In (t, InWait c op) (sleeping (sys C)) ->
     exists r, Lock_resume t c op (the_lock (sys C)) = Some r) /\
  (forall t c,
     In (t, InUpgradeLock c) (sleeping (sys C)) ->
     exists r, UpgradeLock_resume c (the_lock (sys C)) = Some r).
Proof.
  intros HN H.
  pose proof (client_reachable_inv N C HN H) as (Hnd & Hb & Hmatch).
  pose proof (sys_reachable_inv N (sys C) HN (client_reachable_sys N C H))
    as Hinv.
  destruct C as [[l sl] hl]. simpl in *.
  pose proof (fun e => sys_inv_positive N l sl e Hinv) as Hq.
  assert (forall t op, In (t, op) hl -> op <> WRITE ->
            (0 < readersNumber l)%Z /\ isWriterHolding l = false) as Hsh.
  { intros t op Hin Hop.
    split; [|by apply (holders_not_writing l hl t op)].
    destruct Hmatch as (H1 & _). rewrite H1.
    rewrite (shared_holders_drop t op hl Hnd Hin).
    destruct op; simpl; try lia. done. }
  split_and!.
  - intros t Hin. destruct (Hsh t MAY_WRITE Hin) as [Hpos Hw]; [done|].
    apply UpgradeLock_enter_total; [done | | done].
    by apply Hmatch.
  - intros t op Hin Hop. destruct (Hsh t op Hin Hop) as [Hpos _].
    unfold RMWLock.ReleaseSharedLock. apply Z.ltb_lt in Hpos.
    rewrite Hpos. simpl.
    destruct (tid_eqb _ _); [by eexists _, _|].
    destruct (0 <? uint_decr (readersNumber l))%Z; by eexists _, _.
  - intros t Hin. unfold RMWLock.ReleaseExclusiveLock.
    destruct Hmatch as (_ & H2 & _).
    destruct (isWriterHolding l); [simpl; by eexists _, _|].
    by apply H2 in Hin.
  - intros t op. apply Lock_enter_total. unfold positive_counters.
    apply List.Forall_forall. intros e He. by apply Hq.
  - intros t c op Hin.
    destruct Hinv as (_ & _ & (_ & _ & H5) & _). simpl in H5.
    destruct (H5 _ _ Hin) as (e0 & He0 & _).
    destruct (threadQueue l) as [|e rest] eqn:Eq; [done|].
    apply (Lock_resume_total t c op l e rest Eq). apply Hq. by left.
  - intros t c Hin.
    destruct (sys_inv_upgrader N l sl t c Hinv Hin) as (e & q & Eq & _).
    by apply (UpgradeLock_resume_total c l e q).
Qed.

Lemma protocol_trips_no_assertion_witness :
  (Z.of_nat 4 < UINT_MOD)%Z /\ client_reachable 4 may_writer_with_reader /\
  exists r,
    UpgradeLock_enter 1 (the_lock (sys may_writer_with_reader)) = Some r.
Proof.
  assert (Z.of_nat 4 < UINT_MOD)%Z as HN by reflexivity.
  split; [exact HN|]. split; [exact may_writer_with_reader_reachable|].
  destruct (protocol_trips_no_assertion 4 may_writer_with_reader HN
              may_writer_with_reader_reachable) as (Hu & _).
  apply (Hu 1). right. by left.
Defined.

End LockLaws.

(** * Laws of the list *)

Module ListLaws.
Import RMWLock CDLL LockProofs ListProofs.

#[local] Instance EKey_eq_dec' : EqDecision EKey.
Proof. solve_decision. Defined.

#[local] Instance before_trans' h : Transitive (before h).
Proof. intros a b c. apply ekey_lt_trans. Qed.

(** ** The walk from the head *)

Lemma walk_links h c a fuel :
  links h (a :: c) ->
  (forall t, last (a :: c) = Some t -> next_of h t = None) ->
  length (a :: c) <= fuel ->
  walk fuel h a = a :: c.
Proof.
  revert a fuel. induction c as [|b c IH]; intros a fuel Hl Ht Hlen.
  - destruct fuel as [|fuel]; [simpl in Hlen; lia|]. simpl.
    by rewrite (Ht a eq_refl).
  - destruct fuel as [|fuel]; [simpl in Hlen; lia|]. simpl.
    destruct Hl as [[Hab _] Hl]. rewrite Hab. f_equal.
    apply IH; [done | | simpl in *; lia].
    intros t Hlast. apply Ht. by rewrite last_cons, Hlast.
Qed.

Lemma sorted_NoDup h c : StronglySorted (before h) c -> NoDup c.
Proof.
  induction 1 as [|a c Hs IH Ha]; constructor; [| done].
  intros Hin. rewrite Forall_forall in Ha. by apply Ha, before_irrefl in Hin.
Qed.

Lemma chain_length h c : is_chain h c -> length c <= length h.
Proof.
  intros Hc. pose proof Hc as (_ & _ & Hs & _).
  assert (c ⊆+ seq 0 (length h)) as Hsub.
  { apply NoDup_submseteq; [by eapply sorted_NoDup|].
    intros x Hx%list_elem_of_In. apply elem_of_seq.
    pose proof (chain_in_heap _ _ _ Hc Hx). lia. }
  apply submseteq_length in Hsub. by rewrite length_seq in Hsub.
Qed.

Lemma chain_walk h c : is_chain h c -> walk (length h) h head = c.
Proof.
  intros Hc. pose proof Hc as ([Hh Ht] & Hl & _ & _ & _ & Hn).
  destruct c as [|a c]; [done|]. injection Hh as ->.
  apply walk_links; [done | | by apply chain_length in Hc].
  intros t Hlast. rewrite Ht in Hlast. by injection Hlast as <-.
Qed.

Lemma contents_chain h c :
  is_chain h c -> contents h = map (entry_of h) (inner c).
Proof. intros Hc. unfold contents. by rewrite (chain_walk h c Hc). Qed.

Lemma inner_app c1 c2 : inner (c1 ++ c2) = inner c1 ++ inner c2.
Proof. apply List.filter_app. Qed.

Lemma In_inner p c : In p (inner c) <-> In p c /\ p <> head /\ p <> tail.
Proof.
  unfold inner. rewrite List.filter_In. unfold is_sentinel.
  rewrite negb_true_iff, orb_false_iff, !Nat.eqb_neq. tauto.
Qed.

Lemma inner_node p : p <> head -> p <> tail -> inner [p] = [p].
Proof.
  intros Hh Ht. unfold inner, is_sentinel. simpl.
  apply Nat.eqb_neq in Hh, Ht. by rewrite Hh, Ht.
Qed.

Lemma ekey_Fin h p k : ekey h p = Fin k -> p <> head /\ p <> tail /\ key_of h p = k.
Proof.
  unfold ekey. destruct (Nat.eqb_spec p head); [done|].
  destruct (Nat.eqb_spec p tail); [done|]. by intros [= ->].
Qed.

(** The entries before a node that is below [k] are below [k], and those
    after a node that is above [k] are above [k]. *)
Lemma entries_below h c1 x c2 k :
  StronglySorted (before h) (c1 ++ x :: c2) ->
  ekey_lt (ekey h x) (Fin k) ->
  Forall (fun e => (e.1 < k)%Z) (map (entry_of h) (inner (c1 ++ [x]))).
Proof.
  intros Hs Hx. apply Forall_forall. intros e He.
  apply list_elem_of_In, in_map_iff in He as (p & <- & Hp).
  apply In_inner in Hp as (Hp & Hh & Ht). simpl.
  assert (ekey_lt (ekey h p) (Fin k)) as Hlt.
  { apply in_app_or in Hp as [Hp|[<-|[]]]; [| done].
    apply sorted_split in Hs as [Hs _]. rewrite Forall_forall in Hs.
    eapply ekey_lt_trans; [| exact Hx]. by apply Hs, list_elem_of_In. }
  by rewrite ekey_inner in Hlt.
Qed.

Lemma entries_above h c1 x c2 k :
  StronglySorted (before h) (c1 ++ x :: c2) ->
  ekey_lt (Fin k) (ekey h x) ->
  Forall (fun e => (k < e.1)%Z) (map (entry_of h) (inner (x :: c2))).
Proof.
  intros Hs Hx. apply Forall_forall. intros e He.
  apply list_elem_of_In, in_map_iff in He as (p & <- & Hp).
  apply In_inner in Hp as (Hp & Hh & Ht). simpl.
  assert (ekey_lt (Fin k) (ekey h p)) as Hlt.
  { destruct Hp as [<-|Hp]; [done|].
    apply sorted_split in Hs as [_ Hs]. rewrite Forall_forall in Hs.
    eapply ekey_lt_trans; [exact Hx|]. by apply Hs, list_elem_of_In. }
  by rewrite ekey_inner in Hlt.
Qed.

(** ** The sorted table *)

Lemma assoc_absent k l1 l2 :
  Forall (fun e => (e.1 < k)%Z) l1 -> Forall (fun e => (k < e.1)%Z) l2 ->
  assoc k (l1 ++ l2) = None.
Proof.
  intros H1 H2. induction H1 as [|[k' v'] l1 Hk _ IH]; simpl.
  - induction H2 as [|[k' v'] l2 Hk _ IH]; simpl; [done|].
    simpl in Hk. by destruct (Z.eqb_spec k' k); [lia|].
  - simpl in Hk. by destruct (Z.eqb_spec k' k); [lia|].
Qed.

Lemma assoc_at k v l1 l2 :
  Forall (fun e => (e.1 < k)%Z) l1 -> assoc k (l1 ++ (k, v) :: l2) = Some v.
Proof.
  intros H1. induction H1 as [|[k' v'] l1 Hk _ IH]; simpl.
  - by rewrite Z.eqb_refl.
  - simpl in Hk. by destruct (Z.eqb_spec k' k); [lia|].
Qed.

Lemma put_absent k v l1 l2 :
  Forall (fun e => (e.1 < k)%Z) l1 -> Forall (fun e => (k < e.1)%Z) l2 ->
  put k v (l1 ++ l2) = l1 ++ (k, v) :: l2.
Proof.
  intros H1 H2. induction H1 as [|[k' v'] l1 Hk _ IH]; simpl.
  - destruct H2 as [|[k' v'] l2 Hk _]; simpl; [done|].
    simpl in Hk. by destruct (Z.ltb_spec k k'); [| lia].
  - simpl in Hk. destruct (Z.ltb_spec k k'); [lia|].
    destruct (Z.eqb_spec k k'); [lia|]. by rewrite IH.
Qed.

Lemma put_at k v v0 l1 l2 :
  Forall (fun e => (e.1 < k)%Z) l1 ->
  put k v (l1 ++ (k, v0) :: l2) = l1 ++ (k, v0) :: l2.
Proof.
  intros H1. induction H1 as [|[k' v'] l1 Hk _ IH]; simpl.
  - destruct (Z.ltb_spec k k); [lia|]. by rewrite Z.eqb_refl.
  - simpl in Hk. destruct (Z.ltb_spec k k'); [lia|].
    destruct (Z.eqb_spec k k'); [lia|]. by rewrite IH.
Qed.

Lemma remove_key_absent k l1 l2 :
  Forall (fun e => (e.1 < k)%Z) l1 -> Forall (fun e => (k < e.1)%Z) l2 ->
  remove_key k (l1 ++ l2) = l1 ++ l2.
Proof.
  intros H1 H2. induction H1 as [|[k' v'] l1 Hk _ IH]; simpl.
  - induction H2 as [|[k' v'] l2 Hk _ IH]; simpl; [done|].
    simpl in Hk. destruct (Z.eqb_spec k' k); [lia|]. by rewrite IH.
  - simpl in Hk. destruct (Z.eqb_spec k' k); [lia|]. by rewrite IH.
Qed.

Lemma remove_key_at k v l1 l2 :
  Forall (fun e => (e.1 < k)%Z) l1 ->
  remove_key k (l1 ++ (k, v) :: l2) = l1 ++ l2.
Proof.
  intros H1. induction H1 as [|[k' v'] l1 Hk _ IH]; simpl.
  - by rewrite Z.eqb_refl.
  - simpl in Hk. destruct (Z.eqb_spec k' k); [lia|]. by rewrite IH.
Qed.

(** ** The table of a list before and after a splice *)

(** The table around two adjacent nodes with no key [k] in between. *)
Lemma contents_between h c1 prev next c2 k :
  is_chain h (c1 ++ prev :: next :: c2) ->
  ekey_lt (ekey h prev) (Fin k) -> ekey_lt (Fin k) (ekey h next) ->
  exists l1 l2,
    l1 = map (entry_of h) (inner (c1 ++ [prev])) /\
    l2 = map (entry_of h) (inner (next :: c2)) /\
    contents h = l1 ++ l2 /\
    Forall (fun e => (e.1 < k)%Z) l1 /\ Forall (fun e => (k < e.1)%Z) l2.
Proof.
  intros Hc Hlo Hhi. pose proof Hc as (_ & _ & Hs & _).
  eexists _, _. split_and!; [done | done | | |].
  - rewrite (contents_chain _ _ Hc).
    change (c1 ++ prev :: next :: c2) with (c1 ++ [prev] ++ next :: c2).
    by rewrite app_assoc, inner_app, map_app.
  - by eapply entries_below.
  - assert (c1 ++ prev :: next :: c2 = (c1 ++ [prev]) ++ next :: c2) as Ec
      by (by rewrite <- app_assoc).
    rewrite Ec in Hs. by eapply entries_above.
Qed.

(** The table around a node with key [k]. *)
Lemma contents_at h c p k :
  is_chain h c -> In p c -> ekey h p = Fin k ->
  exists l1 l2,
    contents h = l1 ++ (k, data_of h p) :: l2 /\
    Forall (fun e => (e.1 < k)%Z) l1 /\ Forall (fun e => (k < e.1)%Z) l2.
Proof.
  intros Hc Hin Hk. pose proof Hc as (He & _ & Hs & _).
  apply in_split in Hin as (c1 & c2 & Ec). subst c.
  destruct (ekey_Fin _ _ _ Hk) as (Hh & Ht & Hkey).
  destruct (chain_has_prev c1 p c2 He Hh) as (c1' & a & ->).
  destruct (chain_has_next (c1' ++ [a]) p c2 He Ht) as (b & c2' & ->).
  exists (map (entry_of h) (inner (c1' ++ [a]))),
    (map (entry_of h) (inner (b :: c2'))).
  split_and!.
  - rewrite (contents_chain _ _ Hc).
    change ((c1' ++ [a]) ++ p :: b :: c2')
      with ((c1' ++ [a]) ++ [p] ++ b :: c2').
    rewrite !inner_app, !map_app, (inner_node p) by done. simpl.
    assert (entry_of h p = (k, data_of h p)) as ->; [| done].
    unfold entry_of. by rewrite Hkey.
  - rewrite <- app_assoc in Hs. simpl in Hs.
    eapply entries_below; [exact Hs|].
    apply sorted_middle in Hs. unfold before in Hs. by rewrite Hk in Hs.
  - assert ((c1' ++ [a]) ++ p :: b :: c2' = ((c1' ++ [a]) ++ [p]) ++ b :: c2')
      as Ec by (by rewrite <- !app_assoc).
    pose proof Hs as Hs'. rewrite Ec in Hs'.
    eapply entries_above; [exact Hs'|].
    apply sorted_middle in Hs. unfold before in Hs. by rewrite Hk in Hs.
Qed.

Lemma present_has_key h c k :
  is_chain h c -> (present h c k <-> has_key k (contents h) = true).
Proof.
  intros Hc. split.
  - intros (p & Hin & Hk).
    destruct (contents_at _ _ _ _ Hc Hin Hk) as (l1 & l2 & -> & H1 & _).
    unfold has_key. by rewrite assoc_at.
  - unfold has_key. intros H.
    destruct (assoc k (contents h)) as [v|] eqn:E; [| done].
    rewrite (contents_chain _ _ Hc) in E.
    assert (exists p, In p (inner c) /\ key_of h p = k) as (p & Hp & Hk).
    { clear -E. induction (inner c) as [|q l IH]; [done|]. simpl in E.
      destruct (Z.eqb_spec (key_of h q) k) as [Hq|Hq].
      - exists q. split; [by left | done].
      - destruct (IH E) as (p & ? & ?). exists p. split; [by right | done]. }
    apply In_inner in Hp as (Hp & Hh & Ht). exists p. split; [done|].
    by rewrite ekey_inner, Hk.
Qed.

Lemma data_of_spliced_in h prev next k v np nn (q : NodePtr) :
  h !! prev = Some np -> h !! next = Some nn -> q <> length h ->
  entry_of (spliced_in h prev next k v) q = entry_of h q.
Proof.
  intros Hnp Hnn Hq. unfold entry_of, key_of, data_of.
  rewrite lookup_spliced_in.
  repeat case_decide; try congruence; subst; by rewrite ?Hnn, ?Hnp.
Qed.

Lemma entry_of_spliced_in_new h prev next k v :
  entry_of (spliced_in h prev next k v) (length h) = (k, v).
Proof.
  unfold entry_of, key_of, data_of. rewrite lookup_spliced_in.
  by case_decide.
Qed.

Lemma contents_spliced_in h c1 prev next c2 k v :
  is_chain h (c1 ++ prev :: next :: c2) ->
  ekey_lt (ekey h prev) (Fin k) -> ekey_lt (Fin k) (ekey h next) ->
  contents (spliced_in h prev next k v) = put k v (contents h).
Proof.
  intros Hc Hlo Hhi.
  destruct (contents_between _ _ _ _ _ _ Hc Hlo Hhi)
    as (l1 & l2 & E1 & E2 & -> & H1 & H2).
  rewrite put_absent by done.
  pose proof (spliced_in_chain h c1 prev next c2 k v Hc Hlo Hhi) as Hc'.
  destruct (chain_node _ _ prev Hc) as (np & Hnp & _); [apply in_middle|].
  destruct (chain_node _ _ next Hc) as (nn & Hnn & _); [apply in_middle2|].
  assert (forall q, In q (c1 ++ prev :: next :: c2) -> q <> length h) as Hfresh.
  { intros q Hq%(chain_in_heap _ _ _ Hc). lia. }
  assert (forall l, (forall q, In q l -> q <> length h) ->
            map (entry_of (spliced_in h prev next k v)) (inner l)
            = map (entry_of h) (inner l)) as Hsame.
  { intros l Hl. apply map_ext_in. intros q Hq%In_inner.
    eapply data_of_spliced_in; [done | done | apply Hl, Hq]. }
  rewrite (contents_chain _ _ Hc').
  assert (c1 ++ prev :: length h :: next :: c2
          = (c1 ++ [prev]) ++ [length h] ++ next :: c2) as ->
    by (by rewrite <- app_assoc).
  assert (length h <> head) as Hnh.
  { pose proof (chain_in_heap _ _ _ Hc (ends_head_in _ (proj1 Hc))). lia. }
  assert (length h <> tail) as Hnt.
  { pose proof (chain_in_heap _ _ _ Hc (ends_tail_in _ (proj1 Hc))). lia. }
  rewrite (inner_app (c1 ++ [prev])), (inner_app [length h]), !map_app.
  rewrite (inner_node (length h)) by done.
  rewrite (Hsame (c1 ++ [prev])), (Hsame (next :: c2)).
  - cbn [map app].
    by rewrite (entry_of_spliced_in_new h prev next k v), E1, E2.
  - intros q Hq. apply Hfresh. apply in_or_app. right. by right.
  - intros q Hq. apply Hfresh. apply in_app_or in Hq as [Hq|[<-|[]]];
      [apply in_or_app; by left | apply in_middle].
Qed.

Lemma entry_of_spliced_out h prev del next np nd nn (q : NodePtr) :
  h !! prev = Some np -> h !! del = Some nd -> h !! next = Some nn ->
  prev <> del -> del <> next -> prev <> next ->
  entry_of (spliced_out h prev del next) q = entry_of h q.
Proof.
  intros Hnp Hnd Hnn H1 H2 H3. unfold entry_of, key_of, data_of.
  rewrite (lookup_spliced_out h prev del next np nd nn) by done.
  repeat case_decide; subst; by rewrite ?Hnd, ?Hnp, ?Hnn.
Qed.

Lemma contents_spliced_out h c1 prev del next c2 k :
  is_chain h (c1 ++ prev :: del :: next :: c2) ->
  ekey h del = Fin k ->
  contents (spliced_out h prev del next) = remove_key k (contents h).
Proof.
  intros Hc Hk. pose proof Hc as (_ & _ & Hs & _).
  pose proof (spliced_out_chain h c1 prev del next c2 Hc) as Hc'.
  assert (c1 ++ prev :: del :: next :: c2
          = (c1 ++ [prev]) ++ del :: next :: c2) as Ec
    by (by rewrite <- app_assoc).
  destruct (chain_node _ _ prev Hc) as (np & Hnp & _); [apply in_middle|].
  destruct (chain_node _ _ del Hc) as (nd & Hnd & _); [apply in_middle2|].
  destruct (chain_node _ _ next Hc) as (nn & Hnn & _);
    [rewrite Ec; apply in_middle2|].
  pose proof (sorted_middle _ _ _ _ _ Hs) as H1.
  pose proof Hs as Hs'. rewrite Ec in Hs'.
  pose proof (sorted_middle _ _ _ _ _ Hs') as H2.
  assert (prev <> del) as Hpd by (intros ->; by apply before_irrefl in H1).
  assert (del <> next) as Hdn by (intros ->; by apply before_irrefl in H2).
  assert (prev <> next) as Hpn.
  { intros ->. apply (before_irrefl h next). by transitivity del. }
  destruct (ekey_Fin _ _ _ Hk) as (Hh & Ht & Hkey).
  unfold before in H1, H2. rewrite Hk in H1, H2.
  rewrite (contents_chain _ _ Hc'), (contents_chain _ _ Hc).
  assert (c1 ++ prev :: del :: next :: c2
          = (c1 ++ [prev]) ++ [del] ++ next :: c2) as ->
    by (by rewrite <- app_assoc).
  assert (c1 ++ prev :: next :: c2 = (c1 ++ [prev]) ++ next :: c2) as ->
    by (by rewrite <- app_assoc).
  rewrite !(inner_app (c1 ++ [prev])), (inner_app [del]), !map_app.
  rewrite (inner_node del) by done. cbn [map app].
  assert (entry_of h del = (k, data_of h del)) as ->
    by (unfold entry_of; by rewrite Hkey).
  rewrite remove_key_at by (by eapply entries_below).
  f_equal; apply map_ext; intros q; by eapply entry_of_spliced_out.
Qed.

(** ** Sorted tables *)

(** A key splits a sorted table. *)
Lemma table_cases l k :
  table_sorted l ->
  (exists v l1 l2, l = l1 ++ (k, v) :: l2 /\
     Forall (fun e => (e.1 < k)%Z) l1 /\ Forall (fun e => (k < e.1)%Z) l2) \/
  (exists l1 l2, l = l1 ++ l2 /\
     Forall (fun e => (e.1 < k)%Z) l1 /\ Forall (fun e => (k < e.1)%Z) l2).
Proof.
  unfold table_sorted. induction l as [|[k' v'] l IH]; intros Hs.
  - right. by exists [], [].
  - simpl in Hs. apply StronglySorted_inv in Hs as [Hs Hk'].
    assert (Forall (fun e => (k' < e.1)%Z) l) as Hl.
    { apply Forall_forall. intros e He. rewrite Forall_forall in Hk'.
      apply Hk'. apply list_elem_of_In, in_map. by apply list_elem_of_In. }
    destruct (Z.lt_trichotomy k k') as [Hlt|[->|Hgt]].
    + right. exists [], ((k', v') :: l). split_and!; [done | done |].
      constructor; [done|]. eapply Forall_impl; [exact Hl|].
      intros e ?. simpl in *. lia.
    + left. by exists v', [], l.
    + destruct (IH Hs) as [(v & l1 & l2 & -> & H1 & H2)|(l1 & l2 & -> & H1 & H2)].
      * left. exists v, ((k', v') :: l1), l2. split_and!; try done.
        by constructor.
      * right. exists ((k', v') :: l1), l2. split_and!; try done.
        by constructor.
Qed.

Lemma assoc_put_same l k v :
  table_sorted l -> assoc k (put k v l) = Some (default v (assoc k l)).
Proof.
  intros Hs.
  destruct (table_cases l k Hs)
    as [(v0 & l1 & l2 & -> & H1 & H2)|(l1 & l2 & -> & H1 & H2)].
  - by rewrite put_at, !assoc_at.
  - by rewrite put_absent, assoc_at, assoc_absent.
Qed.

Lemma assoc_put_other l k v k' :
  k' <> k -> assoc k' (put k v l) = assoc k' l.
Proof.
  intros Hk. induction l as [|[k0 v0] l IH]; simpl.
  - by destruct (Z.eqb_spec k k').
  - destruct (Z.ltb_spec k k0); simpl.
    + by destruct (Z.eqb_spec k k').
    + destruct (Z.eqb_spec k k0); simpl; [done|]. by rewrite IH.
Qed.

Lemma assoc_remove_same l k :
  table_sorted l -> assoc k (remove_key k l) = None.
Proof.
  intros Hs.
  destruct (table_cases l k Hs)
    as [(v0 & l1 & l2 & -> & H1 & H2)|(l1 & l2 & -> & H1 & H2)].
  - by rewrite remove_key_at, assoc_absent.
  - by rewrite remove_key_absent, assoc_absent.
Qed.

Lemma assoc_remove_other l k k' :
  k' <> k -> assoc k' (remove_key k l) = assoc k' l.
Proof.
  intros Hk. induction l as [|[k0 v0] l IH]; simpl; [done|].
  destruct (Z.eqb_spec k0 k) as [->|Hk0]; simpl.
  - by destruct (Z.eqb_spec k k'); [congruence|].
  - by rewrite IH.
Qed.

Lemma remove_put l k v :
  table_sorted l -> assoc k l = None -> remove_key k (put k v l) = l.
Proof.
  intros Hs Ha.
  destruct (table_cases l k Hs)
    as [(v0 & l1 & l2 & -> & H1 & H2)|(l1 & l2 & -> & H1 & H2)].
  - by rewrite assoc_at in Ha.
  - by rewrite put_absent, remove_key_at.
Qed.

Lemma put_has_key l k v :
  table_sorted l -> has_key k l = true -> put k v l = l.
Proof.
  intros Hs Ha. unfold has_key in Ha.
  destruct (table_cases l k Hs)
    as [(v0 & l1 & l2 & -> & H1 & H2)|(l1 & l2 & -> & H1 & H2)].
  - by rewrite put_at.
  - by rewrite assoc_absent in Ha.
Qed.

Lemma remove_key_no_key l k :
  table_sorted l -> has_key k l = false -> remove_key k l = l.
Proof.
  intros Hs Ha. unfold has_key in Ha.
  destruct (table_cases l k Hs)
    as [(v0 & l1 & l2 & -> & H1 & H2)|(l1 & l2 & -> & H1 & H2)].
  - by rewrite assoc_at in Ha.
  - by rewrite remove_key_absent.
Qed.

(** The table of a list is sorted. *)
Lemma inner_sorted h c :
  StronglySorted (before h) c -> StronglySorted (before h) (inner c).
Proof.
  induction 1 as [|a c Hs IH Ha]; [constructor|].
  unfold inner. simpl. destruct (negb (is_sentinel a)); [| done].
  constructor; [done|]. apply Forall_forall. intros x Hx.
  apply list_elem_of_In, In_inner in Hx as [Hx _].
  rewrite Forall_forall in Ha. by apply Ha, list_elem_of_In.
Qed.

Lemma contents_sorted h : WF h -> table_sorted (contents h).
Proof.
  intros [[c Hc] _]. pose proof Hc as (_ & _ & Hs & _).
  unfold table_sorted. rewrite (contents_chain _ _ Hc), map_map. simpl.
  apply sorted_keys; [by apply inner_sorted|].
  apply Forall_forall. intros x Hx%list_elem_of_In%In_inner. tauto.
Qed.

(** ** What the splices keep *)

Lemma node_kept_refl n : node_kept n n.
Proof. by split_and!. Qed.

Lemma heap_kept_refl h : heap_kept h h.
Proof. intros p n Hn. exists n. split; [done | apply node_kept_refl]. Qed.

Lemma heap_kept_trans h1 h2 h3 :
  heap_kept h1 h2 -> heap_kept h2 h3 -> heap_kept h1 h3.
Proof.
  intros H12 H23 p n Hn.
  destruct (H12 p n Hn) as (n2 & Hn2 & K1 & D1 & A1).
  destruct (H23 p n2 Hn2) as (n3 & Hn3 & K2 & D2 & A2).
  exists n3. split; [done|]. split_and!; [congruence | congruence | auto].
Qed.

Lemma heap_kept_alter f (q : NodePtr) h :
  (forall n, node_kept n (f n)) -> heap_kept h (alter f q h).
Proof.
  intros Hf p n Hn. destruct (decide (p = q)) as [->|Hne].
  - exists (f n). split; [| apply Hf]. by rewrite list_lookup_alter_eq, Hn.
  - exists n. split; [| apply node_kept_refl].
    by rewrite list_lookup_alter_ne.
Qed.

Lemma heap_kept_app h l : heap_kept h (h ++ l).
Proof.
  intros p n Hn. exists n. split; [| apply node_kept_refl].
  by apply lookup_app_l_Some.
Qed.

Lemma heap_kept_spliced_in h prev next k v :
  heap_kept h (spliced_in h prev next k v).
Proof.
  unfold spliced_in.
  eapply heap_kept_trans; [| apply heap_kept_app].
  eapply heap_kept_trans; apply heap_kept_alter; intros n; by split_and!.
Qed.

Lemma heap_kept_spliced_out h prev del next :
  heap_kept h (spliced_out h prev del next).
Proof.
  unfold spliced_out.
  eapply heap_kept_trans; [| apply heap_kept_alter; intros n; by split_and!].
  eapply heap_kept_trans; apply heap_kept_alter; intros n; by split_and!.
Qed.

(** ** The public methods on the table *)

(** Two adjacent nodes of a chain around a key are the only such two. *)
Lemma split_unique h c1 a b c2 c1' a' b' c2' k :
  StronglySorted (before h) (c1 ++ a :: b :: c2) ->
  c1 ++ a :: b :: c2 = c1' ++ a' :: b' :: c2' ->
  ekey_lt (ekey h a) (Fin k) -> ekey_lt (Fin k) (ekey h b) ->
  ekey_lt (ekey h a') (Fin k) -> ekey_lt (Fin k) (ekey h b') ->
  a = a' /\ b = b'.
Proof.
  intros Hs Ec Ha Hb Ha' Hb'.
  assert (forall d1 x y d2 e1 x' y' e2,
            StronglySorted (before h) (d1 ++ x :: y :: d2) ->
            d1 ++ x :: y :: d2 = e1 ++ x' :: y' :: e2 ->
            ekey_lt (Fin k) (ekey h y) -> ekey_lt (ekey h x') (Fin k) ->
            forall d, e1 = d1 ++ d -> d = []) as Hcase.
  { intros d1 x y d2 e1 x' y' e2 Hs' E Hy Hx' d ->.
    destruct d as [|z d]; [done|]. exfalso.
    rewrite <- app_assoc in E. apply app_inv_head in E.
    simpl in E. injection E as <- E.
    assert (before h y x' \/ y = x') as Hyx.
    { destruct d as [|z d]; simpl in E; injection E as <- E; [by right|].
      left. assert (d1 ++ x :: y :: d2 = (d1 ++ [x]) ++ y :: d2) as E2
        by (by rewrite <- app_assoc).
      rewrite E2 in Hs'. apply sorted_split in Hs' as [_ Hs'].
      rewrite Forall_forall in Hs'. apply Hs'. rewrite E.
      apply list_elem_of_In, in_middle. }
    apply (ekey_lt_irrefl (Fin k)).
    destruct Hyx as [Hyx| ->].
    - eapply ekey_lt_trans; [exact Hy|]. by eapply ekey_lt_trans.
    - by eapply ekey_lt_trans. }
  destruct (app_eq_inv _ _ _ _ Ec) as [(d & E1 & E2)|(d & E1 & E2)].
  - assert (d = []) as ->.
    { apply (Hcase c1' a' b' c2' c1 a b c2); try done; by rewrite <- Ec. }
    simpl in E2. by injection E2 as <- <-.
  - assert (d = []) as -> by (by eapply (Hcase c1 a b c2 c1' a' b' c2')).
    simpl in E2. by injection E2 as <- <-.
Qed.

(** [InsertHead] and [InsertTail] put the key in the table when it is not
    there, and leave the same heap. *)
Lemma run_insert self h k v :
  WF h ->
  exists h',
    WF h' /\ contents h' = put k v (contents h) /\
    length h' = (if has_key k (contents h) then length h
                 else S (length h)) /\
    (has_key k (contents h) = true -> h' = h) /\
    (has_key k (contents h) = false ->
     exists c1 prev next c2,
       is_chain h (c1 ++ prev :: next :: c2) /\
       ekey_lt (ekey h prev) (Fin k) /\ ekey_lt (Fin k) (ekey h next) /\
       h' = spliced_in h prev next k v) /\
    heap_kept h h' /\
    forall fuel, length h <= fuel ->
      returns h (InsertHead self fuel k v)
        (negb (has_key k (contents h))) h' /\
      returns h (InsertTail self fuel k v)
        (negb (has_key k (contents h))) h'.
Proof.
  intros Hwf. pose proof Hwf as [[c Hc] Hf].
  pose proof (chain_length _ _ Hc) as Hlen.
  pose proof Hc as (_ & _ & Hs & _).
  destruct (InsertHead_spec self h c k v (length c) Hc Hf (le_n _))
    as [[Hp Hr]|(Hn & c1 & prev & next & c2 & Ec & Hlo & Hhi & Hr)];
    destruct (InsertTail_spec self h c k v (length c) Hc Hf (le_n _))
    as [[Hp' Hr']|(Hn' & c1' & prev' & next' & c2' & Ec' & Hlo' & Hhi' & Hr')];
    try done.
  - apply (present_has_key _ _ _ Hc) in Hp as Hk. rewrite Hk.
    exists h.
    split_and!; [done | | done | done | done | apply heap_kept_refl |].
    { by rewrite put_has_key; [| apply contents_sorted |]. }
    intros fuel Hle. split.
    + apply (returns_mono (fun f => InsertHead self f k v) _ _ _ (length c));
        [apply fuel_mono_InsertHead | done | lia].
    + apply (returns_mono (fun f => InsertTail self f k v) _ _ _ (length c));
        [apply fuel_mono_InsertTail | done | lia].
  - assert (has_key k (contents h) = false) as Hk.
    { destruct (has_key k (contents h)) eqn:E; [| done].
      by apply (present_has_key _ _ _ Hc) in E. }
    rewrite Hk. subst c.
    destruct (split_unique h c1 prev next c2 c1' prev' next' c2' k)
      as [<- <-]; try done.
    exists (spliced_in h prev next k v). split_and!.
    + by eapply WF_spliced_in.
    + by eapply contents_spliced_in.
    + unfold spliced_in. rewrite length_app, !length_alter. simpl. lia.
    + done.
    + intros _. by exists c1, prev, next, c2.
    + apply heap_kept_spliced_in.
    + intros fuel Hle. split.
      * apply (returns_mono (fun f => InsertHead self f k v) _ _ _
                 (length (c1 ++ prev :: next :: c2)));
          [apply fuel_mono_InsertHead | done | lia].
      * apply (returns_mono (fun f => InsertTail self f k v) _ _ _
                 (length (c1 ++ prev :: next :: c2)));
          [apply fuel_mono_InsertTail | done | lia].
Qed.

(** [Delete] takes the key out of the table. *)
Lemma run_delete self h k :
  WF h ->
  exists h',
    WF h' /\ contents h' = remove_key k (contents h) /\
    length h' = length h /\
    (has_key k (contents h) = false -> h' = h) /\
    (has_key k (contents h) = true ->
     exists c1 prev del next c2,
       is_chain h (c1 ++ prev :: del :: next :: c2) /\
       ekey h del = Fin k /\ h' = spliced_out h prev del next) /\
    heap_kept h h' /\
    forall fuel, length h <= fuel ->
      returns h (Delete self fuel k) (has_key k (contents h)) h'.
Proof.
  intros Hwf. pose proof Hwf as [[c Hc] Hf].
  pose proof (chain_length _ _ Hc) as Hlen.
  destruct (Delete_spec self h c k (length c) Hc Hf (le_n _))
    as [[Hn Hr]|(c1 & prev & del & next & c2 & Ec & Hk & Hr)].
  - assert (has_key k (contents h) = false) as E.
    { destruct (has_key k (contents h)) eqn:E; [| done].
      by apply (present_has_key _ _ _ Hc) in E. }
    rewrite E. exists h.
    split_and!; [done | | done | done | done | apply heap_kept_refl |].
    { by rewrite remove_key_no_key; [| apply contents_sorted |]. }
    intros fuel Hle.
    apply (returns_mono (fun f => Delete self f k) _ _ _ (length c));
      [apply fuel_mono_Delete | done | lia].
  - subst c.
    assert (present h (c1 ++ prev :: del :: next :: c2) k) as Hp.
    { exists del. split; [apply in_middle2 | done]. }
    apply (present_has_key _ _ _ Hc) in Hp. rewrite Hp.
    exists (spliced_out h prev del next). split_and!.
    + by eapply WF_spliced_out.
    + by eapply contents_spliced_out.
    + unfold spliced_out. by rewrite !length_alter.
    + done.
    + intros _. by exists c1, prev, del, next, c2.
    + apply heap_kept_spliced_out.
    + intros fuel Hle.
      apply (returns_mono (fun f => Delete self f k) _ _ _
               (length (c1 ++ prev :: del :: next :: c2)));
        [apply fuel_mono_Delete | done | lia].
Qed.

(** [Search] looks the key up in the table and leaves the heap as it is. *)
Lemma run_search self h k d :
  WF h ->
  forall fuel, length h <= fuel ->
    returns h (Search self fuel k (Some d))
      (match assoc k (contents h) with
       | Some v => (true, Some v)
       | None => (false, Some d)
       end) h.
Proof.
  intros Hwf fuel Hle. pose proof Hwf as [[c Hc] Hf].
  pose proof (chain_length _ _ Hc) as Hlen.
  destruct (Search_spec self h c k d fuel Hc Hf) as (b & d' & Hr & Hb & Ht & Hm);
    [lia|].
  destruct b.
  - destruct (Ht eq_refl) as (p & n & Hin & Hn & Hk & ->).
    destruct (contents_at _ _ _ _ Hc Hin Hk) as (l1 & l2 & -> & H1 & _).
    rewrite assoc_at by done. unfold data_of. by rewrite Hn.
  - rewrite (Hm eq_refl) in Hr.
    assert (has_key k (contents h) = false) as E.
    { destruct (has_key k (contents h)) eqn:E; [| done].
      apply (present_has_key _ _ _ Hc), Hb in E. discriminate E. }
    unfold has_key in E. by destruct (assoc k (contents h)).
Qed.

(** ** Calls on the table *)

Lemma list_5_WF : WF list_5.
Proof. split; [eexists; apply list_5_chain | apply list_5_free]. Qed.

Lemma returns_calls_nil self fuel h : returns h (calls self fuel []) [] h.
Proof. apply returns_ret. Qed.

Lemma returns_calls_cons self fuel h h1 h2 cl cs r rs :
  returns h (call self fuel cl) r h1 ->
  returns h1 (calls self fuel cs) rs h2 ->
  returns h (calls self fuel (cl :: cs)) (r :: rs) h2.
Proof.
  intros H1 H2. simpl. eapply returns_bind; [exact H1|].
  eapply returns_bind; [exact H2 | apply returns_ret].
Qed.

Lemma run_call_insert self h at_tail k v :
  WF h ->
  exists h',
    WF h' /\ contents h' = put k v (contents h) /\
    length h' = (if has_key k (contents h) then length h
                 else S (length h)) /\
    (has_key k (contents h) = true -> h' = h) /\
    heap_kept h h' /\
    forall fuel, length h <= fuel ->
      returns h (call self fuel (CallInsert at_tail k v))
        (RetBool (negb (has_key k (contents h)))) h'.
Proof.
  intros Hwf.
  destruct (run_insert self h k v Hwf)
    as (h' & Hwf' & Hc & Hlen & He & _ & Hk & Hr).
  exists h'. split_and!; try done. intros fuel Hle.
  destruct (Hr fuel Hle) as [Hh Ht].
  destruct at_tail; simpl; (eapply returns_bind; [| apply returns_ret]); done.
Qed.

Lemma run_call_delete self h k :
  WF h ->
  exists h',
    WF h' /\ contents h' = remove_key k (contents h) /\
    length h' = length h /\
    (has_key k (contents h) = false -> h' = h) /\
    heap_kept h h' /\
    forall fuel, length h <= fuel ->
      returns h (call self fuel (CallDelete k))
        (RetBool (has_key k (contents h))) h'.
Proof.
  intros Hwf.
  destruct (run_delete self h k Hwf)
    as (h' & Hwf' & Hc & Hlen & He & _ & Hk & Hr).
  exists h'. split_and!; try done. intros fuel Hle. simpl.
  eapply returns_bind; [by apply Hr | apply returns_ret].
Qed.

Lemma run_call_search self h k d :
  WF h ->
  forall fuel, length h <= fuel ->
    returns h (call self fuel (CallSearch k (Some d)))
      (found k d (contents h)) h.
Proof.
  intros Hwf fuel Hle. simpl.
  eapply returns_bind; [by apply run_search|].
  unfold found. destruct (assoc k (contents h)); apply returns_ret.
Qed.

(** Every call leaves a well-formed list whose table differs from the one
    before in the key of the call only. *)
Lemma run_call self h cl :
  WF h ->
  exists r h',
    WF h' /\ length h <= length h' <= S (length h) /\
    heap_kept h h' /\
    (forall k', call_key cl <> k' ->
       assoc k' (contents h') = assoc k' (contents h)) /\
    forall fuel, length h <= fuel -> returns h (call self fuel cl) r h'.
Proof.
  intros Hwf. destruct cl as [k v|k v|k|k [d|]].
  - destruct (run_call_insert self h false k v Hwf)
      as (h' & Hwf' & Hc & Hlen & _ & Hk & Hr).
    eexists _, h'. split_and!; try done;
      try (destruct (has_key k (contents h)); lia).
    intros k' Hk'. rewrite Hc. by apply assoc_put_other.
  - destruct (run_call_insert self h true k v Hwf)
      as (h' & Hwf' & Hc & Hlen & _ & Hk & Hr).
    eexists _, h'. split_and!; try done;
      try (destruct (has_key k (contents h)); lia).
    intros k' Hk'. rewrite Hc. by apply assoc_put_other.
  - destruct (run_call_delete self h k Hwf)
      as (h' & Hwf' & Hc & Hlen & _ & Hk & Hr).
    eexists _, h'. split_and!; try done; try lia.
    intros k' Hk'. rewrite Hc. by apply assoc_remove_other.
  - eexists _, h. split_and!; try done; try lia; [apply heap_kept_refl|].
    intros fuel Hle. by apply run_call_search.
  - exists (RetSearch false None), h.
    split_and!; try done; try lia; [apply heap_kept_refl|].
    intros fuel _. simpl. eapply returns_bind; apply returns_ret.
Qed.

(** X1: [InsertHead] and [InsertTail]: on a well-formed list, either one returns
    true exactly when the key is not in the table, and both leave the same
    heap, whose table is the old one with the key put in at its place;
    the data of a key that is there is not overwritten. *)
Theorem insert_puts_key (self : ThreadId) (h : list Node) (k : Z) (v : ascii) :
  WF h ->
  exists h',
    WF h' /\ contents h' = put k v (contents h) /\
    forall fuel, length h <= fuel ->
      returns h (InsertHead self fuel k v)
        (negb (has_key k (contents h))) h' /\
      returns h (InsertTail self fuel k v)
        (negb (has_key k (contents h))) h'.
Proof.
  intros Hwf.
  destruct (run_insert self h k v Hwf)
    as (h' & Hwf' & Hc & _ & _ & _ & _ & Hr).
  by exists h'.
Qed.

Lemma insert_puts_key_witness :
  WF list_5 /\
  exists h',
    contents h' = [(5, "a"); (7, "x")]%Z%char /\
    returns list_5 (InsertTail 1 3 7 "x") true h'.
Proof.
  split; [apply list_5_WF|].
  destruct (insert_puts_key 1 list_5 7 "x" list_5_WF) as (h' & _ & Hc & Hr).
  exists h'. split; [exact Hc|]. exact (proj2 (Hr 3 (le_n 3))).
Defined.

(** X2: [Delete]: on a well-formed list it returns true exactly when the key is
    in the table and leaves a well-formed list whose table is the old one
    without the key. *)
Theorem delete_removes_key (self : ThreadId) (h : list Node) (k : Z) :
  WF h ->
  exists h',
    WF h' /\ contents h' = remove_key k (contents h) /\
    forall fuel, length h <= fuel ->
      returns h (Delete self fuel k) (has_key k (contents h)) h'.
Proof.
  intros Hwf.
  destruct (run_delete self h k Hwf)
    as (h' & Hwf' & Hc & _ & _ & _ & _ & Hr).
  by exists h'.
Qed.

Lemma delete_removes_key_witness :
  WF list_5 /\
  exists h',
    contents h' = [] /\
    returns list_5 (Delete 1 3 5) true h'.
Proof.
  split; [apply list_5_WF|].
  destruct (delete_removes_key 1 list_5 5 list_5_WF)
    as (h' & _ & Hc & Hr).
  exists h'. split; [exact Hc | exact (Hr 3 (le_n 3))].
Defined.

(** X3: [Search] with a non-null out-parameter: on a well-formed list it
    returns true and the data of the key when the key is in the table, false
    and the out-parameter as it was when it is not; the heap, node locks
    included, is left as it was. *)
Theorem search_looks_up (self : ThreadId) (h : list Node) (k : Z)
    (d : ascii) (fuel : nat) :
  WF h -> length h <= fuel ->
  returns h (Search self fuel k (Some d))
    (match assoc k (contents h) with
     | Some v => (true, Some v)
     | None => (false, Some d)
     end) h.
Proof. intros Hwf Hle. by apply run_search. Qed.

Lemma search_looks_up_witness :
  WF list_5 /\ length list_5 <= 3 /\
  returns list_5 (Search 1 3 5 (Some "z"%char)) (true, Some "a"%char) list_5.
Proof.
  split; [apply list_5_WF|]. split; [apply le_n|].
  exact (search_looks_up 1 list_5 5 "z" 3 list_5_WF (le_n 3)).
Defined.

(** X4: Insert, search, insert again: after an insertion of [k] at either end,
    whatever it returned, [Search] finds [k], with the data just inserted
    when the key was new and with the data it had otherwise, and a second
    insertion of [k] at either end returns false and changes nothing. *)
Theorem insert_then_search (self : ThreadId) (h : list Node) (k : Z)
    (v v' d : ascii) (t1 t2 : bool) :
  WF h ->
  exists h',
    contents h' = put k v (contents h) /\
    forall fuel, S (length h) <= fuel ->
      returns h
        (calls self fuel
           [CallInsert t1 k v; CallSearch k (Some d); CallInsert t2 k v'])
        [RetBool (negb (has_key k (contents h)));
         RetSearch true (Some (default v (assoc k (contents h))));
         RetBool false] h'.
Proof.
  intros Hwf.
  destruct (run_call_insert self h t1 k v Hwf)
    as (h1 & Hwf1 & Hc1 & Hl1 & _ & _ & Hr1).
  destruct (run_call_insert self h1 t2 k v' Hwf1)
    as (h2 & Hwf2 & Hc2 & Hl2 & He2 & _ & Hr2).
  pose proof (contents_sorted h Hwf) as Hs.
  assert (assoc k (contents h1) = Some (default v (assoc k (contents h))))
    as Ha by (rewrite Hc1; by apply assoc_put_same).
  assert (has_key k (contents h1) = true) as Hk
    by (unfold has_key; by rewrite Ha).
  rewrite Hk in Hr2. simpl in Hr2. rewrite (He2 Hk) in Hr2.
  exists h1. split; [done|]. intros fuel Hle.
  assert (length h1 <= fuel) as Hle1
    by (destruct (has_key k (contents h)); lia).
  apply returns_calls_cons with h1; [apply Hr1; lia|].
  apply returns_calls_cons with h1.
  { pose proof (run_call_search self h1 k d Hwf1 fuel) as Hr.
    unfold found in Hr. rewrite Ha in Hr. by apply Hr. }
  apply returns_calls_cons with h1; [by apply Hr2|].
  apply returns_calls_nil.
Qed.

Lemma insert_then_search_witness :
  WF list_5 /\
  exists h',
    returns list_5
      (calls 1 4 [CallInsert true 7 "x"; CallSearch 7 (Some "z"%char);
                  CallInsert false 7 "y"])
      [RetBool true; RetSearch true (Some "x"%char); RetBool false] h'.
Proof.
  split; [apply list_5_WF|].
  destruct (insert_then_search 1 list_5 7 "x" "y" "z" true false list_5_WF)
    as (h' & _ & Hr).
  exists h'. exact (Hr 4 (le_n 4)).
Defined.

(** X5: Delete, search, delete again: after [Delete] of [k], whatever it
    returned, [Search] does not find [k] and leaves the out-parameter as it
    was, and a second [Delete] of [k] returns false and changes nothing. *)
Theorem delete_then_search (self : ThreadId) (h : list Node) (k : Z)
    (d : ascii) :
  WF h ->
  exists h',
    contents h' = remove_key k (contents h) /\
    forall fuel, length h <= fuel ->
      returns h
        (calls self fuel [CallDelete k; CallSearch k (Some d); CallDelete k])
        [RetBool (has_key k (contents h)); RetSearch false (Some d);
         RetBool false] h'.
Proof.
  intros Hwf.
  destruct (run_call_delete self h k Hwf)
    as (h1 & Hwf1 & Hc1 & Hl1 & _ & _ & Hr1).
  destruct (run_call_delete self h1 k Hwf1)
    as (h2 & Hwf2 & Hc2 & Hl2 & He2 & _ & Hr2).
  pose proof (contents_sorted h Hwf) as Hs.
  assert (assoc k (contents h1) = None) as Ha
    by (rewrite Hc1; by apply assoc_remove_same).
  assert (has_key k (contents h1) = false) as Hk
    by (unfold has_key; by rewrite Ha).
  rewrite Hk in Hr2. rewrite (He2 Hk) in Hr2.
  exists h1. split; [done|]. intros fuel Hle.
  assert (length h1 <= fuel) as Hle1 by lia.
  apply returns_calls_cons with h1; [by apply Hr1|].
  apply returns_calls_cons with h1.
  { pose proof (run_call_search self h1 k d Hwf1 fuel) as Hr.
    unfold found in Hr. rewrite Ha in Hr. by apply Hr. }
  apply returns_calls_cons with h1; [by apply Hr2|].
  apply returns_calls_nil.
Qed.

Lemma delete_then_search_witness :
  WF list_5 /\
  exists h',
    returns list_5
      (calls 1 3 [CallDelete 5; CallSearch 5 (Some "z"%char); CallDelete 5])
      [RetBool true; RetSearch false (Some "z"%char); RetBool false] h'.
Proof.
  split; [apply list_5_WF|].
  destruct (delete_then_search 1 list_5 5 "z" list_5_WF) as (h' & _ & Hr).
  exists h'. exact (Hr 3 (le_n 3)).
Defined.

(** X6: A call about one key does not change what [Search] returns for another
    key: the search before the call and the search after it return the
    same. *)
Theorem call_keeps_other_keys (self : ThreadId) (h : list Node) (cl : Call)
    (k' : Z) (d : ascii) :
  WF h -> call_key cl <> k' ->
  exists r h',
    forall fuel, S (length h) <= fuel ->
      returns h
        (calls self fuel [CallSearch k' (Some d); cl; CallSearch k' (Some d)])
        [found k' d (contents h); r; found k' d (contents h)] h'.
Proof.
  intros Hwf Hk.
  destruct (run_call self h cl Hwf) as (r & h1 & Hwf1 & Hlen & _ & Hsame & Hr).
  exists r, h1. intros fuel Hle.
  apply returns_calls_cons with h; [apply run_call_search; [done | lia]|].
  apply returns_calls_cons with h1; [apply Hr; lia|].
  apply returns_calls_cons with h1; [| apply returns_calls_nil].
  pose proof (run_call_search self h1 k' d Hwf1 fuel) as Hr'.
  unfold found in *. rewrite (Hsame k' Hk) in Hr'. apply Hr'. lia.
Qed.

Lemma call_keeps_other_keys_witness :
  WF list_5 /\ call_key (CallDelete 5) <> 7%Z /\
  exists r h',
    returns list_5
      (calls 1 4 [CallSearch 7 (Some "z"%char); CallDelete 5;
                  CallSearch 7 (Some "z"%char)])
      [RetSearch false (Some "z"%char); r; RetSearch false (Some "z"%char)] h'.
Proof.
  assert (call_key (CallDelete 5) <> 7%Z) as Hk by discriminate.
  split; [apply list_5_WF|]. split; [exact Hk|].
  destruct (call_keeps_other_keys 1 list_5 (CallDelete 5) 7 "z" list_5_WF Hk)
    as (r & h' & Hr).
  exists r, h'. exact (Hr 4 (le_n 4)).
Defined.

(** X7: Insert, then delete: when [k] is not in the table, an insertion of [k]
    at either end followed by [Delete] of [k] returns true twice and gives
    back the table there was. *)
Theorem insert_then_delete (self : ThreadId) (h : list Node) (k : Z)
    (v : ascii) (at_tail : bool) :
  WF h -> has_key k (contents h) = false ->
  exists h',
    WF h' /\ contents h' = contents h /\
    forall fuel, S (length h) <= fuel ->
      returns h (calls self fuel [CallInsert at_tail k v; CallDelete k])
        [RetBool true; RetBool true] h'.
Proof.
  intros Hwf Hk.
  destruct (run_call_insert self h at_tail k v Hwf)
    as (h1 & Hwf1 & Hc1 & Hl1 & _ & _ & Hr1).
  destruct (run_call_delete self h1 k Hwf1)
    as (h2 & Hwf2 & Hc2 & Hl2 & _ & _ & Hr2).
  pose proof (contents_sorted h Hwf) as Hs.
  rewrite Hk in Hl1, Hr1. simpl in Hr1.
  assert (has_key k (contents h1) = true) as Hk1.
  { unfold has_key. rewrite Hc1, assoc_put_same by done. done. }
  rewrite Hk1 in Hr2.
  exists h2. split_and!; [done | |].
  - rewrite Hc2, Hc1. apply remove_put; [done|].
    unfold has_key in Hk. by destruct (assoc k (contents h)).
  - intros fuel Hle.
    apply returns_calls_cons with h1; [apply Hr1; lia|].
    apply returns_calls_cons with h2; [apply Hr2; lia|].
    apply returns_calls_nil.
Qed.

Lemma insert_then_delete_witness :
  WF list_5 /\ has_key 7 (contents list_5) = false /\
  exists h',
    contents h' = [(5, "a")]%Z%char /\
    returns list_5 (calls 1 4 [CallInsert false 7 "x"; CallDelete 7])
      [RetBool true; RetBool true] h'.
Proof.
  split; [apply list_5_WF|]. split; [reflexivity|].
  destruct (insert_then_delete 1 list_5 7 "x" false list_5_WF eq_refl)
    as (h' & _ & Hc & Hr).
  exists h'. split; [exact Hc | exact (Hr 4 (le_n 4))].
Defined.

Lemma heap_kept_nodes_kept h h' : heap_kept h h' -> nodes_kept h h'.
Proof.
  intros H p n n' Hn Hn'. destruct (H p n Hn) as (n'' & E & Hk).
  rewrite Hn' in E. by injection E as <-.
Qed.

Lemma run_calls_kept self h cs :
  WF h ->
  exists rs h',
    locks_free h' /\ heap_kept h h' /\
    length h' <= length h + length cs /\
    forall fuel, length h + length cs <= fuel ->
      returns h (calls self fuel cs) rs h'.
Proof.
  revert h. induction cs as [|cl cs IH]; intros h Hwf.
  - exists [], h. split_and!; [apply Hwf | apply heap_kept_refl | simpl; lia |].
    intros fuel _. apply returns_calls_nil.
  - destruct (run_call self h cl Hwf) as (r & h1 & Hwf1 & Hlen & Hk & _ & Hr).
    destruct (IH h1 Hwf1) as (rs & h2 & Hf & Hk2 & Hlen2 & Hr2).
    exists (r :: rs), h2. split_and!; [done | | simpl; lia |].
    { by eapply heap_kept_trans. }
    intros fuel Hle. simpl in Hle.
    apply returns_calls_cons with h1; [apply Hr; lia | apply Hr2; lia].
Qed.

(** X8: Every finite sequence of calls on a well-formed list returns, with
    every node lock free again; a node that was there before the calls and
    is still there after them has the key and the data it had, and is
    inactive if it was; and the calls allocate at most one node each. *)
Theorem calls_keep_nodes (self : ThreadId) (h : list Node) (cs : list Call) :
  WF h ->
  exists rs h',
    locks_free h' /\ nodes_kept h h' /\
    length h' <= length h + length cs /\
    forall fuel, length h + length cs <= fuel ->
      returns h (calls self fuel cs) rs h'.
Proof.
  intros Hwf.
  destruct (run_calls_kept self h cs Hwf) as (rs & h' & Hf & Hk & Hlen & Hr).
  exists rs, h'. split_and!; try done. by apply heap_kept_nodes_kept.
Qed.

Lemma calls_keep_nodes_witness :
  WF list_5 /\
  exists rs h',
    locks_free h' /\ nodes_kept list_5 h' /\
    returns list_5 (calls 1 5 [CallDelete 5; CallInsertTail 5 "b"]) rs h'.
Proof.
  split; [apply list_5_WF|].
  destruct (calls_keep_nodes 1 list_5 [CallDelete 5; CallInsertTail 5 "b"]
              list_5_WF) as (rs & h' & Hf & Hk & _ & Hr).
  exists rs, h'. split_and!; [exact Hf | exact Hk | exact (Hr 5 (le_n 5))].
Defined.

(** X9: An insertion of a key that is not in the table, at either end, changes
    two fields and adds one node: [nextPtr] of the predecessor and [prevPtr]
    of the successor now point to the new node, which is the last node of
    the heap, is active and points to the two; every other node, and every
    node lock, is as before. *)
Theorem insert_frame (self : ThreadId) (h : list Node) (k : Z) (v : ascii) :
  WF h -> has_key k (contents h) = false ->
  exists h' prev next np nn,
    h !! prev = Some np /\ h !! next = Some nn /\
    nextPtr np = Some next /\ prevPtr nn = Some prev /\
    ekey_lt (ekey h prev) (Fin k) /\ ekey_lt (Fin k) (ekey h next) /\
    h' !! length h = Some (mkNode k v (Some prev) (Some next) true new_lock) /\
    h' !! prev = Some (set_nextPtr (Some (length h)) np) /\
    h' !! next = Some (set_prevPtr (Some (length h)) nn) /\
    length h' = S (length h) /\
    (forall q, q <> prev -> q <> next -> q <> length h -> h' !! q = h !! q) /\
    forall fuel, length h <= fuel ->
      returns h (InsertHead self fuel k v) true h' /\
      returns h (InsertTail self fuel k v) true h'.
Proof.
  intros Hwf Hk.
  destruct (run_insert self h k v Hwf)
    as (h' & _ & _ & Hlen & _ & Hshape & _ & Hr).
  destruct (Hshape Hk) as (c1 & prev & next & c2 & Hc & Hlo & Hhi & ->).
  rewrite Hk in Hlen, Hr. simpl in Hr.
  pose proof Hc as (_ & Hl & Hs & _).
  destruct (chain_node _ _ prev Hc) as (np & Hnp & _); [apply in_middle|].
  destruct (chain_node _ _ next Hc) as (nn & Hnn & _); [apply in_middle2|].
  pose proof (lookup_lt_Some _ _ _ Hnp). pose proof (lookup_lt_Some _ _ _ Hnn).
  assert (prev <> next) as Hne.
  { intros ->. apply sorted_middle in Hs. by apply before_irrefl in Hs. }
  apply links_middle in Hl as [Hn Hp]. unfold next_of, prev_of in Hn, Hp.
  rewrite Hnp in Hn. rewrite Hnn in Hp.
  exists (spliced_in h prev next k v), prev, next, np, nn.
  split_and!; try done.
  - rewrite lookup_spliced_in. by case_decide.
  - rewrite lookup_spliced_in. repeat case_decide; try lia; try congruence.
    by rewrite Hnp.
  - rewrite lookup_spliced_in. repeat case_decide; try lia; try congruence.
    by rewrite Hnn.
  - intros q H1 H2 H3. rewrite lookup_spliced_in.
    repeat case_decide; congruence.
Qed.

Lemma insert_frame_witness :
  WF list_5 /\ has_key 7 (contents list_5) = false /\
  exists h' prev next,
    h' !! 3 = Some (mkNode 7 "x" (Some prev) (Some next) true new_lock) /\
    returns list_5 (InsertHead 1 3 7 "x") true h'.
Proof.
  split; [apply list_5_WF|]. split; [reflexivity|].
  destruct (insert_frame 1 list_5 7 "x" list_5_WF eq_refl)
    as (h' & prev & next & np & nn & _ & _ & _ & _ & _ & _ & Hnew & _ & _ & _
        & _ & Hr).
  exists h', prev, next. split; [exact Hnew|]. exact (proj1 (Hr 3 (le_n 3))).
Defined.

(** ** The destructor *)

Lemma decide_elem_app {B} (q : NodePtr) l1 l2 (x y : B) :
  (if decide (q ∈ l1 ++ l2) then x else y)
  = if decide (q ∈ l2) then x else if decide (q ∈ l1) then x else y.
Proof.
  destruct (decide (q ∈ l2)) as [H2|H2], (decide (q ∈ l1)) as [H1|H1],
    (decide (q ∈ l1 ++ l2)) as [H|H]; try done;
    exfalso; rewrite elem_of_app in H; tauto.
Qed.

Lemma decide_elem_singleton {B} (q p : NodePtr) (x y : B) :
  (if decide (q ∈ [p]) then x else y) = if decide (q = p) then x else y.
Proof.
  destruct (decide (q ∈ [p])) as [H|H], (decide (q = p)) as [H1|H1];
    try done; exfalso; rewrite list_elem_of_singleton in H; tauto.
Qed.

Lemma decide_elem_nil {B} (q : NodePtr) (x y : B) :
  (if decide (q ∈ []) then x else y) = y.
Proof. destruct (decide (q ∈ [])) as [H|H]; [| done]. by inversion H. Qed.

Lemma In_removelast {A} (l : list A) x : In x (removelast l) -> In x l.
Proof.
  induction l as [|a [|b l] IH]; simpl; [done | done |].
  intros [->|H]; [by left | right; by apply IH].
Qed.

Lemma elem_of_removelast2 {A} (c1 : list A) q b y c2 :
  q ∈ removelast (removelast (c1 ++ q :: b :: y :: c2)).
Proof.
  rewrite removelast_app by done.
  change (removelast (q :: b :: y :: c2))
    with (q :: b :: removelast (y :: c2)).
  rewrite removelast_app by done.
  change (removelast (q :: b :: removelast (y :: c2)))
    with (q :: removelast (b :: removelast (y :: c2))).
  apply elem_of_app. right. by left.
Qed.

Lemma last_elem_of {A} (l : list A) x : last l = Some x -> x ∈ l.
Proof.
  rewrite last_lookup. intros H. by eapply list_elem_of_lookup_2.
Qed.

Lemma unlinked_trans ps1 ns1 ps2 ns2 h h1 h2 :
  unlinked ps1 ns1 h h1 -> unlinked ps2 ns2 h1 h2 ->
  unlinked (ps1 ++ ps2) (ns1 ++ ns2) h h2.
Proof.
  intros [L1 H1] [L2 H2]. split; [congruence|]. intros q n Hn.
  rewrite (H2 q _ (H1 q n Hn)). simpl. by rewrite !decide_elem_app.
Qed.

Lemma unlinked_prev (node : NodePtr) h n :
  h !! node = Some n ->
  unlinked [node] [] h (alter (set_prevPtr None) node h).
Proof.
  intros Hn. split; [by rewrite length_alter|]. intros q m Hm.
  rewrite decide_elem_singleton, decide_elem_nil.
  destruct (decide (q = node)) as [->|Hne].
  - rewrite list_lookup_alter_eq, Hm. by destruct m.
  - rewrite list_lookup_alter_ne, Hm by done. by destruct m.
Qed.

Lemma unlinked_next (p : NodePtr) h n :
  h !! p = Some n ->
  unlinked [] [p] h (alter (set_nextPtr None) p h).
Proof.
  intros Hn. split; [by rewrite length_alter|]. intros q m Hm.
  rewrite decide_elem_singleton, decide_elem_nil.
  destruct (decide (q = p)) as [->|Hne].
  - rewrite list_lookup_alter_eq, Hm. by destruct m.
  - rewrite list_lookup_alter_ne, Hm by done. by destruct m.
Qed.

Lemma unlinked_refl h : unlinked [] [] h h.
Proof.
  split; [done|]. intros q n Hn. rewrite Hn, !decide_elem_nil.
  by destruct n.
Qed.

Lemma unlinked_next_of ps ns h h' (q : NodePtr) :
  unlinked ps ns h h' -> q ∉ ns -> next_of h' q = next_of h q.
Proof.
  intros [Hlen H] Hq. unfold next_of.
  destruct (h !! q) as [n|] eqn:E.
  - rewrite (H q n E). simpl. by case_decide.
  - apply lookup_ge_None in E. rewrite <- Hlen in E.
    apply lookup_ge_None in E. by rewrite E.
Qed.

Lemma unlinked_prev_of ps ns h h' (q : NodePtr) :
  unlinked ps ns h h' -> q ∉ ps -> prev_of h' q = prev_of h q.
Proof.
  intros [Hlen H] Hq. unfold prev_of.
  destruct (h !! q) as [n|] eqn:E.
  - rewrite (H q n E). simpl. by case_decide.
  - apply lookup_ge_None in E. rewrite <- Hlen in E.
    apply lookup_ge_None in E. by rewrite E.
Qed.

(** The loop, from [node] with predecessor [p], along the rest of the chain
    to the tail sentinel. *)
Lemma destroy_loop_spec rest :
  forall (p node : NodePtr) h,
    NoDup (p :: node :: rest) ->
    last (node :: rest) = Some tail ->
    links h (p :: node :: rest) ->
    (forall q, In q (p :: node :: rest) -> is_Some (h !! q)) ->
    exists h',
      unlinked (removelast (node :: rest))
        (removelast (removelast (p :: node :: rest))) h h' /\
      forall fuel, length (node :: rest) <= fuel ->
        returns h (destroy_loop fuel node) tt h'.
Proof.
  induction rest as [|r rest IH]; intros p node h Hnd Hlast Hl Hin.
  - injection Hlast as ->. exists h. split; [apply unlinked_refl|].
    intros fuel Hlen.
    destruct fuel as [|fuel]; [simpl in Hlen; lia|]. apply returns_ret.
  - assert (node <> tail) as Hnt.
    { intros ->. apply NoDup_cons in Hnd as [_ Hnd].
      apply NoDup_cons in Hnd as [Hnd _]. apply Hnd.
      by apply last_elem_of. }
    destruct Hl as [[Hpn Hnp] Hl]. pose proof Hl as [[Hnr Hrn] _].
    destruct (Hin p) as [np Hp]; [by left|].
    destruct (Hin node) as [nn Hn]; [right; by left|].
    assert (p <> node) as Hpnode.
    { intros ->. apply NoDup_cons in Hnd as [Hnd _]. apply Hnd. by left. }
    set (h1 := alter (set_prevPtr None) node (alter (set_nextPtr None) p h)).
    assert (unlinked [node] [p] h h1) as Hu1.
    { apply (unlinked_trans [] [p] [node] [] h
               (alter (set_nextPtr None) p h) h1).
      - by eapply unlinked_next.
      - eapply unlinked_prev. by rewrite list_lookup_alter_ne. }
    destruct (IH node r h1) as (h' & Hu & Hr).
    + by apply NoDup_cons in Hnd as [_ ?].
    + exact Hlast.
    + apply NoDup_cons in Hnd as [Hp1 Hnd].
      apply NoDup_cons in Hnd as [Hp2 Hnd].
      split.
      * split.
        -- rewrite (unlinked_next_of _ _ _ _ _ Hu1);
             [done | rewrite list_elem_of_singleton; congruence].
        -- rewrite (unlinked_prev_of _ _ _ _ _ Hu1); [done|].
           intros ->%list_elem_of_singleton. apply Hp2. by left.
      * revert Hl. intros [_ Hl]. revert Hl. apply links_ext.
        -- intros q Hq. apply (unlinked_next_of _ _ _ _ _ Hu1).
           intros ->%list_elem_of_singleton. apply Hp1. right.
           apply list_elem_of_In. by apply In_removelast in Hq.
        -- intros q Hq. apply (unlinked_prev_of _ _ _ _ _ Hu1).
           intros ->%list_elem_of_singleton. apply Hp2. right.
           by apply list_elem_of_In.
    + intros q Hq. destruct (Hin q) as [n Hq']; [by right|].
      destruct Hu1 as [_ Hu1]. rewrite (Hu1 q n Hq'). by eexists.
    + exists h'. split; [exact (unlinked_trans _ _ _ _ _ _ _ Hu1 Hu)|].
      intros fuel Hlen.
      destruct fuel as [|fuel]; [simpl in Hlen; lia|].
      simpl. apply Nat.eqb_neq in Hnt. rewrite Hnt.
      eapply returns_bind; [by apply returns_load_prevPtr|].
      eapply returns_bind; [by eapply returns_store|].
      eapply returns_bind;
        [eapply returns_store; by rewrite list_lookup_alter_ne|].
      eapply returns_bind; [| apply Hr; simpl in *; lia].
      apply returns_load_nextPtr. fold h1.
      rewrite (unlinked_next_of _ _ _ _ _ Hu1);
        [done | rewrite list_elem_of_singleton; congruence].
Qed.

Lemma removelast_snoc_last {A} (l : list A) t :
  last l = Some t -> removelast l ++ [t] = l.
Proof.
  destruct l as [|x l _] using rev_ind; [done|].
  rewrite last_snoc. intros [= ->]. by rewrite removelast_last.
Qed.

(** The destructor on a list with chain [c]. *)
Lemma destroy_spec h c :
  is_chain h c ->
  exists h',
    unlinked (tl c) (removelast (removelast c)) h h' /\
    forall fuel, length c <= fuel -> returns h (destroy fuel) tt h'.
Proof.
  intros Hc. pose proof Hc as (He & Hl & Hs & _ & _ & _).
  destruct (chain_shape _ _ Hc) as (x & rest & Ec). subst c.
  pose proof He as [_ Hlast].
  assert (last (x :: rest) = Some tail) as Hlast' by exact Hlast.
  destruct (destroy_loop_spec rest head x h) as (h1 & Hu & Hr); try done.
  { by eapply sorted_NoDup. }
  { intros q Hq. destruct (chain_node _ _ q Hc Hq) as (n & Hn & _).
    by eexists. }
  destruct (chain_node _ _ tail Hc) as (nt & Hnt & _);
    [by apply ends_tail_in|].
  assert (is_Some (h1 !! tail)) as [nt1 Hnt1].
  { destruct Hu as [_ Hu]. rewrite (Hu tail nt Hnt). by eexists. }
  exists (alter (set_prevPtr None) tail h1). split.
  - pose proof (unlinked_trans _ _ _ _ _ _ _ Hu
                  (unlinked_prev tail h1 nt1 Hnt1)) as Hu'.
    rewrite app_nil_r in Hu'.
    by rewrite (removelast_snoc_last (x :: rest) tail) in Hu'.
  - intros fuel Hle. unfold destroy.
    eapply returns_bind.
    { apply returns_load_nextPtr. by destruct Hl as [[? _] _]. }
    eapply returns_bind; [| by eapply returns_store].
    apply Hr. simpl in *. lia.
Qed.



(** ** [InsertTail] from a node read before another call *)

Lemma InsertTail_split self fuel k v s :
  InsertTail self fuel k v s
  = bind (InsertTail_begin self) (InsertTail_end self fuel k v) s.
Proof.
  unfold InsertTail, InsertTail_begin, InsertTail_end, InsertTail_finish, bind.
  destruct (LockRead self tail s) as [[[] s1]|]; [| done].
  destruct (load_prevPtr tail s1) as [[p s2]|]; [| done].
  by destruct (ReleaseSharedLock self tail s2) as [[[] s3]|].
Qed.

Lemma InsertTail_begin_spec self h c :
  is_chain h c -> locks_free h ->
  exists c1 p, c = c1 ++ [p; tail] /\ returns h (InsertTail_begin self) p h.
Proof.
  intros Hc Hf. pose proof Hc as (_ & Hl & _).
  destruct (chain_shape_last _ _ Hc) as (c1 & p & Ec).
  destruct (chain_node _ _ tail Hc) as (nt & Hnt & _);
    [by apply ends_tail_in, Hc|].
  pose proof (free_lock _ _ _ Hf Hnt) as Hlt.
  exists c1, p. split; [done|]. unfold InsertTail_begin.
  eapply returns_bind; [by eapply returns_LockRead|].
  eapply returns_bind.
  { apply returns_load_prevPtr. rewrite prev_of_relock.
    rewrite Ec in Hl. by apply links_middle in Hl as [_ ?]. }
  eapply returns_bind;
    [eapply returns_ReleaseSharedLock;
       [by apply lookup_relock_eq | by right]|].
  rewrite (relock_release _ tail h nt) by done.
  apply returns_ret.
Qed.

(** The end of [InsertTail], from the node [prev'] the backward walk stops
    at. *)
Lemma InsertTail_finish_spec self h c k v fuel c1 prev' nx c2 :
  is_chain h c -> locks_free h ->
  c = c1 ++ prev' :: nx :: c2 ->
  ~ ekey_lt (Fin k) (ekey h prev') ->
  length c <= fuel ->
  (present h c k /\
   returns (relock (held_MAY_WRITE self) prev' h)
     (InsertTail_finish self fuel k v prev') false h) \/
  (~ present h c k /\
   exists d1 prev next d2,
     c = d1 ++ prev :: next :: d2 /\
     ekey_lt (ekey h prev) (Fin k) /\ ekey_lt (Fin k) (ekey h next) /\
     returns (relock (held_MAY_WRITE self) prev' h)
       (InsertTail_finish self fuel k v prev') true
       (spliced_in h prev next k v)).
Proof.
  intros Hc Hf Ec Hstop Hlen. pose proof Hc as (He & Hl & Hs & _).
  assert (prev' <> tail) as Hpt by (rewrite Ec in Hs; by eapply chain_not_tail).
  destruct (chain_node _ _ prev' Hc) as (np' & Hnp' & _);
    [rewrite Ec; apply in_middle|].
  pose proof (free_lock _ _ _ Hf Hnp') as Hlp'.
  assert (ekey h prev' =
          if Nat.eqb prev' head then NegInf else Fin (key np')) as Hek.
  { unfold ekey, key_of. rewrite Hnp'.
    destruct (Nat.eqb_spec prev' head); [done|].
    by destruct (Nat.eqb_spec prev' tail). }
  unfold InsertTail_finish.
  destruct (negb (Nat.eqb prev' head) && (key np' =? k)%Z) eqn:Hdup.
  - left. apply andb_true_iff in Hdup as [Hh Hk].
    apply negb_true_iff in Hh. apply Z.eqb_eq in Hk. split.
    { exists prev'. split; [rewrite Ec; apply in_middle|].
      by rewrite Hek, Hh, Hk. }
    eapply returns_bind;
      [apply returns_load; by apply lookup_relock_eq|]. simpl.
    rewrite Hh, Hk, Z.eqb_refl. simpl.
    eapply returns_bind;
      [eapply returns_ReleaseSharedLock;
         [by apply lookup_relock_eq | by left]|].
    rewrite (relock_release _ prev' h np') by done.
    apply returns_ret.
  - assert (ekey_lt (ekey h prev') (Fin k)) as Hlo.
    { rewrite Hek in *. destruct (Nat.eqb_spec prev' head); [done|].
      simpl in Hdup. apply Z.eqb_neq in Hdup. simpl in *. lia. }
    destruct (InsertFromPosition_spec self h c k v fuel c1 prev' nx c2
                Hc Hf Ec Hlo)
      as (passed & c1'' & prev'' & next'' & c2'' & Ec'' & _ & _ & Hlo'
          & [[Hk Hret]|[Hhi Hret]]).
    { rewrite Ec, length_app in Hlen. simpl in Hlen. lia. }
    + left. split.
      { exists next''. split; [rewrite Ec''; apply in_middle2 | done]. }
      eapply returns_bind;
        [apply returns_load; by apply lookup_relock_eq|]. simpl.
      rewrite Hdup. exact Hret.
    + right. split.
      { rewrite Ec''. apply no_key_between; [by rewrite <- Ec'' | done..]. }
      exists c1'', prev'', next'', c2''. split_and!; try done.
      eapply returns_bind;
        [apply returns_load; by apply lookup_relock_eq|]. simpl.
      rewrite Hdup. exact Hret.
Qed.

(** The backward walk from a node of the chain, or from a node that was
    unlinked from it. *)
Lemma InsertTail_walk_spec self h c k (pos : NodePtr) fuel :
  is_chain h c -> locks_free h ->
  (In pos c /\ pos <> tail) \/
  (exists nd p, h !! pos = Some nd /\ isNodeActive nd = false /\
                prevPtr nd = Some p /\ In p c /\ p <> tail) ->
  S (length c) <= fuel ->
  exists c1 prev' nx c2,
    c = c1 ++ prev' :: nx :: c2 /\
    ~ ekey_lt (Fin k) (ekey h prev') /\
    returns (relock (held_MAY_WRITE self) pos h)
      (InsertTail_loop self fuel k pos) prev'
      (relock (held_MAY_WRITE self) prev' h).
Proof.
  intros Hc Hf Hpos Hlen. pose proof Hc as (He & Hl & Hs & _).
  assert (forall q f, In q c -> q <> tail -> length c <= f ->
            exists c1 prev' nx c2,
              c = c1 ++ prev' :: nx :: c2 /\
              ~ ekey_lt (Fin k) (ekey h prev') /\
              returns (relock (held_MAY_WRITE self) q h)
                (InsertTail_loop self f k q) prev'
                (relock (held_MAY_WRITE self) prev' h)) as Hin.
  { intros q f Hq Hqt Hf'. apply in_split in Hq as (c1 & c2 & Ec).
    destruct (InsertTail_loop_spec self h c k Hc Hf f c1 q c2 Ec Hqt)
      as (c1' & prev' & skipped & Esplit & _ & Hstop & Hloop).
    { rewrite Ec, length_app in Hf'. simpl in Hf'. lia. }
    destruct (chain_has_next c1 q c2) as (b & c2' & ->);
      [by rewrite <- Ec | done |].
    assert (c = c1' ++ prev' :: skipped ++ b :: c2') as Ec'.
    { rewrite Ec. change (c1 ++ q :: b :: c2') with (c1 ++ [q] ++ b :: c2').
      by rewrite app_assoc, Esplit, <- app_assoc. }
    assert (exists nx d2, skipped ++ b :: c2' = nx :: d2) as (nx & d2 & Enx).
    { destruct skipped; simpl; by eauto. }
    rewrite Enx in Ec'. by exists c1', prev', nx, d2. }
  destruct Hpos as [[Hp Hpt]|(nd & p & Hnd & Hact & Hprev & Hp & Hpt)].
  - apply Hin; [done | done | lia].
  - destruct fuel as [|fuel]; [lia|].
    destruct (Hin p fuel Hp Hpt) as (c1 & prev' & nx & c2 & Ec & Hstop & Hr);
      [lia|].
    exists c1, prev', nx, c2. split_and!; try done.
    destruct (chain_node _ _ p Hc Hp) as (np & Hnp & _).
    simpl InsertTail_loop.
    eapply returns_bind; [apply returns_load; by apply lookup_relock_eq|].
    simpl. rewrite Hact. simpl. rewrite orb_true_r.
    eapply returns_bind; [| exact Hr].
    eapply InsertTail_step_spec; eauto using free_lock.
    unfold prev_of. by rewrite Hnd.
Qed.

Lemma InsertTail_end_spec self h c k v (pos : NodePtr) fuel :
  is_chain h c -> locks_free h ->
  (In pos c /\ pos <> tail) \/
  (exists nd p, h !! pos = Some nd /\ isNodeActive nd = false /\
                prevPtr nd = Some p /\ In p c /\ p <> tail) ->
  S (length c) <= fuel ->
  (present h c k /\ returns h (InsertTail_end self fuel k v pos) false h) \/
  (~ present h c k /\
   exists d1 prev next d2,
     c = d1 ++ prev :: next :: d2 /\
     ekey_lt (ekey h prev) (Fin k) /\ ekey_lt (Fin k) (ekey h next) /\
     returns h (InsertTail_end self fuel k v pos) true
       (spliced_in h prev next k v)).
Proof.
  intros Hc Hf Hpos Hlen.
  destruct (InsertTail_walk_spec self h c k pos fuel Hc Hf Hpos Hlen)
    as (c1 & prev' & nx & c2 & Ec & Hstop & Hwalk).
  assert (exists n, h !! pos = Some n) as [n Hn].
  { destruct Hpos as [[Hp _]|(nd & _ & Hnd & _)]; [| by eauto].
    destruct (chain_node _ _ _ Hc Hp) as (n & Hn & _). by eauto. }
  assert (forall b h',
            returns (relock (held_MAY_WRITE self) prev' h)
              (InsertTail_finish self fuel k v prev') b h' ->
            returns h (InsertTail_end self fuel k v pos) b h') as Hend.
  { intros b h' Hr. unfold InsertTail_end.
    eapply returns_bind;
      [eapply returns_LockMayWrite; [done | by eapply free_lock]|].
    eapply returns_bind; [exact Hwalk | exact Hr]. }
  destruct (InsertTail_finish_spec self h c k v fuel c1 prev' nx c2
              Hc Hf Ec Hstop)
    as [[Hp Hr]|(Hn' & d1 & prev & next & d2 & Ed & Hlo & Hhi & Hr)]; [lia | |].
  - left. split; [done | by apply Hend].
  - right. split; [done|]. exists d1, prev, next, d2.
    split_and!; try done. by apply Hend.
Qed.

Lemma chain_unique h c c' : is_chain h c -> is_chain h c' -> c = c'.
Proof. intros H1%chain_walk H2%chain_walk. congruence. Qed.

(** What a call leaves is the heap there was, or that heap with a node
    spliced in, or that heap with a node spliced out. *)
Lemma run_call_shape self h cl :
  WF h ->
  exists r h1,
    WF h1 /\ length h1 <= S (length h) /\
    (forall fuel, length h <= fuel -> returns h (call self fuel cl) r h1) /\
    (h1 = h \/
     (exists c1 prev next c2 k v,
        is_chain h (c1 ++ prev :: next :: c2) /\
        ekey_lt (ekey h prev) (Fin k) /\ ekey_lt (Fin k) (ekey h next) /\
        h1 = spliced_in h prev next k v) \/
     (exists c1 prev del next c2 k,
        is_chain h (c1 ++ prev :: del :: next :: c2) /\
        ekey h del = Fin k /\ h1 = spliced_out h prev del next)).
Proof.
  intros Hwf.
  assert (forall t k v, exists r h1,
            WF h1 /\ length h1 <= S (length h) /\
            (forall fuel, length h <= fuel ->
               returns h (call self fuel (CallInsert t k v)) r h1) /\
            (h1 = h \/
             (exists c1 prev next c2 k v,
                is_chain h (c1 ++ prev :: next :: c2) /\
                ekey_lt (ekey h prev) (Fin k) /\
                ekey_lt (Fin k) (ekey h next) /\
                h1 = spliced_in h prev next k v) \/
             (exists c1 prev del next c2 k,
                is_chain h (c1 ++ prev :: del :: next :: c2) /\
                ekey h del = Fin k /\ h1 = spliced_out h prev del next)))
    as Hins.
  { intros t k v.
    destruct (run_call_insert self h t k v Hwf)
      as (h1 & Hwf1 & _ & Hlen & Hsame & Hk & Hr).
    destruct (run_insert self h k v Hwf)
      as (h1' & _ & _ & _ & Hsame' & Hshape & _ & Hr').
    assert (h1' = h1) as ->.
    { destruct (Hr (length h) (le_n _) (mkStore h []) eq_refl)
        as (s1 & E1 & <-).
      destruct (Hr' (length h) (le_n _)) as [Hh Ht].
      destruct t; simpl in E1; unfold bind in E1.
      - destruct (Ht (mkStore h []) eq_refl) as (s2 & E2 & <-).
        rewrite E2 in E1. simpl in E1. by injection E1 as <-.
      - destruct (Hh (mkStore h []) eq_refl) as (s2 & E2 & <-).
        rewrite E2 in E1. simpl in E1. by injection E1 as <-. }
    eexists _, h1. split_and!; [done | | done |].
    { destruct (has_key k (contents h)); lia. }
    destruct (has_key k (contents h)) eqn:E.
    - left. by apply Hsame.
    - right. left. destruct (Hshape eq_refl) as (c1 & prev & next & c2 & ?).
      by exists c1, prev, next, c2, k, v. }
  destruct cl as [k v|k v|k|k [d|]].
  - apply (Hins false k v).
  - apply (Hins true k v).
  - destruct (run_call_delete self h k Hwf)
      as (h1 & Hwf1 & _ & Hlen & Hsame & Hk & Hr).
    destruct (run_delete self h k Hwf)
      as (h1' & _ & _ & _ & Hsame' & Hshape & _ & Hr').
    assert (h1' = h1) as ->.
    { destruct (Hr (length h) (le_n _) (mkStore h []) eq_refl)
        as (s1 & E1 & <-).
      destruct (Hr' (length h) (le_n _) (mkStore h []) eq_refl)
        as (s2 & E2 & <-).
      simpl in E1. unfold bind in E1. rewrite E2 in E1. simpl in E1.
      by injection E1 as <-. }
    eexists _, h1. split_and!; [done | lia | done |].
    destruct (has_key k (contents h)) eqn:E.
    + right. right.
      destruct (Hshape eq_refl) as (c1 & prev & del & next & c2 & ?).
      by exists c1, prev, del, next, c2, k.
    + left. by apply Hsame.
  - eexists _, h. split_and!; [done | lia | | by left].
    intros fuel Hle. by apply run_call_search.
  - exists (RetSearch false None), h. split_and!; [done | lia | | by left].
    intros fuel _. simpl. eapply returns_bind; apply returns_ret.
Qed.

(** A node of the chain that is not the tail sentinel is, after a splice,
    still such a node, or it is the node that was spliced out, which is
    inactive and points back to a node of the chain. *)
Lemma stale_position h c h1 c' (p : NodePtr) :
  is_chain h c -> is_chain h1 c' -> In p c -> p <> tail ->
  (h1 = h \/
   (exists c1 prev next c2 k v,
      is_chain h (c1 ++ prev :: next :: c2) /\
      ekey_lt (ekey h prev) (Fin k) /\ ekey_lt (Fin k) (ekey h next) /\
      h1 = spliced_in h prev next k v) \/
   (exists c1 prev del next c2 k,
      is_chain h (c1 ++ prev :: del :: next :: c2) /\
      ekey h del = Fin k /\ h1 = spliced_out h prev del next)) ->
  (In p c' /\ p <> tail) \/
  (exists nd q, h1 !! p = Some nd /\ isNodeActive nd = false /\
                prevPtr nd = Some q /\ In q c' /\ q <> tail).
Proof.
  intros Hc Hc' Hp Hpt
    [->|[(c1 & prev & next & c2 & k & v & Hc0 & Hlo & Hhi & ->)
        |(c1 & prev & del & next & c2 & k & Hc0 & Hk & ->)]].
  - left. by rewrite (chain_unique _ _ _ Hc' Hc).
  - left. split; [| done].
    rewrite (chain_unique _ _ _ Hc Hc0) in Hp.
    rewrite (chain_unique _ _ _ Hc'
               (spliced_in_chain h c1 prev next c2 k v Hc0 Hlo Hhi)).
    apply in_app_or in Hp as [Hp|[<-|Hp]].
    + apply in_or_app. by left.
    + apply in_middle.
    + apply in_or_app. right. right. by right.
  - rewrite (chain_unique _ _ _ Hc Hc0) in Hp.
    rewrite (chain_unique _ _ _ Hc'
               (spliced_out_chain h c1 prev del next c2 Hc0)).
    pose proof Hc0 as (_ & Hl & Hs & _).
    destruct (decide (p = del)) as [->|Hne].
    + right.
      assert (c1 ++ prev :: del :: next :: c2
              = (c1 ++ [prev]) ++ del :: next :: c2) as Ec
        by (by rewrite <- app_assoc).
      destruct (chain_node _ _ prev Hc0) as (np & Hnp & _); [apply in_middle|].
      destruct (chain_node _ _ del Hc0) as (nd & Hnd & _);
        [apply in_middle2|].
      destruct (chain_node _ _ next Hc0) as (nn & Hnn & _);
        [rewrite Ec; apply in_middle2|].
      pose proof (sorted_middle _ _ _ _ _ Hs) as H1.
      pose proof Hs as Hs'. rewrite Ec in Hs'.
      pose proof (sorted_middle _ _ _ _ _ Hs') as H2.
      assert (prev <> del) as Hpd by (intros ->; by apply before_irrefl in H1).
      assert (del <> next) as Hdn by (intros ->; by apply before_irrefl in H2).
      assert (prev <> next) as Hpn.
      { intros ->. apply (before_irrefl h next). by transitivity del. }
      exists (set_isNodeActive false nd), prev. split_and!.
      * rewrite (lookup_spliced_out h prev del next np nd nn) by done.
        repeat case_decide; congruence.
      * done.
      * simpl. apply links_middle in Hl as [_ Hl]. unfold prev_of in Hl.
        by rewrite Hnd in Hl.
      * apply in_middle.
      * by eapply chain_not_tail.
    + left. split; [| done].
      apply in_app_or in Hp as [Hp|[<-|[<-|Hp]]].
      * apply in_or_app. by left.
      * apply in_middle.
      * done.
      * apply in_or_app. right. by right.
Qed.

(** X11: [InsertTail] is its two halves, and between them another thread may
    run a whole call: when one thread has read [tail->prevPtr] and let go of
    the tail sentinel, and another thread then runs any one call (which may
    unlink the node that was read), the first thread's [InsertTail] goes on
    from the node it read, through the [prevPtr] of that node when it is no
    longer active, and returns what it would have returned, and leaves the
    heap it would have left, had it started after the other call. *)
Theorem InsertTail_after_other_call (a b : ThreadId) (h : list Node)
    (cl : Call) (k : Z) (v : ascii) :
  WF h ->
  (forall fuel s,
     InsertTail a fuel k v s
     = bind (InsertTail_begin a) (InsertTail_end a fuel k v) s) /\
  exists prev r h1 h2,
    returns h (InsertTail_begin a) prev h /\
    WF h2 /\ contents h2 = put k v (contents h1) /\
    forall fuel, S (S (length h)) <= fuel ->
      returns h (call b fuel cl) r h1 /\
      returns h1 (InsertTail_end a fuel k v prev)
        (negb (has_key k (contents h1))) h2 /\
      returns h1 (InsertTail a fuel k v)
        (negb (has_key k (contents h1))) h2.
Proof.
  intros Hwf. split; [intros fuel s; apply InsertTail_split|].
  pose proof Hwf as [[c Hc] Hf].
  destruct (InsertTail_begin_spec a h c Hc Hf) as (c1 & p & Ec & Hbegin).
  destruct (run_call_shape b h cl Hwf) as (r & h1 & Hwf1 & Hlen1 & Hr & Hshape).
  pose proof Hwf1 as [[c' Hc'] Hf1].
  destruct (run_insert a h1 k v Hwf1)
    as (h2 & Hwf2 & Hcont & _ & Hsame & Hnew & _ & Hins).
  assert (In p c /\ p <> tail) as [Hp Hpt].
  { split; [rewrite Ec; apply in_middle|].
    destruct Hc as (_ & _ & Hs & _). rewrite Ec in Hs.
    by eapply chain_not_tail. }
  pose proof (stale_position h c h1 c' p Hc Hc' Hp Hpt Hshape) as Hpos.
  pose proof (chain_length _ _ Hc') as Hlen'.
  exists p, r, h1, h2. split_and!; try done.
  intros fuel Hle. split_and!.
  - apply Hr. lia.
  - destruct (InsertTail_end_spec a h1 c' k v p fuel Hc' Hf1 Hpos)
      as [[Hpr Hret]|(Hn & d1 & prev & next & d2 & Ed & Hlo & Hhi & Hret)];
      [lia | |].
    + apply (present_has_key _ _ _ Hc') in Hpr. rewrite Hpr.
      by rewrite (Hsame Hpr).
    + assert (has_key k (contents h1) = false) as E.
      { destruct (has_key k (contents h1)) eqn:E; [| done].
        by apply (present_has_key _ _ _ Hc') in E. }
      rewrite E.
      destruct (Hnew E) as (e1 & prev' & next' & e2 & Hc2 & Hlo' & Hhi' & ->).
      pose proof (chain_unique _ _ _ Hc' Hc2) as Ec'. subst c'.
      pose proof Hc2 as (_ & _ & Hs & _).
      destruct (split_unique h1 e1 prev' next' e2 d1 prev next d2 k)
        as [-> ->]; done.
  - apply Hins. lia.
Qed.

Lemma InsertTail_after_other_call_witness :
  WF list_5 /\
  exists prev r h1 h2,
    returns list_5 (InsertTail_begin 1) prev list_5 /\
    contents h2 = put 7 "x" (contents h1) /\
    returns list_5 (call 2 5 (CallDelete 5)) r h1 /\
    returns h1 (InsertTail_end 1 5 7 "x" prev)
      (negb (has_key 7 (contents h1))) h2.
Proof.
  split; [apply list_5_WF|].
  destruct (InsertTail_after_other_call 1 2 list_5 (CallDelete 5) 7 "x"
              list_5_WF) as (_ & prev & r & h1 & h2 & Hb & _ & Hc & Hr).
  destruct (Hr 5 (le_n 5)) as (H1 & H2 & _).
  exists prev, r, h1, h2. by split_and!.
Defined.

(** ** The list refines the table *)

Lemma run_table_call self h cl :
  WF h ->
  exists h',
    WF h' /\ contents h' = snd (table_call cl (contents h)) /\
    length h' <= S (length h) /\
    forall fuel, length h <= fuel ->
      returns h (call self fuel cl) (fst (table_call cl (contents h))) h'.
Proof.
  intros Hwf. destruct cl as [k v|k v|k|k [d|]].
  - destruct (run_call_insert self h false k v Hwf)
      as (h' & Hwf' & Hc & Hlen & _ & _ & Hr).
    exists h'. split_and!; try done.
    destruct (has_key k (contents h)); lia.
  - destruct (run_call_insert self h true k v Hwf)
      as (h' & Hwf' & Hc & Hlen & _ & _ & Hr).
    exists h'. split_and!; try done.
    destruct (has_key k (contents h)); lia.
  - destruct (run_call_delete self h k Hwf)
      as (h' & Hwf' & Hc & Hlen & _ & _ & Hr).
    exists h'. split_and!; try done. lia.
  - exists h. split_and!; try done; [lia|].
    intros fuel Hle. by apply run_call_search.
  - exists h. split_and!; try done; [lia|].
    intros fuel _. simpl. eapply returns_bind; apply returns_ret.
Qed.

(** X19: The list is a sorted table: every finite sequence of calls of
    [InsertHead], [InsertTail], [Delete] and [Search] run by one thread on a
    well-formed list returns what the same calls return on the table of the
    list, and leaves a well-formed list whose table is the one the calls
    leave. *)
Theorem calls_refine_table (self : ThreadId) (h : list Node)
    (cs : list Call) :
  WF h ->
  exists h',
    WF h' /\ contents h' = snd (table_calls cs (contents h)) /\
    forall fuel, length h + length cs <= fuel ->
      returns h (calls self fuel cs) (fst (table_calls cs (contents h))) h'.
Proof.
  revert h. induction cs as [|cl cs IH]; intros h Hwf.
  - exists h. split_and!; try done. intros fuel _. apply returns_calls_nil.
  - destruct (run_table_call self h cl Hwf) as (h1 & Hwf1 & Hc1 & Hlen & Hr).
    destruct (IH h1 Hwf1) as (h2 & Hwf2 & Hc2 & Hr2).
    exists h2. simpl.
    destruct (table_call cl (contents h)) as [r t1] eqn:E1. simpl in *.
    rewrite Hc1 in Hc2, Hr2.
    destruct (table_calls cs t1) as [rs t2] eqn:E2. simpl in *.
    split_and!; try done. intros fuel Hle.
    apply returns_calls_cons with h1; [apply Hr; lia | apply Hr2; lia].
Qed.

Lemma calls_refine_table_witness :
  WF list_5 /\
  exists h',
    contents h' = [(3, "c"%char)]%Z /\
    returns list_5
      (calls 1 9
         [CallSearch 5 (Some "z"%char); CallInsertTail 3 "c";
          CallInsertHead 5 "b"; CallDelete 5; CallDelete 5;
          CallSearch 5 (Some "z"%char)])
      [RetSearch true (Some "a"%char); RetBool true; RetBool false;
       RetBool true; RetBool false; RetSearch false (Some "z"%char)] h'.
Proof.
  split; [apply list_5_WF|].
  destruct (calls_refine_table 1 list_5
              [CallSearch 5 (Some "z"%char); CallInsertTail 3 "c";
               CallInsertHead 5 "b"; CallDelete 5; CallDelete 5;
               CallSearch 5 (Some "z"%char)] list_5_WF)
    as (h' & _ & Hc & Hr).
  exists h'. split; [exact Hc|]. exact (Hr 9 (le_n 9)).
Defined.

(** ** The lock calls of a call *)

Lemma bind_Some {A B} (m : M A) (k : A -> M B) s b s' :
  bind m k s = Some (b, s') ->
  exists a s1, m s = Some (a, s1) /\ k a s1 = Some (b, s').
Proof.
  unfold bind. destruct (m s) as [[a s1]|]; [|discriminate]. by exists a, s1.
Qed.

Lemma load_Some p s n s' :
  load p s = Some (n, s') -> s' = s /\ heap s !! p = Some n.
Proof.
  unfold load. destruct (heap s !! p); [|discriminate]. by intros [= <- <-].
Qed.

Lemma load_nextPtr_Some p s q s' :
  load_nextPtr p s = Some (q, s') -> s' = s /\ next_of (heap s) p = Some q.
Proof.
  unfold load_nextPtr. intros H. apply bind_Some in H as (n & s1 & Hl & H).
  apply load_Some in Hl as [-> Hn]. unfold next_of. rewrite Hn.
  destruct (nextPtr n); [|discriminate]. by injection H as <- <-.
Qed.

Lemma load_prevPtr_Some p s q s' :
  load_prevPtr p s = Some (q, s') -> s' = s /\ prev_of (heap s) p = Some q.
Proof.
  unfold load_prevPtr. intros H. apply bind_Some in H as (n & s1 & Hl & H).
  apply load_Some in Hl as [-> Hn]. unfold prev_of. rewrite Hn.
  destruct (prevPtr n); [|discriminate]. by injection H as <- <-.
Qed.

Lemma store_Some p f s u s' :
  store p f s = Some (u, s') ->
  trace s' = trace s /\ heap s' = alter f p (heap s).
Proof.
  unfold store. destruct (heap s !! p); [|discriminate]. by intros [= <- <-].
Qed.

Lemma alloc_Some n s p s' : alloc n s = Some (p, s') -> trace s' = trace s.
Proof. unfold alloc. by intros [= <- <-]. Qed.

Lemma same_fields_trans h1 h2 h3 :
  same_fields h1 h2 -> same_fields h2 h3 -> same_fields h1 h3.
Proof.
  intros H12 H23 q. destruct (H12 q) as (? & ? & ? & ?).
  destruct (H23 q) as (? & ? & ? & ?). split_and!; try congruence. tauto.
Qed.

Lemma same_fields_refl h : same_fields h h.
Proof. by intros q. Qed.

Lemma relock_log_Some l p e s u s' :
  (store p (set_lock l) ;;; log e) s = Some (u, s') ->
  trace s' = trace s ++ [e] /\ same_fields (heap s) (heap s').
Proof.
  intros H. apply bind_Some in H as (u1 & s1 & Hs & H).
  apply store_Some in Hs as [Ht Hh]. unfold log in H. injection H as <- <-.
  simpl. rewrite Ht, Hh. split; [done|]. apply same_fields_relock.
Qed.

Lemma lock_call_Some p e m s u s' :
  lock_call p e m s = Some (u, s') ->
  trace s' = trace s ++ [e] /\ same_fields (heap s) (heap s').
Proof.
  unfold lock_call. intros H. apply bind_Some in H as (n & s1 & Hl & H).
  apply load_Some in Hl as [-> Hn].
  destruct (m (lock n)) as [[l c|l c]|]; try discriminate.
  by eapply relock_log_Some.
Qed.

Lemma release_call_Some p e m s u s' :
  release_call p e m s = Some (u, s') ->
  trace s' = trace s ++ [e] /\ same_fields (heap s) (heap s').
Proof.
  unfold release_call. intros H. apply bind_Some in H as (n & s1 & Hl & H).
  apply load_Some in Hl as [-> Hn].
  destruct (m (lock n)) as [[l c]|]; try discriminate.
  by eapply relock_log_Some.
Qed.

Lemma remove_one_single a : remove_one a [a] = [].
Proof. simpl. by rewrite Nat.eqb_refl. Qed.

Lemma remove_one_pair a b : remove_one b [a; b] = [a].
Proof.
  simpl. destruct (Nat.eqb_spec a b) as [->|_]; [done|].
  by rewrite Nat.eqb_refl.
Qed.

Lemma holds_app hs tr1 tr2 :
  holds hs (tr1 ++ tr2) = holds (holds hs tr1) tr2.
Proof. apply fold_left_app. Qed.

Lemma disciplined_app h k hs tr1 tr2 :
  disciplined h k hs tr1 -> disciplined h k (holds hs tr1) tr2 ->
  disciplined h k hs (tr1 ++ tr2).
Proof.
  revert hs. induction tr1 as [|e tr1 IH]; intros hs H1 H2; [done|].
  destruct H1 as [He H1]. split; [done|]. by apply IH.
Qed.

Lemma disciplined_mono h k k' hs tr :
  k <= k' -> disciplined h k hs tr -> disciplined h k' hs tr.
Proof.
  intros Hk. revert hs. induction tr as [|e tr IH]; intros hs H; [done|].
  destruct H as [He H]. split; [|by apply IH].
  destruct e; simpl in *; try done. destruct He. split; [lia | done].
Qed.

Lemma traced_refl h k P hs s s' :
  trace s' = trace s -> traced h k P hs s s' hs.
Proof. intros H. exists []. by rewrite app_nil_r. Qed.

Lemma traced_event h k (P : Event -> Prop) hs s s' e :
  trace s' = trace s ++ [e] -> event_allowed h k hs e -> P e ->
  traced h k P hs s s' (holds_step hs e).
Proof.
  intros H He HP. exists [e]. split_and!; [done | by split | | done].
  by constructor.
Qed.

Lemma traced_trans h k P hs s s1 hs1 s2 hs2 :
  traced h k P hs s s1 hs1 -> traced h k P hs1 s1 s2 hs2 ->
  traced h k P hs s s2 hs2.
Proof.
  intros (tr1 & E1 & D1 & P1 & H1) (tr2 & E2 & D2 & P2 & H2).
  exists (tr1 ++ tr2). split_and!.
  - by rewrite E2, E1, app_assoc.
  - apply disciplined_app; [done | by rewrite H1].
  - by apply Forall_app.
  - by rewrite holds_app, H1.
Qed.

Lemma traced_mono h k k' (P P' : Event -> Prop) hs s s' hs' :
  k <= k' -> (forall e, P e -> P' e) ->
  traced h k P hs s s' hs' -> traced h k' P' hs s s' hs'.
Proof.
  intros Hk HP (tr & E & D & F & H). exists tr.
  split_and!; [done | by eapply disciplined_mono | | done].
  eapply Forall_impl; [exact F | exact HP].
Qed.

(** The lock calls of the list, one at a time. *)
Lemma acquire_traced self h k P hs s s' u op p :
  lock_call p (EvAcquire op p)
    (match op with
     | READ => LockRead_enter self
     | MAY_WRITE => LockMayWrite_enter self
     | WRITE => LockWrite_enter self
     end) s = Some (u, s') ->
  same_fields h (heap s) ->
  length hs < k ->
  match hs with [] => True | q :: _ => next_of h q = Some p end ->
  P (EvAcquire op p) ->
  same_fields h (heap s') /\ traced h k P hs s s' (p :: hs).
Proof.
  intros H Hsf Hk Hnext HP. apply lock_call_Some in H as [Ht Hsf'].
  split; [by eapply same_fields_trans|].
  by apply (traced_event h k P hs s s' (EvAcquire op p)).
Qed.

Lemma UpgradeLock_traced self h k P hs s s' u p :
  UpgradeLock self p s = Some (u, s') ->
  same_fields h (heap s) -> In p hs -> P (EvUpgrade p) ->
  same_fields h (heap s') /\ traced h k P hs s s' hs.
Proof.
  intros H Hsf Hin HP. apply lock_call_Some in H as [Ht Hsf'].
  split; [by eapply same_fields_trans|].
  by apply (traced_event h k P hs s s' (EvUpgrade p)).
Qed.

Lemma ReleaseSharedLock_traced self h k P hs s s' u p :
  ReleaseSharedLock self p s = Some (u, s') ->
  In p hs -> P (EvReleaseShared p) ->
  (same_fields h (heap s) -> same_fields h (heap s')) /\
  traced h k P hs s s' (remove_one p hs).
Proof.
  intros H Hin HP. apply release_call_Some in H as [Ht Hsf'].
  split; [intros Hsf; by eapply same_fields_trans|].
  by apply (traced_event h k P hs s s' (EvReleaseShared p)).
Qed.

Lemma ReleaseExclusiveLock_traced h k P hs s s' u p :
  ReleaseExclusiveLock p s = Some (u, s') ->
  In p hs -> P (EvReleaseExclusive p) ->
  traced h k P hs s s' (remove_one p hs).
Proof.
  intros H Hin HP. apply release_call_Some in H as [Ht Hsf'].
  by apply (traced_event h k P hs s s' (EvReleaseExclusive p)).
Qed.

(** The loop of [FindKey] in may-write mode, with [prev] and [next]
    locked. *)
Lemma FindKey_loop_may_write_traced self h k key0 :
  2 <= k ->
  forall fuel prev next s r s',
    same_fields h (heap s) ->
    FindKey_loop self fuel key0 false prev next s = Some (r, s') ->
    same_fields h (heap s') /\
    traced h k any_event [next; prev] s s' [snd r; fst r].
Proof.
  intros Hk. induction fuel as [|fuel IH]; intros prev next s r s' Hsf H;
    [discriminate|].
  simpl FindKey_loop in H. apply bind_Some in H as (n & s1 & Hl & H).
  apply load_Some in Hl as [-> Hn].
  destruct ((key n <? key0)%Z && negb (Nat.eqb next tail)
            || Nat.eqb next head).
  - apply bind_Some in H as ([prev' next'] & s2 & Hadv & H).
    unfold AdvanceAndLockReadMayWrite in Hadv.
    apply bind_Some in Hadv as (u1 & s3 & Hrel & Hadv).
    apply (ReleaseSharedLock_traced self h k any_event [next; prev]) in Hrel
      as [Hsf3 T3]; [| by right; left | done].
    rewrite remove_one_pair in T3. specialize (Hsf3 Hsf).
    apply bind_Some in Hadv as (nx & s4 & Hld & Hadv).
    apply load_nextPtr_Some in Hld as [-> Hnx].
    apply bind_Some in Hadv as (u2 & s5 & Hlk & Hadv).
    injection Hadv as <- <- <-.
    apply (acquire_traced self h k any_event [next] s3 s5 u2 MAY_WRITE nx)
      in Hlk as [Hsf5 T5]; [| done | simpl; lia | | done].
    2: { destruct (Hsf3 next) as [E _]. by rewrite <- E. }
    destruct (IH next nx s5 r s' Hsf5 H) as [Hsf' T'].
    split; [done|].
    eapply traced_trans; [exact T3|]. eapply traced_trans; [exact T5|done].
  - injection H as <- <-. split; [done|]. by apply traced_refl.
Qed.

(** The loop of [FindKey] in read mode, with [next] locked. *)
Lemma FindKey_loop_read_traced self h k key0 :
  1 <= k ->
  forall fuel prev next s r s',
    same_fields h (heap s) ->
    FindKey_loop self fuel key0 true prev next s = Some (r, s') ->
    same_fields h (heap s') /\
    traced h k reader_event [next] s s' [snd r].
Proof.
  intros Hk. induction fuel as [|fuel IH]; intros prev next s r s' Hsf H;
    [discriminate|].
  simpl FindKey_loop in H. apply bind_Some in H as (n & s1 & Hl & H).
  apply load_Some in Hl as [-> Hn].
  destruct ((key n <? key0)%Z && negb (Nat.eqb next tail)
            || Nat.eqb next head).
  - apply bind_Some in H as ([prev' next'] & s2 & Hadv & H).
    unfold AdvanceAndLockReadMayWrite in Hadv.
    apply bind_Some in Hadv as (nx & s4 & Hld & Hadv).
    apply load_nextPtr_Some in Hld as [-> Hnx].
    apply bind_Some in Hadv as (u1 & s3 & Hrel & Hadv).
    apply (ReleaseSharedLock_traced self h k reader_event [next]) in Hrel
      as [Hsf3 T3]; [| by left | done].
    rewrite remove_one_single in T3. specialize (Hsf3 Hsf).
    apply bind_Some in Hadv as (u2 & s5 & Hlk & Hadv).
    injection Hadv as <- <- <-.
    apply (acquire_traced self h k reader_event [] s3 s5 u2 READ nx)
      in Hlk as [Hsf5 T5]; [| done | simpl; lia | done | done].
    destruct (IH next nx s5 r s' Hsf5 H) as [Hsf' T'].
    split; [done|].
    eapply traced_trans; [exact T3|]. eapply traced_trans; [exact T5|done].
  - injection H as <- <-. split; [done|]. by apply traced_refl.
Qed.

Lemma FindKey_may_write_traced self h k key0 fuel position s r s' :
  2 <= k ->
  same_fields h (heap s) ->
  FindKey self fuel position key0 false s = Some (r, s') ->
  same_fields h (heap s') /\
  traced h k any_event [position] s s' [snd r; fst r].
Proof.
  intros Hk Hsf H. unfold FindKey in H.
  apply bind_Some in H as (next & s1 & Hld & H).
  apply load_nextPtr_Some in Hld as [-> Hnx].
  apply bind_Some in H as (u & s2 & Hlk & H). simpl in Hlk.
  apply (acquire_traced self h k any_event [position] s s2 u MAY_WRITE next)
    in Hlk as [Hsf2 T2]; [| done | simpl; lia | | done].
  2: { destruct (Hsf position) as [E _]. by rewrite <- E. }
  destruct (FindKey_loop_may_write_traced self h k key0 Hk _ _ _ _ _ _ Hsf2 H)
    as [Hsf' T'].
  split; [done|]. by eapply traced_trans.
Qed.

Lemma FindKey_read_traced self h k key0 fuel position s r s' :
  1 <= k ->
  same_fields h (heap s) ->
  FindKey self fuel position key0 true s = Some (r, s') ->
  same_fields h (heap s') /\
  traced h k reader_event [position] s s' [snd r].
Proof.
  intros Hk Hsf H. unfold FindKey in H.
  apply bind_Some in H as (next & s1 & Hld & H). injection Hld as <- <-.
  apply bind_Some in H as (u & s2 & Hlk & H). injection Hlk as _ <-.
  by apply (FindKey_loop_read_traced self h k key0 Hk _ _ _ _ _ _ Hsf H).
Qed.

Lemma InsertFromPosition_traced self h k key0 data0 fuel position s b s' :
  2 <= k ->
  same_fields h (heap s) ->
  InsertFromPosition self fuel position key0 data0 s = Some (b, s') ->
  traced h k any_event [position] s s' [].
Proof.
  intros Hk Hsf H. unfold InsertFromPosition in H.
  apply bind_Some in H as ([prev next] & s1 & Hfk & H).
  apply (FindKey_may_write_traced self h k key0 _ _ _ _ _ Hk Hsf) in Hfk
    as [Hsf1 T1]. simpl in T1.
  eapply traced_trans; [exact T1|]. clear T1.
  apply bind_Some in H as (n & s2 & Hl & H). apply load_Some in Hl as [-> Hn].
  destruct (negb (key n =? key0)%Z || Nat.eqb next tail).
  - apply bind_Some in H as (u1 & s3 & H1 & H).
    apply (UpgradeLock_traced self h k any_event [next; prev]) in H1
      as [Hsf3 T3]; [| done | by right; left | done].
    apply bind_Some in H as (u2 & s4 & H2 & H).
    apply (UpgradeLock_traced self h k any_event [next; prev]) in H2
      as [Hsf4 T4]; [| done | by left | done].
    apply bind_Some in H as (new & s5 & H3 & H). apply alloc_Some in H3.
    apply bind_Some in H as (u3 & s6 & H4 & H). apply store_Some in H4 as [H4 _].
    apply bind_Some in H as (p & s7 & H5 & H). apply load_Some in H5 as [-> _].
    apply bind_Some in H as (u4 & s8 & H6 & H). apply store_Some in H6 as [H6 _].
    apply bind_Some in H as (u5 & s9 & H7 & H).
    apply (ReleaseExclusiveLock_traced h k any_event [next; prev]) in H7
      as T9; [| by right; left | done].
    rewrite remove_one_pair in T9.
    apply bind_Some in H as (u6 & s10 & H8 & H).
    apply (ReleaseExclusiveLock_traced h k any_event [next]) in H8
      as T10; [| by left | done].
    rewrite remove_one_single in T10. injection H as _ <-.
    eapply traced_trans; [exact T3|]. eapply traced_trans; [exact T4|].
    apply (traced_trans _ _ _ _ s4 s8 [next; prev]);
      [apply traced_refl; congruence|].
    eapply traced_trans; [exact T9 | exact T10].
  - apply bind_Some in H as (u1 & s3 & H1 & H).
    apply (ReleaseSharedLock_traced self h k any_event [next; prev]) in H1
      as [_ T3]; [| by right; left | done].
    rewrite remove_one_pair in T3.
    apply bind_Some in H as (u2 & s4 & H2 & H).
    apply (ReleaseSharedLock_traced self h k any_event [next]) in H2
      as [_ T4]; [| by left | done].
    rewrite remove_one_single in T4. injection H as _ <-.
    by eapply traced_trans.
Qed.

Lemma InsertHead_traced self h k key0 data0 fuel s b s' :
  2 <= k ->
  same_fields h (heap s) ->
  InsertHead self fuel key0 data0 s = Some (b, s') ->
  traced h k any_event [] s s' [].
Proof.
  intros Hk Hsf H. unfold InsertHead in H.
  apply bind_Some in H as (u & s1 & Hlk & H).
  apply (acquire_traced self h k any_event [] s s1 u MAY_WRITE head)
    in Hlk as [Hsf1 T1]; [| done | simpl; lia | done | done].
  eapply traced_trans; [exact T1|].
  by eapply InsertFromPosition_traced.
Qed.

(** The backward walk of [InsertTail], with [prev] locked. *)
Lemma InsertTail_loop_traced self h k key0 :
  1 <= k ->
  forall fuel prev s r s',
    same_fields h (heap s) ->
    InsertTail_loop self fuel key0 prev s = Some (r, s') ->
    same_fields h (heap s') /\ traced h k any_event [prev] s s' [r].
Proof.
  intros Hk. induction fuel as [|fuel IH]; intros prev s r s' Hsf H;
    [discriminate|].
  simpl InsertTail_loop in H. apply bind_Some in H as (n & s1 & Hl & H).
  apply load_Some in Hl as [-> Hn].
  destruct ((key n >? key0)%Z && negb (Nat.eqb prev head)
            || negb (isNodeActive n)).
  - apply bind_Some in H as (prev' & s2 & Hstep & H).
    unfold InsertTail_step in Hstep.
    apply bind_Some in Hstep as (q & s3 & Hld & Hstep).
    apply load_prevPtr_Some in Hld as [-> Hq].
    apply bind_Some in Hstep as (u1 & s4 & Hrel & Hstep).
    apply (ReleaseSharedLock_traced self h k any_event [prev]) in Hrel
      as [Hsf4 T4]; [| by left | done].
    rewrite remove_one_single in T4. specialize (Hsf4 Hsf).
    apply bind_Some in Hstep as (u2 & s5 & Hlk & Hstep).
    injection Hstep as <- <-.
    apply (acquire_traced self h k any_event [] s4 s5 u2 MAY_WRITE q)
      in Hlk as [Hsf5 T5]; [| done | simpl; lia | done | done].
    destruct (IH q s5 r s' Hsf5 H) as [Hsf' T'].
    split; [done|].
    eapply traced_trans; [exact T4|]. eapply traced_trans; [exact T5|done].
  - injection H as <- <-. split; [done|]. by apply traced_refl.
Qed.

Lemma InsertTail_traced self h k key0 data0 fuel s b s' :
  2 <= k ->
  same_fields h (heap s) ->
  InsertTail self fuel key0 data0 s = Some (b, s') ->
  traced h k any_event [] s s' [].
Proof.
  intros Hk Hsf H. unfold InsertTail in H. cbv zeta in H.
  apply bind_Some in H as (u1 & s1 & H1 & H).
  apply (acquire_traced self h k any_event [] s s1 u1 READ tail)
    in H1 as [Hsf1 T1]; [| done | simpl; lia | done | done].
  apply bind_Some in H as (prev & s2 & Hld & H).
  apply load_prevPtr_Some in Hld as [-> Hprev].
  apply bind_Some in H as (u2 & s3 & H2 & H).
  apply (ReleaseSharedLock_traced self h k any_event [tail]) in H2
    as [Hsf3 T3]; [| by left | done].
  rewrite remove_one_single in T3. specialize (Hsf3 Hsf1).
  apply bind_Some in H as (u3 & s4 & H3 & H).
  apply (acquire_traced self h k any_event [] s3 s4 u3 MAY_WRITE prev)
    in H3 as [Hsf4 T4]; [| done | simpl; lia | done | done].
  apply bind_Some in H as (prev' & s5 & Hloop & H).
  apply (InsertTail_loop_traced self h k key0 ltac:(lia) _ _ _ _ _ Hsf4)
    in Hloop as [Hsf5 T5].
  apply bind_Some in H as (p & s6 & Hl & H). apply load_Some in Hl as [-> Hp].
  eapply traced_trans; [exact T1|]. eapply traced_trans; [exact T3|].
  eapply traced_trans; [exact T4|]. eapply traced_trans; [exact T5|].
  destruct (negb (Nat.eqb prev' head) && (key p =? key0)%Z).
  - apply bind_Some in H as (u4 & s7 & H4 & H). injection H as _ <-.
    apply (ReleaseSharedLock_traced self h k any_event [prev']) in H4
      as [_ T7]; [| by left | done].
    by rewrite remove_one_single in T7.
  - by eapply InsertFromPosition_traced.
Qed.

Lemma remove_one_three a b c :
  In b (remove_one a [c; b; a]) /\
  In c (remove_one b (remove_one a [c; b; a])) /\
  remove_one c (remove_one b (remove_one a [c; b; a])) = [].
Proof.
  simpl.
  destruct (Nat.eqb_spec c a) as [->|Hca]; simpl.
  - destruct (Nat.eqb_spec b b) as [_|]; [|done]. simpl.
    rewrite Nat.eqb_refl. split_and!; [by left | by left | done].
  - destruct (Nat.eqb_spec b a) as [->|Hba]; simpl.
    + destruct (Nat.eqb_spec c a) as [|_]; [done|]. simpl.
      rewrite !Nat.eqb_refl. split_and!; [by right; left | by left | done].
    + rewrite Nat.eqb_refl. simpl.
      destruct (Nat.eqb_spec c b) as [->|Hcb]; simpl.
      * rewrite Nat.eqb_refl. split_and!; [by left | by left | done].
      * rewrite !Nat.eqb_refl. split_and!; [by right; left | by left | done].
Qed.

Lemma Delete_traced self h k key0 fuel s b s' :
  3 <= k ->
  same_fields h (heap s) ->
  Delete self fuel key0 s = Some (b, s') ->
  traced h k any_event [] s s' [].
Proof.
  intros Hk Hsf H. unfold Delete in H. cbv zeta in H.
  apply bind_Some in H as (u & s1 & Hlk & H).
  apply (acquire_traced self h k any_event [] s s1 u MAY_WRITE head)
    in Hlk as [Hsf1 T1]; [| done | simpl; lia | done | done].
  eapply traced_trans; [exact T1|]. clear T1.
  apply bind_Some in H as ([prev del] & s2 & Hfk & H).
  apply (FindKey_may_write_traced self h k key0 _ _ _ _ _ ltac:(lia) Hsf1)
    in Hfk as [Hsf2 T2]. simpl in T2.
  eapply traced_trans; [exact T2|]. clear T2.
  apply bind_Some in H as (n & s3 & Hl & H). apply load_Some in Hl as [-> Hn].
  destruct ((key n =? key0)%Z && negb (Nat.eqb del tail)).
  - apply bind_Some in H as (u1 & s4 & H1 & H).
    apply (UpgradeLock_traced self h k any_event [del; prev]) in H1
      as [Hsf4 T4]; [| done | by right; left | done].
    apply bind_Some in H as (u2 & s5 & H2 & H).
    apply (UpgradeLock_traced self h k any_event [del; prev]) in H2
      as [Hsf5 T5]; [| done | by left | done].
    apply bind_Some in H as (next & s6 & Hld & H).
    apply load_nextPtr_Some in Hld as [-> Hnext].
    apply bind_Some in H as (u3 & s7 & H3 & H).
    apply (acquire_traced self h k any_event [del; prev] s5 s7 u3 WRITE next)
      in H3 as [Hsf7 T7]; [| done | simpl; lia | | done].
    2: { destruct (Hsf5 del) as [E _]. by rewrite <- E. }
    apply bind_Some in H as (u4 & s8 & H4 & H). apply store_Some in H4 as [H4 _].
    apply bind_Some in H as (u5 & s9 & H5 & H). apply store_Some in H5 as [H5 _].
    apply bind_Some in H as (u6 & s10 & H6 & H). apply store_Some in H6 as [H6 _].
    destruct (remove_one_three prev del next) as (Hin1 & Hin2 & Hnil).
    apply bind_Some in H as (u7 & s11 & H7 & H).
    apply (ReleaseExclusiveLock_traced h k any_event [next; del; prev]) in H7
      as T11; [| by right; right; left | done].
    apply bind_Some in H as (u8 & s12 & H8 & H).
    apply (ReleaseExclusiveLock_traced h k any_event
             (remove_one prev [next; del; prev])) in H8
      as T12; [| done | done].
    apply bind_Some in H as (u9 & s13 & H9 & H).
    apply (ReleaseExclusiveLock_traced h k any_event
             (remove_one del (remove_one prev [next; del; prev]))) in H9
      as T13; [| done | done].
    rewrite Hnil in T13. injection H as _ <-.
    eapply traced_trans; [exact T4|]. eapply traced_trans; [exact T5|].
    eapply traced_trans; [exact T7|].
    apply (traced_trans _ _ _ _ s7 s10 [next; del; prev]);
      [apply traced_refl; congruence|].
    eapply traced_trans; [exact T11|]. eapply traced_trans; [exact T12|].
    exact T13.
  - apply bind_Some in H as (u1 & s4 & H1 & H).
    apply (ReleaseSharedLock_traced self h k any_event [del; prev]) in H1
      as [_ T3]; [| by right; left | done].
    rewrite remove_one_pair in T3.
    apply bind_Some in H as (u2 & s5 & H2 & H).
    apply (ReleaseSharedLock_traced self h k any_event [del]) in H2
      as [_ T4]; [| by left | done].
    rewrite remove_one_single in T4. injection H as _ <-.
    by eapply traced_trans.
Qed.

Lemma Search_traced self h k key0 d fuel s r s' :
  1 <= k ->
  same_fields h (heap s) ->
  Search self fuel key0 d s = Some (r, s') ->
  traced h k reader_event [] s s' [].
Proof.
  intros Hk Hsf H. unfold Search in H. destruct d as [c|].
  2: { injection H as _ <-. by apply traced_refl. }
  cbv zeta in H. apply bind_Some in H as (u & s1 & Hlk & H).
  apply (acquire_traced self h k reader_event [] s s1 u READ head)
    in Hlk as [Hsf1 T1]; [| done | simpl; lia | done | done].
  apply bind_Some in H as ([pos node] & s2 & Hfk & H).
  apply (FindKey_read_traced self h k key0 _ _ _ _ _ Hk Hsf1) in Hfk
    as [Hsf2 T2]. simpl in T2.
  apply bind_Some in H as (n & s3 & Hl & H). apply load_Some in Hl as [-> Hn].
  apply bind_Some in H as (u2 & s4 & H2 & H). injection H as _ <-.
  apply (ReleaseSharedLock_traced self h k reader_event [node]) in H2
    as [_ T4]; [| by left | done].
  rewrite remove_one_single in T4.
  eapply traced_trans; [exact T1|]. by eapply traced_trans.
Qed.

Lemma call_traced self h fuel cl s r s' :
  same_fields h (heap s) ->
  call self fuel cl s = Some (r, s') ->
  traced h (lock_budget cl)
    (match cl with CallSearch _ _ => reader_event | _ => any_event end)
    [] s s' [].
Proof.
  intros Hsf H. destruct cl as [k v|k v|k|k d]; simpl in H;
    apply bind_Some in H as (b & s1 & H1 & H).
  - injection H as _ <-. by eapply (InsertHead_traced self h 2).
  - injection H as _ <-. by eapply (InsertTail_traced self h 2).
  - injection H as _ <-. by eapply (Delete_traced self h 3).
  - destruct b as [b d']. injection H as _ <-.
    by eapply (Search_traced self h 1).
Qed.

(** X22: The locking discipline of the list: a call of [InsertHead],
    [InsertTail], [Delete] or [Search] run by one thread on a well-formed
    list returns, and its lock calls, in the order it makes them, are such
    that a node lock is acquired while another is held only on the
    successor of the node locked last; only held locks are upgraded and
    released; [Search] never holds more than one node lock, an insertion
    never more than two, [Delete] never more than three; when the call
    returns it holds none; and [Search] makes no lock call but [LockRead]
    and [ReleaseSharedLock]. *)
Theorem calls_lock_in_list_order (self : ThreadId) (s : Store) (cl : Call)
    (fuel : nat) :
  WF (heap s) -> S (length (heap s)) <= fuel ->
  exists r s' tr,
    call self fuel cl s = Some (r, s') /\
    trace s' = trace s ++ tr /\
    disciplined (heap s) (lock_budget cl) [] tr /\
    holds [] tr = [] /\
    (forall k d, cl = CallSearch k d -> Forall reader_event tr).
Proof.
  intros Hwf Hle.
  destruct (run_call self (heap s) cl Hwf) as (r & h' & _ & _ & _ & _ & Hr).
  destruct (Hr fuel ltac:(lia) s eq_refl) as (s' & Hs' & _).
  destruct (call_traced self (heap s) fuel cl s r s' (same_fields_refl _) Hs')
    as (tr & Ht & Hd & HP & Hh).
  exists r, s', tr. split_and!; try done.
  intros k d ->. exact HP.
Qed.

Lemma calls_lock_in_list_order_witness :
  WF (heap (mkStore list_5 [])) /\
  exists r s',
    call 1 4 (CallDelete 5) (mkStore list_5 []) = Some (r, s') /\
    disciplined list_5 3 [] (trace s') /\ holds [] (trace s') = [].
Proof.
  split; [exact list_5_WF|].
  destruct (calls_lock_in_list_order 1 (mkStore list_5 []) (CallDelete 5) 4
              list_5_WF (le_n 4)) as (r & s' & tr & Hc & Ht & Hd & Hh & _).
  exists r, s'. simpl in Ht. rewrite Ht. by split_and!.
Defined.

(** ** [Search] and a call of another thread in a hand-over *)

Lemma Search_split self fuel k d s :
  Search self fuel k (Some d) s
  = bind (LockRead self head)
      (fun _ => bind (FindKey_loop self fuel k true head head)
                  (fun r => Search_finish self k d (snd r))) s.
Proof.
  unfold Search, FindKey, Search_finish, bind, ret. simpl.
  destruct (LockRead self head s) as [[[] s1]|]; [|done].
  by destruct (FindKey_loop self fuel k true head head s1)
    as [[[p node] s2]|].
Qed.

Lemma Search_handover_split self fuel k d prev p s n :
  load p s = Some (n, s) ->
  (key n <? k)%Z && negb (Nat.eqb p tail) || Nat.eqb p head = true ->
  bind (FindKey_loop self (S fuel) k true prev p)
    (fun r => Search_finish self k d (snd r)) s
  = bind (Search_handover self p) (Search_resume self fuel k d p) s.
Proof.
  intros Hl Ht. simpl FindKey_loop.
  unfold Search_handover, Search_resume, AdvanceAndLockReadMayWrite, bind, ret.
  rewrite Hl, Ht.
  destruct (load_nextPtr p s) as [[nx s1]|]; [|done].
  destruct (ReleaseSharedLock self p s1) as [[[] s2]|]; [|done].
  by destruct (LockRead self nx s2) as [[[] s3]|].
Qed.

Lemma ekey_lt_dec a b : {ekey_lt a b} + {~ ekey_lt a b}.
Proof.
  destruct a, b; simpl; try (by left); try (by right; intros []).
  apply Z_lt_dec.
Qed.

(** The nodes before the successor of a node that is below the key are
    below the key. *)
Lemma passed_before h c c1 p nx c2 k x :
  is_chain h c -> c = c1 ++ p :: nx :: c2 ->
  ekey_lt (ekey h p) (Fin k) ->
  In x c -> before h x nx -> ekey_lt (ekey h x) (Fin k).
Proof.
  intros Hc -> Hp Hin Hb. pose proof Hc as (_ & _ & Hs & _).
  apply in_app_or in Hin as [Hin|[<-|[<-|Hin]]].
  - apply sorted_split in Hs as [Hs _]. rewrite Forall_forall in Hs.
    apply list_elem_of_In, Hs in Hin.
    exact (ekey_lt_trans _ _ _ Hin Hp).
  - done.
  - by apply before_irrefl in Hb.
  - assert (c1 ++ p :: nx :: c2 = (c1 ++ [p]) ++ nx :: c2) as Ec
      by (by rewrite <- app_assoc).
    rewrite Ec in Hs. apply sorted_split in Hs as [_ Hs].
    rewrite Forall_forall in Hs. apply list_elem_of_In, Hs in Hin.
    exfalso. apply (before_irrefl h x).
    exact (ekey_lt_trans _ _ _ Hb Hin).
Qed.

(** The answer of [Search] for a candidate is the answer of the table. *)
Lemma looked_up_candidate h c k d l1 cand l2 nc :
  is_chain h c -> c = l1 ++ cand :: l2 ->
  Forall (fun x => ekey_lt (ekey h x) (Fin k)) l1 ->
  ~ ekey_lt (ekey h cand) (Fin k) ->
  h !! cand = Some nc ->
  (let b := (key nc =? k)%Z && negb (Nat.eqb cand tail) in
   (b, Some (if b then data nc else d)))
  = looked_up k d (contents h).
Proof.
  intros Hc Ec Hl1 Hstop Hnc. unfold looked_up.
  assert (cand <> head) as Hnh.
  { intros ->. by rewrite ekey_head in Hstop. }
  assert (ekey h cand =
          if Nat.eqb cand tail then PosInf else Fin (key nc)) as Hek.
  { unfold ekey, key_of. rewrite Hnc.
    by destruct (Nat.eqb_spec cand head). }
  destruct (decide (ekey h cand = Fin k)) as [Hk|Hne].
  - destruct (contents_at h c cand k Hc) as (t1 & t2 & -> & H1 & _);
      [rewrite Ec; apply in_middle | done |].
    rewrite assoc_at by done. rewrite Hek in Hk.
    destruct (Nat.eqb cand tail); [discriminate|]. injection Hk as ->.
    simpl. rewrite Z.eqb_refl. simpl. unfold data_of. by rewrite Hnc.
  - pose proof (ekey_lt_total _ _ Hstop Hne) as Hgt.
    assert (l1 <> []) as Hl1ne.
    { intros ->. simpl in Ec. destruct Hc as ((Hhd & _) & _).
      rewrite Ec in Hhd. simpl in Hhd. by injection Hhd as ->. }
    destruct (exists_last Hl1ne) as (l1' & pv & ->).
    apply Forall_app in Hl1 as [_ Hpv]. apply Forall_inv in Hpv.
    rewrite <- app_assoc in Ec. simpl in Ec. rewrite Ec in Hc.
    destruct (contents_between h l1' pv cand l2 k Hc Hpv Hgt)
      as (t1 & t2 & _ & _ & -> & H1 & H2).
    rewrite assoc_absent by done.
    assert ((key nc =? k)%Z && negb (Nat.eqb cand tail) = false) as ->; [|done].
    rewrite Hek in Hne. destruct (Nat.eqb cand tail); simpl.
    + by rewrite andb_false_r.
    + rewrite andb_true_r. apply Z.eqb_neq. congruence.
Qed.

(** What [Search] does with a candidate of the chain whose lock it holds. *)
Lemma Search_finish_chain self h c k d cand nc :
  is_chain h c -> locks_free h -> In cand c -> h !! cand = Some nc ->
  returns (relock held_READ cand h) (Search_finish self k d cand)
    (let b := (key nc =? k)%Z && negb (Nat.eqb cand tail) in
     (b, Some (if b then data nc else d))) h.
Proof.
  intros Hc Hf Hin Hnc.
  destruct (chain_node _ _ cand Hc Hin) as (nc' & Hnc' & Hact).
  rewrite Hnc in Hnc'. injection Hnc' as <-.
  unfold Search_finish.
  eapply returns_bind; [apply returns_load; by apply lookup_relock_eq|].
  simpl. rewrite Hact, andb_true_r.
  eapply returns_bind.
  { eapply returns_ReleaseSharedLock; [by apply lookup_relock_eq | by right]. }
  rewrite (relock_release _ cand h nc) by (by eauto using free_lock).
  apply returns_ret.
Qed.

Lemma Search_resume_cand self h c k d fuel prev d1 nx d2 :
  is_chain h c -> locks_free h -> c = d1 ++ nx :: d2 -> length d2 < fuel ->
  exists passed cand d2' nc,
    nx :: d2 = passed ++ cand :: d2' /\
    Forall (fun x => ekey_lt (ekey h x) (Fin k)) passed /\
    ~ ekey_lt (ekey h cand) (Fin k) /\
    h !! cand = Some nc /\
    returns h (Search_resume self fuel k d prev nx)
      (let b := (key nc =? k)%Z && negb (Nat.eqb cand tail) in
       (b, Some (if b then data nc else d))) h.
Proof.
  intros Hc Hf Ec Hlen.
  destruct (FindKey_loop_read self h c k Hc Hf fuel d1 prev nx d2 Ec Hlen)
    as (passed & cand & d2' & Esplit & Hpassed & Hstop & Hret).
  assert (In cand c) as Hin
    by (rewrite Ec, Esplit, app_assoc; apply in_middle).
  destruct (chain_node _ _ cand Hc Hin) as (nc & Hnc & _).
  exists passed, cand, d2', nc. split_and!; try done.
  destruct (chain_node _ _ nx Hc) as (nn & Hnn & _);
    [rewrite Ec; apply in_middle|].
  unfold Search_resume.
  eapply returns_bind;
    [eapply returns_LockRead; [done | by eapply free_lock]|].
  eapply returns_bind; [exact Hret|]. simpl snd.
  by eapply Search_finish_chain.
Qed.

(** [Search] from a node of the chain behind nodes that are below the
    key. *)
Lemma Search_resume_chain self h c k d fuel prev nx :
  is_chain h c -> locks_free h -> In nx c ->
  (forall x, In x c -> before h x nx -> ekey_lt (ekey h x) (Fin k)) ->
  length c <= fuel ->
  returns h (Search_resume self fuel k d prev nx)
    (looked_up k d (contents h)) h.
Proof.
  intros Hc Hf Hin Hbelow Hlen.
  apply in_split in Hin as (d1 & d2 & Ec).
  destruct (Search_resume_cand self h c k d fuel prev d1 nx d2 Hc Hf Ec)
    as (passed & cand & d2' & nc & Esplit & Hpassed & Hstop & Hnc & Hret).
  { rewrite Ec, length_app in Hlen. simpl in Hlen. lia. }
  rewrite (looked_up_candidate h c k d (d1 ++ passed) cand d2' nc) in Hret;
    try done.
  - by rewrite Ec, Esplit, app_assoc.
  - apply Forall_app. split; [|done]. apply Forall_forall. intros x Hx.
    apply list_elem_of_In in Hx. apply Hbelow.
    + rewrite Ec. apply in_or_app. by left.
    + pose proof Hc as (_ & _ & Hs & _). rewrite Ec in Hs.
      apply sorted_split in Hs as [Hs _]. rewrite Forall_forall in Hs.
      by apply Hs, list_elem_of_In.
Qed.

(** After a call that changed nothing. *)
Lemma Search_resume_same a h c k d c1 p nx c2 fuel :
  is_chain h c -> locks_free h -> c = c1 ++ p :: nx :: c2 ->
  ekey_lt (ekey h p) (Fin k) -> length h <= fuel ->
  returns h (Search_resume a fuel k d p nx) (looked_up k d (contents h)) h.
Proof.
  intros Hc Hf Ec Hp Hlen. pose proof (chain_length _ _ Hc).
  apply (Search_resume_chain a h c); try done; [| | lia].
  - rewrite Ec. apply in_middle2.
  - intros x Hin Hb. rewrite Ec in Hc, Hin.
    exact (passed_before h _ c1 p nx c2 k x Hc eq_refl Hp Hin Hb).
Qed.

(** After an insertion of another thread. *)
Lemma Search_resume_spliced_in a h k d c1 p nx c2 e1 prev next e2 k' v :
  is_chain h (c1 ++ p :: nx :: c2) -> locks_free h ->
  ekey_lt (ekey h p) (Fin k) ->
  is_chain h (e1 ++ prev :: next :: e2) ->
  ekey_lt (ekey h prev) (Fin k') -> ekey_lt (Fin k') (ekey h next) ->
  locks_free (spliced_in h prev next k' v) ->
  exists ans,
    (forall fuel, length (spliced_in h prev next k' v) <= fuel ->
       returns (spliced_in h prev next k' v) (Search_resume a fuel k d p nx)
         ans (spliced_in h prev next k' v)) /\
    (ans = looked_up k d (contents h) \/
     ans = looked_up k d (contents (spliced_in h prev next k' v))).
Proof.
  intros Hc Hf Hp Hc0 Hlo Hhi Hf1.
  set (h1 := spliced_in h prev next k' v) in *.
  pose proof (spliced_in_chain h e1 prev next e2 k' v Hc0 Hlo Hhi) as Hc1.
  fold h1 in Hc1.
  pose proof (chain_unique _ _ _ Hc Hc0) as Ec.
  pose proof Hc0 as (_ & _ & Hs0 & _).
  destruct (chain_node _ _ prev Hc0) as (np & Hnp & _); [apply in_middle|].
  destruct (chain_node _ _ next Hc0) as (nn & Hnn & _); [apply in_middle2|].
  assert (prev <> next) as Hpn.
  { intros ->. apply sorted_middle in Hs0. by apply before_irrefl in Hs0. }
  assert (forall x, In x (c1 ++ p :: nx :: c2) -> ekey h1 x = ekey h x)
    as Hek.
  { intros x Hx. apply (ekey_spliced_in_other h prev next k' v np nn);
      try done.
    apply (chain_in_heap _ _ _ Hc) in Hx. lia. }
  assert (ekey h1 (length h) = Fin k') as Hnew.
  { pose proof (chain_in_heap _ _ head Hc) as H1.
    pose proof (chain_in_heap _ _ tail Hc) as H2.
    destruct Hc as (He & _).
    specialize (H1 (ends_head_in _ He)). specialize (H2 (ends_tail_in _ He)).
    unfold ekey.
    destruct (Nat.eqb_spec (length h) head) as [E|_]; [lia|].
    destruct (Nat.eqb_spec (length h) tail) as [E|_]; [lia|].
    unfold h1. by rewrite key_of_spliced_in_new. }
  assert (forall x, In x (e1 ++ prev :: length h :: next :: e2) ->
            x = length h \/ In x (c1 ++ p :: nx :: c2)) as Hmem.
  { intros x Hx. rewrite Ec.
    apply in_app_or in Hx as [Hx|[<-|[<-|Hx]]].
    - right. apply in_or_app. by left.
    - right. apply in_middle.
    - by left.
    - right. apply in_or_app. right. by right. }
  assert (In nx (e1 ++ prev :: length h :: next :: e2)) as Hnx.
  { assert (In nx (e1 ++ prev :: next :: e2)) as Hx
      by (rewrite <- Ec; apply in_middle2).
    apply in_app_or in Hx as [Hx|[<-|Hx]].
    - apply in_or_app. by left.
    - apply in_middle.
    - apply in_or_app. right. right. by right. }
  assert (In nx (c1 ++ p :: nx :: c2)) as Hnx0 by apply in_middle2.
  pose proof (chain_length _ _ Hc1) as Hlen1.
  destruct (Z_lt_dec k' k) as [Hlt|Hge];
    [| destruct (ekey_lt_dec (Fin k') (ekey h nx)) as [Hbefore|Hafter]].
  - (* the new key is below the key *)
    exists (looked_up k d (contents h1)). split; [|by right].
    intros fuel Hfuel.
    apply (Search_resume_chain a h1 _ k d fuel p nx Hc1 Hf1 Hnx); [|lia].
    intros x Hx Hb. destruct (Hmem x Hx) as [->|Hx0].
    + by rewrite Hnew.
    + rewrite (Hek x Hx0). unfold before in Hb.
      rewrite (Hek x Hx0), (Hek nx Hnx0) in Hb.
      exact (passed_before h _ c1 p nx c2 k x Hc eq_refl Hp Hx0 Hb).
  - (* the new node is before the successor, and not below the key *)
    exists (false, Some d). split.
    + intros fuel Hfuel.
      destruct (in_split _ _ Hnx) as (d1 & d2 & Ed).
      destruct (Search_resume_cand a h1 _ k d fuel p d1 nx d2 Hc1 Hf1 Ed)
        as (passed & cand & d2' & nc & Esplit & Hpassed & Hstop & Hnc & Hret).
      { rewrite Ed, length_app in Hlen1. simpl in Hlen1. lia. }
      assert (~ ekey_lt (ekey h1 nx) (Fin k)) as Hnot.
      { intros Hb. rewrite (Hek nx Hnx0) in Hb.
        pose proof (ekey_lt_trans _ _ _ Hbefore Hb) as Hkk. simpl in Hkk.
        lia. }
      destruct passed as [|x ps].
      2: { injection Esplit as <- _. by apply Forall_inv in Hpassed. }
      simpl in Esplit. injection Esplit as <- _.
      assert ((key nc =? k)%Z && negb (Nat.eqb nx tail) = false) as Eb.
      { destruct (Nat.eqb_spec nx tail) as [|Hnt]; [by rewrite andb_false_r|].
        rewrite andb_true_r. apply Z.eqb_neq. intros Ek.
        pose proof Hbefore as Hb. rewrite <- (Hek nx Hnx0) in Hb.
        unfold ekey, key_of in Hb. rewrite Hnc in Hb.
        destruct (Nat.eqb nx head); [done|].
        destruct (Nat.eqb_spec nx tail); [done|]. simpl in Hb. lia. }
      simpl in Hret. by rewrite Eb in Hret.
    + left. unfold looked_up.
      assert (ekey_lt (Fin k) (ekey h nx)) as Hgt.
      { destruct (ekey h nx); simpl in *; try done. lia. }
      destruct (contents_between h c1 p nx c2 k Hc Hp Hgt)
        as (t1 & t2 & _ & _ & -> & H1 & H2).
      by rewrite assoc_absent.
  - (* the new node is behind the successor *)
    exists (looked_up k d (contents h1)). split; [|by right].
    intros fuel Hfuel.
    apply (Search_resume_chain a h1 _ k d fuel p nx Hc1 Hf1 Hnx); [|lia].
    intros x Hx Hb. destruct (Hmem x Hx) as [->|Hx0].
    + exfalso. apply Hafter. unfold before in Hb.
      by rewrite Hnew, (Hek nx Hnx0) in Hb.
    + rewrite (Hek x Hx0). unfold before in Hb.
      rewrite (Hek x Hx0), (Hek nx Hnx0) in Hb.
      exact (passed_before h _ c1 p nx c2 k x Hc eq_refl Hp Hx0 Hb).
Qed.

(** After a deletion of another thread. *)
Lemma Search_resume_spliced_out a h k d c1 p nx c2 e1 prev del next e2 k' :
  is_chain h (c1 ++ p :: nx :: c2) -> locks_free h ->
  ekey_lt (ekey h p) (Fin k) ->
  is_chain h (e1 ++ prev :: del :: next :: e2) ->
  ekey h del = Fin k' ->
  exists ans,
    (forall fuel, S (length h) <= fuel ->
       returns (spliced_out h prev del next) (Search_resume a fuel k d p nx)
         ans (spliced_out h prev del next)) /\
    ans = looked_up k d (contents (spliced_out h prev del next)).
Proof.
  intros Hc Hf Hp Hc0 Hk'.
  set (h1 := spliced_out h prev del next) in *.
  pose proof (spliced_out_chain h e1 prev del next e2 Hc0) as Hc1.
  fold h1 in Hc1.
  pose proof (chain_unique _ _ _ Hc Hc0) as Ec.
  pose proof Hc0 as (_ & Hl0 & Hs0 & _).
  assert (e1 ++ prev :: del :: next :: e2
          = (e1 ++ [prev]) ++ del :: next :: e2) as Ee
    by (by rewrite <- app_assoc).
  destruct (chain_node _ _ prev Hc0) as (np & Hnp & _); [apply in_middle|].
  destruct (chain_node _ _ del Hc0) as (nd & Hnd & _); [apply in_middle2|].
  destruct (chain_node _ _ next Hc0) as (nn & Hnn & _);
    [rewrite Ee; apply in_middle2|].
  pose proof (sorted_middle _ _ _ _ _ Hs0) as H1.
  pose proof Hs0 as Hs0'. rewrite Ee in Hs0'.
  pose proof (sorted_middle _ _ _ _ _ Hs0') as H2.
  assert (prev <> del) as Hpd by (intros ->; by apply before_irrefl in H1).
  assert (del <> next) as Hdn by (intros ->; by apply before_irrefl in H2).
  assert (prev <> next) as Hpn.
  { intros ->. apply (before_irrefl h next).
    exact (ekey_lt_trans _ _ _ H1 H2). }
  assert (forall x, ekey h1 x = ekey h x) as Hek
    by (intros x; by apply (ekey_spliced_out h prev del next np nd nn)).
  assert (locks_free h1) as Hf1
    by (by apply (locks_free_spliced_out h prev del next np nd nn)).
  assert (forall x, In x (e1 ++ prev :: next :: e2) ->
            In x (c1 ++ p :: nx :: c2)) as Hmem.
  { intros x Hx. rewrite Ec.
    apply in_app_or in Hx as [Hx|[<-|Hx]].
    - apply in_or_app. by left.
    - apply in_middle.
    - apply in_or_app. right. right. by right. }
  assert (forall x, In x (e1 ++ prev :: next :: e2) -> before h1 x nx ->
            ekey_lt (ekey h1 x) (Fin k)) as Hbelow.
  { intros x Hx Hb. unfold before in Hb. rewrite !Hek in Hb. rewrite Hek.
    exact (passed_before h _ c1 p nx c2 k x Hc eq_refl Hp (Hmem x Hx) Hb). }
  assert (length h1 = length h) as Hlh.
  { unfold h1, spliced_out. by rewrite !length_alter. }
  pose proof (chain_length _ _ Hc1) as Hlen1.
  destruct (decide (nx = del)) as [->|Hne].
  - (* the successor is the node that was deleted *)
    assert (ekey_lt (ekey h1 prev) (Fin k)) as Hprev.
    { rewrite Hek.
      apply (passed_before h _ c1 p del c2 k prev Hc eq_refl Hp);
        [rewrite Ec; apply in_middle | done]. }
    destruct (ekey_Fin _ _ _ Hk') as (Hdh & Hdt & Hkey).
    unfold key_of in Hkey. rewrite Hnd in Hkey.
    assert (h1 !! del = Some (set_isNodeActive false nd)) as Hdel.
    { unfold h1. rewrite (lookup_spliced_out h prev del next np nd nn) by done.
      repeat case_decide; congruence. }
    assert (next_of h1 del = Some next) as Hnext.
    { unfold h1.
      rewrite (next_of_spliced_out_other h prev del next np nd nn) by done.
      rewrite Ee in Hl0. by apply links_middle in Hl0 as [? _]. }
    assert (lock nd = new_lock) as Hlock by exact (free_lock h del nd Hf Hnd).
    assert (relock held_READ del h1 !! del
            = Some (set_lock held_READ (set_isNodeActive false nd))) as Hld
      by (by apply lookup_relock_eq).
    assert (relock new_lock del (relock held_READ del h1) = h1) as Hrel
      by (by apply (relock_release _ del h1 (set_isNodeActive false nd))).
    destruct (Z_lt_dec k' k) as [Hlt|Hge].
    + (* the deleted node is below the key: the walk goes on from it *)
      exists (looked_up k d (contents h1)). split; [|done].
      intros [|fuel] Hfuel; [lia|].
      assert (e1 ++ prev :: next :: e2 = (e1 ++ [prev]) ++ next :: e2) as Ee1
        by (by rewrite <- app_assoc).
      destruct (FindKey_loop_read a h1 _ k Hc1 Hf1 fuel (e1 ++ [prev]) del
                  next e2 Ee1)
        as (passed & cand & d2' & Esplit & Hpassed & Hstop & Hret).
      { rewrite Ee1, length_app in Hlen1. simpl in Hlen1. lia. }
      assert (In cand (e1 ++ prev :: next :: e2)) as Hcand
        by (rewrite Ee1, Esplit, app_assoc; apply in_middle).
      destruct (chain_node _ _ cand Hc1 Hcand) as (nc & Hnc & _).
      destruct (chain_node _ _ next Hc1) as (nn1 & Hnn1 & _);
        [rewrite Ee1; apply in_middle|].
      rewrite <- (looked_up_candidate h1 _ k d ((e1 ++ [prev]) ++ passed)
                    cand d2' nc Hc1); try done.
      2: { by rewrite Ee1, Esplit, app_assoc. }
      2: { apply Forall_app. split; [|done]. apply Forall_app. split.
           - apply Forall_forall. intros x Hx. apply list_elem_of_In in Hx.
             pose proof Hc1 as (_ & _ & Hs1 & _).
             apply sorted_split in Hs1 as [Hs1 _].
             rewrite Forall_forall in Hs1.
             apply list_elem_of_In, Hs1 in Hx.
             exact (ekey_lt_trans _ _ _ Hx Hprev).
           - by constructor. }
      unfold Search_resume.
      eapply returns_bind; [by eapply returns_LockRead|].
      apply (returns_bind _ (relock held_READ cand h1) _ _ _
               (default del (last passed), cand));
        [| simpl snd; by eapply Search_finish_chain].
      simpl FindKey_loop.
      eapply returns_bind; [by apply returns_load|]. simpl.
      assert ((key nd <? k)%Z = true) as -> by (apply Z.ltb_lt; lia).
      destruct (Nat.eqb_spec del tail) as [|_]; [done|]. simpl.
      eapply returns_bind.
      { unfold AdvanceAndLockReadMayWrite.
        eapply returns_bind;
          [apply returns_load_nextPtr; by rewrite next_of_relock|].
        eapply returns_bind;
          [eapply returns_ReleaseSharedLock; [done | by right]|].
        rewrite Hrel.
        eapply returns_bind;
          [eapply returns_LockRead; [done | by eapply free_lock]|].
        apply returns_ret. }
      exact Hret.
    + (* the deleted node is the candidate, and it is not active *)
      exists (false, Some d). split.
      * intros [|fuel] Hfuel; [lia|]. unfold Search_resume.
        eapply returns_bind; [by eapply returns_LockRead|].
        eapply returns_bind.
        { simpl FindKey_loop.
          eapply returns_bind; [by apply returns_load|]. simpl.
          assert ((key nd <? k)%Z = false) as -> by (apply Z.ltb_ge; lia).
          destruct (Nat.eqb_spec del head) as [|_]; [done|]. simpl.
          apply returns_ret. }
        simpl snd. unfold Search_finish.
        eapply returns_bind; [by apply returns_load|]. simpl.
        rewrite andb_false_r. simpl.
        eapply returns_bind;
          [eapply returns_ReleaseSharedLock; [done | by right]|].
        rewrite Hrel. apply returns_ret.
      * unfold looked_up.
        assert (ekey_lt (Fin k) (ekey h1 next)) as Hgt.
        { rewrite Hek. unfold before in H2. rewrite Hk' in H2.
          destruct (ekey h next); simpl in *; try done. lia. }
        destruct (contents_between h1 e1 prev next e2 k Hc1 Hprev Hgt)
          as (t1 & t2 & _ & _ & -> & Ht1 & Ht2).
        by rewrite assoc_absent.
  - (* the successor is still in the list *)
    exists (looked_up k d (contents h1)). split; [|done].
    intros fuel Hfuel.
    apply (Search_resume_chain a h1 _ k d fuel p nx Hc1 Hf1);
      [| done | lia].
    assert (In nx (e1 ++ prev :: del :: next :: e2)) as Hx
      by (rewrite <- Ec; apply in_middle2).
    apply in_app_or in Hx as [Hx|[<-|[<-|Hx]]].
    + apply in_or_app. by left.
    + apply in_middle.
    + done.
    + apply in_or_app. right. by right.
Qed.

Lemma Search_handover_spec a h c1 p nx c2 :
  is_chain h (c1 ++ p :: nx :: c2) -> locks_free h ->
  returns (relock held_READ p h) (Search_handover a p) nx h.
Proof.
  intros Hc Hf. pose proof Hc as (_ & Hl & _).
  destruct (chain_node _ _ p Hc) as (np & Hnp & _); [apply in_middle|].
  unfold Search_handover.
  eapply returns_bind.
  { apply returns_load_nextPtr. rewrite next_of_relock.
    by apply links_middle in Hl as [? _]. }
  eapply returns_bind.
  { eapply returns_ReleaseSharedLock; [by apply lookup_relock_eq | by right]. }
  rewrite (relock_release _ p h np) by (by eauto using free_lock).
  apply returns_ret.
Qed.

(** X25: [Search] across a call of another thread.  [Search] is a walk
    that hands over from node to node, and in a hand-over it holds no lock
    between the release of the node and the acquisition of its successor.
    When one thread has passed the nodes up to [p], which are below the
    key, has read the successor of [p] and released [p], and another
    thread then runs any one call (which may unlink that successor, or
    link a node in before it), the [Search] of the first thread goes on
    from the successor it read, returns, leaves the list as the other
    call left it, and its answer is that of the table before the other
    call or that of the table after it. *)
Theorem Search_after_other_call (a b : ThreadId) (h : list Node)
    (c1 : list NodePtr) (p nx : NodePtr) (c2 : list NodePtr) (cl : Call)
    (k : Z) (d : ascii) :
  WF h -> is_chain h (c1 ++ p :: nx :: c2) ->
  ekey_lt (ekey h p) (Fin k) ->
  (forall fuel s,
     Search a fuel k (Some d) s
     = bind (LockRead a head)
         (fun _ => bind (FindKey_loop a fuel k true head head)
                     (fun r => Search_finish a k d (snd r))) s) /\
  (forall fuel prev s n,
     load p s = Some (n, s) ->
     (key n <? k)%Z && negb (Nat.eqb p tail) || Nat.eqb p head = true ->
     bind (FindKey_loop a (S fuel) k true prev p)
       (fun r => Search_finish a k d (snd r)) s
     = bind (Search_handover a p) (Search_resume a fuel k d p) s) /\
  returns (relock held_READ p h) (Search_handover a p) nx h /\
  exists r h1 ans,
    WF h1 /\
    (ans = looked_up k d (contents h) \/
     ans = looked_up k d (contents h1)) /\
    forall fuel, S (S (length h)) <= fuel ->
      returns h (call b fuel cl) r h1 /\
      returns h1 (Search_resume a fuel k d p nx) ans h1.
Proof.
  intros Hwf Hc Hp. pose proof Hwf as [_ Hf].
  split; [intros fuel s; apply Search_split|].
  split; [intros fuel prev s n; apply Search_handover_split|].
  split; [by eapply Search_handover_spec|].
  destruct (run_call_shape b h cl Hwf)
    as (r & h1 & Hwf1 & Hlen1 & Hr & Hshape).
  destruct Hshape
    as [->|[(e1 & prev & next & e2 & k' & v & Hc0 & Hlo & Hhi & ->)
           |(e1 & prev & del & next & e2 & k' & Hc0 & Hk' & ->)]].
  - exists r, h, (looked_up k d (contents h)).
    split_and!; [done | by left |]. intros fuel Hfuel.
    split; [apply Hr; lia|].
    apply (Search_resume_same a h _ k d c1 p nx c2 fuel Hc Hf eq_refl Hp).
    lia.
  - destruct (Search_resume_spliced_in a h k d c1 p nx c2 e1 prev next e2 k'
                v Hc Hf Hp Hc0 Hlo Hhi (proj2 Hwf1)) as (ans & Hret & Hans).
    exists r, (spliced_in h prev next k' v), ans.
    split_and!; [done | done |]. intros fuel Hfuel.
    split; [apply Hr; lia | apply Hret; lia].
  - destruct (Search_resume_spliced_out a h k d c1 p nx c2 e1 prev del next
                e2 k' Hc Hf Hp Hc0 Hk') as (ans & Hret & Hans).
    exists r, (spliced_out h prev del next), ans.
    split_and!; [done | by right |]. intros fuel Hfuel.
    split; [apply Hr; lia | apply Hret; lia].
Qed.

Lemma Search_after_other_call_witness :
  WF list_5 /\ is_chain list_5 ([] ++ head :: 2 :: [tail]) /\
  ekey_lt (ekey list_5 head) (Fin 5) /\
  exists r h1 ans,
    (ans = looked_up 5 "z" (contents list_5) \/
     ans = looked_up 5 "z" (contents h1)) /\
    returns list_5 (call 2 5 (CallDelete 5)) r h1 /\
    returns h1 (Search_resume 1 5 5 "z" head 2) ans h1.
Proof.
  assert (ekey_lt (ekey list_5 head) (Fin 5)) as Hp by exact I.
  split; [exact list_5_WF|]. split; [exact list_5_chain|].
  split; [exact Hp|].
  destruct (Search_after_other_call 1 2 list_5 [] head 2 [tail]
              (CallDelete 5) 5 "z" list_5_WF list_5_chain Hp)
    as (_ & _ & _ & r & h1 & ans & _ & Hans & Hr).
  exists r, h1, ans. split; [exact Hans|]. exact (Hr 5 (le_n 5)).
Defined.

(** ** [Search] among readers *)

Lemma is_chain_same_fields h h' c :
  same_fields h h' -> is_chain h c -> is_chain h' c.
Proof.
  intros Hsf (He & Hl & Hs & Ha & Hp & Hn). split_and!.
  - done.
  - apply (links_ext h); [| | done]; intros q _; by destruct (Hsf q) as (? & ? & _).
  - apply (sorted_ext h); [|done]. intros q _. unfold ekey.
    destruct (Hsf q) as (_ & _ & -> & _). done.
  - eapply Forall_impl; [exact Ha|]. intros q Hq.
    by apply (Hsf q).
  - destruct (Hsf head) as (_ & -> & _). done.
  - destruct (Hsf tail) as (-> & _). done.
Qed.

Lemma same_fields_reading h p : same_fields h (reading h p).
Proof.
  intros q. unfold next_of, prev_of, key_of, active_in, reading.
  rewrite list_lookup_alter. case_decide; [subst|]; [| tauto].
  destruct (h !! q) as [n|] eqn:E; simpl.
  - split_and!; try done.
    split; intros (n' & [= <-] & ?); eexists; (split; [done|]); done.
  - tauto.
Qed.

Lemma LockRead_enter_among self l :
  admits_reader self l ->
  LockRead_enter self l = Some (Proceed (with_reader l) None).
Proof.
  intros (Hq & Hw & _ & _).
  unfold LockRead_enter, Lock_enter, Wait_enter, ShouldThreadWait.
  rewrite Hq. simpl. unfold CanReaderAcquireLock. rewrite Hw. done.
Qed.

Lemma ReleaseSharedLock_among self l :
  admits_reader self l ->
  exists n, RMWLock.ReleaseSharedLock self (with_reader l) = Some (l, n).
Proof.
  intros (Hq & Hw & Hr & Hm). unfold RMWLock.ReleaseSharedLock, with_reader.
  simpl. rewrite LockLaws.uint_incr_small by done.
  assert ((0 <? readersNumber l + 1)%Z = true) as ->
    by (apply Z.ltb_lt; lia).
  simpl. rewrite uint_decr_small by lia.
  replace (readersNumber l + 1 - 1)%Z with (readersNumber l) by lia.
  assert (tid_eqb (mayWriterThreadId l) (Some self) = false) as ->.
  { destruct (tid_eqb _ _) eqn:E; [|done]. by apply tid_eqb_eq in E. }
  destruct l as [q r w m]. simpl in *.
  destruct (0 <? r)%Z; by eexists.
Qed.

Lemma lookup_reading h (p : NodePtr) n :
  h !! p = Some n ->
  reading h p !! p = Some (set_lock (with_reader (lock n)) n).
Proof.
  intros Hp. unfold reading. rewrite list_lookup_alter_eq. by rewrite Hp.
Qed.

Lemma reading_relock h (p : NodePtr) n :
  h !! p = Some n -> reading h p = relock (with_reader (lock n)) p h.
Proof.
  intros Hp. unfold reading, relock.
  apply list_eq. intros q. rewrite !list_lookup_alter.
  case_decide; [subst; by rewrite Hp | done].
Qed.

Lemma returns_LockRead_among self h (p : NodePtr) n :
  h !! p = Some n -> admits_reader self (lock n) ->
  returns h (LockRead self p) tt (reading h p).
Proof.
  intros Hp Ha. rewrite (reading_relock h p n Hp).
  eapply returns_lock_call; [done|]. by apply LockRead_enter_among.
Qed.

Lemma returns_Release_among self h (p : NodePtr) n :
  h !! p = Some n -> admits_reader self (lock n) ->
  returns (reading h p) (ReleaseSharedLock self p) tt h.
Proof.
  intros Hp Ha. destruct (ReleaseSharedLock_among self (lock n) Ha) as [x Hx].
  assert (h = relock (lock n) p (reading h p)) as Eh.
  { rewrite (reading_relock h p n Hp), relock_relock.
    symmetry. by apply (relock_id _ p h n). }
  rewrite Eh at 2.
  eapply returns_release_call; [by apply lookup_reading|]. simpl. exact Hx.
Qed.

Lemma among_node self h (p : NodePtr) n :
  Forall (fun n => admits_reader self (lock n)) h -> h !! p = Some n ->
  admits_reader self (lock n).
Proof.
  intros HF Hp. rewrite Forall_forall in HF. apply HF.
  by eapply list_elem_of_lookup_2.
Qed.

(** The loop of [FindKey] in read mode among readers. *)
Lemma FindKey_loop_read_among self h0 c key0 :
  is_chain h0 c -> Forall (fun n => admits_reader self (lock n)) h0 ->
  forall fuel c1 prev next c2,
    c = c1 ++ next :: c2 ->
    length c2 < fuel ->
    exists passed next' c2',
      next :: c2 = passed ++ next' :: c2' /\
      Forall (fun x => ekey_lt (ekey h0 x) (Fin key0)) passed /\
      ~ ekey_lt (ekey h0 next') (Fin key0) /\
      returns (reading h0 next)
        (FindKey_loop self fuel key0 true prev next)
        (default prev (last passed), next')
        (reading h0 next').
Proof.
  intros Hc Hf. pose proof Hc as (He & Hl & Hs & _).
  induction fuel as [|fuel IH]; intros c1 prev next c2 Ec Hlen;
    [simpl in Hlen; lia|].
  destruct (chain_node _ _ next Hc) as (nn & Hnn & _);
    [rewrite Ec; apply in_middle|].
  pose proof (among_node _ _ _ _ Hf Hnn) as Hln.
  simpl FindKey_loop.
  destruct ((key nn <? key0)%Z && negb (Nat.eqb next tail)
            || Nat.eqb next head) eqn:Ht.
  - apply (FindKey_test h0 next nn key0 Hnn) in Ht.
    assert (next <> tail) as Hnt.
    { intros ->. by rewrite ekey_tail in Ht. }
    destruct (chain_has_next c1 next c2) as (next2 & c2r & ->);
      [by rewrite <- Ec | done |].
    assert (c = (c1 ++ [next]) ++ next2 :: c2r) as Ec'
      by (by rewrite <- app_assoc).
    destruct (IH (c1 ++ [next]) next next2 c2r Ec')
      as (passed & next' & c2' & Esplit & Hpassed & Hstop & Hret);
      [simpl in Hlen; lia|].
    destruct (chain_node _ _ next2 Hc) as (n2 & Hn2 & _);
      [rewrite Ec'; apply in_middle|].
    exists (next :: passed), next', c2'. split; [by rewrite Esplit|].
    split; [by constructor|]. split; [done|].
    assert (default prev (last (next :: passed)) = default next (last passed))
      as -> by (rewrite last_cons; by destruct (last passed)).
    eapply returns_bind; [apply returns_load; by apply lookup_reading|].
    simpl.
    apply (FindKey_test h0 next nn key0 Hnn) in Ht. rewrite Ht.
    eapply returns_bind.
    { unfold AdvanceAndLockReadMayWrite.
      eapply returns_bind.
      { apply returns_load_nextPtr.
        destruct (same_fields_reading h0 next next) as (-> & _).
        rewrite Ec in Hl. by apply links_middle in Hl as [? _]. }
      eapply returns_bind; [by eapply returns_Release_among|].
      eapply returns_bind;
        [eapply returns_LockRead_among; [done | by eapply among_node]|].
      apply returns_ret. }
    exact Hret.
  - exists [], next, c2. split; [done|]. split; [done|]. split.
    + intros Hlt. apply (FindKey_test h0 next nn key0 Hnn) in Hlt. congruence.
    + eapply returns_bind; [apply returns_load; by apply lookup_reading|].
      simpl. rewrite Ht. apply returns_ret.
Qed.

(** X26: [Search] is not held up by readers and may-writers: on a list
    whose node locks are held by nobody or by other threads in READ or in
    MAY_WRITE, with nobody waiting, [Search] returns the answer of the
    table, and leaves the heap, with the counts of readers, as it was. *)
Theorem Search_among_readers (self : ThreadId) (h : list Node)
    (c : list NodePtr) (k : Z) (d : ascii) (fuel : nat) :
  is_chain h c ->
  Forall (fun n => admits_reader self (lock n)) h ->
  length c <= fuel ->
  returns h (Search self fuel k (Some d)) (looked_up k d (contents h)) h.
Proof.
  intros Hc Hf Hlen.
  destruct (chain_shape _ _ Hc) as (nx & c2 & Ec).
  destruct (chain_node _ _ head Hc) as (nh & Hnh & _);
    [rewrite Ec; by left|].
  destruct (FindKey_loop_read_among self h c k Hc Hf fuel [] head head
              (nx :: c2) Ec)
    as (passed & cand & c2' & Esplit & Hpassed & Hstop & Hret);
    [rewrite Ec in Hlen; simpl in *; lia|].
  assert (c = passed ++ cand :: c2') as Ec' by (by rewrite Ec).
  destruct (chain_node _ _ cand Hc) as (nc & Hnc & Hact);
    [rewrite Ec'; apply in_middle|].
  rewrite <- (looked_up_candidate h c k d passed cand c2' nc Hc Ec' Hpassed
                Hstop Hnc).
  unfold Search.
  eapply returns_bind;
    [eapply returns_LockRead_among; [done | by eapply among_node]|].
  eapply returns_bind; [unfold FindKey; simpl|].
  { eapply returns_bind; [apply returns_ret|].
    eapply returns_bind; [apply returns_ret|]. exact Hret. }
  simpl.
  eapply returns_bind; [apply returns_load; by apply lookup_reading|]. simpl.
  rewrite Hact, andb_true_r.
  eapply returns_bind;
    [eapply returns_Release_among; [done | by eapply among_node]|].
  apply returns_ret.
Qed.

Lemma list_5_shared_chain : is_chain list_5_shared [head; 2; tail].
Proof.
  apply (is_chain_same_fields list_5); [|exact list_5_chain].
  unfold list_5_shared.
  eapply same_fields_trans; apply same_fields_relock.
Qed.

Lemma list_5_shared_among :
  Forall (fun n => admits_reader 1 (lock n)) list_5_shared.
Proof.
  repeat constructor; simpl; unfold UINT_MOD; (lia || discriminate).
Qed.

Lemma Search_among_readers_witness :
  is_chain list_5_shared [head; 2; tail] /\
  Forall (fun n => admits_reader 1 (lock n)) list_5_shared /\
  length [head; 2; tail] <= 3 /\
  returns list_5_shared (Search 1 3 5 (Some "z"%char)) (true, Some "a"%char)
    list_5_shared.
Proof.
  split; [exact list_5_shared_chain|]. split; [exact list_5_shared_among|].
  split; [apply le_n|].
  exact (Search_among_readers 1 list_5_shared [head; 2; tail] 5 "z" 3
           list_5_shared_chain list_5_shared_among (le_n 3)).
Defined.

(** ** Pointers of deleted nodes *)

Lemma chain_adjacent h c1 a b c2 :
  is_chain h (c1 ++ a :: b :: c2) ->
  exists na nb, h !! a = Some na /\ h !! b = Some nb /\ a <> b /\ before h a b.
Proof.
  intros Hc.
  destruct (chain_node _ _ _ Hc (in_middle c1 a (b :: c2))) as (na & Ha & _).
  destruct (chain_node _ _ _ Hc (in_middle2 c1 a b c2)) as (nb & Hb & _).
  pose proof Hc as (_ & _ & Hs & _). apply sorted_middle in Hs.
  exists na, nb. split_and!; try done. intros ->. by apply before_irrefl in Hs.
Qed.

Lemma sentinels_in_heap h : WF h -> head < length h /\ tail < length h.
Proof.
  intros [[c Hc] _]. pose proof Hc as (He & _). split.
  - eapply chain_in_heap; [done | by apply ends_head_in].
  - eapply chain_in_heap; [done | by apply ends_tail_in].
Qed.

Lemma ordered_links_spliced_in h c1 prev next c2 k v :
  WF h ->
  is_chain h (c1 ++ prev :: next :: c2) ->
  ekey_lt (ekey h prev) (Fin k) ->
  ekey_lt (Fin k) (ekey h next) ->
  ordered_links h -> ordered_links (spliced_in h prev next k v).
Proof.
  intros Hwf Hc Hlo Hhi Ho.
  destruct (sentinels_in_heap h Hwf) as [Hhd Htl].
  destruct (chain_adjacent _ _ _ _ _ Hc) as (np & nn & Hnp & Hnn & Hne & Hb).
  pose proof (lookup_lt_Some _ _ _ Hnp) as Hpl.
  pose proof (lookup_lt_Some _ _ _ Hnn) as Hnl.
  set (h1 := spliced_in h prev next k v).
  assert (length h1 = S (length h)) as Hlen.
  { unfold h1, spliced_in. rewrite length_app, !length_alter. simpl. lia. }
  assert (forall q : NodePtr, q < length h -> ekey h1 q = ekey h q) as Hold.
  { intros q Hq. apply (ekey_spliced_in_other h prev next k v np nn); try done.
    lia. }
  assert (ekey h1 (length h) = Fin k) as Hnew.
  { unfold ekey.
    destruct (Nat.eqb_spec (length h) head) as [E|_]; [lia|].
    destruct (Nat.eqb_spec (length h) tail) as [E|_]; [lia|].
    f_equal. apply key_of_spliced_in_new. }
  assert (forall a b : NodePtr, a < length h -> b < length h ->
            before h a b -> before h1 a b) as Hbef.
  { intros a b Ha Hb'. unfold before. by rewrite !Hold. }
  assert (before h1 prev (length h)) as Hb1.
  { unfold before. by rewrite Hnew, Hold. }
  assert (before h1 (length h) next) as Hb2.
  { unfold before. by rewrite Hnew, Hold. }
  intros q n Hq. rewrite Hlen. unfold h1 in Hq.
  rewrite lookup_spliced_in in Hq.
  destruct (decide (q = length h)) as [->|Hql].
  { injection Hq as <-. simpl. split; intros _.
    - exists next. split_and!; [done | lia | done].
    - exists prev. split_and!; [done | lia | done]. }
  destruct (decide (next = q)) as [<-|Hqn].
  { destruct (decide (prev = next)) as [|_]; [done|].
    rewrite Hnn in Hq. injection Hq as <-. simpl.
    destruct (Ho next nn Hnn) as [Hnx _]. split.
    - intros Ht. destruct (Hnx Ht) as (q & ? & ? & ?).
      exists q. split_and!; [done | lia | by apply Hbef].
    - intros _. exists (length h). split_and!; [done | lia | done]. }
  destruct (decide (prev = q)) as [<-|Hqp].
  { rewrite Hnp in Hq. injection Hq as <-. simpl.
    destruct (Ho prev np Hnp) as [_ Hpv]. split.
    - intros _. exists (length h). split_and!; [done | lia | done].
    - intros Ht. destruct (Hpv Ht) as (q & ? & ? & ?).
      exists q. split_and!; [done | lia | by apply Hbef]. }
  pose proof (lookup_lt_Some _ _ _ Hq) as Hqlt.
  destruct (Ho q n Hq) as [Hnx Hpv]. split; intros Ht.
  - destruct (Hnx Ht) as (q' & ? & ? & ?).
    exists q'. split_and!; [done | lia | by apply Hbef].
  - destruct (Hpv Ht) as (q' & ? & ? & ?).
    exists q'. split_and!; [done | lia | by apply Hbef].
Qed.

Lemma ordered_links_spliced_out h c1 prev del next c2 :
  is_chain h (c1 ++ prev :: del :: next :: c2) ->
  ordered_links h -> ordered_links (spliced_out h prev del next).
Proof.
  intros Hc Ho.
  destruct (chain_adjacent _ _ _ _ _ Hc) as (np & nd & Hnp & Hnd & Hpd & Hb1).
  assert (is_chain h ((c1 ++ [prev]) ++ del :: next :: c2)) as Hc'
    by by rewrite <- app_assoc.
  destruct (chain_adjacent _ _ _ _ _ Hc') as (_ & nn & _ & Hnn & Hdn & Hb2).
  assert (before h prev next) as Hb by exact (ekey_lt_trans _ _ _ Hb1 Hb2).
  assert (prev <> next) as Hpn by (intros ->; by apply before_irrefl in Hb).
  pose proof (lookup_lt_Some _ _ _ Hnp) as Hpl.
  pose proof (lookup_lt_Some _ _ _ Hnn) as Hnl.
  set (h1 := spliced_out h prev del next).
  assert (length h1 = length h) as Hlen.
  { unfold h1, spliced_out. by rewrite !length_alter. }
  assert (forall a b : NodePtr, before h a b -> before h1 a b) as Hbef.
  { intros a b. unfold before, h1.
    by rewrite !(ekey_spliced_out h prev del next np nd nn). }
  intros q n Hq. rewrite Hlen. unfold h1 in Hq.
  rewrite (lookup_spliced_out h prev del next np nd nn) in Hq by done.
  destruct (decide (q = prev)) as [->|Hqp].
  { injection Hq as <-. simpl. destruct (Ho prev np Hnp) as [_ Hpv]. split.
    - intros _. exists next. split_and!; [done | lia | by apply Hbef].
    - intros Ht. destruct (Hpv Ht) as (q & ? & ? & ?).
      exists q. split_and!; [done | lia | by apply Hbef]. }
  destruct (decide (q = del)) as [->|Hqd].
  { injection Hq as <-. simpl. destruct (Ho del nd Hnd) as [Hnx Hpv].
    split; intros Ht.
    - destruct (Hnx Ht) as (q & ? & ? & ?).
      exists q. split_and!; [done | lia | by apply Hbef].
    - destruct (Hpv Ht) as (q & ? & ? & ?).
      exists q. split_and!; [done | lia | by apply Hbef]. }
  destruct (decide (q = next)) as [->|Hqn].
  { injection Hq as <-. simpl. destruct (Ho next nn Hnn) as [Hnx _]. split.
    - intros Ht. destruct (Hnx Ht) as (q & ? & ? & ?).
      exists q. split_and!; [done | lia | by apply Hbef].
    - intros _. exists prev. split_and!; [done | lia | by apply Hbef]. }
  destruct (Ho q n Hq) as [Hnx Hpv]. split; intros Ht.
  - destruct (Hnx Ht) as (q' & ? & ? & ?).
    exists q'. split_and!; [done | lia | by apply Hbef].
  - destruct (Hpv Ht) as (q' & ? & ? & ?).
    exists q'. split_and!; [done | lia | by apply Hbef].
Qed.

(** Every call keeps the links of all nodes ordered. *)
Lemma run_call_ordered self h cl :
  WF h -> ordered_links h ->
  exists r h1,
    WF h1 /\ ordered_links h1 /\ length h1 <= S (length h) /\
    forall fuel, length h <= fuel -> returns h (call self fuel cl) r h1.
Proof.
  intros Hwf Ho.
  destruct (run_call_shape self h cl Hwf)
    as (r & h1 & Hwf1 & Hlen & Hr & Hsh).
  exists r, h1. split_and!; try done.
  destruct Hsh as [-> | [(c1 & prev & next & c2 & k & v & Hc & Hlo & Hhi & ->)
                        | (c1 & prev & del & next & c2 & k & Hc & _ & ->)]].
  - done.
  - by eapply ordered_links_spliced_in.
  - by eapply ordered_links_spliced_out.
Qed.

Lemma run_calls_ordered self h cs :
  WF h -> ordered_links h ->
  exists rs h',
    WF h' /\ ordered_links h' /\
    forall fuel, length h + length cs <= fuel ->
      returns h (calls self fuel cs) rs h'.
Proof.
  revert h. induction cs as [|cl cs IH]; intros h Hwf Ho.
  - exists [], h. split_and!; try done. intros fuel _. apply returns_calls_nil.
  - destruct (run_call_ordered self h cl Hwf Ho)
      as (r & h1 & Hwf1 & Ho1 & Hlen & Hr).
    destruct (IH h1 Hwf1 Ho1) as (rs & h2 & Hwf2 & Ho2 & Hr2).
    exists (r :: rs), h2. split_and!; try done. intros fuel Hle. simpl in Hle.
    apply returns_calls_cons with h1; [apply Hr; lia | apply Hr2; lia].
Qed.

(** The walks from a node of a heap with ordered links. *)
Lemma walk_ordered h fuel (p : NodePtr) :
  ordered_links h -> next_of h tail = None -> p < length h ->
  StronglySorted (before h) (walk fuel h p) /\
  Forall (fun x : NodePtr => x < length h /\ (x = p \/ before h p x))
    (walk fuel h p).
Proof.
  intros Ho Ht. revert p. induction fuel as [|fuel IH]; intros p Hp; simpl.
  { split; constructor. }
  destruct (next_of h p) as [q|] eqn:E.
  - destruct (lookup_lt_is_Some_2 h p Hp) as [n Hn].
    assert (p <> tail) as Hpt by (intros ->; congruence).
    destruct (Ho p n Hn) as [Hnx _].
    destruct (Hnx Hpt) as (q' & Hq' & Hql & Hb).
    unfold next_of in E. rewrite Hn in E.
    assert (q' = q) as -> by congruence.
    destruct (IH q Hql) as [Hs Hf]. split.
    + apply SSorted_cons; [done|].
      eapply List.Forall_impl; [|exact Hf]. intros x [_ [->|Hx]]; [done|].
      exact (ekey_lt_trans _ _ _ Hb Hx).
    + apply List.Forall_cons; [split; [done | by left]|].
      eapply List.Forall_impl; [|exact Hf]. intros x [Hxl [->|Hx]].
      * split; [done | by right].
      * split; [done | right]. exact (ekey_lt_trans _ _ _ Hb Hx).
  - split; [apply SSorted_cons; constructor|].
    apply List.Forall_cons; [split; [done | by left] | constructor].
Qed.

Lemma walk_ends h fuel (p : NodePtr) :
  ordered_links h -> next_of h tail = None -> p < length h ->
  length (walk fuel h p) < fuel ->
  last (walk fuel h p) = Some tail.
Proof.
  intros Ho Ht. revert p. induction fuel as [|fuel IH]; intros p Hp; simpl.
  { lia. }
  destruct (lookup_lt_is_Some_2 h p Hp) as [n Hn].
  destruct (next_of h p) as [q|] eqn:E.
  - intros Hl.
    assert (p <> tail) as Hpt by (intros ->; congruence).
    unfold next_of in E. rewrite Hn in E.
    destruct (Ho p n Hn) as [Hnx _].
    destruct (Hnx Hpt) as (q' & Hq' & Hql & _).
    assert (q' = q) as -> by congruence.
    destruct fuel as [|fuel]; [simpl in Hl; lia|].
    rewrite last_cons. rewrite (IH q Hql) by lia. done.
  - intros _. unfold next_of in E. rewrite Hn in E.
    destruct (decide (p = tail)) as [->|Hpt]; [done|].
    destruct (Ho p n Hn) as [Hnx _].
    destruct (Hnx Hpt) as (q' & Hq' & _). congruence.
Qed.

Lemma walk_short h fuel (p : NodePtr) :
  ordered_links h -> next_of h tail = None -> p < length h ->
  length (walk fuel h p) <= length h.
Proof.
  intros Ho Ht Hp. destruct (walk_ordered h fuel p Ho Ht Hp) as [Hs Hf].
  assert (walk fuel h p ⊆+ seq 0 (length h)) as Hsub.
  { apply NoDup_submseteq; [by eapply sorted_NoDup|].
    intros x Hx%list_elem_of_In. apply elem_of_seq.
    rewrite List.Forall_forall in Hf. destruct (Hf x Hx). lia. }
  apply submseteq_length in Hsub. by rewrite length_seq in Hsub.
Qed.

Lemma walk_back_ordered h fuel (p : NodePtr) :
  ordered_links h -> prev_of h head = None -> p < length h ->
  StronglySorted (flip (before h)) (walk_back fuel h p) /\
  Forall (fun x : NodePtr => x < length h /\ (x = p \/ before h x p))
    (walk_back fuel h p).
Proof.
  intros Ho Ht. revert p. induction fuel as [|fuel IH]; intros p Hp; simpl.
  { split; constructor. }
  destruct (prev_of h p) as [q|] eqn:E.
  - destruct (lookup_lt_is_Some_2 h p Hp) as [n Hn].
    assert (p <> head) as Hpt by (intros ->; congruence).
    destruct (Ho p n Hn) as [_ Hpv].
    destruct (Hpv Hpt) as (q' & Hq' & Hql & Hb).
    unfold prev_of in E. rewrite Hn in E.
    assert (q' = q) as -> by congruence.
    destruct (IH q Hql) as [Hs Hf]. split.
    + apply SSorted_cons; [done|].
      eapply List.Forall_impl; [|exact Hf]. intros x [_ [->|Hx]]; [done|].
      exact (ekey_lt_trans _ _ _ Hx Hb).
    + apply List.Forall_cons; [split; [done | by left]|].
      eapply List.Forall_impl; [|exact Hf]. intros x [Hxl [->|Hx]].
      * split; [done | by right].
      * split; [done | right]. exact (ekey_lt_trans _ _ _ Hx Hb).
  - split; [apply SSorted_cons; constructor|].
    apply List.Forall_cons; [split; [done | by left] | constructor].
Qed.

Lemma walk_back_ends h fuel (p : NodePtr) :
  ordered_links h -> prev_of h head = None -> p < length h ->
  length (walk_back fuel h p) < fuel ->
  last (walk_back fuel h p) = Some head.
Proof.
  intros Ho Ht. revert p. induction fuel as [|fuel IH]; intros p Hp; simpl.
  { lia. }
  destruct (lookup_lt_is_Some_2 h p Hp) as [n Hn].
  destruct (prev_of h p) as [q|] eqn:E.
  - intros Hl.
    assert (p <> head) as Hpt by (intros ->; congruence).
    unfold prev_of in E. rewrite Hn in E.
    destruct (Ho p n Hn) as [_ Hpv].
    destruct (Hpv Hpt) as (q' & Hq' & Hql & _).
    assert (q' = q) as -> by congruence.
    destruct fuel as [|fuel]; [simpl in Hl; lia|].
    rewrite last_cons. rewrite (IH q Hql) by lia. done.
  - intros _. unfold prev_of in E. rewrite Hn in E.
    destruct (decide (p = head)) as [->|Hpt]; [done|].
    destruct (Ho p n Hn) as [_ Hpv].
    destruct (Hpv Hpt) as (q' & Hq' & _). congruence.
Qed.

Lemma flip_sorted_NoDup h c :
  StronglySorted (flip (before h)) c -> NoDup c.
Proof.
  induction 1 as [|a c Hs IH Hf]; constructor; [|done].
  intros Hin%list_elem_of_In. rewrite List.Forall_forall in Hf.
  by apply (before_irrefl h a), Hf.
Qed.

Lemma walk_back_short h fuel (p : NodePtr) :
  ordered_links h -> prev_of h head = None -> p < length h ->
  length (walk_back fuel h p) <= length h.
Proof.
  intros Ho Ht Hp. destruct (walk_back_ordered h fuel p Ho Ht Hp) as [Hs Hf].
  assert (walk_back fuel h p ⊆+ seq 0 (length h)) as Hsub.
  { apply NoDup_submseteq; [by eapply flip_sorted_NoDup|].
    intros x Hx%list_elem_of_In. apply elem_of_seq.
    rewrite List.Forall_forall in Hf. destruct (Hf x Hx). lia. }
  apply submseteq_length in Hsub. by rewrite length_seq in Hsub.
Qed.

Lemma new_list_ordered : ordered_links (heap new_list).
Proof.
  intros p n Hp. destruct p as [|[|p]]; simpl in Hp; [| |done].
  - injection Hp as <-. split; [intros _ | done].
    exists tail. split_and!; [done | cbv; lia | by cbv].
  - injection Hp as <-. split; [done | intros _].
    exists head. split_and!; [done | cbv; lia | by cbv].
Qed.

(** X27: Deleted nodes stay entry points into the list.  After every finite
    sequence of calls of [InsertHead], [InsertTail], [Delete] and [Search]
    on a list whose nodes have ordered links, as those of the list the
    constructor makes, every node of the heap, in the list or deleted from
    it, still leads along [nextPtr] through strictly larger keys to the
    tail sentinel, and along [prevPtr] through strictly smaller keys to the
    head sentinel. *)
Theorem deleted_nodes_lead_to_sentinels (self : ThreadId) (h : list Node)
    (cs : list Call) :
  WF h -> ordered_links h ->
  exists rs h',
    (forall fuel, length h + length cs <= fuel ->
       returns h (calls self fuel cs) rs h') /\
    ordered_links h' /\
    forall (p : NodePtr) fuel, p < length h' -> length h' < fuel ->
      StronglySorted (before h') (walk fuel h' p) /\
      last (walk fuel h' p) = Some tail /\
      StronglySorted (flip (before h')) (walk_back fuel h' p) /\
      last (walk_back fuel h' p) = Some head.
Proof.
  intros Hwf Ho.
  destruct (run_calls_ordered self h cs Hwf Ho)
    as (rs & h' & Hwf' & Ho' & Hr).
  exists rs, h'. split_and!; try done. intros p fuel Hp Hfuel.
  destruct Hwf' as [[c (_ & _ & _ & _ & Hhd & Htl)] _].
  split_and!.
  - by apply walk_ordered.
  - apply walk_ends; try done.
    pose proof (walk_short h' fuel p Ho' Htl Hp). lia.
  - by apply walk_back_ordered.
  - apply walk_back_ends; try done.
    pose proof (walk_back_short h' fuel p Ho' Hhd Hp). lia.
Qed.

Lemma deleted_nodes_lead_to_sentinels_witness :
  WF (heap new_list) /\ ordered_links (heap new_list) /\
  exists rs h',
    returns (heap new_list)
      (calls 1 4 [CallInsertHead 5 "a"; CallDelete 5]) rs h' /\
    ordered_links h' /\
    forall (p : NodePtr) fuel, p < length h' -> length h' < fuel ->
      StronglySorted (before h') (walk fuel h' p) /\
      last (walk fuel h' p) = Some tail /\
      StronglySorted (flip (before h')) (walk_back fuel h' p) /\
      last (walk_back fuel h' p) = Some head.
Proof.
  split; [apply new_list_WF|]. split; [apply new_list_ordered|].
  destruct (deleted_nodes_lead_to_sentinels 1 (heap new_list)
              [CallInsertHead 5 "a"; CallDelete 5]
              new_list_WF new_list_ordered) as (rs & h' & Hr & Ho & Hw).
  exists rs, h'. split_and!; [|done|done]. apply Hr. simpl. lia.
Defined.

End ListLaws.
